(** * PyTensor Numba dispatch for element-wise kernels, axis reductions,
      dimension shuffles and argmax: a shallow embedding and its properties.

    Sources embedded here:
    - [pytensor/link/numba/dispatch/elemwise.py]  (module [Elemwise])
    - [pytensor/tensor/utils.py]                  (module [Utils])

    NumPy itself is not part of the repository; the handful of NumPy
    primitives the dispatch code calls ([normalize_axis_index],
    [np.ndindex], [np.transpose], [np.reshape], ...) are modelled in module
    [Np] after their documented behaviour.  Arrays are identified with
    their C-contiguous normal form: a shape and the row-major list of the
    elements. *)

From stdpp Require Import gmap strings list sorting pretty.
From Stdlib Require Import Ascii ZArith Lia.

#[local] Set Warnings "-clear-no-such-hyp".

(* ===================================================================== *)
(** * Python exceptions and fallible computations                         *)
(* ===================================================================== *)

Module Py.

(** The exception classes the embedded code can raise.  NumPy's
    [AxisError] derives from both [ValueError] and [IndexError]. *)
Inductive exn :=
| NotImplementedError
| ValueError (msg : string)
| AxisError
| OverflowError
| StopIteration
| IndexError
| NameError
| TypeError
| AttributeError.

Definition is_ValueError (e : exn) : bool :=
  match e with
  | ValueError _ | AxisError => true
  | _ => false
  end.

Inductive result (A : Type) :=
| Ok (a : A)
| Raise (e : exn).
Arguments Ok {A} a.
Arguments Raise {A} e.

Definition is_Ok {A} (r : result A) : bool :=
  match r with Ok _ => true | Raise _ => false end.

#[global] Instance result_ret : MRet result := @Ok.
#[global] Instance result_bind : MBind result := λ A B f m,
  match m with
  | Ok a => f a
  | Raise e => Raise e
  end.
#[global] Instance result_fmap : FMap result := λ A B f m,
  match m with
  | Ok a => Ok (f a)
  | Raise e => Raise e
  end.

(** [enumerate(l)] *)
Definition enumerate {A} (l : list A) : list (nat * A) :=
  zip (seq 0 (length l)) l.

(** [sorted(l, reverse=True)] on integers. *)
Definition desc (a b : nat) : Prop := b ≤ a.
#[global] Instance desc_dec : RelDecision desc := λ a b, decide (b ≤ a).
Definition sorted_reverse (l : list nat) : list nat := merge_sort desc l.

(** [sep.join(parts)] *)
Fixpoint join (sep : string) (parts : list string) : string :=
  match parts with
  | [] => ""
  | [p] => p
  | p :: rest => (p +:+ sep +:+ join sep rest)%string
  end.

(** [str(n)] for a non-negative integer. *)
Definition str_nat (n : nat) : string := pretty n.

(** The line feed. *)
Definition nl : string := String "010"%char "".

Definition is_whitespace (c : ascii) : bool :=
  bool_decide (c = " "%char) || bool_decide (c = "010"%char)
  || bool_decide (c = "009"%char) || bool_decide (c = "013"%char).

(** [not line.strip()] *)
Fixpoint is_blank (line : string) : bool :=
  match line with
  | EmptyString => true
  | String c rest => is_whitespace c && is_blank rest
  end.

(** [text.splitlines(True)] for texts whose only line break is the
    line feed; [cur] is the line read so far. *)
Fixpoint splitlines_keepends (cur text : string) : list string :=
  match text with
  | EmptyString => if decide (cur = "") then [] else [cur]
  | String c rest =>
      if bool_decide (c = "010"%char)
      then (cur +:+ String c "") :: splitlines_keepends "" rest
      else splitlines_keepends (cur +:+ String c "") rest
  end.

(** [textwrap.indent(text, prefix)]: the prefix goes in front of every
    line that is not blank. *)
Definition indent (text prefix : string) : string :=
  foldr (λ line acc, ((if is_blank line then line else prefix +:+ line) +:+ acc)%string)
        "" (splitlines_keepends "" text).

(** A left fold whose step can raise. *)
Fixpoint foldlM {A B} (f : A → B → result A) (a : A) (l : list B) : result A :=
  match l with
  | [] => Ok a
  | b :: rest =>
      match f a b with
      | Ok a' => foldlM f a' rest
      | Raise e => Raise e
      end
  end.

End Py.
Import Py.

(* ===================================================================== *)
(** * The NumPy primitives used by the dispatch code                      *)
(* ===================================================================== *)

Module Np.

(** ** Shapes and multi-indices *)

(** Number of elements of an array of shape [sh]. *)
Fixpoint shape_size (sh : list nat) : nat :=
  match sh with
  | [] => 1
  | n :: rest => n * shape_size rest
  end.

(** [np.ndindex(sh)]: every multi-index of the shape, last axis
    fastest. *)
Fixpoint ndindex (sh : list nat) : list (list nat) :=
  match sh with
  | [] => [[]]
  | n :: rest => i ← seq 0 n; (cons i) <$> ndindex rest
  end.

(** Row-major offset of a multi-index. *)
Fixpoint ravel (sh idx : list nat) : nat :=
  match sh, idx with
  | _ :: rest, i :: idx' => i * shape_size rest + ravel rest idx'
  | _, _ => 0
  end.

(** ** Arrays *)

Record ndarray (V : Type) := mk_ndarray {
  shape : list nat;
  data : list V
}.
Arguments mk_ndarray {V} shape data.
Arguments shape {V} _.
Arguments data {V} _.

Definition ndim {V} (a : ndarray V) : nat := length (shape a).

(** The invariant of every NumPy array: as many elements as the shape
    says. *)
Definition wf {V} (a : ndarray V) : Prop := length (data a) = shape_size (shape a).

Section Arrays.
Context {V : Type}.

(** [np.full(sh, v)] *)
Definition full (sh : list nat) (v : V) : ndarray V :=
  mk_ndarray sh (replicate (shape_size sh) v).

(** [a[idx]] for a full multi-index; bounds checking is disabled in
    the compiled kernels, the default stands for an unspecified read. *)
Definition getitem (d : V) (a : ndarray V) (idx : list nat) : V :=
  default d (data a !! ravel (shape a) idx).

(** [a[idx] = v] *)
Definition setitem (a : ndarray V) (idx : list nat) (v : V) : ndarray V :=
  mk_ndarray (shape a) (<[ravel (shape a) idx := v]> (data a)).

(** The array whose element at [idx] is [f idx]. *)
Definition tabulate (sh : list nat) (f : list nat → V) : ndarray V :=
  mk_ndarray sh (f <$> ndindex sh).

(** [a[m]] for an index [m] over all axes but the last: the 1-d row. *)
Definition getrow (a : ndarray V) (m : list nat) : list V :=
  let n := List.last (shape a) 0 in
  take n (drop (ravel (removelast (shape a)) m * n) (data a)).

(** [np.reshape(a, new_shape)] of a C-contiguous array. *)
Definition reshape (a : ndarray V) (new_shape : list nat) : result (ndarray V) :=
  if decide (shape_size new_shape = length (data a))
  then Ok (mk_ndarray new_shape (data a))
  else Raise (ValueError "cannot reshape array").

(** [np.expand_dims(a, axis)] for [0 <= axis <= a.ndim]. *)
Definition expand_dims (a : ndarray V) (axis : nat) : ndarray V :=
  mk_ndarray (take axis (shape a) ++ 1 :: drop axis (shape a)) (data a).

(** [np.ascontiguousarray(a)]: arrays are kept in C order. *)
Definition ascontiguousarray (a : ndarray V) : ndarray V := a.

(** [a.copy()] *)
Definition copy (a : ndarray V) : ndarray V := a.

End Arrays.

(** ** Axis normalisation *)

(** [normalize_axis_index(axis, ndim)] *)
Definition normalize_axis_index (axis ndim : Z) : result nat :=
  if decide (- ndim ≤ axis < ndim)%Z
  then Ok (Z.to_nat (if decide (axis < 0)%Z then axis + ndim else axis))
  else Raise AxisError.

(** [normalize_axis_tuple(axes, ndim)]: every entry is normalised, then
    a repeated axis is rejected. *)
Definition normalize_axis_tuple (axes : list Z) (ndim : Z) : result (list nat) :=
  axis ← mapM (λ ax, normalize_axis_index ax ndim) axes;
  if decide (NoDup axis) then Ok axis else Raise (ValueError "repeated axis").

(** ** Transposition *)

(** Index into the source array of the element that lands at [idx]
    after [np.transpose(x, axes)]: entry [axes[k]] of the source index
    is [idx[k]]. *)
Definition source_index (axes idx : list nat) : list nat :=
  foldr (λ p src, <[p.1 := p.2]> src) (replicate (length axes) 0) (zip axes idx).

Definition is_permutation (axes : list nat) (n : nat) : bool :=
  bool_decide (length axes = n) && forallb (λ a, bool_decide (a < n)) axes
  && bool_decide (NoDup axes).

(** [np.transpose(x, axes)], materialised in C order. *)
Definition transpose {V} (d : V) (x : ndarray V) (axes : list nat) : result (ndarray V) :=
  if is_permutation axes (ndim x)
  then Ok (tabulate ((λ ax, shape x !!! ax) <$> axes)
                    (λ idx, getitem d x (source_index axes idx)))
  else Raise (ValueError "axes don't match array").

(** ** Broadcasting *)

(** Broadcasting of two shapes, both given last axis first. *)
Fixpoint broadcast_rev (a b : list nat) : result (list nat) :=
  match a, b with
  | [], _ => Ok b
  | _, [] => Ok a
  | x :: a', y :: b' =>
      rest ← broadcast_rev a' b';
      if decide (x = y) then Ok (x :: rest)
      else if decide (x = 1) then Ok (y :: rest)
      else if decide (y = 1) then Ok (x :: rest)
      else Raise (ValueError "shape mismatch")
  end.

(** [np.broadcast_shapes] *)
Definition broadcast_shapes (shapes : list (list nat)) : result (list nat) :=
  reverse <$> foldlM (λ acc sh, broadcast_rev acc (reverse sh)) [] shapes.

(** [np.broadcast_to(x, sh)], materialised, for a shape [sh] that [x]
    broadcasts to: axes of length 1 are stretched, missing leading axes
    are added. *)
Definition broadcast_to {V} (d : V) (x : ndarray V) (sh : list nat) : ndarray V :=
  tabulate sh (λ idx,
    getitem d x (zip_with (λ n i, if decide (n = 1) then 0 else i)
                          (shape x) (drop (length sh - ndim x) idx))).

(** [np.broadcast_arrays] *)
Definition broadcast_arrays {V} (d : V) (arrays : list (ndarray V))
  : result (list (ndarray V)) :=
  sh ← broadcast_shapes (shape <$> arrays);
  Ok ((λ x, broadcast_to d x sh) <$> arrays).

(** [np.nonzero(bc)[0]] for a tuple of booleans. *)
Definition nonzero (bc : list bool) : list nat :=
  (imap (λ k (b : bool), if b then [k] else []) bc) ≫= id.

(** ** Data types *)

Inductive dtype :=
| int8 | int16 | int32 | int64
| uint8 | uint16 | uint32 | uint64
| bool_
| float32 | float64.

#[global] Instance dtype_eq_dec : EqDecision dtype.
Proof. solve_decision. Defined.

(** [np.dtype(...).kind] *)
Definition kind (dt : dtype) : string :=
  match dt with
  | int8 | int16 | int32 | int64 => "i"
  | uint8 | uint16 | uint32 | uint64 => "u"
  | bool_ => "b"
  | float32 | float64 => "f"
  end.

Definition bits (dt : dtype) : Z :=
  match dt with
  | int8 | uint8 | bool_ => 8
  | int16 | uint16 => 16
  | int32 | uint32 | float32 => 32
  | int64 | uint64 | float64 => 64
  end.

(** [np.iinfo(dt)]: the pair (min, max); only integer types have one. *)
Definition iinfo (dt : dtype) : result (Z * Z) :=
  match dt with
  | int8 | int16 | int32 | int64 =>
      Ok (- 2 ^ (bits dt - 1), 2 ^ (bits dt - 1) - 1)%Z
  | uint8 | uint16 | uint32 | uint64 => Ok (0, 2 ^ bits dt - 1)%Z
  | _ => Raise (ValueError "Invalid integer data type")
  end.

(** A Python number as the scalar operators carry it for their
    identity: an integer (or integer-valued float) or a non-finite
    float. *)
Inductive number :=
| Num (z : Z)
| Inf
| NegInf
| NaN.

Definition isfinite (x : number) : bool :=
  match x with Num _ => true | _ => false end.

Definition isposinf (x : number) : bool :=
  match x with Inf => true | _ => false end.

(** ** Casts of integer-valued data *)

Definition wrap_signed (w z : Z) : Z :=
  ((z + 2 ^ (w - 1)) mod 2 ^ w - 2 ^ (w - 1))%Z.

Definition wrap_unsigned (w z : Z) : Z := (z mod 2 ^ w)%Z.

(** Nearest integer representable with a [p]-bit significand, ties to
    even: the value of an integer after conversion to a binary float. *)
Definition round_significand (p z : Z) : Z :=
  let a := Z.abs z in
  let len := (Z.log2 a + 1)%Z in
  if (len <=? p)%Z then z
  else
    let s := (len - p)%Z in
    let q := (a / 2 ^ s)%Z in
    let r := (a mod 2 ^ s)%Z in
    let half := (2 ^ (s - 1))%Z in
    let q' := if (r <? half)%Z then q
              else if (half <? r)%Z then (q + 1)%Z
              else if Z.even q then q else (q + 1)%Z in
    (Z.sgn z * (q' * 2 ^ s))%Z.

(** [np.asarray(z, dtype=dt)] / [.astype(dt)] on an integer value. *)
Definition cast_Z (dt : dtype) (z : Z) : Z :=
  match dt with
  | int8 | int16 | int32 | int64 => wrap_signed (bits dt) z
  | uint8 | uint16 | uint32 | uint64 => wrap_unsigned (bits dt) z
  | bool_ => if (z =? 0)%Z then 0%Z else 1%Z
  | float32 => round_significand 24 z
  | float64 => round_significand 53 z
  end.

(** ** Scalar domains *)

(** What the generated kernels need of the element type of an array:
    Python's arithmetic, bitwise and comparison operators, the
    conversion of a loop counter, and the stores into a typed buffer. *)
Class ScalarOps (V : Type) := {
  s_zero : V;
  s_add : V → V → V;
  s_sub : V → V → V;
  s_mul : V → V → V;
  s_truediv : V → V → V;
  s_floordiv : V → V → V;
  s_and : V → V → V;
  s_or : V → V → V;
  s_xor : V → V → V;
  s_eqb : V → V → bool;
  s_ltb : V → V → bool;
  s_of_nat : nat → V;
  (** [str(v)] *)
  s_str : V → string;
  (** the value stored when [v] is written into a buffer of type [dt] *)
  s_cast : dtype → V → V;
  (** [np.array(x, dtype=dt)] for a Python number *)
  s_np_array : number → dtype → result V
}.

(** Integer-valued data.  Division of integers by [/] yields a float;
    written back to an integer buffer it is truncated, which is what
    [s_truediv] gives here.  The instance has no infinities: NumPy
    refuses to convert a non-finite float to an integer type, and
    non-finite elements of floating-point arrays are outside this
    instance. *)
#[global] Instance Z_scalar : ScalarOps Z := {|
  s_zero := 0%Z;
  s_add := Z.add;
  s_sub := Z.sub;
  s_mul := Z.mul;
  s_truediv := Z.quot;
  s_floordiv := Z.div;
  s_and := Z.land;
  s_or := Z.lor;
  s_xor := Z.lxor;
  s_eqb := Z.eqb;
  s_ltb := Z.ltb;
  s_of_nat := Z.of_nat;
  s_str := pretty;
  s_cast := cast_Z;
  s_np_array := λ x dt,
    match x with
    | Num z => Ok (cast_Z dt z)
    | _ => Raise OverflowError
    end
|}.

(** Whole-array [a.sum()]. *)
Definition sum {V} `{ScalarOps V} (a : ndarray V) : V :=
  foldl s_add s_zero (data a).

(** [a.sum(axes, keepdims=True)] *)
Definition sum_keepdims {V} `{ScalarOps V} (a : ndarray V) (axes : list nat)
  : result (ndarray V) :=
  if forallb (λ ax, bool_decide (ax < ndim a)) axes then
    let keep k i := if bool_decide (k ∈ axes) then 0 else i in
    let out_shape := imap (λ k n, if bool_decide (k ∈ axes) then 1 else n) (shape a) in
    Ok (foldl (λ res idx,
                 let ridx := imap keep idx in
                 setitem res ridx (s_add (getitem s_zero res ridx) (getitem s_zero a idx)))
              (full out_shape s_zero) (ndindex (shape a)))
  else Raise AxisError.

(** [np.argmax] of a 1-d array: the first position of the maximum;
    an empty sequence has none. *)
Definition argmax {V} `{ScalarOps V} (row : list V) : result nat :=
  match row with
  | [] => Raise (ValueError "attempt to get argmax of an empty sequence")
  | v0 :: rest =>
      Ok (fst (foldl (λ '(best, bv, k) v,
                        if s_ltb bv v then (k, v, S k) else (best, bv, S k))
                     (0, v0, 1) rest)).1
  end.

End Np.



(* ===================================================================== *)
(** * pytensor/link/numba/dispatch/elemwise.py                            *)
(* ===================================================================== *)

Module Elemwise.
Import Np.

(** ** Scalar operators and their in-place statements *)

(** The binary scalar operator classes that have an in-place statement
    registered, and [Unregistered] for every other operator class. *)
Inductive scalar_op :=
| Add | Sub | Mean | Mul | MulWithoutZeros
| AND | OR | XOR
| TrueDiv | IntDiv
| ScalarMaximum | ScalarMinimum
| Unregistered (name : string).

#[global] Instance scalar_op_eq_dec : EqDecision scalar_op.
Proof. solve_decision. Defined.

Definition registered (op : scalar_op) : bool :=
  match op with Unregistered _ => false | _ => true end.

(** [f"{res}[{idx}]"] *)
Definition subscript (res idx : string) : string := res +:+ "[" +:+ idx +:+ "]".

(** [scalar_in_place_fn(op, idx, res, arr)]: the single-dispatch
    function, one registered implementation per operator class. *)
Definition scalar_in_place_fn (op : scalar_op) (idx res arr : string) : result string :=
  match op with
  | Add => Ok (res +:+ "[" +:+ idx +:+ "] += " +:+ arr)
  | Sub => Ok (res +:+ "[" +:+ idx +:+ "] -= " +:+ arr)
  | Mean =>
      Ok (res +:+ "[" +:+ idx +:+ "] += (" +:+ arr +:+ " - " +:+ res +:+ "[" +:+ idx
          +:+ "]) / (i + 1)")
  | Mul => Ok (res +:+ "[" +:+ idx +:+ "] *= " +:+ arr)
  | MulWithoutZeros =>
      Ok (res +:+ "[" +:+ idx +:+ "] = " +:+ arr +:+ " if " +:+ res +:+ "[" +:+ idx
          +:+ "] == 0 else (" +:+ res +:+ "[" +:+ idx +:+ "] if " +:+ arr
          +:+ " == 0 else " +:+ res +:+ "[" +:+ idx +:+ "] * " +:+ arr +:+ ")")
  | AND => Ok (res +:+ "[" +:+ idx +:+ "] &= " +:+ arr)
  | OR => Ok (res +:+ "[" +:+ idx +:+ "] |= " +:+ arr)
  | XOR => Ok (res +:+ "[" +:+ idx +:+ "] ^= " +:+ arr)
  | TrueDiv => Ok (res +:+ "[" +:+ idx +:+ "] /= " +:+ arr)
  | IntDiv => Ok (res +:+ "[" +:+ idx +:+ "] //= " +:+ arr)
  | ScalarMaximum =>
      Ok (nl +:+ "if " +:+ res +:+ "[" +:+ idx +:+ "] < " +:+ arr +:+ ":" +:+ nl
          +:+ "    " +:+ res +:+ "[" +:+ idx +:+ "] = " +:+ arr +:+ nl)
  | ScalarMinimum =>
      Ok (nl +:+ "if " +:+ res +:+ "[" +:+ idx +:+ "] > " +:+ arr +:+ ":" +:+ nl
          +:+ "    " +:+ res +:+ "[" +:+ idx +:+ "] = " +:+ arr +:+ nl)
  | Unregistered _ => Raise NotImplementedError
  end.

(** ** The emitted statements as syntax, and what they compute *)

Inductive binop := BAdd | BSub | BMul | BTrueDiv | BFloorDiv | BAnd | BOr | BXor.

Definition binop_symbol (o : binop) : string :=
  match o with
  | BAdd => "+" | BSub => "-" | BMul => "*" | BTrueDiv => "/"
  | BFloorDiv => "//" | BAnd => "&" | BOr => "|" | BXor => "^"
  end.

(** Expressions over the slot [res[idx]], the operand [arr], the loop
    counter [i] and integer literals. *)
Inductive expr :=
| ERes
| EArr
| ECounter
| EInt (n : nat)
| EBin (o : binop) (a b : expr)
| EParen (e : expr)
| EIfElse (a : expr) (c : cond) (b : expr)
with cond :=
| CEq (a b : expr)
| CLt (a b : expr)
| CGt (a b : expr).

Inductive stmt :=
| SAug (o : binop) (e : expr)
| SAssign (e : expr)
| SIf (c : cond) (body : stmt).

Section Render.
Variables idx res arr : string.

Fixpoint render_expr (e : expr) : string :=
  match e with
  | ERes => subscript res idx
  | EArr => arr
  | ECounter => "i"
  | EInt n => str_nat n
  | EBin o a b => render_expr a +:+ " " +:+ binop_symbol o +:+ " " +:+ render_expr b
  | EParen e => "(" +:+ render_expr e +:+ ")"
  | EIfElse a c b =>
      render_expr a +:+ " if " +:+ render_cond c +:+ " else " +:+ render_expr b
  end
with render_cond (c : cond) : string :=
  match c with
  | CEq a b => render_expr a +:+ " == " +:+ render_expr b
  | CLt a b => render_expr a +:+ " < " +:+ render_expr b
  | CGt a b => render_expr a +:+ " > " +:+ render_expr b
  end.

Fixpoint render_stmt (s : stmt) : string :=
  match s with
  | SAug o e => subscript res idx +:+ " " +:+ binop_symbol o +:+ "= " +:+ render_expr e
  | SAssign e => subscript res idx +:+ " = " +:+ render_expr e
  | SIf c body =>
      nl +:+ "if " +:+ render_cond c +:+ ":" +:+ nl +:+ "    " +:+ render_stmt body +:+ nl
  end.
End Render.

(** The statement each registered operator class emits. *)
Definition in_place_stmt (op : scalar_op) : result stmt :=
  match op with
  | Add => Ok (SAug BAdd EArr)
  | Sub => Ok (SAug BSub EArr)
  | Mean =>
      Ok (SAug BAdd (EBin BTrueDiv (EParen (EBin BSub EArr ERes))
                                   (EParen (EBin BAdd ECounter (EInt 1)))))
  | Mul => Ok (SAug BMul EArr)
  | MulWithoutZeros =>
      Ok (SAssign (EIfElse EArr (CEq ERes (EInt 0))
                     (EParen (EIfElse ERes (CEq EArr (EInt 0)) (EBin BMul ERes EArr)))))
  | AND => Ok (SAug BAnd EArr)
  | OR => Ok (SAug BOr EArr)
  | XOR => Ok (SAug BXor EArr)
  | TrueDiv => Ok (SAug BTrueDiv EArr)
  | IntDiv => Ok (SAug BFloorDiv EArr)
  | ScalarMaximum => Ok (SIf (CLt ERes EArr) (SAssign EArr))
  | ScalarMinimum => Ok (SIf (CGt ERes EArr) (SAssign EArr))
  | Unregistered _ => Raise NotImplementedError
  end.

Section Semantics.
Context {V : Type} `{ScalarOps V}.

Definition eval_binop (o : binop) : V → V → V :=
  match o with
  | BAdd => s_add | BSub => s_sub | BMul => s_mul | BTrueDiv => s_truediv
  | BFloorDiv => s_floordiv | BAnd => s_and | BOr => s_or | BXor => s_xor
  end.

(** Value of an expression when the loop counter is [i], the slot
    holds [r] and the operand is [a]. *)
Fixpoint eval_expr (i : nat) (r a : V) (e : expr) : V :=
  match e with
  | ERes => r
  | EArr => a
  | ECounter => s_of_nat i
  | EInt n => s_of_nat n
  | EBin o e1 e2 => eval_binop o (eval_expr i r a e1) (eval_expr i r a e2)
  | EParen e => eval_expr i r a e
  | EIfElse e1 c e2 =>
      if eval_cond i r a c then eval_expr i r a e1 else eval_expr i r a e2
  end
with eval_cond (i : nat) (r a : V) (c : cond) : bool :=
  match c with
  | CEq e1 e2 => s_eqb (eval_expr i r a e1) (eval_expr i r a e2)
  | CLt e1 e2 => s_ltb (eval_expr i r a e1) (eval_expr i r a e2)
  | CGt e1 e2 => s_ltb (eval_expr i r a e2) (eval_expr i r a e1)
  end.

(** The value a statement stores into the slot, if it stores one. *)
Fixpoint exec_stmt (i : nat) (r a : V) (s : stmt) : option V :=
  match s with
  | SAug o e => Some (eval_binop o r (eval_expr i r a e))
  | SAssign e => Some (eval_expr i r a e)
  | SIf c body => if eval_cond i r a c then exec_stmt i r a body else None
  end.
End Semantics.

(** ** Single-axis reducers: [create_axis_reducer] *)

(** What a kernel returns: an array or a plain scalar. *)
Inductive value (V : Type) :=
| VArr (a : ndarray V)
| VScalar (v : V).
Arguments VArr {V} a.
Arguments VScalar {V} v.

(** The index expressions of the generated loops: [idx_arr[count]],
    the counter [i], or a literal. *)
Inductive index_expr :=
| IdxArr (count : nat)
| IdxCounter
| IdxLit (n : nat).

Definition render_index (e : index_expr) : string :=
  match e with
  | IdxArr count => "idx_arr[" +:+ str_nat count +:+ "]"
  | IdxCounter => "i"
  | IdxLit n => str_nat n
  end.

Definition eval_index (idx_arr : list nat) (i : nat) (e : index_expr) : nat :=
  match e with
  | IdxArr count => idx_arr !!! count
  | IdxCounter => i
  | IdxLit n => n
  end.

(** The expression after [return] in the generated reducer. *)
Inductive return_expr :=
| RetRes
| RetExpandDims (axis : nat)
| RetItem
| RetAsarrayRes
| RetAsarrayItem.

Definition render_return (r : return_expr) : string :=
  match r with
  | RetRes => "res"
  | RetExpandDims axis => "np.expand_dims(res, " +:+ str_nat axis +:+ ")"
  | RetItem => "res.item()"
  | RetAsarrayRes => "np.asarray(res)"
  | RetAsarrayItem => "np.asarray(res.item())"
  end.

(** Modelled from the spec: [create_tuple_creator] of
    [pytensor.link.numba.dispatch.basic] is not among the sources; as
    it is used here, [create_tuple_creator(f, n)] is the function that
    builds the tuple [(f(0, x), ..., f(n - 1, x))], "a result shape
    excluding the reduced axis". *)
Definition create_tuple_creator (f : nat → list nat → nat) (n : nat)
  : list nat → list nat :=
  λ x, (λ i, f i x) <$> seq 0 n.

(** The loop of [create_axis_reducer] that collects the index
    expressions of [res] and of [x]. *)
Definition index_lists (axis ndim : nat) : list index_expr * list index_expr :=
  let '(res_indices, arr_indices, _) :=
    foldl (λ '(res_indices, arr_indices, count) i,
             if decide (i = axis)
             then (res_indices, arr_indices ++ [IdxCounter], count)
             else (res_indices ++ [IdxArr count], arr_indices ++ [IdxArr count],
                   count + 1))
          ([], [], 0) (seq 0 ndim) in
  (res_indices, arr_indices).

(** The two source templates of [create_axis_reducer]. *)
Definition careduce_axis_src_nd (identity : string) (axis : nat)
    (inplace_update_statement return_expr : string) : string :=
  join nl [
    "";
    "def careduce_axis(x):";
    "";
    "    x_shape = np.shape(x)";
    "    res_shape = res_shape_tuple_ctor(x_shape)";
    "    res = np.full(res_shape, numba_basic.to_scalar(" +:+ identity
      +:+ "), dtype=out_dtype)";
    "";
    "    axis_shape = x.shape[" +:+ str_nat axis +:+ "]";
    "";
    "    for idx_arr in np.ndindex(res_shape):";
    "        for i in range(axis_shape):";
    inplace_update_statement;
    "";
    "    return " +:+ return_expr;
    "        "
  ].

Definition careduce_axis_src_1d (identity : string) (axis : nat)
    (inplace_update_statement return_expr : string) : string :=
  join nl [
    "";
    "def careduce_axis(x):";
    "";
    "    res = np.full(1, numba_basic.to_scalar(" +:+ identity +:+ "), dtype=out_dtype)";
    "";
    "    axis_shape = x.shape[" +:+ str_nat axis +:+ "]";
    "";
    "    for i in range(axis_shape):";
    inplace_update_statement;
    "";
    "    return " +:+ return_expr;
    "        "
  ].

Section Reducers.
Context {V : Type} `{ScalarOps V}.

(** The Python function [create_axis_reducer] returns: its source
    text, the values the text closes over, and the holes of the
    template in structured form.  The update statement is kept both
    as emitted text (inside [ar_src]) and as syntax ([ar_update]). *)
Record axis_reducer := {
  ar_src : string;
  ar_ndim : nat;
  ar_axis : nat;
  ar_identity : V;
  ar_out_dtype : dtype;
  ar_res_shape_tuple_ctor : list nat → list nat;
  ar_res_indices : list index_expr;
  ar_arr_indices : list index_expr;
  ar_update : stmt;
  ar_return : return_expr
}.

Definition create_axis_reducer (scalar_op : scalar_op) (identity : V) (axis : Z)
    (ndim : nat) (dtype : dtype) (keepdims return_scalar : bool)
  : result axis_reducer :=
  axis ← normalize_axis_index axis (Z.of_nat ndim);
  let identity_text :=
    let s := s_str identity in
    if decide (s = "inf") then "np.inf"
    else if decide (s = "-inf") then "-np.inf"
    else s in
  if decide (1 < ndim) then
    let res_shape_tuple_ctor :=
      create_tuple_creator
        (λ i shape, if decide (i < axis) then shape !!! i else shape !!! (i + 1))
        (ndim - 1) in
    let '(res_indices, arr_indices) := index_lists axis ndim in
    let res_text := join ", " (render_index <$> res_indices) in
    let arr_text := join ", " (render_index <$> arr_indices) in
    inplace_update_statement ←
      scalar_in_place_fn scalar_op res_text "res" ("x[" +:+ arr_text +:+ "]");
    update ← in_place_stmt scalar_op;
    let inplace_update_statement := indent inplace_update_statement "            " in
    let return_expr := if keepdims then RetExpandDims axis else RetRes in
    Ok {| ar_src := careduce_axis_src_nd identity_text axis inplace_update_statement
                      (render_return return_expr);
          ar_ndim := ndim; ar_axis := axis; ar_identity := identity;
          ar_out_dtype := dtype;
          ar_res_shape_tuple_ctor := res_shape_tuple_ctor;
          ar_res_indices := res_indices; ar_arr_indices := arr_indices;
          ar_update := update; ar_return := return_expr |}
  else
    inplace_update_statement ← scalar_in_place_fn scalar_op "0" "res" "x[i]";
    update ← in_place_stmt scalar_op;
    let inplace_update_statement := indent inplace_update_statement "        " in
    let return_expr :=
      match keepdims, return_scalar with
      | true, true => RetRes
      | false, true => RetItem
      | true, false => RetAsarrayRes
      | false, false => RetAsarrayItem
      end in
    Ok {| ar_src := careduce_axis_src_1d identity_text axis inplace_update_statement
                      (render_return return_expr);
          ar_ndim := ndim; ar_axis := axis; ar_identity := identity;
          ar_out_dtype := dtype;
          ar_res_shape_tuple_ctor := λ _, [1];
          ar_res_indices := [IdxLit 0]; ar_arr_indices := [IdxCounter];
          ar_update := update; ar_return := return_expr |}.

(** One execution of the update statement of reducer [r], with the
    outer index [idx_arr] and the counter [i]. *)
Definition update_step (r : axis_reducer) (x : ndarray V) (idx_arr : list nat)
    (res : ndarray V) (i : nat) : ndarray V :=
  let res_idx := eval_index idx_arr i <$> ar_res_indices r in
  let arr_idx := eval_index idx_arr i <$> ar_arr_indices r in
  match exec_stmt i (getitem s_zero res res_idx) (getitem s_zero x arr_idx)
                  (ar_update r) with
  | Some v => setitem res res_idx (s_cast (ar_out_dtype r) v)
  | None => res
  end.

Definition eval_return (e : return_expr) (res : ndarray V) : value V :=
  match e with
  | RetRes | RetAsarrayRes => VArr res
  | RetExpandDims axis => VArr (expand_dims res axis)
  | RetItem => VScalar (getitem s_zero res [0])
  | RetAsarrayItem => VArr (mk_ndarray [] [getitem s_zero res [0]])
  end.

(** Calling the generated [careduce_axis(x)].  The function is
    specialised to arrays of rank [ar_ndim]. *)
Definition careduce_axis (r : axis_reducer) (x : ndarray V) : result (value V) :=
  if decide (ndim x = ar_ndim r) then
    let axis_shape := shape x !!! ar_axis r in
    if decide (1 < ar_ndim r) then
      let x_shape := shape x in
      let res_shape := ar_res_shape_tuple_ctor r x_shape in
      let res := full res_shape (s_cast (ar_out_dtype r) (ar_identity r)) in
      let res :=
        foldl (λ res idx_arr, foldl (update_step r x idx_arr) res (seq 0 axis_shape))
              res (ndindex res_shape) in
      Ok (eval_return (ar_return r) res)
    else
      let res := full [1] (s_cast (ar_out_dtype r) (ar_identity r)) in
      let res := foldl (update_step r x []) res (seq 0 axis_shape) in
      Ok (eval_return (ar_return r) res)
  else Raise TypeError.

(** ** Multi-axis reducers: [create_multiaxis_reducer] *)

(** One generated line [target = callee(arg)]. *)
Record call_line := {
  cl_target : string;
  cl_callee : string;
  cl_arg : string
}.

Definition render_call_line (l : call_line) : string :=
  cl_target l +:+ " = " +:+ cl_callee l +:+ "(" +:+ cl_arg l +:+ ")".

(** The generated [careduce_<op>(input)]: its parameter, its lines,
    the returned variable, whether [.item()] is applied, and the
    compiled single-axis reducers it finds among its globals.  The name of
    the function is the text of the operator, which the operator classes
    of another module give; nothing refers to it when the function runs,
    and it is not kept.  The record stands for the function that
    [compile_function_src] makes of the generated text when that text is a
    function of one parameter: the statements below about calling it are
    for a parameter name that [is_parameter_name] accepts. *)
Record careduce_fn := {
  cf_input_name : string;
  cf_lines : list call_line;
  cf_return_var : string;
  cf_item : bool;
  cf_globals : gmap string axis_reducer
}.

(** What [create_multiaxis_reducer] returns: a single-axis reducer
    when it delegates, a composed function otherwise. *)
Inductive reducer_fn :=
| SingleAxis (r : axis_reducer)
| MultiAxis (c : careduce_fn).

Definition careducer_axes_fn_name (i : nat) : string :=
  "careduce_axes_fn_" +:+ str_nat i.

Definition axis_res_name (i : nat) : string :=
  "axis_" +:+ str_nat i +:+ "_res".

(** The loop state: [global_env], [careduce_lines_src], [var_name],
    [ndim]. *)
Definition loop_state : Type :=
  gmap string axis_reducer * list call_line * string * nat.

Definition multiaxis_step (scalar_op : scalar_op) (identity : V) (dtype : dtype)
    (st : loop_state) (p : nat * nat) : result loop_state :=
  let '(global_env, careduce_lines_src, var_name, ndim) := st in
  let '(i, axis) := p in
  let careducer_axes_fn_name := careducer_axes_fn_name i in
  reducer_fn ← create_axis_reducer scalar_op identity (Z.of_nat axis) ndim dtype
                 false false;
  let global_env := <[careducer_axes_fn_name := reducer_fn]> global_env in
  let ndim := ndim - 1 in
  let last_var_name := var_name in
  let var_name := axis_res_name i in
  Ok (global_env,
      careduce_lines_src ++ [{| cl_target := var_name;
                                cl_callee := careducer_axes_fn_name;
                                cl_arg := last_var_name |}],
      var_name, ndim).

Definition create_multiaxis_reducer (scalar_op : scalar_op) (identity : V)
    (axes : list Z) (ndim : nat) (dtype : dtype) (input_name : string)
    (return_scalar : bool) : result reducer_fn :=
  if decide (length axes = 1) then
    SingleAxis <$>
      create_axis_reducer scalar_op identity (axes !!! 0) ndim dtype false false
  else
    axes ← normalize_axis_tuple axes (Z.of_nat ndim);
    let to_reduce := sorted_reverse axes in
    st ← foldlM (multiaxis_step scalar_op identity dtype)
                (∅, [], input_name, ndim) (enumerate to_reduce);
    let '(global_env, careduce_lines_src, var_name, _) := st in
    Ok (MultiAxis {| cf_input_name := input_name;
                     cf_lines := careduce_lines_src;
                     cf_return_var := var_name;
                     cf_item := return_scalar;
                     cf_globals := global_env |}).

(** Running one generated line.  Python resolves the callee among the
    local variables first, then among the globals. *)
Definition run_line (globals : gmap string axis_reducer)
    (locals : gmap string (value V)) (l : call_line)
  : result (gmap string (value V)) :=
  match locals !! cl_callee l with
  | Some _ => Raise TypeError
  | None =>
      match globals !! cl_callee l with
      | None => Raise NameError
      | Some r =>
          match locals !! cl_arg l with
          | None => Raise NameError
          | Some (VScalar _) => Raise TypeError
          | Some (VArr a) =>
              v ← careduce_axis r a;
              Ok (<[cl_target l := v]> locals)
          end
      end
  end.

(** [np.asarray(v)] *)
Definition asarray (v : value V) : ndarray V :=
  match v with
  | VArr a => a
  | VScalar s => mk_ndarray [] [s]
  end.

(** [a.item()] *)
Definition item (a : ndarray V) : result V :=
  match data a with
  | [v] => Ok v
  | _ => Raise (ValueError "can only convert an array of size 1 to a Python scalar")
  end.

(** Calling the generated function: the lines, then
    [return np.asarray(var)], with [.item()] if asked for.  The name [np]
    is resolved like every name, among the local variables first (the
    parameter and the assigned variables) and then among the globals, where
    it is the NumPy module; a local variable of that name holds an array,
    which has no attribute [asarray]. *)
Definition careduce (c : careduce_fn) (x : ndarray V) : result (value V) :=
  locals ← foldlM (run_line (cf_globals c)) {[cf_input_name c := VArr x]} (cf_lines c);
  match locals !! "np" with
  | Some _ => Raise AttributeError
  | None =>
      match locals !! cf_return_var c with
      | None => Raise NameError
      | Some v =>
          if cf_item c then VScalar <$> item (asarray v) else Ok (VArr (asarray v))
      end
  end.

(** Calling whatever [create_multiaxis_reducer] returned. *)
Definition call_reducer (f : reducer_fn) (x : ndarray V) : result (value V) :=
  match f with
  | SingleAxis r => careduce_axis r x
  | MultiAxis c => careduce c x
  end.

End Reducers.
Arguments axis_reducer V : clear implicits.
Arguments careduce_fn V : clear implicits.
Arguments reducer_fn V : clear implicits.

(** ** Graph nodes *)

(** Modelled from the spec: the graph classes ([Apply], tensor
    variables and their types) are not among the sources.  A node
    "carries input/output arity, per-tensor broadcast pattern, dtype,
    and static shape (each axis length known or unknown)"; [v_name] is
    the name [get_name_for_object] derives for a variable and
    [tag_numba__vectorize_target] the optional tag of the node. *)
Record TensorType := {
  t_dtype : dtype;
  t_broadcastable : list bool;
  t_shape : list (option nat)
}.

Record TensorVariable := {
  v_name : string;
  v_type : TensorType
}.

Definition v_ndim (v : TensorVariable) : nat := length (t_broadcastable (v_type v)).

Record Apply := {
  inputs : list TensorVariable;
  outputs : list TensorVariable;
  tag_numba__vectorize_target : option string
}.

(** [l[0]] *)
Definition first {A} (l : list A) : result A :=
  match l with
  | x :: _ => Ok x
  | [] => Raise IndexError
  end.

(** ** [create_vectorize_func] *)

Section Vectorize.
(** The collaborators: the signature derived from a node, the
    configured default target, and the scalar function to wrap. *)
Context {Signature ScalarFn : Type}.
Variable create_numba_signature : Apply → Signature.
Variable config_numba__vectorize_target : string.

(** The vectorized function: the arguments handed to
    [numba_vectorize] and the wrapped scalar function. *)
Record vectorized_fn := {
  vf_signature : list Signature;
  vf_identity : option number;
  vf_target : string;
  vf_py_scalar_func : ScalarFn
}.

Definition create_vectorize_func (scalar_op_fn : ScalarFn) (node : Apply)
    (use_signature : bool) (identity : option number) : result vectorized_fn :=
  if decide (1 < length (outputs node)) then Raise NotImplementedError
  else
    let signature :=
      if use_signature then [create_numba_signature node] else [] in
    let target :=
      match tag_numba__vectorize_target node with
      | Some t => if decide (t = "") then config_numba__vectorize_target else t
      | None => config_numba__vectorize_target
      end in
    Ok {| vf_signature := signature; vf_identity := identity;
          vf_target := target; vf_py_scalar_func := scalar_op_fn |}.
End Vectorize.

(** ** [numba_funcify_Elemwise] and its reference implementation *)

(** What a scalar kernel returns: one value, or a tuple of values. *)
Inductive py_outs (V : Type) :=
| One (v : V)
| Tuple (vs : list V).
Arguments One {V} v.
Arguments Tuple {V} vs.

(** What the element-wise kernel returns: one array, or a tuple. *)
Inductive kernel_result (V : Type) :=
| RArr (a : ndarray V)
| RTuple (l : list (ndarray V)).
Arguments RArr {V} a.
Arguments RTuple {V} l.

Section ElemwiseKernel.
Context {V : Type} `{ScalarOps V}.
(** The scalar operators of element-wise nodes and their translation
    into scalar kernels belong to other modules. *)
Context {ScalarOp : Type}.
Variable numba_funcify_scalar : ScalarOp → Apply → result (list V → py_outs V).

Record Elemwise := {
  e_scalar_op : ScalarOp;
  e_inplace_pattern : list (nat * nat)
}.

(** The closure [numba_funcify_Elemwise] returns: the scalar kernel
    and the constants computed from the node. *)
Record elemwise_kernel := {
  ek_scalar_op_fn : list V → py_outs V;
  ek_nin : nat;
  ek_nout : nat;
  ek_input_bc_patterns : list (list bool);
  ek_output_bc_patterns : list (list bool);
  ek_output_dtypes : list dtype;
  ek_inplace_pattern : list (nat * nat);
  ek_core_output_shapes : list (list nat)
}.

Definition numba_funcify_Elemwise (op : Elemwise) (node : Apply)
  : result elemwise_kernel :=
  scalar_op_fn ← numba_funcify_scalar (e_scalar_op op) node;
  let nin := length (inputs node) in
  let nout := length (outputs node) in
  let input_bc_patterns := (λ inp, t_broadcastable (v_type inp)) <$> inputs node in
  let output_bc_patterns := (λ out, t_broadcastable (v_type out)) <$> outputs node in
  let output_dtypes := (λ out, t_dtype (v_type out)) <$> outputs node in
  let inplace_pattern := e_inplace_pattern op in
  let core_output_shapes := replicate nout [] in
  Ok {| ek_scalar_op_fn := scalar_op_fn; ek_nin := nin; ek_nout := nout;
        ek_input_bc_patterns := input_bc_patterns;
        ek_output_bc_patterns := output_bc_patterns;
        ek_output_dtypes := output_dtypes;
        ek_inplace_pattern := inplace_pattern;
        ek_core_output_shapes := core_output_shapes |}.

(** The check of the reference implementation: the two nested loops
    that raise ["Broadcast not allowed."]. *)
Definition check_axis (shape : list nat) (p : nat * bool * nat) : result () :=
  let '(length, allow_bc, iter_length) := p in
  if bool_decide (length = 1) && bool_decide (shape ≠ [])
     && bool_decide (iter_length ≠ 1) && negb allow_bc
  then Raise (ValueError "Broadcast not allowed.")
  else Ok ().

Definition check_broadcast (inputs : list (ndarray V))
    (input_bc_patterns : list (list bool)) (shape : list nat) : result () :=
  foldlM (λ _ '(input, bc),
            foldlM (λ _ p, check_axis shape p) ()
                   (zip (zip (Np.shape input) bc) shape))
         () (zip inputs input_bc_patterns).

(** [for out, out_val in zip(outputs, outs): out[idx] = out_val] *)
Definition store_outs (idx : list nat) (outputs : list (dtype * ndarray V))
    (outs : list V) : list (dtype * ndarray V) :=
  imap (λ k '(dt, out),
          match outs !! k with
          | Some out_val => (dt, setitem out idx (s_cast dt out_val))
          | None => (dt, out)
          end) outputs.

(** The pure Python [elemwise].  Every input of a node has
    the rank of the node's patterns; arrays of another rank are not
    in the domain of this function. *)
Definition elemwise (k : elemwise_kernel) (inputs : list (ndarray V))
  : result (kernel_result V) :=
  inputs_bc ← broadcast_arrays s_zero inputs;
  input0 ← first inputs;
  let shape := Np.shape input0 in
  _ ← check_broadcast inputs (ek_input_bc_patterns k) shape;
  if forallb (λ x, bool_decide (ndim x = length shape)) inputs_bc then
    let outputs := (λ dtype, (dtype, full shape s_zero)) <$> ek_output_dtypes k in
    let outputs :=
      foldl (λ outputs idx,
               let vals := (λ input, getitem s_zero input idx) <$> inputs_bc in
               let outs :=
                 match ek_scalar_op_fn k vals with
                 | One v => [v]
                 | Tuple vs => vs
                 end in
               store_outs idx outputs outs)
            outputs (ndindex shape) in
    outputs_summed ←
      mapM (λ '(output, bc), sum_keepdims output (nonzero bc))
           (zip (snd <$> outputs) (ek_output_bc_patterns k));
    match outputs_summed with
    | [out] => Ok (RArr out)
    | _ => Ok (RTuple outputs_summed)
    end
  else Raise TypeError.

End ElemwiseKernel.

(** ** [numba_funcify_Sum] and [numba_funcify_CAReduce] *)

(** Modelled from the spec: the [CAReduce] operator classes are not
    among the sources.  A reduction carries its axis set (or none, for
    all axes), an optional accumulator dtype, its scalar operator and
    the operator's identity value, "numeric, possibly ±infinity". *)
Record CAReduce := {
  op_axis : option (list Z);
  op_acc_dtype : option dtype;
  op_scalar_op : scalar_op;
  op_scalar_op_identity : number
}.

(** The clamping of a non-finite identity in
    [numba_funcify_CAReduce]. *)
Definition clamp_identity (np_acc_dtype : dtype) (scalar_op_identity : number)
  : result number :=
  if bool_decide (kind np_acc_dtype = "i") && negb (isfinite scalar_op_identity)
  then
    if isposinf scalar_op_identity
    then (λ mm, Num mm.2) <$> iinfo np_acc_dtype
    else (λ mm, Num mm.1) <$> iinfo np_acc_dtype
  else Ok scalar_op_identity.

Section Reductions.
Context {V : Type} `{ScalarOps V}.

(** [jit_compile_reducer]: compilation leaves the function what it
    is. *)
Definition jit_compile_reducer {F : Type} (node : Apply) (fn : F)
    (reduce_to_scalar infer_signature : bool) : F := fn.

Definition acc_dtype_of (op : CAReduce) (node : Apply) : result dtype :=
  match op_acc_dtype op with
  | Some acc_dtype => Ok acc_dtype
  | None => (λ out, t_dtype (v_type out)) <$> first (outputs node)
  end.

Definition numba_funcify_CAReduce (op : CAReduce) (node : Apply)
  : result (reducer_fn V) :=
  input0 ← first (inputs node);
  let axes :=
    match op_axis op with
    | Some axes => axes
    | None => Z.of_nat <$> seq 0 (v_ndim input0)
    end in
  np_acc_dtype ← acc_dtype_of op node;
  scalar_op_identity ← clamp_identity np_acc_dtype (op_scalar_op_identity op);
  scalar_op_identity ← s_np_array scalar_op_identity np_acc_dtype;
  let input_name := v_name input0 in
  let ndim := v_ndim input0 in
  output0 ← first (outputs node);
  careduce_py_fn ←
    create_multiaxis_reducer (op_scalar_op op) scalar_op_identity axes ndim
      (t_dtype (v_type output0)) input_name false;
  Ok (jit_compile_reducer node careduce_py_fn false true).

Definition numba_funcify_Sum (op : CAReduce) (node : Apply)
  : result (ndarray V → result (value V)) :=
  input0 ← first (inputs node);
  let axes :=
    match op_axis op with
    | Some axes => axes
    | None => Z.of_nat <$> seq 0 (v_ndim input0)
    end in
  let ndim_input := v_ndim input0 in
  np_acc_dtype ← acc_dtype_of op node;
  output0 ← first (outputs node);
  let out_dtype := t_dtype (v_type output0) in
  if decide (ndim_input = length axes) then
    Ok (λ array,
          Ok (VArr (mk_ndarray [] [s_cast out_dtype (s_cast np_acc_dtype (sum array))])))
  else if decide (length axes = 0) then
    Ok (λ array, Ok (VArr (mk_ndarray (shape array) (s_cast out_dtype <$> data array))))
  else
    impl_sum ← numba_funcify_CAReduce op node;
    Ok (call_reducer impl_sum).

End Reductions.

(** ** [numba_funcify_DimShuffle] *)

(** Modelled from the spec: the [DimShuffle] operator class is not
    among the sources.  The kernel reads the kept input axes in output
    order ([shuffle]), the full permutation applied first
    ([transposition]: the kept axes followed by the dropped ones), the
    output positions of the inserted length-1 axes ([augment]) and the
    in-place flag. *)
Record DimShuffle := {
  ds_shuffle : list nat;
  ds_transposition : list nat;
  ds_augment : list nat;
  ds_inplace : bool
}.

(** Modelled from the spec: [numba_basic.tuple_setitem(t, i, v)] is
    not among the sources; it is the tuple [t] with item [i] replaced
    by [v]. *)
Definition tuple_setitem (t : list nat) (i v : nat) : list nat := <[i := v]> t.

Section DimShuffleKernel.
Context {V : Type} (d : V).
Variable op : DimShuffle.
Variable node : Apply.

Let shuffle := ds_shuffle op.
Let transposition := ds_transposition op.
Let augment := ds_augment op.
Let inplace := ds_inplace op.

Definition ndim_new_shape : nat := length shuffle + length augment.

Definition no_transpose : bool :=
  forallb (λ '(i, j), bool_decide (i = j)) (enumerate transposition).

Definition ds_transpose (x : ndarray V) : result (ndarray V) :=
  if no_transpose then Ok x else Np.transpose d x transposition.

Definition shape_template : list nat := replicate ndim_new_shape 1.

(** The dynamic [find_shape]: the loop state is [(shape, j)]. *)
Definition find_shape_dynamic (array_shape : list nat) : list nat :=
  fst (foldl (λ '(shape, j) i,
                if bool_decide (i ∉ augment)
                then let length := array_shape !!! j in
                     (tuple_setitem shape i length, j + 1)
                else (shape, j))
             (shape_template, 0) (seq 0 ndim_new_shape)).

Definition find_shape (array_shape : list nat) : result (list nat) :=
  if decide (0 < length shuffle) then
    out ← first (outputs node);
    let static := t_shape (v_type out) in
    if forallb (λ length : option nat, bool_decide (length ≠ None)) static
    then Ok (omap id static)
    else Ok (find_shape_dynamic array_shape)
  else Ok shape_template.

Definition dimshuffle_inner (x : ndarray V) : result (ndarray V) :=
  if decide (0 < ndim_new_shape) then
    x ← ds_transpose x;
    let shuffle_shape := take (length shuffle) (shape x) in
    new_shape ← find_shape shuffle_shape;
    res_reshape ← reshape (ascontiguousarray x) new_shape;
    if negb inplace then Ok (copy res_reshape) else Ok res_reshape
  else reshape (ascontiguousarray x) [].

(** The kernel [numba_funcify_DimShuffle(op, node)] returns. *)
Definition dimshuffle (x : ndarray V) : result (ndarray V) :=
  dimshuffle_inner x.

End DimShuffleKernel.

(** ** [create_axis_apply_fn] and [numba_funcify_Argmax] *)

Section AxisApply.
Context {V W : Type} (d : V) (w_zero : W).

Definition create_axis_apply_fn (fn : list V → result W) (axis ndim : Z)
  : result (ndarray V → result (ndarray W)) :=
  axis ← normalize_axis_index axis ndim;
  let reaxis_first :=
    filter (λ i, i ≠ axis) (seq 0 (Z.to_nat ndim)) ++ [axis] in
  Ok (λ x,
        x_reaxis ← Np.transpose d x reaxis_first;
        let res := full (removelast (shape x_reaxis)) w_zero in
        foldlM (λ res m, v ← fn (getrow x_reaxis m); Ok (setitem res m v))
               res (ndindex (shape res))).
End AxisApply.

(** Modelled from the spec: the [Argmax] operator class is not among
    the sources; it carries the tuple of reduced axes, as non-negative
    integers. *)
Record Argmax := {
  am_axis : list nat
}.

(** What the argmax kernel returns: the constant [0] for a rank-0
    input, an array of indices otherwise. *)
Inductive argmax_result :=
| AmConst (k : nat)
| AmArr (a : ndarray nat).

Section ArgmaxKernel.
Context {V : Type} `{ScalarOps V}.

Definition numba_funcify_Argmax (op : Argmax) (node : Apply)
  : result (ndarray V → result argmax_result) :=
  let axis := am_axis op in
  x_at ← first (inputs node);
  let x_ndim := v_ndim x_at in
  if decide (x_ndim = 0) then Ok (λ x, Ok (AmConst 0))
  else
    let axes := axis in
    let keep_axes := filter (λ i, i ∉ axes) (seq 0 x_ndim) in
    let reduced_x_ndim := (Z.of_nat x_ndim - Z.of_nat (length axes) + 1)%Z in
    argmax_axis ←
      create_axis_apply_fn s_zero 0 Np.argmax (reduced_x_ndim - 1) reduced_x_ndim;
    let reaxis_order := keep_axes ++ axes in
    Ok (λ x,
          transposed_x ← ascontiguousarray <$> Np.transpose s_zero x reaxis_order;
          let kept_shape := take (length keep_axes) (shape transposed_x) in
          let reduced_shape := drop (length keep_axes) (shape transposed_x) in
          let reduced_size := foldl (λ reduced_size s, reduced_size * s) 1 reduced_shape in
          let new_shape := kept_shape ++ [reduced_size] in
          reshaped_x ← reshape transposed_x new_shape;
          max_idx_res ← argmax_axis reshaped_x;
          Ok (AmArr max_idx_res)).

End ArgmaxKernel.

End Elemwise.

(* ===================================================================== *)
(** * Python's [str.split] and the part of [re] the utilities use        *)
(* ===================================================================== *)

Module Re.

(** Text is ASCII here: a character is a code point below 128, as in
    every signature [safe_signature] builds. *)

(** [\w] on ASCII text: letters, digits and the underscore. *)
Definition is_word (c : ascii) : bool :=
  let n := N_of_ascii c in
  (((48 <=? n) && (n <=? 57)) || ((65 <=? n) && (n <=? 90))
   || ((97 <=? n) && (n <=? 122)) || (n =? 95))%N.

(** [\s] on ASCII text: tab, line feed, vertical tab, form feed, carriage
    return, the four separators 28-31, and the space. *)
Definition is_space (c : ascii) : bool :=
  let n := N_of_ascii c in
  (((9 <=? n) && (n <=? 13)) || ((28 <=? n) && (n <=? 32)))%N.

(** The patterns in use: literals, the classes [\w] and [\s], the
    anchors, concatenation, non-capturing groups and the greedy
    quantifiers. *)
Inductive regex :=
| Empty
| Lit (c : ascii)
| Word
| Space
| Bol
| Eol
| Seq (a b : regex)
| Star (a : regex)
| Plus (a : regex)
| Opt (a : regex).

(** ** Compiling a pattern *)

(** Characters with a meaning of their own in a pattern. *)
Definition is_special (c : ascii) : bool :=
  bool_decide (c ∈ ["."; "^"; "$"; "*"; "+"; "?"; "{"; "}"; "["; "]"; "\"; "|";
                    "("; ")"]%char).

Definition is_quantifier (c : ascii) : bool :=
  bool_decide (c ∈ ["*"; "+"; "?"; "{"]%char).

(** The quantifier that follows an atom, if any; a quantifier followed
    by another one (a lazy or possessive quantifier) is not supported. *)
Definition quantified (atom : regex) (s : string) : option (regex * string) :=
  match s with
  | String q rest =>
      if is_quantifier q then
        match rest with
        | String q' _ => if is_quantifier q' then None else
            (if decide (q = "*"%char) then Some (Star atom, rest)
             else if decide (q = "+"%char) then Some (Plus atom, rest)
             else if decide (q = "?"%char) then Some (Opt atom, rest)
             else None)
        | EmptyString =>
            (if decide (q = "*"%char) then Some (Star atom, rest)
             else if decide (q = "+"%char) then Some (Plus atom, rest)
             else if decide (q = "?"%char) then Some (Opt atom, rest)
             else None)
        end
      else Some (atom, s)
  | EmptyString => Some (atom, s)
  end.

(** A sequence of quantified atoms, up to the end of the text or to an
    unmatched closing parenthesis. *)
Fixpoint parse_seq (fuel : nat) (s : string) : option (regex * string) :=
  match fuel with
  | 0 => None
  | S fuel =>
      let continue (atom : regex) (rest : string) :=
        '(item, rest) ← quantified atom rest;
        '(tail, rest) ← parse_seq fuel rest;
        Some (Seq item tail, rest) in
      match s with
      | EmptyString => Some (Empty, s)
      | String c rest =>
          if decide (c = ")"%char) then Some (Empty, s)
          else if decide (c = "\"%char) then
            match rest with
            | String e rest =>
                if decide (e = "w"%char) then continue Word rest
                else if decide (e = "s"%char) then continue Space rest
                else if is_word e then None
                else continue (Lit e) rest
            | EmptyString => None
            end
          else if decide (c = "("%char) then
            match rest with
            | String "?" (String ":" rest) =>
                '(group, rest) ← parse_seq fuel rest;
                match rest with
                | String ")" rest => continue group rest
                | _ => None
                end
            | _ => None
            end
          else if decide (c = "^"%char) then continue Bol rest
          else if decide (c = "$"%char) then continue Eol rest
          else if is_special c then None
          else continue (Lit c) rest
      end
  end.

(** [re.compile(pattern)]; [None] stands for a pattern outside the
    supported part or one [re] rejects. *)
Definition compile (pattern : string) : option regex :=
  match parse_seq (S (String.length pattern)) pattern with
  | Some (r, EmptyString) => Some r
  | _ => None
  end.

(** ** Matching *)

(** The greedy loop of a repetition: as many rounds of [body] as
    possible, each consuming at least one character, then the rest of the
    pattern; a round is undone when what follows it cannot match. *)
Fixpoint star (body : string → (string → option string) → option string)
    (k : string → option string) (n : nat) (s : string) : option string :=
  match n with
  | 0 => k s
  | S n =>
      match body s (λ s', if decide (String.length s' < String.length s)
                          then star body k n s' else None) with
      | Some out => Some out
      | None => k s
      end
  end.

Section Matcher.
(** The length of the whole subject: the text left at a position is
    that long at the start only. *)
Variable total : nat.

(** [m r s k]: match [r] at the head of the text [s] that is left, then
    go on with [k] on what [r] leaves; alternatives are tried in the order
    of a backtracking matcher, the first success is the answer. *)
Fixpoint m (r : regex) (s : string) (k : string → option string) {struct r}
  : option string :=
  match r with
  | Empty => k s
  | Lit c =>
      match s with
      | String c' s' => if decide (c' = c) then k s' else None
      | EmptyString => None
      end
  | Word =>
      match s with
      | String c' s' => if is_word c' then k s' else None
      | EmptyString => None
      end
  | Space =>
      match s with
      | String c' s' => if is_space c' then k s' else None
      | EmptyString => None
      end
  | Bol => if decide (String.length s = total) then k s else None
  | Eol => if decide (s = "" ∨ s = nl) then k s else None
  | Seq a b => m a s (λ s', m b s' k)
  | Star a => star (m a) k (String.length s) s
  | Plus a => m a s (λ s', star (m a) k (String.length s') s')
  | Opt a =>
      match m a s k with
      | Some out => Some out
      | None => k s
      end
  end.

(** One attempt at the text left: what the match leaves, if there is a
    match; with [must_advance] an empty match does not count. *)
Definition match_at (r : regex) (must_advance : bool) (s : string) : option string :=
  m r s (λ rest, if must_advance && bool_decide (String.length rest = String.length s)
                 then None else Some rest).
End Matcher.

(** The first [n] characters of a text. *)
Fixpoint take_string (n : nat) (s : string) : string :=
  match n, s with
  | S n, String c s => String c (take_string n s)
  | _, _ => EmptyString
  end.

(** The scan behind [findall] and [sub]: the subject is cut, from left
    to right, into matches ([inr]) and characters no match covers ([inl]).
    [skip] counts the characters of the last match still to pass.  After
    an empty match the same position is tried again for a match that is
    not empty. *)
Fixpoint scan (r : regex) (total : nat) (skip : nat) (s : string)
  : list (ascii + string) :=
  match s with
  | EmptyString =>
      match match_at total r false s with
      | Some _ => [inr EmptyString]
      | None => []
      end
  | String c s' =>
      match skip with
      | S skip => scan r total skip s'
      | 0 =>
          let found (rest : string) :=
            let n := String.length s - String.length rest in
            inr (take_string n s) :: scan r total (n - 1) s' in
          match match_at total r false s with
          | Some rest =>
              if decide (String.length rest = String.length s) then
                inr EmptyString ::
                  match match_at total r true s with
                  | Some rest => found rest
                  | None => inl c :: scan r total 0 s'
                  end
              else found rest
          | None => inl c :: scan r total 0 s'
          end
      end
  end.

(** [re.match(pattern, s)], as a truth value. *)
Definition match_ (pattern s : string) : result bool :=
  match compile pattern with
  | Some r => Ok (bool_decide (is_Some (match_at (String.length s) r false s)))
  | None => Raise (ValueError "re.error")
  end.

(** [re.findall(pattern, s)] for a pattern without capturing groups. *)
Definition findall (pattern s : string) : result (list string) :=
  match compile pattern with
  | Some r =>
      Ok (omap (λ t, match t with inr x => Some x | inl _ => None end)
               (scan r (String.length s) 0 s))
  | None => Raise (ValueError "re.error")
  end.

(** [re.sub(pattern, repl, s)] for a replacement without group
    references. *)
Definition sub (pattern repl s : string) : result string :=
  match compile pattern with
  | Some r =>
      Ok (foldr (λ t acc, match t with
                          | inr _ => repl +:+ acc
                          | inl c => String c acc
                          end)
                "" (scan r (String.length s) 0 s))
  | None => Raise (ValueError "re.error")
  end.

End Re.

Module PyStr.

Fixpoint is_prefix (p s : string) : bool :=
  match p, s with
  | EmptyString, _ => true
  | String a p, String b s => bool_decide (a = b) && is_prefix p s
  | _, _ => false
  end.

(** [s.split(sep)] for a separator that is not empty: [cur] is the piece
    read so far, [skip] counts the characters of a separator still to
    pass. *)
Fixpoint split_go (sep : string) (skip : nat) (cur s : string) : list string :=
  match s with
  | EmptyString => [cur]
  | String c s' =>
      match skip with
      | S skip => split_go sep skip cur s'
      | 0 =>
          if is_prefix sep s
          then cur :: split_go sep (String.length sep - 1) "" s'
          else split_go sep 0 (cur +:+ String c "") s'
      end
  end.

Definition split (s sep : string) : list string := split_go sep 0 "" s.

End PyStr.

(* ===================================================================== *)
(** * pytensor/tensor/utils.py                                            *)
(* ===================================================================== *)

Module Utils.
Import PyStr.

(** A static dimension length: known, or [None]. *)
Definition dim_length : Type := option nat.

(** [next(iter(s))] *)
Definition next_iter (s : gset dim_length) : result dim_length :=
  match elements s with
  | x :: _ => Ok x
  | [] => Raise StopIteration
  end.

Definition broadcast_static_dim_lengths (dim_lengths : list dim_length)
  : result dim_length :=
  let dim_lengths_set : gset dim_length := list_to_set dim_lengths in
  if decide (size dim_lengths_set = 1) then next_iter dim_lengths_set
  else if decide (dim_lengths_set = {[None; Some 1]}) then Ok None
  else
    let dim_lengths_set := dim_lengths_set ∖ {[Some 1]} in
    let dim_lengths_set := dim_lengths_set ∖ {[None]} in
    if decide (1 < size dim_lengths_set) then Raise (ValueError "")
    else next_iter dim_lengths_set.

(** ** Signatures of generalized universal functions *)

(** The patterns, put together as the module does.  They all compile;
    [re.error] is not among the embedded exceptions and stands as a
    [ValueError] in [Re]. *)
Definition _DIMENSION_NAME : string := "\w+".
Definition _CORE_DIMENSION_LIST : string :=
  "(?:" +:+ _DIMENSION_NAME +:+ "(?:," +:+ _DIMENSION_NAME +:+ ")*)?".
Definition _ARGUMENT : string := "\(" +:+ _CORE_DIMENSION_LIST +:+ "\)".
Definition _ARGUMENT_LIST : string := _ARGUMENT +:+ "(?:," +:+ _ARGUMENT +:+ ")*".
Definition _SIGNATURE : string :=
  "^(?:" +:+ _ARGUMENT_LIST +:+ ")?->" +:+ _ARGUMENT_LIST +:+ "$".

Definition _parse_gufunc_signature (signature : string)
  : result (list (list (list string))) :=
  signature ← Re.sub "\s+" "" signature;
  matched ← Re.match_ _SIGNATURE signature;
  if negb matched
  then Raise (ValueError ("not a valid gufunc signature: " +:+ signature))
  else
    mapM (λ arg_list,
            if decide (arg_list ≠ "")
            then args ← Re.findall _ARGUMENT arg_list;
                 mapM (λ arg, Re.findall _DIMENSION_NAME arg) args
            else Ok [])
         (split signature "->").

Definition operand_sig (operand_ndim : nat) (prefix : string) : string :=
  let operands := join "," ((λ i, prefix +:+ str_nat i) <$> seq 0 operand_ndim) in
  "(" +:+ operands +:+ ")".

Definition safe_signature (core_inputs_ndim core_outputs_ndim : list nat) : string :=
  let inputs_sig :=
    join "," ((λ '(n, ndim), operand_sig ndim ("i" +:+ str_nat n))
                <$> enumerate core_inputs_ndim) in
  let outputs_sig :=
    join "," ((λ '(n, ndim), operand_sig ndim ("o" +:+ str_nat n))
                <$> enumerate core_outputs_ndim) in
  inputs_sig +:+ "->" +:+ outputs_sig.

End Utils.

(* ===================================================================== *)
(** * The specification's wording of the in-place statements             *)
(* ===================================================================== *)

Module SpecText.
Import Elemwise.

(** The statement the specification lists for each operator kind,
    with the specification's own spacing. *)
Definition spec_statement (op : scalar_op) (idx res arr : string) : option string :=
  let slot := (res +:+ "[" +:+ idx +:+ "]")%string in
  match op with
  | Add => Some (slot +:+ " += " +:+ arr)
  | Sub => Some (slot +:+ " -= " +:+ arr)
  | Mean => Some (slot +:+ " += (" +:+ arr +:+ " - " +:+ slot +:+ ") / (i + 1)")
  | Mul => Some (slot +:+ " *= " +:+ arr)
  | MulWithoutZeros =>
      Some (slot +:+ " = " +:+ arr +:+ " if " +:+ slot +:+ "==0 else (" +:+ slot
            +:+ " if " +:+ arr +:+ "==0 else " +:+ slot +:+ "*" +:+ arr +:+ ")")
  | AND => Some (slot +:+ " &= " +:+ arr)
  | OR => Some (slot +:+ " |= " +:+ arr)
  | XOR => Some (slot +:+ " ^= " +:+ arr)
  | TrueDiv => Some (slot +:+ " /= " +:+ arr)
  | IntDiv => Some (slot +:+ " //= " +:+ arr)
  | ScalarMaximum => Some ("if " +:+ slot +:+ " < " +:+ arr +:+ ": " +:+ slot +:+ " = " +:+ arr)
  | ScalarMinimum => Some ("if " +:+ slot +:+ " > " +:+ arr +:+ ": " +:+ slot +:+ " = " +:+ arr)
  | Unregistered _ => None
  end.

(** A text without its blanks and line breaks. *)
Fixpoint remove_blanks (s : string) : string :=
  match s with
  | EmptyString => EmptyString
  | String c rest =>
      if is_whitespace c then remove_blanks rest else String c (remove_blanks rest)
  end.

(** Two texts are the same statement when they differ in layout only. *)
Definition same_statement (a b : string) : Prop := remove_blanks a = remove_blanks b.

End SpecText.

(* ===================================================================== *)
(** * Concrete nodes, operators and arrays used in the examples          *)
(* ===================================================================== *)

Module Examples.
Import Np Elemwise.

Definition tensor (name : string) (dt : dtype) (bc : list bool)
    (sh : list (option nat)) : TensorVariable :=
  {| v_name := name;
     v_type := {| t_dtype := dt; t_broadcastable := bc; t_shape := sh |} |}.

Definition apply (ins outs : list TensorVariable) : Apply :=
  {| inputs := ins; outputs := outs; tag_numba__vectorize_target := None |}.

(** A maximum over every axis of an unsigned 8-bit vector. *)
Definition max_op : CAReduce :=
  {| op_axis := None; op_acc_dtype := None;
     op_scalar_op := ScalarMaximum; op_scalar_op_identity := NegInf |}.

Definition max_uint8_node : Apply :=
  apply [tensor "x" uint8 [false] [None]] [tensor "out" uint8 [] []].

Definition max_int8_node : Apply :=
  apply [tensor "x" int8 [false] [None]] [tensor "out" int8 [] []].

(** Two scalar kernels: the sum of the arguments, and the pair of
    their sum and their product. *)
Inductive demo_scalar_op := DemoAdd | DemoAddMul.

Definition demo_funcify (op : demo_scalar_op) (node : Apply)
  : result (list Z → py_outs Z) :=
  match op with
  | DemoAdd => Ok (λ vals, One (foldl Z.add 0%Z vals))
  | DemoAddMul => Ok (λ vals, Tuple [foldl Z.add 0%Z vals; foldl Z.mul 1%Z vals])
  end.

Definition add_op : Elemwise :=
  {| e_scalar_op := DemoAdd; e_inplace_pattern := [] |}.

Definition add_mul_op : Elemwise :=
  {| e_scalar_op := DemoAddMul; e_inplace_pattern := [] |}.

(** [add] of an input of static shape (3, None), whose second axis is
    therefore not broadcastable, and an input of static shape (3, 4); at
    run time the first is a (3, 1) array. *)
Definition add_31_34_node : Apply :=
  apply [tensor "a" int64 [false; false] [Some 3; None];
         tensor "b" int64 [false; false] [Some 3; Some 4]]
        [tensor "out" int64 [false; false] [Some 3; Some 4]].

Definition add_34_31_node : Apply :=
  apply [tensor "b" int64 [false; false] [Some 3; Some 4];
         tensor "a" int64 [false; false] [Some 3; None]]
        [tensor "out" int64 [false; false] [Some 3; Some 4]].

Definition a31 : ndarray Z := mk_ndarray [3; 1] [10; 20; 30]%Z.
Definition b34 : ndarray Z :=
  mk_ndarray [3; 4] [1; 2; 3; 4; 5; 6; 7; 8; 9; 10; 11; 12]%Z.

(** A node with two outputs. *)
Definition add_mul_node : Apply :=
  apply [tensor "x" int64 [false] [None]; tensor "y" int64 [false] [None]]
        [tensor "s" int64 [false] [None]; tensor "p" int64 [false] [None]].

Definition v123 : ndarray Z := mk_ndarray [3] [1; 2; 3]%Z.
Definition v456 : ndarray Z := mk_ndarray [3] [4; 5; 6]%Z.

(** The matrix [[1, 2, 3], [4, 5, 6]]. *)
Definition m23 : ndarray Z := mk_ndarray [2; 3] [1; 2; 3; 4; 5; 6]%Z.

(** Sums over a 64-bit integer matrix, and over a 64-bit integer
    scalar with a [float64] accumulator. *)
Definition sum_op (axis : option (list Z)) (acc : option dtype) : CAReduce :=
  {| op_axis := axis; op_acc_dtype := acc;
     op_scalar_op := Add; op_scalar_op_identity := Num 0 |}.

Definition sum_matrix_node (out_bc : list bool) : Apply :=
  apply [tensor "x" int64 [false; false] [None; None]]
        [tensor "out" int64 out_bc ((λ _, None) <$> out_bc)].

Definition sum_scalar_node : Apply :=
  apply [tensor "x" int64 [] []] [tensor "out" int64 [] []].

Definition big_scalar : ndarray Z := mk_ndarray [] [2 ^ 53 + 1]%Z.

(** The transposition of a matrix, and the no-op on a matrix. *)
Definition transpose_op : DimShuffle :=
  {| ds_shuffle := [1; 0]; ds_transposition := [1; 0]; ds_augment := [];
     ds_inplace := false |}.

Definition identity_op : DimShuffle :=
  {| ds_shuffle := [0; 1]; ds_transposition := [0; 1]; ds_augment := [];
     ds_inplace := false |}.

(** A rank-3 array and an argmax node over such arrays. *)
Definition cube : ndarray Z :=
  mk_ndarray [2; 3; 2] [1; 9; 3; 4; 5; 6; 7; 8; 9; 10; 12; 11]%Z.

Definition cube_var : TensorVariable :=
  tensor "x" int64 [false; false; false] [None; None; None].

Definition argmax_node : Apply :=
  apply [cube_var] [tensor "out" int64 [false] [None]].

Definition matrix_node (out_shape : list (option nat)) : Apply :=
  apply [tensor "x" int64 [false; false] [None; None]]
        [tensor "out" int64 [false; false] out_shape].

End Examples.

(* ===================================================================== *)
(** * Predicates used to state the properties                             *)
(* ===================================================================== *)

Module Props.
Import Np Elemwise Utils.

(** All entries are one and the same length. *)
Definition all_equal (l : list dim_length) : Prop := ∃ d, ∀ x, x ∈ l → x = d.

(** Two known lengths that differ, neither of them 1. *)
Definition two_incompatible (l : list dim_length) : Prop :=
  ∃ a b, Some a ∈ l ∧ Some b ∈ l ∧ a ≠ b ∧ a ≠ 1 ∧ b ≠ 1.

(** An axis in range, and the non-negative axis it denotes. *)
Definition in_range (ndim : nat) (a : Z) : Prop :=
  (- Z.of_nat ndim ≤ a < Z.of_nat ndim)%Z.

Definition resolve (ndim : nat) (a : Z) : nat :=
  Z.to_nat (if decide (a < 0)%Z then a + Z.of_nat ndim else a)%Z.

(** The axes a reduction node reduces: those of the operator, or all
    of them. *)
Definition reduced_axes (op : CAReduce) (input0 : TensorVariable) : list Z :=
  match op_axis op with
  | Some axes => axes
  | None => Z.of_nat <$> seq 0 (v_ndim input0)
  end.

(** A valid axis tuple that names every axis of a rank-[ndim] input. *)
Definition covers_every_axis (axes : list Z) (ndim : nat) : Prop :=
  ∃ ax, normalize_axis_tuple axes (Z.of_nat ndim) = Ok ax ∧ ∀ i, i < ndim → i ∈ ax.

(** [np.asarray(x, dtype=dt)]: the dtype-cast copy of an array. *)
Definition cast_copy {V} `{ScalarOps V} (dt : dtype) (x : ndarray V) : ndarray V :=
  mk_ndarray (shape x) (s_cast dt <$> data x).

(** The static shape of a tensor type agrees with a concrete shape:
    every known length is the actual one. *)
Definition static_shape_agrees (static : list (option nat)) (sh : list nat) : Prop :=
  Forall2 (λ s n, ∀ k, s = Some k → k = n) static sh.

Section AxisByAxis.
Context {V : Type} `{ScalarOps V}.
Variables (op : scalar_op) (identity : V) (dtype : dtype).

(** Applying the single-axis reducer once per listed axis, in the
    order of the list: the operand has rank [ndim] before the first
    fold and one axis less after each. *)
Fixpoint reduce_axis_by_axis (axes : list nat) (ndim : nat) (v : value V)
  : result (value V) :=
  match axes with
  | [] => Ok v
  | axis :: rest =>
      r ← create_axis_reducer op identity (Z.of_nat axis) ndim dtype false false;
      match v with
      | VArr x =>
          v' ← careduce_axis r x;
          reduce_axis_by_axis rest (ndim - 1) v'
      | VScalar _ => Raise TypeError
      end
  end.

(** The final [np.asarray] of the composed reducer. *)
Definition as_array_result (r : result (value V)) : result (value V) :=
  v ← r; Ok (VArr (asarray v)).
End AxisByAxis.

(** Every axis of the list is an axis of the operand it is folded
    out of: the first is below [ndim], the next below [ndim - 1], ... *)
Fixpoint axes_fit (axes : list nat) (ndim : nat) : Prop :=
  match axes with
  | [] => True
  | axis :: rest => axis < ndim ∧ axes_fit rest (ndim - 1)
  end.

(** The lines and the last variable the loop of
    [create_multiaxis_reducer] produces from step [i] on. *)
Fixpoint built_lines (i : nat) (var_name : string) (n : nat) : list call_line :=
  match n with
  | 0 => []
  | S n' =>
      {| cl_target := axis_res_name i; cl_callee := careducer_axes_fn_name i;
         cl_arg := var_name |} :: built_lines (S i) (axis_res_name i) n'
  end.

Fixpoint built_var (i : nat) (var_name : string) (n : nat) : string :=
  match n with
  | 0 => var_name
  | S n' => built_var (S i) (axis_res_name i) n'
  end.

Section JointArgmax.
Context {V : Type} `{ScalarOps V}.

(** The elements of [x] at the kept coordinate [k]: one for every
    coordinate [r] of the reduced axes, in row-major order of [r]. *)
Definition reduced_block (x : ndarray V) (keep axes : list nat) (k : list nat)
  : list V :=
  (λ r, getitem s_zero x (source_index (keep ++ axes) (k ++ r)))
    <$> ndindex ((λ ax, shape x !!! ax) <$> axes).

(** For every coordinate of the kept axes, the position of the
    maximum within its block. *)
Definition joint_argmax (x : ndarray V) (axes : list nat) : result (ndarray nat) :=
  let keep := filter (λ i, i ∉ axes) (seq 0 (ndim x)) in
  let kept_shape := (λ ax, shape x !!! ax) <$> keep in
  mk_ndarray kept_shape
    <$> mapM (λ k, Np.argmax (reduced_block x keep axes k)) (ndindex kept_shape).
End JointArgmax.

End Props.

(* ===================================================================== *)
(** * Closed forms used to state the further properties                  *)
(* ===================================================================== *)

Module Laws.
Import Np Elemwise Utils Props.

(** The entries of a sequence of static lengths that are known and
    different from 1: what is left of the set after the two [discard]s. *)
Definition known_core (l : list dim_length) : gset dim_length :=
  (list_to_set l : gset dim_length) ∖ {[Some 1]} ∖ {[None]}.

Section AxisFold.
Context {V : Type} `{ScalarOps V}.

(** One execution of an in-place statement on a slot that holds [acc],
    with the counter [i] and the operand [a]: the value the slot holds
    afterwards, stored in a buffer of type [dt]. *)
Definition apply_update (update : stmt) (dt : dtype) (acc : V) (i : nat) (a : V) : V :=
  match exec_stmt i acc a update with
  | Some v => s_cast dt v
  | None => acc
  end.

(** The index of the input that has [i] on the reduced axis and the
    entries of [k] on the other axes, in their order. *)
Definition insert_axis (axis i : nat) (k : list nat) : list nat :=
  take axis k ++ i :: drop axis k.

(** The statement folded along [axis] at the outer index [k], from the
    identity on, the counter running upwards from 0. *)
Definition fold_axis (update : stmt) (dt : dtype) (identity : V) (x : ndarray V)
    (axis : nat) (k : list nat) : V :=
  foldl (λ acc i, apply_update update dt acc i (getitem s_zero x (insert_axis axis i k)))
        (s_cast dt identity) (seq 0 (shape x !!! axis)).

(** A table with one cell for every index of the axes other than
    [axis], in the form the flags [keepdims] and [return_scalar] ask for:
    the axis is dropped, or kept with length 1; a rank-1 input has a single
    cell, returned as a one-element array, a rank-0 array or a plain
    scalar. *)
Definition lane_table (cell : nat → list nat → V) (keepdims return_scalar : bool)
    (axis : nat) (x : ndarray V) : value V :=
  if decide (1 < ndim x) then
    let res := tabulate (delete axis (shape x)) (cell axis) in
    VArr (if keepdims then expand_dims res axis else res)
  else
    let v := cell 0 [] in
    match keepdims, return_scalar with
    | true, _ => VArr (mk_ndarray [1] [v])
    | false, true => VScalar v
    | false, false => VArr (mk_ndarray [] [v])
    end.

(** The reduction of [x] along [axis] as a table of folds. *)
Definition reduced_along (update : stmt) (dt : dtype) (identity : V)
    (keepdims return_scalar : bool) (axis : nat) (x : ndarray V) : value V :=
  lane_table (fold_axis update dt identity x) keepdims return_scalar axis x.
End AxisFold.

(** The elements of an array along [axis] at the outer index [k], in
    the order of the axis. *)
Definition lane {V} (d : V) (x : ndarray V) (axis : nat) (k : list nat) : list V :=
  (λ i, getitem d x (insert_axis axis i k)) <$> seq 0 (shape x !!! axis).

(** The sum of the elements of an integer array along [axis] at [k]. *)
Definition sum_along (x : ndarray Z) (axis : nat) (k : list nat) : Z :=
  foldl Z.add 0%Z (lane 0%Z x axis k).

(** The signed and unsigned integer types. *)
Definition integer_dtype (dt : dtype) : Prop := kind dt = "i" ∨ kind dt = "u".

(** The values a scalar kernel returned, as a list. *)
Definition outs_list {V} (o : py_outs V) : list V :=
  match o with One v => [v] | Tuple vs => vs end.

(** Output [j] of a scalar kernel applied at every index of the shape
    [sh] to the elements of the inputs, stored with type [dt]. *)
Definition pointwise {V} `{ScalarOps V} (fn : list V → py_outs V)
    (inputs : list (ndarray V)) (sh : list nat) (j : nat) (dt : dtype) : ndarray V :=
  tabulate sh (λ idx,
    s_cast dt (default s_zero
                 (outs_list (fn ((λ x, getitem s_zero x idx) <$> inputs)) !! j))).

(** One output array is returned as it is, several as a tuple. *)
Definition kernel_outputs {V} (l : list (ndarray V)) : kernel_result V :=
  match l with [out] => RArr out | _ => RTuple l end.

(** ** The shape a dimension shuffle gives

    The number of output axes before position [i] that are not inserted
    ones, and the output shape: length 1 at every inserted position, the
    lengths of the kept axes, in their order, at the others. *)
Definition kept_before (augment : list nat) (i : nat) : nat :=
  length (filter (λ j, j ∉ augment) (seq 0 i)).

Definition augmented_shape (augment : list nat) (n : nat) (kept : list nat) : list nat :=
  (λ i, if bool_decide (i ∈ augment) then 1 else kept !!! kept_before augment i)
    <$> seq 0 n.

(** A shuffle that swaps the axes of a matrix and inserts an axis
    between them, and a node for it. *)
Definition swap_expand_op : DimShuffle :=
  {| ds_shuffle := [1; 0]; ds_transposition := [1; 0]; ds_augment := [1];
     ds_inplace := false |}.

Definition swap_expand_node : Apply :=
  Examples.apply [Examples.tensor "x" int64 [false; false] [None; None]]
        [Examples.tensor "out" int64 [false; true; false] [None; Some 1; None]].

(** ** Reductions over several axes

    The entries of a list (a shape, an index) at the positions outside
    [axes], in their order. *)
Definition drop_axes (axes : list nat) (sh : list nat) : list nat :=
  (λ a, sh !!! a) <$> filter (λ i, i ∉ axes) (seq 0 (length sh)).

(** The sum of a function over a list. *)
Definition zsum {A} (f : A → Z) (l : list A) : Z := foldl Z.add 0%Z (f <$> l).

(** The sum of the elements of an integer array whose index agrees
    with [k] outside [axes]: the joint sum over the axes at the kept
    index [k]. *)
Definition joint_sum (x : ndarray Z) (axes : list nat) (k : list nat) : Z :=
  foldl Z.add 0%Z
    (getitem 0%Z x <$> filter (λ idx, drop_axes axes idx = k) (ndindex (shape x))).

(** Integer data that a buffer of type [dt] stores unchanged. *)
Definition representable (dt : dtype) (x : ndarray Z) : Prop :=
  Forall (λ v, cast_Z dt v = v) (data x).

(** [add] of a matrix and of an input whose second axis is declared
    broadcastable. *)
Definition add_bc_node : Apply :=
  Examples.apply [Examples.tensor "b" int64 [false; false] [None; None];
                  Examples.tensor "a" int64 [false; true] [None; Some 1]]
                 [Examples.tensor "out" int64 [false; false] [None; None]].

(** A shuffle that keeps no axis and inserts two: a scalar becomes a
    1 x 1 matrix. *)
Definition scalar_to_row_op : DimShuffle :=
  {| ds_shuffle := []; ds_transposition := []; ds_augment := [0; 1];
     ds_inplace := false |}.

End Laws.

(* ===================================================================== *)
(** * Texts and patterns used to state the properties of signatures      *)
(* ===================================================================== *)

Module SigLaws.
Import Re.

(** Every character of a text is of the class [P]. *)
Fixpoint all_chars (P : ascii → bool) (s : string) : bool :=
  match s with
  | EmptyString => true
  | String c s => P c && all_chars P s
  end.

(** A text that does not begin with a character of the class [P]. *)
Definition not_headed (P : ascii → bool) (s : string) : Prop :=
  match s with
  | EmptyString => True
  | String c _ => P c = false
  end.

(** A continuation that fails on every text that begins with a character
    of the class [P]. *)
Definition fails_on (P : ascii → bool) (k : string → option string) : Prop :=
  ∀ c s, P c = true → k (String c s) = None.

Definition is_comma (c : ascii) : bool := bool_decide (c = ","%char).

(** The items of a list, each after a comma. *)
Fixpoint sep_tail (items : list string) : string :=
  match items with
  | [] => ""
  | x :: rest => "," +:+ x +:+ sep_tail rest
  end.

(** The compiled patterns of [pytensor.tensor.utils]: the list of core
    dimensions, an argument followed by [tail], the further arguments of a
    list, and a whole signature. *)
Definition core_re : regex :=
  Opt (Seq (Plus Word) (Seq (Star (Seq (Lit ",") (Seq (Plus Word) Empty))) Empty)).

Definition argument_re (tail : regex) : regex :=
  Seq (Lit "(") (Seq core_re (Seq (Lit ")") tail)).

Definition more_arguments_re : regex := Star (Seq (Lit ",") (argument_re Empty)).

Definition signature_re : regex :=
  Seq Bol
    (Seq (Opt (argument_re (Seq more_arguments_re Empty)))
       (Seq (Lit "-") (Seq (Lit ">")
          (argument_re (Seq more_arguments_re (Seq Eol Empty)))))).

(** A name: word characters, at least one. *)
Definition is_name (x : string) : Prop := all_chars is_word x = true ∧ x ≠ "".

(** The text of one argument. *)
Definition argument_text (names : list string) : string :=
  "(" +:+ join "," names +:+ ")".

(** The text of a signature with the given arguments. *)
Definition signature_text (ins outs : list (list string)) : string :=
  join "," (argument_text <$> ins) +:+ "->" +:+ join "," (argument_text <$> outs).

(** The matches among the pieces of a scan. *)
Definition matches (tokens : list (ascii + string)) : list string :=
  omap (λ t, match t with inr x => Some x | inl _ => None end) tokens.

(** The characters of a list of arguments: word characters, parentheses
    and commas. *)
Definition is_arguments_char (c : ascii) : bool :=
  is_word c || bool_decide (c = "("%char) || bool_decide (c = ")"%char)
  || bool_decide (c = ","%char).

(** The dimension names [safe_signature] gives to one operand, and to
    the operands of one side ([kind] is ["i"] or ["o"]). *)
Definition operand_names (prefix : string) (ndim : nat) : list string :=
  (λ i, prefix +:+ str_nat i) <$> seq 0 ndim.

Definition signature_names (kind : string) (ndims : list nat) : list (list string) :=
  (λ '(n, ndim), operand_names (kind +:+ str_nat n) ndim) <$> enumerate ndims.

(** The pairs (operand, dimension) of one side. *)
Definition name_pairs (ndims : list nat) : list (nat * nat) :=
  p ← enumerate ndims; (λ i, (p.1, i)) <$> seq 0 p.2.

(** Twelve operands, the second of rank 12 and the last of rank 2. *)
Definition colliding_ndims : list nat := [0; 12; 0; 0; 0; 0; 0; 0; 0; 0; 0; 2].

(** ASCII text: every character is a code point below 128.  On such
    text the classes [is_word] and [is_space] are the classes [\w] and [\s]
    of [re]. *)
Definition is_ascii (c : ascii) : bool := (N_of_ascii c <? 128)%N.

Definition ascii_text (s : string) : Prop := all_chars is_ascii s = true.

(** A text without its blanks. *)
Fixpoint strip_spaces (s : string) : string :=
  match s with
  | EmptyString => EmptyString
  | String c s => if is_space c then strip_spaces s else String c (strip_spaces s)
  end.

(** Every character a pattern can consume is of the class [P]. *)
Fixpoint chars_in (P : ascii → bool) (r : regex) : Prop :=
  match r with
  | Empty | Bol | Eol => True
  | Lit c => P c = true
  | Word => ∀ c, is_word c = true → P c = true
  | Space => ∀ c, is_space c = true → P c = true
  | Seq a b => chars_in P a ∧ chars_in P b
  | Star a | Plus a | Opt a => chars_in P a
  end.

(** A matcher that hands to its continuation what is left after a prefix
    of characters of the class [P]. *)
Definition consumes (P : ascii → bool)
    (body : string → (string → option string) → option string) : Prop :=
  ∀ s k out, body s k = Some out →
    ∃ a s', s = (a +:+ s')%string ∧ all_chars P a = true ∧ k s' = Some out.

End SigLaws.

(* ===================================================================== *)
(** * The names a generated function can take as its parameter            *)
(* ===================================================================== *)

Module Names.

(** Python's keywords. *)
Definition keywords : list string :=
  ["False"; "None"; "True"; "and"; "as"; "assert"; "async"; "await"; "break";
   "class"; "continue"; "def"; "del"; "elif"; "else"; "except"; "finally"; "for";
   "from"; "global"; "if"; "import"; "in"; "is"; "lambda"; "nonlocal"; "not"; "or";
   "pass"; "raise"; "return"; "try"; "while"; "with"; "yield"].

Definition is_digit (c : ascii) : bool :=
  let n := N_of_ascii c in ((48 <=? n) && (n <=? 57))%N.

(** An ASCII identifier: a letter or an underscore, then letters, digits
    and underscores. *)
Definition is_identifier (s : string) : bool :=
  match s with
  | String c rest =>
      Re.is_word c && negb (is_digit c) && SigLaws.all_chars Re.is_word rest
  | EmptyString => false
  end.

(** A name that [def f(name):] accepts as the parameter: an identifier
    that is not a keyword, nor [__debug__], which cannot be bound.  The
    text [create_multiaxis_reducer] generates is a function of one
    parameter for such an [input_name] only. *)
Definition is_parameter_name (s : string) : bool :=
  is_identifier s && negb (bool_decide (s ∈ keywords))
  && negb (bool_decide (s = "__debug__")).

End Names.

(* ===================================================================== *)
(** * Properties                                                          *)
(* ===================================================================== *)

Import Np Elemwise Utils SpecText Examples Props.
Import Laws Names.

(** ** The in-place statements *)

Lemma remove_blanks_app (a b : string) :
  remove_blanks (a +:+ b) = (remove_blanks a +:+ remove_blanks b)%string.
Proof.
  induction a as [|c a IH]; [reflexivity|].
  change (remove_blanks (String c (a +:+ b))
          = (remove_blanks (String c a) +:+ remove_blanks b)%string).
  simpl. destruct (is_whitespace c); rewrite IH; reflexivity.
Qed.

Lemma string_app_assoc (a b c : string) :
  ((a +:+ b) +:+ c = a +:+ (b +:+ c))%string.
Proof.
  induction a as [|x a IH]; [reflexivity|].
  change (String x ((a +:+ b) +:+ c) = String x (a +:+ (b +:+ c))).
  rewrite IH. reflexivity.
Qed.

Lemma string_app_nil_r (a : string) : (a +:+ "")%string = a.
Proof.
  induction a as [|x a IH]; [reflexivity|].
  change (String x (a +:+ "") = String x a). rewrite IH. reflexivity.
Qed.

(** Decides [same_statement] between two concatenations of literals and
    variables. *)
Ltac same_statement_tac :=
  unfold same_statement, nl;
  rewrite ?string_app_assoc, ?remove_blanks_app;
  repeat match goal with
         | |- context [remove_blanks (String ?c ?s)] =>
             let v := eval vm_compute in (remove_blanks (String c s)) in
             change (remove_blanks (String c s)) with v
         end;
  rewrite ?string_app_nil_r;
  vm_compute; reflexivity.

(** The text [scalar_in_place_fn] emits is the rendering of the syntax
    [in_place_stmt] gives the operator. *)
Lemma scalar_in_place_fn_render (op : scalar_op) (idx res arr : string) :
  scalar_in_place_fn op idx res arr = render_stmt idx res arr <$> in_place_stmt op.
Proof.
  destruct op; cbn -[String.append]; unfold subscript, nl;
    rewrite ?string_app_assoc; vm_compute; reflexivity.
Qed.

(** C3.  For every registered operator kind, [scalar_in_place_fn] returns
    the statement the specification lists for it (the same tokens; the
    specification writes the multiply-skip-zero statement without blanks
    around its operators and the max/min updates on one line), and that text
    is the rendering of the syntax tree [in_place_stmt] gives.  For the
    running mean the text is [res[idx] += (arr - res[idx]) / (i + 1)], which
    reads the loop counter [i]: executed with counter [i], the slot [r] and
    the operand [a] it stores [r + (a - r) / (i + 1)].  For
    multiply-skip-zero the statement stores [a] when the slot is zero, keeps
    the slot when the operand is zero, and the product otherwise. *)
Theorem scalar_in_place_fn_statements (op : scalar_op) (idx res arr : string)
    (Hreg : registered op = true) :
  ∃ code s text,
    scalar_in_place_fn op idx res arr = Ok code
    ∧ spec_statement op idx res arr = Some text
    ∧ same_statement code text
    ∧ (op ∉ [MulWithoutZeros; ScalarMaximum; ScalarMinimum] → code = text)
    ∧ in_place_stmt op = Ok s
    ∧ code = render_stmt idx res arr s
    ∧ (op = Mean →
       code = (res +:+ "[" +:+ idx +:+ "] += (" +:+ arr +:+ " - " +:+ res +:+ "["
               +:+ idx +:+ "]) / (i + 1)")%string
       ∧ ∀ (V : Type) (ops : ScalarOps V) (i : nat) (r a : V),
           exec_stmt i r a s
           = Some (s_add r (s_truediv (s_sub a r) (s_add (s_of_nat i) (s_of_nat 1)))))
    ∧ (op = MulWithoutZeros →
       ∀ (V : Type) (ops : ScalarOps V) (i : nat) (r a : V),
         exec_stmt i r a s
         = Some (if s_eqb r (s_of_nat 0) then a
                 else if s_eqb a (s_of_nat 0) then r else s_mul r a)).
Proof.
  destruct op; try discriminate Hreg;
    (eexists _, _, _; split; [reflexivity|]; split; [reflexivity|];
     split; [same_statement_tac|]; split; [|split; [reflexivity|split; [|split]]]).
  all: try (intros Hop; discriminate Hop).
  all: try (intros Hnot; exfalso; apply Hnot; set_solver).
  all: try (intros _; rewrite ?string_app_assoc; vm_compute; reflexivity).
  all: try (cbn -[String.append]; unfold subscript, nl;
            rewrite ?string_app_assoc; vm_compute; reflexivity).
  intros _. split; [reflexivity|]. intros V ops i r a. reflexivity.
Qed.

Lemma scalar_in_place_fn_statements_witness :
  registered MulWithoutZeros = true
  ∧ ∃ code,
      scalar_in_place_fn MulWithoutZeros "0" "res" "x[i]" = Ok code
      ∧ same_statement code
          "res[0] = x[i] if res[0]==0 else (res[0] if x[i]==0 else res[0]*x[i])".
Proof.
  split; [reflexivity|].
  destruct (scalar_in_place_fn_statements MulWithoutZeros "0" "res" "x[i]" eq_refl)
    as (code & s & text & Hcode & Htext & Hsame & _).
  exists code. split; [exact Hcode|].
  injection Htext as <-. exact Hsame.
Defined.

(** ** Static broadcasting of dimension lengths *)

Lemma next_iter_singleton (d : dim_length) : next_iter {[d]} = Ok d.
Proof. unfold next_iter. rewrite elements_singleton. reflexivity. Qed.

Lemma size_one_singleton (s : gset dim_length) : size s = 1 → ∃ x, s = {[x]}.
Proof.
  intros Hs. apply size_1_elem_of in Hs as [x Hx]. exists x.
  apply leibniz_equiv. exact Hx.
Qed.

Lemma size_two_distinct (s : gset dim_length) (x y : dim_length) :
  x ∈ s → y ∈ s → x ≠ y → 1 < size s.
Proof.
  intros Hx Hy Hne.
  assert (Hsub : ({[x; y]} : gset dim_length) ⊆ s) by set_solver.
  apply subseteq_size in Hsub.
  rewrite size_union in Hsub by set_solver.
  rewrite !size_singleton in Hsub. lia.
Qed.

Lemma size_gt1_distinct (s : gset dim_length) :
  1 < size s → ∃ x y, x ∈ s ∧ y ∈ s ∧ x ≠ y.
Proof.
  intros Hs.
  destruct (elements s) as [|x [|y r]] eqn:E.
  - apply elements_empty_inv in E. apply leibniz_equiv in E. subst.
    rewrite size_empty in Hs. lia.
  - unfold size, set_size in Hs. simpl in Hs. rewrite E in Hs. simpl in Hs. lia.
  - exists x, y. pose proof (NoDup_elements s) as ND. rewrite E in ND.
    split_and!.
    + apply elem_of_elements. rewrite E. set_solver.
    + apply elem_of_elements. rewrite E. set_solver.
    + inversion ND; subst. set_solver.
Qed.

(** C10, as amended.  For every non-empty sequence of static dimension
    lengths, [broadcast_static_dim_lengths] returns the common entry when all
    entries are equal; returns [None] when the set of entries is exactly
    [{None, 1}]; raises [ValueError] when two distinct known lengths, both
    different from 1, occur; and otherwise returns the unique known length
    different from 1 -- which may be 0. *)
Theorem broadcast_static_dim_lengths_cases (l : list dim_length) (Hne : l ≠ []) :
  (∀ d, (∀ x, x ∈ l → x = d) → broadcast_static_dim_lengths l = Ok d)
  ∧ ((list_to_set l : gset dim_length) = {[None; Some 1]} →
     broadcast_static_dim_lengths l = Ok None)
  ∧ (two_incompatible l → broadcast_static_dim_lengths l = Raise (ValueError ""))
  ∧ (¬ all_equal l → (list_to_set l : gset dim_length) ≠ {[None; Some 1]} →
     ¬ two_incompatible l →
     ∃ n, n ≠ 1 ∧ Some n ∈ l ∧ (∀ m, Some m ∈ l → m ≠ 1 → m = n)
          ∧ broadcast_static_dim_lengths l = Ok (Some n)).
Proof.
  split_and!.
  - intros d Hall. unfold broadcast_static_dim_lengths.
    assert (Hs : (list_to_set l : gset dim_length) = {[d]}).
    { apply set_eq. intros x. rewrite elem_of_list_to_set, elem_of_singleton.
      split; [apply Hall|]. intros ->. destruct l as [|y l']; [done|].
      rewrite <- (Hall y); set_solver. }
    rewrite Hs. rewrite size_singleton. simpl. apply next_iter_singleton.
  - intros Hs. unfold broadcast_static_dim_lengths. rewrite Hs.
    rewrite size_union by set_solver. rewrite !size_singleton.
    simpl. destruct (decide _) as [|n]; [done|]. exfalso; apply n; reflexivity.
  - intros (a & b & Ha & Hb & Hab & Ha1 & Hb1).
    unfold broadcast_static_dim_lengths. cbv zeta.
    set (S := list_to_set l : gset dim_length).
    assert (HaS : Some a ∈ S) by (subst S; set_solver).
    assert (HbS : Some b ∈ S) by (subst S; set_solver).
    destruct (decide (size S = 1)) as [H1|_].
    { pose proof (size_two_distinct S (Some a) (Some b) HaS HbS ltac:(congruence)). lia. }
    destruct (decide (S = _)) as [H2|_].
    { rewrite H2 in HaS. set_solver. }
    destruct (decide _) as [_|Hn]; [done|]. exfalso; apply Hn.
    apply (size_two_distinct _ (Some a) (Some b)); [set_solver|set_solver|congruence].
  - intros Hneq Hnb Hninc.
    unfold broadcast_static_dim_lengths. cbv zeta.
    set (S := list_to_set l : gset dim_length) in *.
    destruct (decide (size S = 1)) as [H1|H1].
    { exfalso. apply Hneq. apply size_one_singleton in H1 as [x Hx].
      exists x. intros y Hy. assert (HyS : y ∈ S) by (subst S; set_solver).
      rewrite Hx in HyS. set_solver. }
    destruct (decide (S = _)) as [H2|_]; [done|].
    set (s2 := S ∖ {[Some 1]} ∖ {[None]}).
    destruct (decide (1 < size s2)) as [H3|H3].
    { exfalso. apply Hninc. apply size_gt1_distinct in H3 as (x & y & Hx & Hy & Hxy).
      destruct x as [a|]; [|set_solver]. destruct y as [b|]; [|set_solver].
      exists a, b. subst s2 S.
      split_and!; [set_solver|set_solver|congruence|set_solver|set_solver]. }
    assert (Hs2 : size s2 = 1).
    { destruct (size s2) as [|[|k]] eqn:E; [|done|lia].
      exfalso. apply size_empty_inv in E. apply leibniz_equiv in E.
      assert (Hsub : S ⊆ {[None; Some 1]}).
      { intros x Hx. destruct (decide (x = Some 1)) as [->|]; [set_solver|].
        destruct (decide (x = None)) as [->|]; [set_solver|].
        assert (Hx2 : x ∈ s2) by (subst s2; set_solver). rewrite E in Hx2. set_solver. }
      destruct l as [|y l']; [done|].
      assert (HyS : y ∈ S) by (subst S; set_solver).
      apply Hnb. apply set_eq. intros x. split; [apply Hsub|].
      intros Hx.
      destruct (decide (x = y)) as [->|Hxy]; [done|].
      destruct (decide (x ∈ S)) as [|Hnx]; [done|].
      exfalso. apply H1.
      assert (HS : S = {[y]}).
      { apply set_eq. intros z. split; [|set_solver].
        intros Hz. pose proof (Hsub z Hz). pose proof (Hsub y HyS). set_solver. }
      rewrite HS. apply size_singleton. }
    apply size_one_singleton in Hs2 as [x Hx].
    assert (Hxin : x ∈ s2) by (rewrite Hx; set_solver).
    destruct x as [n|]; [|subst s2; set_solver].
    exists n. split_and!.
    + subst s2. set_solver.
    + subst s2 S. set_solver.
    + intros m Hm Hm1. assert (Hm2 : Some m ∈ s2) by (subst s2 S; set_solver).
      rewrite Hx in Hm2. set_solver.
    + fold s2. rewrite Hx. apply next_iter_singleton.
Qed.

Lemma broadcast_static_dim_lengths_cases_witness :
  [Some 0; Some 1; None] ≠ ([] : list dim_length)
  ∧ (two_incompatible [Some 0; Some 1; None] → False)
  ∧ ∃ n, n ≠ 1 ∧ broadcast_static_dim_lengths [Some 0; Some 1; None] = Ok (Some n).
Proof.
  assert (Hne : [Some 0; Some 1; None] ≠ ([] : list dim_length)) by discriminate.
  assert (Hinc : ¬ two_incompatible [Some 0; Some 1; None]).
  { intros (a & b & Ha & Hb & Hab & Ha1 & Hb1).
    apply list_elem_of_In in Ha, Hb. simpl in Ha, Hb.
    destruct Ha as [Ha|[Ha|[Ha|[]]]]; destruct Hb as [Hb|[Hb|[Hb|[]]]]; congruence. }
  split; [exact Hne|]. split; [exact Hinc|].
  destruct (broadcast_static_dim_lengths_cases _ Hne) as (_ & _ & _ & H4).
  destruct H4 as (n & Hn1 & _ & _ & Hres).
  - intros [d Hd]. pose proof (Hd (Some 0) ltac:(set_solver)).
    pose proof (Hd (Some 1) ltac:(set_solver)). congruence.
  - intros Heq. assert (Hin : Some 0 ∈ ({[None; Some 1]} : gset dim_length)).
    { rewrite <- Heq. set_solver. }
    set_solver.
  - exact Hinc.
  - exists n. split; [exact Hn1 | exact Hres].
Defined.

(** C10, as stated, fails on the sequence [[0; 1]]: the entries are not
    all equal, their set is not [{None, 1}], no two of them are distinct and
    both different from 1, and yet the result is 0, which is no length
    greater than 1. *)
Lemma broadcast_static_dim_lengths_zero_counterexample :
  ¬ all_equal [Some 0; Some 1]
  ∧ (list_to_set [Some 0; Some 1] : gset dim_length) ≠ {[None; Some 1]}
  ∧ ¬ two_incompatible [Some 0; Some 1]
  ∧ ¬ ∃ n, 1 < n ∧ broadcast_static_dim_lengths [Some 0; Some 1] = Ok (Some n).
Proof.
  split_and!.
  - intros [d Hd]. pose proof (Hd (Some 0) ltac:(set_solver)).
    pose proof (Hd (Some 1) ltac:(set_solver)). congruence.
  - intros Heq. assert (Hin : Some 0 ∈ ({[None; Some 1]} : gset dim_length)).
    { rewrite <- Heq. set_solver. }
    set_solver.
  - intros (a & b & Ha & Hb & Hab & Ha1 & Hb1).
    apply list_elem_of_In in Ha, Hb. simpl in Ha, Hb.
    destruct Ha as [Ha|[Ha|[]]]; destruct Hb as [Hb|[Hb|[]]]; congruence.
  - intros (n & Hn & Hres).
    assert (Hval : broadcast_static_dim_lengths [Some 0; Some 1] = Ok (Some 0))
      by (vm_compute; reflexivity).
    rewrite Hval in Hres. injection Hres as <-. lia.
Qed.

(** ** The identity of a reduction *)

(** For a signed integer accumulator a non-finite identity is clamped
    to the extreme of the type. *)
Lemma clamp_identity_signed (dt : dtype) (lo hi : Z) :
  kind dt = "i" → iinfo dt = Ok (lo, hi) →
  clamp_identity dt Inf = Ok (Num hi) ∧ clamp_identity dt NegInf = Ok (Num lo).
Proof.
  intros Hk Hi. unfold clamp_identity. rewrite Hk, Hi. split; reflexivity.
Qed.

(** For every other accumulator -- the unsigned integers among them --
    the identity is left as it is. *)
Lemma clamp_identity_not_signed (dt : dtype) (x : number) :
  kind dt ≠ "i" → clamp_identity dt x = Ok x.
Proof.
  intros Hk. unfold clamp_identity.
  rewrite bool_decide_eq_false_2 by exact Hk. reflexivity.
Qed.

(** C4, at the failing input.  A maximum over an unsigned 8-bit tensor
    accumulates in [uint8], an integer type, and its nominal identity is
    minus infinity; the guard of [numba_funcify_CAReduce] tests the kind
    ["i"] only, so the identity is not clamped to 0, the minimum of the
    type, and the conversion of minus infinity to [uint8] raises.  The same
    reduction over a signed 8-bit tensor is clamped to -128. *)
Theorem careduce_identity_unsigned_not_clamped :
  kind uint8 = "u"
  ∧ iinfo uint8 = Ok (0, 255)%Z
  ∧ acc_dtype_of max_op max_uint8_node = Ok uint8
  ∧ clamp_identity uint8 NegInf = Ok NegInf
  ∧ clamp_identity uint8 Inf = Ok Inf
  ∧ numba_funcify_CAReduce (V:=Z) max_op max_uint8_node = Raise OverflowError
  ∧ clamp_identity int8 NegInf = Ok (Num (-128))
  ∧ is_Ok (numba_funcify_CAReduce (V:=Z) max_op max_int8_node) = true.
Proof. vm_compute. repeat split. Qed.

(** ** The reference implementation of element-wise kernels *)

(** The check never objects to the first input: its axes are compared
    with themselves. *)
Lemma check_axes_self (shape0 sh : list nat) (bc : list bool) :
  foldlM (λ _ p, check_axis shape0 p) () (zip (zip sh bc) sh) = Ok ().
Proof.
  revert bc. induction sh as [|n sh IH]; intros bc; [reflexivity|].
  destruct bc as [|b bc]; [reflexivity|].
  cbn [zip zip_with foldlM]. unfold check_axis at 1.
  destruct (decide (n = 1)) as [->|Hn].
  - rewrite (bool_decide_eq_false_2 (1 ≠ 1)) by (intros Hne; apply Hne; reflexivity).
    rewrite andb_false_r. cbn. apply IH.
  - rewrite (bool_decide_eq_false_2 (n = 1)) by exact Hn. cbn. apply IH.
Qed.

Lemma check_broadcast_first_input {V : Type} (x : ndarray V) (bc : list bool) :
  check_broadcast [x] [bc] (shape x) = Ok ().
Proof. unfold check_broadcast. cbn. rewrite check_axes_self. reflexivity. Qed.

(** C5, at the failing input.  For [add] of a (3, 1) input whose second
    axis is not broadcastable and a (3, 4) input, the common length of the
    second axis is 4, yet the check compares every input with the shape of
    the first input, (3, 1): nothing is raised and a (3, 1) output is
    computed.  With the inputs in the other order the error is raised. *)
Theorem elemwise_reference_misses_violation :
  broadcast_shapes [shape a31; shape b34] = Ok [3; 4]
  ∧ (k ← numba_funcify_Elemwise demo_funcify add_op add_31_34_node;
     check_broadcast [a31; b34] (ek_input_bc_patterns k) (shape a31)) = Ok ()
  ∧ (k ← numba_funcify_Elemwise demo_funcify add_op add_31_34_node;
     elemwise k [a31; b34]) = Ok (RArr (mk_ndarray [3; 1] [11; 25; 39]%Z))
  ∧ (k ← numba_funcify_Elemwise demo_funcify add_op add_34_31_node;
     elemwise k [b34; a31]) = Raise (ValueError "Broadcast not allowed.").
Proof. vm_compute. repeat split. Qed.

(** C6, as stated, fails on a node with two outputs: the element-wise
    kernel builder returns a kernel for it, and the kernel computes both
    outputs. *)
Lemma numba_funcify_Elemwise_two_outputs_counterexample :
  length (outputs add_mul_node) = 2
  ∧ ∃ k, numba_funcify_Elemwise demo_funcify add_mul_op add_mul_node = Ok k
         ∧ ek_nout k = 2
         ∧ elemwise k [v123; v456]
           = Ok (RTuple [mk_ndarray [3] [5; 7; 9]%Z; mk_ndarray [3] [4; 10; 18]%Z]).
Proof.
  split; [reflexivity|]. eexists. split; [reflexivity|].
  split; [reflexivity|]. vm_compute. reflexivity.
Qed.

(** ** Normalisation of the axes of a multi-axis reducer *)

Lemma mapM_result_Ok {A B} (f : A → result B) (g : A → B) (l : list A) :
  (∀ a, a ∈ l → f a = Ok (g a)) → mapM f l = Ok (g <$> l).
Proof.
  induction l as [|a l IH]; intros Hf; [reflexivity|].
  cbn. rewrite (Hf a) by set_solver. cbn.
  rewrite IH by (intros b Hb; apply Hf; set_solver). reflexivity.
Qed.

Lemma mapM_result_Raise {A B} (f : A → result B) (e : exn) (l : list A) :
  (∀ a e', f a = Raise e' → e' = e) → (∃ a, a ∈ l ∧ f a = Raise e) →
  mapM f l = Raise e.
Proof.
  intros Hone. induction l as [|a l IH]; intros (b & Hb & Hfb); [set_solver|].
  cbn. destruct (f a) as [y|e'] eqn:Hfa.
  - cbn. rewrite IH; [reflexivity|].
    exists b. split; [|exact Hfb].
    apply elem_of_cons in Hb as [->|Hb]; [congruence|exact Hb].
  - cbn. f_equal. eapply Hone. exact Hfa.
Qed.

Lemma normalize_axis_index_in_range (ndim : nat) (a : Z) :
  in_range ndim a → normalize_axis_index a (Z.of_nat ndim) = Ok (resolve ndim a).
Proof.
  intros Hr. unfold normalize_axis_index, in_range in *.
  destruct (decide _) as [_|Hn]; [reflexivity|contradiction].
Qed.

Lemma normalize_axis_index_out_of_range (ndim : nat) (a : Z) :
  ¬ in_range ndim a → normalize_axis_index a (Z.of_nat ndim) = Raise AxisError.
Proof.
  intros Hr. unfold normalize_axis_index, in_range in *.
  destruct (decide _) as [Hn|_]; [contradiction|reflexivity].
Qed.

Lemma normalize_axis_index_raises (ndim a : Z) (e : exn) :
  normalize_axis_index a ndim = Raise e → e = AxisError.
Proof.
  unfold normalize_axis_index. destruct (decide _); congruence.
Qed.

Lemma resolve_lt (ndim : nat) (a : Z) : in_range ndim a → resolve ndim a < ndim.
Proof. unfold in_range, resolve. intros Hr. destruct (decide _); lia. Qed.

Lemma normalize_axis_tuple_cases (ndim : nat) (axes : list Z) :
  ((∃ a, a ∈ axes ∧ ¬ in_range ndim a) →
   normalize_axis_tuple axes (Z.of_nat ndim) = Raise AxisError)
  ∧ ((∀ a, a ∈ axes → in_range ndim a) → ¬ NoDup (resolve ndim <$> axes) →
     normalize_axis_tuple axes (Z.of_nat ndim) = Raise (ValueError "repeated axis"))
  ∧ ((∀ a, a ∈ axes → in_range ndim a) → NoDup (resolve ndim <$> axes) →
     normalize_axis_tuple axes (Z.of_nat ndim) = Ok (resolve ndim <$> axes)).
Proof.
  unfold normalize_axis_tuple. split_and!.
  - intros (a & Ha & Hr).
    rewrite (mapM_result_Raise _ AxisError); [reflexivity| |].
    + intros b e' Hb. eapply normalize_axis_index_raises. exact Hb.
    + exists a. split; [exact Ha|]. apply normalize_axis_index_out_of_range. exact Hr.
  - intros Hall Hdup.
    rewrite (mapM_result_Ok _ (resolve ndim)).
    + cbn. destruct (decide _); [contradiction|reflexivity].
    + intros a Ha. apply normalize_axis_index_in_range, Hall, Ha.
  - intros Hall Hnd.
    rewrite (mapM_result_Ok _ (resolve ndim)).
    + cbn. destruct (decide _); [reflexivity|contradiction].
    + intros a Ha. apply normalize_axis_index_in_range, Hall, Ha.
Qed.

Section AxesNormalization.
Context {V : Type} `{ScalarOps V}.
Variables (op : scalar_op) (identity : V) (ndim : nat) (dtype : dtype)
          (input_name : string) (return_scalar : bool).

(** C9, as amended.  A tuple with exactly one entry is handed to the
    single-axis reducer at once, before the tuple is normalised; the
    single-axis reducer resolves a negative axis itself and raises
    [AxisError], a [ValueError], for an axis out of range.  Any other tuple
    is normalised before a reducer is built: an axis out of range raises
    [AxisError], a repeated axis raises [ValueError] (it is rejected, not
    dropped), and otherwise the negative axes are resolved against the
    rank. *)
Theorem multiaxis_axes_normalization (axes : list Z) :
  (∀ a, axes = [a] →
     create_multiaxis_reducer op identity axes ndim dtype input_name return_scalar
     = SingleAxis <$> create_axis_reducer op identity a ndim dtype false false
     ∧ (¬ in_range ndim a →
        create_multiaxis_reducer op identity axes ndim dtype input_name return_scalar
        = Raise AxisError)
     ∧ (in_range ndim a → ∀ r,
        create_axis_reducer op identity a ndim dtype false false = Ok r →
        ar_axis r = resolve ndim a))
  ∧ (length axes ≠ 1 →
     ((∃ a, a ∈ axes ∧ ¬ in_range ndim a) →
      create_multiaxis_reducer op identity axes ndim dtype input_name return_scalar
      = Raise AxisError)
     ∧ ((∀ a, a ∈ axes → in_range ndim a) → ¬ NoDup (resolve ndim <$> axes) →
        create_multiaxis_reducer op identity axes ndim dtype input_name return_scalar
        = Raise (ValueError "repeated axis"))
     ∧ ((∀ a, a ∈ axes → in_range ndim a) → NoDup (resolve ndim <$> axes) →
        normalize_axis_tuple axes (Z.of_nat ndim) = Ok (resolve ndim <$> axes)))
  ∧ is_ValueError AxisError = true
  ∧ is_ValueError (ValueError "repeated axis") = true.
Proof.
  destruct (normalize_axis_tuple_cases ndim axes) as (Hout & Hdup & Hok).
  split_and!; try reflexivity.
  - intros a ->. unfold create_multiaxis_reducer. cbn.
    split_and!; [reflexivity| |].
    + intros Hr. unfold create_axis_reducer.
      rewrite normalize_axis_index_out_of_range by exact Hr. reflexivity.
    + intros Hr r. unfold create_axis_reducer.
      rewrite normalize_axis_index_in_range by exact Hr. cbn.
      destruct (decide (1 < ndim)).
      * destruct (index_lists _ _) as [ri ai].
        destruct (scalar_in_place_fn _ _ _ _); cbn; [|discriminate].
        destruct (in_place_stmt op); cbn; [|discriminate].
        intros [= <-]. reflexivity.
      * destruct (scalar_in_place_fn _ _ _ _); cbn; [|discriminate].
        destruct (in_place_stmt op); cbn; [|discriminate].
        intros [= <-]. reflexivity.
  - intros Hlen. split_and!.
    + intros Hex. unfold create_multiaxis_reducer.
      destruct (decide _); [contradiction|]. rewrite (Hout Hex). reflexivity.
    + intros Hall Hnd. unfold create_multiaxis_reducer.
      destruct (decide _); [contradiction|]. rewrite (Hdup Hall Hnd). reflexivity.
    + exact Hok.
Qed.
End AxesNormalization.

Lemma multiaxis_axes_normalization_witness :
  [0; -2]%Z ≠ [] ∧ length [0; -2]%Z ≠ 1
  ∧ (∀ a, a ∈ [0; -2]%Z → in_range 2 a)
  ∧ ¬ NoDup (resolve 2 <$> [0; -2]%Z)
  ∧ create_multiaxis_reducer (V:=Z) Add 0%Z [0; -2]%Z 2 int64 "input" false
    = Raise (ValueError "repeated axis").
Proof.
  assert (Hlen : length [0; -2]%Z ≠ 1) by (simpl; lia).
  assert (Hall : ∀ a, a ∈ [0; -2]%Z → in_range 2 a).
  { intros a Ha. apply list_elem_of_In in Ha. simpl in Ha. unfold in_range.
    destruct Ha as [<-|[<-|[]]]; lia. }
  assert (Hdup : ¬ NoDup (resolve 2 <$> [0; -2]%Z)).
  { intros Hnd. vm_compute in Hnd. inversion Hnd as [|x l Hx _]; subst.
    apply Hx. set_solver. }
  split; [discriminate|]. split; [exact Hlen|]. split; [exact Hall|].
  split; [exact Hdup|].
  destruct (multiaxis_axes_normalization Add 0%Z 2 int64 "input" false [0; -2]%Z)
    as (_ & Hmulti & _).
  destruct (Hmulti Hlen) as (_ & Hrep & _).
  exact (Hrep Hall Hdup).
Defined.

(** C9, as stated, fails on the axes (0, 0) of a matrix: the repeated
    axis is not dropped to leave the single axis 0, which the single-axis
    reducer would accept; the builder raises. *)
Lemma create_multiaxis_reducer_duplicate_counterexample :
  create_multiaxis_reducer (V:=Z) Add 0%Z [0; 0]%Z 2 int64 "input" false
  = Raise (ValueError "repeated axis")
  ∧ ∃ r, create_axis_reducer (V:=Z) Add 0%Z 0%Z 2 int64 false false = Ok r
         ∧ create_multiaxis_reducer (V:=Z) Add 0%Z [0]%Z 2 int64 "input" false
           = Ok (SingleAxis r).
Proof.
  split; [vm_compute; reflexivity|].
  eexists. split; [vm_compute; reflexivity|]. vm_compute. reflexivity.
Qed.

(** ** The Sum kernels *)

Lemma mapM_result_length {A B} (f : A → result B) (l : list A) (k : list B) :
  mapM f l = Ok k → length k = length l ∧ ∀ b, b ∈ k → ∃ a, a ∈ l ∧ f a = Ok b.
Proof.
  revert k. induction l as [|a l IH]; intros k Hk.
  - cbn in Hk. injection Hk as <-. split; [reflexivity|]. set_solver.
  - cbn in Hk. destruct (f a) as [y|] eqn:Hfa; cbn in Hk; [|discriminate].
    destruct (mapM f l) as [k'|] eqn:Hm; cbn in Hk; [|discriminate].
    injection Hk as <-. destruct (IH k' eq_refl) as [Hlen Hin].
    split; [simpl; lia|].
    intros b Hb. apply elem_of_cons in Hb as [->|Hb].
    + exists a. split; [set_solver|exact Hfa].
    + destruct (Hin b Hb) as (a' & Ha' & Hfa'). exists a'. split; [set_solver|exact Hfa'].
Qed.

Lemma normalize_axis_index_lt (a : Z) (ndim n : nat) :
  normalize_axis_index a (Z.of_nat ndim) = Ok n → n < ndim.
Proof.
  unfold normalize_axis_index. destruct (decide _) as [Hr|]; [|discriminate].
  intros [= <-]. destruct (decide _); lia.
Qed.

Lemma normalize_axis_tuple_Ok (axes : list Z) (ndim : nat) (ax : list nat) :
  normalize_axis_tuple axes (Z.of_nat ndim) = Ok ax →
  length ax = length axes ∧ NoDup ax ∧ ∀ a, a ∈ ax → a < ndim.
Proof.
  unfold normalize_axis_tuple.
  destruct (mapM _ axes) as [k|] eqn:Hm; cbn; [|discriminate].
  destruct (decide (NoDup k)) as [Hnd|]; [|discriminate].
  intros [= <-]. apply mapM_result_length in Hm as [Hlen Hin].
  split_and!; [exact Hlen|exact Hnd|].
  intros a Ha. destruct (Hin a Ha) as (z & _ & Hz).
  eapply normalize_axis_index_lt. exact Hz.
Qed.

Lemma covers_every_axis_length (axes : list Z) (ndim : nat) :
  covers_every_axis axes ndim → length axes = ndim.
Proof.
  intros (ax & Hax & Hall).
  apply normalize_axis_tuple_Ok in Hax as (Hlen & Hnd & Hlt).
  rewrite <- Hlen.
  assert (Hperm : ax ≡ₚ seq 0 ndim).
  { apply NoDup_Permutation; [exact Hnd|apply NoDup_seq|].
    intros i. rewrite elem_of_seq. split; [intros Hi; apply Hlt in Hi; lia|].
    intros Hi. apply Hall. lia. }
  rewrite Hperm. apply length_seq.
Qed.

(** C2, as amended.  The Sum kernel factory has two fast paths.  When
    the reduced axes cover every axis of the input (the axis tuple has as
    many entries as the input has axes), the kernel returns the whole-array
    sum, cast to the accumulator dtype and then to the output dtype.  When
    the axis tuple is empty and the input has at least one axis, the kernel
    returns the dtype-cast copy of the input; for a rank-0 input the empty
    tuple covers every axis and the first path is taken.  The sum of
    [[1,2,3],[4,5,6]] over axis 1 is [6,15], over axis 0 it is [5,7,9], and
    over both axes it is 21. *)
Theorem numba_funcify_Sum_paths :
  (∀ (V : Type) (ops : ScalarOps V) (op : CAReduce) (node : Apply)
     (input0 output0 : TensorVariable) (acc : dtype),
     first (inputs node) = Ok input0 → first (outputs node) = Ok output0 →
     acc_dtype_of op node = Ok acc →
     let out := t_dtype (v_type output0) in
     (covers_every_axis (reduced_axes op input0) (v_ndim input0) →
      ∃ f, numba_funcify_Sum op node = Ok f
           ∧ ∀ x, f x = Ok (VArr (mk_ndarray [] [s_cast out (s_cast acc (sum x))])))
     ∧ (reduced_axes op input0 = [] → v_ndim input0 ≠ 0 →
        ∃ f, numba_funcify_Sum op node = Ok f
             ∧ ∀ x, f x = Ok (VArr (cast_copy out x)))
     ∧ (reduced_axes op input0 = [] → v_ndim input0 = 0 →
        ∃ f, numba_funcify_Sum op node = Ok f
             ∧ ∀ x, f x = Ok (VArr (mk_ndarray [] [s_cast out (s_cast acc (sum x))]))))
  ∧ (f ← numba_funcify_Sum (sum_op (Some [1]%Z) None) (sum_matrix_node [false]); f m23)
    = Ok (VArr (mk_ndarray [2] [6; 15]%Z))
  ∧ (f ← numba_funcify_Sum (sum_op (Some [0]%Z) None) (sum_matrix_node [false]); f m23)
    = Ok (VArr (mk_ndarray [3] [5; 7; 9]%Z))
  ∧ (f ← numba_funcify_Sum (sum_op (Some [0; 1]%Z) None) (sum_matrix_node []); f m23)
    = Ok (VArr (mk_ndarray [] [21]%Z))
  ∧ (f ← numba_funcify_Sum (sum_op None None) (sum_matrix_node []); f m23)
    = Ok (VArr (mk_ndarray [] [21]%Z)).
Proof.
  split; [|vm_compute; repeat split].
  intros V ops op node input0 output0 acc Hin Hout Hacc out.
  unfold numba_funcify_Sum. rewrite Hin, Hout, Hacc. cbn.
  fold (reduced_axes op input0). fold out.
  split_and!.
  - intros Hcov. apply covers_every_axis_length in Hcov.
    destruct (decide _) as [_|Hn]; [|congruence].
    eexists. split; [reflexivity|]. intros x. reflexivity.
  - intros Hnil Hrank. rewrite Hnil. cbn.
    destruct (decide _) as [Hn|_]; [contradiction|].
    eexists. split; [reflexivity|]. intros x. reflexivity.
  - intros Hnil Hrank. rewrite Hnil. cbn.
    destruct (decide _) as [_|Hn]; [|contradiction].
    eexists. split; [reflexivity|]. intros x. reflexivity.
Qed.

Lemma numba_funcify_Sum_paths_witness :
  first (inputs (sum_matrix_node [false])) = Ok (tensor "x" int64 [false; false] [None; None])
  ∧ reduced_axes (sum_op (Some []) None) (tensor "x" int64 [false; false] [None; None]) = []
  ∧ v_ndim (tensor "x" int64 [false; false] [None; None]) ≠ 0
  ∧ ∃ f, numba_funcify_Sum (V:=Z) (sum_op (Some []) None) (sum_matrix_node [false]) = Ok f
         ∧ f m23 = Ok (VArr (cast_copy int64 m23)).
Proof.
  assert (Hrank : v_ndim (tensor "x" int64 [false; false] [None; None]) ≠ 0)
    by (vm_compute; lia).
  split; [reflexivity|]. split; [reflexivity|]. split; [exact Hrank|].
  destruct numba_funcify_Sum_paths as [Hgen _].
  destruct (Hgen Z _ (sum_op (Some []) None) (sum_matrix_node [false]) _ _ int64
              eq_refl eq_refl eq_refl) as (_ & Hcopy & _).
  destruct (Hcopy eq_refl Hrank) as (f & Hf & Hcall).
  exists f. split; [exact Hf|apply Hcall].
Defined.

(** C2, as stated, fails on a rank-0 input with an empty axis tuple: the
    first path is taken, and with a [float64] accumulator the 64-bit integer
    2^53 + 1 comes out as 2^53, which is not the dtype-cast copy of the
    input. *)
Lemma numba_funcify_Sum_rank0_counterexample :
  reduced_axes (sum_op (Some []) (Some float64)) (tensor "x" int64 [] []) = []
  ∧ ∃ f, numba_funcify_Sum (V:=Z) (sum_op (Some []) (Some float64)) sum_scalar_node = Ok f
         ∧ f big_scalar = Ok (VArr (mk_ndarray [] [2 ^ 53]%Z))
         ∧ cast_copy int64 big_scalar = mk_ndarray [] [2 ^ 53 + 1]%Z
         ∧ f big_scalar ≠ Ok (VArr (cast_copy int64 big_scalar)).
Proof.
  split; [reflexivity|]. eexists. split; [reflexivity|].
  split; [vm_compute; reflexivity|]. split; [vm_compute; reflexivity|].
  vm_compute. discriminate.
Qed.

(** ** DimShuffle *)

Lemma bind_Ok {A B} (a : A) (f : A → result B) : (Ok a ≫= f) = f a.
Proof. reflexivity. Qed.

Lemma reshape_same {V} (x : ndarray V) : wf x → reshape x (shape x) = Ok x.
Proof.
  intros Hwf. unfold reshape. unfold wf in Hwf.
  destruct (decide _) as [_|Hn]; [|congruence]. destruct x; reflexivity.
Qed.

Lemma omap_static_agrees (static : list (option nat)) (sh : list nat) :
  static_shape_agrees static sh →
  forallb (λ length : option nat, bool_decide (length ≠ None)) static = true →
  omap id static = sh.
Proof.
  induction 1 as [|s n static sh Hs _ IH]; [reflexivity|].
  cbn. destruct s as [k|]; cbn; [|discriminate].
  intros Hall. rewrite (Hs k eq_refl). f_equal. apply IH. exact Hall.
Qed.

Lemma find_shape_dynamic_no_augment (op : DimShuffle) (array_shape : list nat) :
  ds_augment op = [] → length array_shape = length (ds_shuffle op) →
  find_shape_dynamic op array_shape = array_shape.
Proof.
  intros Haug Hlen. unfold find_shape_dynamic, shape_template, ndim_new_shape.
  rewrite Haug. cbn [length]. rewrite Nat.add_0_r, <- Hlen.
  set (n := length array_shape).
  assert (Hgen : ∀ m k, k + m = n →
            foldl (λ '(shape, j) i,
                     if bool_decide (i ∉ ([] : list nat))
                     then (tuple_setitem shape i (array_shape !!! j), j + 1)
                     else (shape, j))
                  (take k array_shape ++ replicate (n - k) 1, k) (seq k m)
            = (take (k + m) array_shape ++ replicate (n - (k + m)) 1, k + m)).
  { induction m as [|m IH]; intros k Hk.
    - rewrite Nat.add_0_r. reflexivity.
    - cbn [seq foldl].
      rewrite bool_decide_eq_true_2 by set_solver.
      assert (Hlk : k < length array_shape) by (subst n; lia).
      destruct (lookup_lt_is_Some_2 array_shape k Hlk) as [v Hv].
      rewrite (list_lookup_total_correct _ _ _ Hv).
      unfold tuple_setitem.
      replace (<[k:=v]> (take k array_shape ++ replicate (n - k) 1))
        with (take (S k) array_shape ++ replicate (n - S k) 1).
      + replace (k + 1) with (S k) by lia. rewrite IH by lia.
        replace (S k + m) with (k + S m) by lia. reflexivity.
      + rewrite (take_S_r _ _ _ Hv).
        replace (n - k) with (S (n - S k)) by lia. cbn [replicate].
        rewrite <- app_assoc. cbn [app].
        assert (Hlt : length (take k array_shape) = k) by (rewrite length_take; lia).
        rewrite insert_app_r_alt by lia. rewrite Hlt, Nat.sub_diag. reflexivity. }
  specialize (Hgen n 0 ltac:(lia)). rewrite take_0, app_nil_l in Hgen.
  rewrite Nat.sub_0_r in Hgen. rewrite Hgen. cbn [fst].
  rewrite Nat.sub_diag. cbn [replicate]. rewrite app_nil_r.
  apply firstn_all.
Qed.

Lemma find_shape_no_augment (op : DimShuffle) (node : Apply) (out : TensorVariable)
    (array_shape : list nat) :
  ds_augment op = [] → length array_shape = length (ds_shuffle op) →
  first (outputs node) = Ok out →
  static_shape_agrees (t_shape (v_type out)) array_shape →
  find_shape op node array_shape = Ok array_shape.
Proof.
  intros Haug Hlen Hout Hagree. unfold find_shape.
  destruct (decide _) as [Hpos|Hzero].
  - rewrite Hout. cbn.
    destruct (forallb _ _) eqn:Hall.
    + rewrite (omap_static_agrees _ _ Hagree Hall). reflexivity.
    + rewrite find_shape_dynamic_no_augment by assumption. reflexivity.
  - unfold shape_template, ndim_new_shape. rewrite Haug. cbn [length].
    assert (Hz : length (ds_shuffle op) = 0) by lia.
    rewrite Hz in *. destruct array_shape; [reflexivity|discriminate].
Qed.

Lemma no_transpose_seq (op : DimShuffle) (n : nat) :
  ds_transposition op = seq 0 n → no_transpose op = true.
Proof.
  intros Ht. unfold no_transpose, enumerate. rewrite Ht, length_seq. clear Ht.
  generalize 0 as k. induction n as [|n IH]; intros k; [reflexivity|].
  cbn. rewrite bool_decide_eq_true_2 by reflexivity. apply IH.
Qed.

(** C7.  For every array [x], the DimShuffle whose permutation is the
    identity on the axes of [x] and which inserts no axis skips the
    transposition and returns [x] itself (arrays being kept in their
    C-contiguous form); and transposing a (2, 3) array to (3, 2) and back
    returns the original array. *)
Theorem dimshuffle_identity_and_round_trip {V : Type} (d : V) :
  (∀ (op : DimShuffle) (node : Apply) (out : TensorVariable) (x : ndarray V),
     ds_transposition op = seq 0 (ndim x) → ds_shuffle op = seq 0 (ndim x) →
     ds_augment op = [] → wf x → first (outputs node) = Ok out →
     static_shape_agrees (t_shape (v_type out)) (shape x) →
     no_transpose op = true ∧ ds_transpose d op x = Ok x
     ∧ dimshuffle d op node x = Ok (ascontiguousarray x))
  ∧ (∀ (node1 node2 : Apply) (out1 out2 : TensorVariable) (a b c e f g : V),
       first (outputs node1) = Ok out1 → first (outputs node2) = Ok out2 →
       static_shape_agrees (t_shape (v_type out1)) [3; 2] →
       static_shape_agrees (t_shape (v_type out2)) [2; 3] →
       let x := mk_ndarray [2; 3] [a; b; c; e; f; g] in
       dimshuffle d transpose_op node1 x = Ok (mk_ndarray [3; 2] [a; e; b; f; c; g])
       ∧ (y ← dimshuffle d transpose_op node1 x; dimshuffle d transpose_op node2 y)
         = Ok x).
Proof.
  split.
  - intros op node out x Htr Hsh Haug Hwf Hout Hagree.
    pose proof (no_transpose_seq op _ Htr) as Hno.
    assert (Htrans : ds_transpose d op x = Ok x).
    { unfold ds_transpose. rewrite Hno. reflexivity. }
    split_and!; [exact Hno|exact Htrans|].
    unfold dimshuffle, dimshuffle_inner, ascontiguousarray, copy.
    destruct (decide _) as [Hpos|Hzero].
    + rewrite Htrans. cbn.
      assert (Hlen : length (ds_shuffle op) = length (shape x)).
      { rewrite Hsh, length_seq. reflexivity. }
      rewrite Hlen, firstn_all.
      rewrite (find_shape_no_augment op node out) by (auto; congruence). cbn.
      rewrite reshape_same by exact Hwf. cbn. destruct (ds_inplace op); reflexivity.
    + unfold ndim_new_shape in Hzero. rewrite Hsh, Haug, length_seq in Hzero.
      cbn in Hzero. assert (Hnil : shape x = []).
      { unfold ndim in Hzero. destruct (shape x); [reflexivity|simpl in Hzero; lia]. }
      rewrite <- Hnil. apply reshape_same. exact Hwf.
  - intros node1 node2 out1 out2 a b c e f g Hout1 Hout2 Hag1 Hag2 x.
    set (y := mk_ndarray [3; 2] [a; e; b; f; c; g]).
    assert (Hxy : ds_transpose d transpose_op x = Ok y) by reflexivity.
    assert (Hyx : ds_transpose d transpose_op y = Ok x) by reflexivity.
    assert (Hgo : ∀ node out u v,
              first (outputs node) = Ok out →
              static_shape_agrees (t_shape (v_type out)) (shape v) →
              length (shape v) = 2 → wf v →
              ds_transpose d transpose_op u = Ok v →
              dimshuffle d transpose_op node u = Ok v).
    { intros node out u v Hout Hag Hlen Hwf Huv.
      unfold dimshuffle, dimshuffle_inner.
      destruct (decide _) as [_|Hn]; [|exfalso; apply Hn; vm_compute; lia].
      rewrite Huv. rewrite bind_Ok.
      change (length (ds_shuffle transpose_op)) with 2.
      rewrite <- Hlen, firstn_all.
      rewrite (find_shape_no_augment transpose_op node out (shape v))
        by (auto; rewrite Hlen; reflexivity).
      rewrite bind_Ok. unfold ascontiguousarray.
      rewrite reshape_same by exact Hwf. reflexivity. }
    assert (H1 : dimshuffle d transpose_op node1 x = Ok y).
    { apply (Hgo node1 out1); auto; reflexivity. }
    split; [exact H1|]. rewrite H1, bind_Ok.
    apply (Hgo node2 out2); auto; reflexivity.
Qed.

Lemma dimshuffle_identity_and_round_trip_witness :
  wf m23
  ∧ static_shape_agrees [Some 2; None] (shape m23)
  ∧ static_shape_agrees [Some 3; Some 2] [3; 2]
  ∧ dimshuffle 0%Z identity_op (matrix_node [Some 2; None]) m23 = Ok m23
  ∧ (y ← dimshuffle 0%Z transpose_op (matrix_node [Some 3; Some 2]) m23;
     dimshuffle 0%Z transpose_op (matrix_node [Some 2; None]) y) = Ok m23.
Proof.
  assert (Hwf : wf m23) by reflexivity.
  assert (Hag : static_shape_agrees [Some 2; None] (shape m23)).
  { repeat constructor; congruence. }
  assert (Hag' : static_shape_agrees [Some 3; Some 2] [3; 2]).
  { repeat constructor; congruence. }
  destruct (dimshuffle_identity_and_round_trip 0%Z) as [Hid Hrt].
  split; [exact Hwf|]. split; [exact Hag|]. split; [exact Hag'|]. split.
  - destruct (Hid identity_op (matrix_node [Some 2; None]) _ m23
                eq_refl eq_refl eq_refl Hwf eq_refl Hag) as (_ & _ & Hds).
    exact Hds.
  - destruct (Hrt (matrix_node [Some 3; Some 2]) (matrix_node [Some 2; None]) _ _
                1%Z 2%Z 3%Z 4%Z 5%Z 6%Z eq_refl eq_refl Hag' Hag) as [_ Hback].
    exact Hback.
Defined.

(** ** Multi-axis reducers *)

Lemma string_app_cons (c : ascii) (p x : string) :
  (String c p +:+ x)%string = String c (p +:+ x).
Proof. reflexivity. Qed.

Lemma string_app_inj_l (p a b : string) : (p +:+ a = p +:+ b)%string → a = b.
Proof.
  induction p as [|c p IH]; [auto|].
  rewrite !string_app_cons. intros [= Heq]. auto.
Qed.

Lemma careducer_axes_fn_name_inj (i j : nat) :
  careducer_axes_fn_name i = careducer_axes_fn_name j → i = j.
Proof.
  unfold careducer_axes_fn_name, str_nat. intros Heq.
  apply string_app_inj_l in Heq. apply (inj pretty) in Heq. exact Heq.
Qed.

Lemma axis_res_name_not_fn (i j : nat) : axis_res_name i ≠ careducer_axes_fn_name j.
Proof.
  unfold axis_res_name, careducer_axes_fn_name. rewrite !string_app_cons.
  discriminate.
Qed.

Lemma registered_statement (op : scalar_op) (idx res arr : string) :
  registered op = true →
  ∃ code s, scalar_in_place_fn op idx res arr = Ok code ∧ in_place_stmt op = Ok s.
Proof. destruct op; try discriminate; intros _; eexists _, _; split; reflexivity. Qed.

Section MultiAxis.
Context {V : Type} `{ScalarOps V}.
Variables (op : scalar_op) (identity : V) (dtype : dtype).
Hypothesis Hreg : registered op = true.

Lemma normalize_axis_index_nat (a ndim : nat) :
  a < ndim → normalize_axis_index (Z.of_nat a) (Z.of_nat ndim) = Ok a.
Proof.
  intros Hlt. unfold normalize_axis_index.
  destruct (decide _) as [_|Hn]; [|lia].
  destruct (decide _); [lia|]. rewrite Nat2Z.id. reflexivity.
Qed.

(** With a registered operator and an axis in range the single-axis
    reducer is built; without [keepdims] and [return_scalar] it returns an
    array. *)
Lemma create_axis_reducer_Ok (a ndim : nat) :
  a < ndim →
  ∃ r, create_axis_reducer op identity (Z.of_nat a) ndim dtype false false = Ok r
       ∧ ar_ndim r = ndim ∧ ar_axis r = a
       ∧ ar_return r = (if decide (1 < ndim) then RetRes else RetAsarrayItem)
       ∧ (1 < ndim → ∀ sh, length (ar_res_shape_tuple_ctor r sh) = ndim - 1).
Proof.
  intros Hlt. unfold create_axis_reducer.
  rewrite normalize_axis_index_nat by exact Hlt. rewrite bind_Ok.
  destruct (decide (1 < ndim)) as [Hbig|Hsmall].
  - destruct (index_lists a ndim) as [ri ai].
    destruct (registered_statement op (join ", " (render_index <$> ri)) "res"
                ("x[" +:+ join ", " (render_index <$> ai) +:+ "]") Hreg)
      as (code & s & -> & ->).
    rewrite !bind_Ok. eexists. split; [reflexivity|]. cbn.
    split_and!; try reflexivity.
    intros _ sh. unfold create_tuple_creator. rewrite length_fmap, length_seq.
    reflexivity.
  - destruct (registered_statement op "0" "res" "x[i]" Hreg) as (code & s & -> & ->).
    rewrite !bind_Ok. eexists. split; [reflexivity|]. cbn.
    split_and!; try reflexivity. intros Hbig. contradiction.
Qed.

Lemma update_step_shape (r : axis_reducer V) (x : ndarray V) (idx_arr : list nat)
    (res : ndarray V) (i : nat) :
  shape (update_step r x idx_arr res i) = shape res.
Proof. unfold update_step. destruct (exec_stmt _ _ _ _); reflexivity. Qed.

Lemma foldl_update_step_shape (r : axis_reducer V) (x : ndarray V)
    (idx_arr : list nat) (l : list nat) (res : ndarray V) :
  shape (foldl (update_step r x idx_arr) res l) = shape res.
Proof.
  revert res. induction l as [|i l IH]; intros res; [reflexivity|].
  cbn. rewrite IH. apply update_step_shape.
Qed.

Lemma foldl_outer_shape (r : axis_reducer V) (x : ndarray V) (n : nat)
    (l : list (list nat)) (res : ndarray V) :
  shape (foldl (λ res idx_arr, foldl (update_step r x idx_arr) res (seq 0 n)) res l)
  = shape res.
Proof.
  revert res. induction l as [|i l IH]; intros res; [reflexivity|].
  cbn. rewrite IH. apply foldl_update_step_shape.
Qed.

(** A single fold returns an array with one axis less. *)
Lemma careduce_axis_rank (a nd : nat) (r : axis_reducer V) (x : ndarray V) :
  a < nd →
  create_axis_reducer op identity (Z.of_nat a) nd dtype false false = Ok r →
  ndim x = nd →
  ∃ y, careduce_axis r x = Ok (VArr y) ∧ ndim y = nd - 1.
Proof.
  intros Hlt Hr Hx.
  destruct (create_axis_reducer_Ok a nd Hlt) as (r' & Hr' & Hnd & Hax & Hret & Hlen).
  rewrite Hr in Hr'. injection Hr' as <-.
  unfold careduce_axis. rewrite Hnd.
  destruct (decide (ndim x = nd)) as [_|]; [|contradiction].
  rewrite Hret. destruct (decide (1 < nd)) as [Hbig|Hsmall].
  - eexists. split; [reflexivity|]. unfold ndim.
    rewrite foldl_outer_shape. cbn. apply Hlen. exact Hbig.
  - eexists. split; [reflexivity|]. unfold ndim. cbn. lia.
Qed.

(** Folding axes that fit never fails, and each fold removes an axis. *)
Lemma reduce_axis_by_axis_rank (axes : list nat) :
  ∀ (nd : nat) (x : ndarray V),
    axes_fit axes nd → ndim x = nd →
    ∃ y, reduce_axis_by_axis op identity dtype axes nd (VArr x) = Ok (VArr y)
         ∧ ndim y = nd - length axes.
Proof.
  induction axes as [|a rest IH]; intros nd x Hfit Hx.
  - exists x. split; [reflexivity|]. simpl. lia.
  - destruct Hfit as [Hlt Hfit]. cbn [reduce_axis_by_axis].
    destruct (create_axis_reducer_Ok a nd Hlt) as (r & Hr & _).
    rewrite Hr, bind_Ok.
    destruct (careduce_axis_rank a nd r x Hlt Hr Hx) as (y & Hy & Hrank).
    rewrite Hy, bind_Ok.
    destruct (IH (nd - 1) y Hfit Hrank) as (z & Hz & Hzrank).
    exists z. split; [exact Hz|]. rewrite Hzrank. simpl. lia.
Qed.

Lemma run_line_eq (G : gmap string (axis_reducer V)) (locals : gmap string (value V))
    (l : call_line) (r : axis_reducer V) (v : value V) :
  locals !! cl_callee l = None → G !! cl_callee l = Some r →
  locals !! cl_arg l = Some v →
  run_line G locals l
  = match v with
    | VArr a => v' ← careduce_axis r a; Ok (<[cl_target l := v']> locals)
    | VScalar _ => Raise TypeError
    end.
Proof.
  intros Hloc HG Harg. unfold run_line. rewrite Hloc, HG, Harg.
  destruct v; reflexivity.
Qed.

(** The loop of [create_multiaxis_reducer] succeeds on axes that fit;
    it leaves the other globals alone, and running the lines it has
    written, with the globals it has filled, is folding the axes one by
    one. *)
Lemma multiaxis_loop_spec (axes : list nat) :
  ∀ (k : nat) (env : gmap string (axis_reducer V)) (lines : list call_line)
    (var : string) (nd : nat),
    axes_fit axes nd →
    ∃ env',
      foldlM (multiaxis_step op identity dtype) (env, lines, var, nd)
             (zip (seq k (length axes)) axes)
      = Ok (env', lines ++ built_lines k var (length axes),
            built_var k var (length axes), nd - length axes)
      ∧ (∀ name, (∀ j, k ≤ j → name ≠ careducer_axes_fn_name j) →
                 env' !! name = env !! name)
      ∧ ∀ (G : gmap string (axis_reducer V)) (locals : gmap string (value V))
          (v : value V),
          (∀ j, k ≤ j → G !! careducer_axes_fn_name j
                        = env' !! careducer_axes_fn_name j) →
          (∀ j, locals !! careducer_axes_fn_name j = None) →
          locals !! var = Some v →
          match reduce_axis_by_axis op identity dtype axes nd v with
          | Ok v' =>
              ∃ locals',
                foldlM (run_line G) locals (built_lines k var (length axes))
                = Ok locals'
                ∧ locals' !! built_var k var (length axes) = Some v'
                ∧ ∀ j, locals' !! careducer_axes_fn_name j = None
          | Raise e =>
              foldlM (run_line G) locals (built_lines k var (length axes)) = Raise e
          end.
Proof.
  induction axes as [|a rest IH]; intros k env lines var nd Hfit.
  - exists env. cbn. rewrite app_nil_r, Nat.sub_0_r.
    split_and!; [reflexivity|reflexivity|].
    intros G locals v _ Hfresh Hvar. exists locals. auto.
  - destruct Hfit as [Hlt Hfit]. cbn [length seq zip zip_with foldlM].
    unfold multiaxis_step at 1. cbv beta iota.
    destruct (create_axis_reducer_Ok a nd Hlt) as (r & Hr & _).
    rewrite Hr, bind_Ok.
    destruct (IH (S k) (<[careducer_axes_fn_name k := r]> env)
                (lines ++ [{| cl_target := axis_res_name k;
                              cl_callee := careducer_axes_fn_name k;
                              cl_arg := var |}])
                (axis_res_name k) (nd - 1) Hfit) as (env' & Henv' & Hkeep & Hrun).
    exists env'. split_and!.
    + rewrite Henv'. cbn [built_lines built_var]. rewrite <- app_assoc.
      cbn [app]. f_equal. f_equal. lia.
    + intros name Hname. rewrite Hkeep by (intros j Hj; apply Hname; lia).
      apply lookup_insert_ne. intros Heq. apply (Hname k); [lia|]. symmetry. exact Heq.
    + intros G locals v HG Hfresh Hvar.
      assert (HGk : G !! careducer_axes_fn_name k = Some r).
      { rewrite HG by lia. rewrite Hkeep.
        - apply lookup_insert_eq.
        - intros j Hj Heq. apply careducer_axes_fn_name_inj in Heq. lia. }
      cbn [reduce_axis_by_axis built_lines built_var foldlM].
      rewrite Hr, bind_Ok.
      rewrite (run_line_eq G locals _ r v) by (cbn; auto).
      destruct v as [x|s]; [|reflexivity].
      destruct (careduce_axis r x) as [v'|e] eqn:Hcall; [|reflexivity].
      rewrite !bind_Ok. cbn [cl_target].
      apply Hrun.
      * intros j Hj. apply HG. lia.
      * intros j. rewrite lookup_insert_ne by apply axis_res_name_not_fn.
        apply Hfresh.
      * apply lookup_insert_eq.
Qed.
End MultiAxis.

#[local] Instance desc_transitive : Transitive desc.
Proof. intros x y z. unfold desc. lia. Qed.

#[local] Instance desc_total : Total desc.
Proof. intros x y. unfold desc. lia. Qed.

#[local] Instance desc_antisymm : AntiSymm (=) desc.
Proof. intros x y. unfold desc. lia. Qed.

(** [sorted(axes, reverse=True)] of distinct axes is strictly
    descending. *)
Lemma sorted_reverse_strict (l : list nat) :
  NoDup l →
  StronglySorted (λ a b, b < a) (sorted_reverse l) ∧ sorted_reverse l ≡ₚ l.
Proof.
  intros Hnd. unfold sorted_reverse.
  pose proof (merge_sort_Permutation desc l) as Hperm.
  split; [|exact Hperm].
  assert (Hnd' : NoDup (merge_sort desc l)) by (rewrite Hperm; exact Hnd).
  pose proof (StronglySorted_merge_sort desc l) as Hs. clear Hperm.
  induction Hs as [|a k Hs IH Hall]; [constructor|].
  apply NoDup_cons in Hnd' as [Hnin Hnd'].
  constructor; [apply IH; exact Hnd'|].
  rewrite Forall_forall in *. intros x Hx. specialize (Hall x Hx). unfold desc in Hall.
  assert (x ≠ a) by (intros ->; apply Hnin; exact Hx). lia.
Qed.

Lemma axes_fit_sorted (l : list nat) :
  StronglySorted (λ a b, b < a) l → ∀ nd, (∀ a, a ∈ l → a < nd) → axes_fit l nd.
Proof.
  induction 1 as [|a k Hs IH Hall]; intros nd Hlt; [exact I|].
  split; [apply Hlt; set_solver|].
  apply IH. intros b Hb. rewrite Forall_forall in Hall.
  assert (b < a) by (apply Hall, Hb).
  assert (a < nd) by (apply Hlt; set_solver). lia.
Qed.

Lemma sorted_reverse_seq (n : nat) : sorted_reverse (seq 0 n) = reverse (seq 0 n).
Proof.
  unfold sorted_reverse. apply (StronglySorted_unique desc).
  - apply StronglySorted_merge_sort; apply _.
  - induction n as [|n IH]; [constructor|].
    rewrite seq_S, reverse_app. cbn. constructor; [exact IH|].
    rewrite Forall_forall. intros x Hx.
    rewrite elem_of_reverse, elem_of_seq in Hx. unfold desc. lia.
  - rewrite merge_sort_Permutation. symmetry. apply reverse_Permutation.
Qed.

Lemma normalize_axis_tuple_all (n : nat) :
  normalize_axis_tuple (Z.of_nat <$> seq 0 n) (Z.of_nat n) = Ok (seq 0 n).
Proof.
  unfold normalize_axis_tuple.
  assert (Hm : mapM (λ ax, normalize_axis_index ax (Z.of_nat n)) (Z.of_nat <$> seq 0 n)
               = Ok (seq 0 n)).
  { rewrite (mapM_result_Ok _ Z.to_nat).
    - rewrite <- list_fmap_compose. f_equal.
      rewrite <- (list_fmap_id (seq 0 n)) at 2. apply list_fmap_ext.
      intros i x _. cbn. apply Nat2Z.id.
    - intros a Ha. apply list_elem_of_fmap in Ha as (i & -> & Hi).
      apply elem_of_seq in Hi. rewrite Nat2Z.id.
      apply normalize_axis_index_nat. lia. }
  rewrite Hm, bind_Ok. destruct (decide _) as [_|Hn]; [reflexivity|].
  exfalso. apply Hn, NoDup_seq.
Qed.

Lemma axis_res_name_not_np (i : nat) : axis_res_name i ≠ "np".
Proof. unfold axis_res_name. rewrite string_app_cons. discriminate. Qed.

Lemma built_lines_targets (n : nat) :
  ∀ (i : nat) (var : string) (l : call_line),
    l ∈ built_lines i var n → ∃ j, cl_target l = axis_res_name j.
Proof.
  induction n as [|n IH]; intros i var l Hl; cbn [built_lines] in Hl.
  - apply elem_of_nil in Hl. contradiction.
  - apply elem_of_cons in Hl as [->|Hl]; [exists i; reflexivity|].
    eapply IH. exact Hl.
Qed.

(** Running lines binds their targets only. *)
Lemma run_lines_fresh {V : Type} `{ScalarOps V} (G : gmap string (axis_reducer V))
    (name : string) (lines : list call_line) :
  ∀ locals locals' : gmap string (value V),
    (∀ l, l ∈ lines → cl_target l ≠ name) → locals !! name = None →
    foldlM (run_line G) locals lines = Ok locals' → locals' !! name = None.
Proof.
  induction lines as [|l lines IH]; intros locals locals' Htargets Hnone Hrun.
  - cbn in Hrun. injection Hrun as <-. exact Hnone.
  - cbn [foldlM] in Hrun.
    destruct (run_line G locals l) as [locals1|e] eqn:Hl; [|discriminate].
    apply (IH locals1 locals'); [|clear Hrun|exact Hrun].
    + intros l' Hl'. apply Htargets. right. exact Hl'.
    + unfold run_line in Hl.
      destruct (locals !! cl_callee l); [discriminate|].
      destruct (G !! cl_callee l) as [r|]; [|discriminate].
      destruct (locals !! cl_arg l) as [[a|v]|]; try discriminate.
      destruct (careduce_axis r a) as [v|]; [|discriminate].
      rewrite bind_Ok in Hl. injection Hl as <-.
      rewrite lookup_insert_ne; [exact Hnone|]. apply Htargets. left.
Qed.

Section Descending.
Context {V : Type} `{ScalarOps V}.
Variables (op : scalar_op) (identity : V) (dtype : dtype) (input_name : string).
Hypothesis Hreg : registered op = true.
Hypothesis Hname : ∀ i, input_name ≠ careducer_axes_fn_name i.
Hypothesis Hnp : input_name ≠ "np".

Lemma careduce_axis_array (a nd : nat) (r : axis_reducer V) (x : ndarray V) :
  a < nd →
  create_axis_reducer op identity (Z.of_nat a) nd dtype false false = Ok r →
  as_array_result (careduce_axis r x) = careduce_axis r x.
Proof.
  intros Hlt Hr.
  destruct (create_axis_reducer_Ok op identity dtype Hreg a nd Hlt)
    as (r' & Hr' & _ & _ & Hret & _).
  rewrite Hr in Hr'. injection Hr' as <-.
  unfold careduce_axis. destruct (decide (ndim x = ar_ndim r)); [|reflexivity].
  rewrite Hret. destruct (decide (1 < nd)); destruct (decide (1 < ar_ndim r));
    reflexivity.
Qed.

(** Every valid axis tuple is folded in strictly descending order. *)
Lemma create_multiaxis_reducer_chain (axes : list Z) (ndim : nat) (ax : list nat) :
  normalize_axis_tuple axes (Z.of_nat ndim) = Ok ax →
  ∃ f, create_multiaxis_reducer op identity axes ndim dtype input_name false = Ok f
       ∧ ∀ x, call_reducer f x
              = as_array_result
                  (reduce_axis_by_axis op identity dtype (sorted_reverse ax) ndim
                     (VArr x)).
Proof.
  intros Hax.
  destruct (normalize_axis_tuple_Ok _ _ _ Hax) as (Hlen & Hnd & Hlt).
  destruct (sorted_reverse_strict ax Hnd) as [Hsorted Hperm].
  assert (Hfit : axes_fit (sorted_reverse ax) ndim).
  { apply axes_fit_sorted; [exact Hsorted|].
    intros a Ha. apply Hlt. rewrite <- Hperm. exact Ha. }
  unfold create_multiaxis_reducer.
  destruct (decide (length axes = 1)) as [Hone|Hmany].
  - destruct axes as [|a [|]]; try discriminate Hone.
    destruct ax as [|n [|]]; try discriminate Hlen.
    assert (Hn : normalize_axis_index a (Z.of_nat ndim) = Ok n).
    { unfold normalize_axis_tuple in Hax. cbn in Hax.
      destruct (normalize_axis_index a (Z.of_nat ndim)); cbn in Hax; [|discriminate].
      destruct (decide _); [|discriminate]. congruence. }
    assert (Hsort : sorted_reverse [n] = [n]).
    { apply Permutation_singleton_r. exact Hperm. }
    rewrite Hsort in *. destruct Hfit as [Hn_lt _].
    assert (Hsame : create_axis_reducer op identity a ndim dtype false false
                    = create_axis_reducer op identity (Z.of_nat n) ndim dtype false false).
    { unfold create_axis_reducer. rewrite Hn.
      rewrite normalize_axis_index_nat by exact Hn_lt. reflexivity. }
    cbn [lookup_total list_lookup_total]. rewrite Hsame.
    destruct (create_axis_reducer_Ok op identity dtype Hreg n ndim Hn_lt)
      as (r & Hr & _).
    rewrite Hr. eexists. split; [reflexivity|].
    intros x. cbn [call_reducer reduce_axis_by_axis]. rewrite Hr, bind_Ok.
    rewrite <- (careduce_axis_array n ndim r x Hn_lt Hr) at 1.
    unfold as_array_result. destruct (careduce_axis r x); reflexivity.
  - rewrite Hax, bind_Ok. unfold enumerate.
    destruct (multiaxis_loop_spec op identity dtype Hreg (sorted_reverse ax) 0 ∅ []
                input_name ndim Hfit) as (env' & Hloop & _ & Hrun).
    rewrite Hloop, bind_Ok. eexists. split; [reflexivity|].
    intros x. cbn [call_reducer]. unfold careduce.
    cbn [cf_globals cf_input_name cf_lines cf_return_var cf_item app].
    specialize (Hrun env' {[input_name := VArr x]} (VArr x)).
    destruct (reduce_axis_by_axis op identity dtype (sorted_reverse ax) ndim (VArr x))
      as [v'|e].
    + destruct Hrun as (locals' & Hfold & Hvar & _).
      * reflexivity.
      * intros j. apply lookup_singleton_ne. apply Hname.
      * apply lookup_singleton_eq.
      * assert (Hfresh : locals' !! "np" = None).
        { apply (run_lines_fresh env' "np" _ _ locals') in Hfold; [exact Hfold| |].
          - intros l Hl. apply built_lines_targets in Hl as [j Hj]. rewrite Hj.
            apply axis_res_name_not_np.
          - apply lookup_singleton_ne. exact Hnp. }
        rewrite Hfold, bind_Ok, Hfresh, Hvar. reflexivity.
    + rewrite Hrun; [reflexivity|reflexivity| |].
      * intros j. apply lookup_singleton_ne. apply Hname.
      * apply lookup_singleton_eq.
Qed.
End Descending.

(** C1.  For every registered operator kind the multi-axis reducer folds
    the requested axes one at a time in strictly descending axis order: for
    every valid axis tuple it is built, and calling it is applying the
    single-axis reducer once per axis of the tuple sorted in reverse, each on
    the result of the one before (a rank-[ndim] operand first, one axis less
    after each fold), followed by [np.asarray].  In particular, over all axes
    of a rank-[R] array the order is [R-1, ..., 1, 0], the result is that of
    the single-axis reducers applied in this order, and it is a rank-0
    array.  The parameter of the generated function is a name a parameter
    can have, and it is named neither like one of the generated reducers
    nor [np]: either name would hide a global the generated lines need. *)
Theorem create_multiaxis_reducer_descending {V : Type} `{ScalarOps V}
    (op : scalar_op) (identity : V) (dtype : dtype) (input_name : string)
    (Hreg : registered op = true)
    (Hparam : is_parameter_name input_name = true)
    (Hname : ∀ i, input_name ≠ careducer_axes_fn_name i)
    (Hnp : input_name ≠ "np") :
  (∀ (axes : list Z) (ndim : nat) (ax : list nat),
     normalize_axis_tuple axes (Z.of_nat ndim) = Ok ax →
     StronglySorted (λ a b, b < a) (sorted_reverse ax)
     ∧ sorted_reverse ax ≡ₚ ax
     ∧ ∃ f, create_multiaxis_reducer op identity axes ndim dtype input_name false = Ok f
            ∧ ∀ x, call_reducer f x
                   = as_array_result
                       (reduce_axis_by_axis op identity dtype (sorted_reverse ax) ndim
                          (VArr x)))
  ∧ (∀ R : nat,
       sorted_reverse (seq 0 R) = reverse (seq 0 R)
       ∧ ∃ f, create_multiaxis_reducer op identity (Z.of_nat <$> seq 0 R) R dtype
                input_name false = Ok f
              ∧ ∀ x, call_reducer f x
                     = as_array_result
                         (reduce_axis_by_axis op identity dtype (reverse (seq 0 R)) R
                            (VArr x))
                     ∧ (ndim x = R →
                        ∃ y, call_reducer f x = Ok (VArr y) ∧ shape y = [])).
Proof.
  split.
  - intros axes ndim ax Hax.
    destruct (normalize_axis_tuple_Ok _ _ _ Hax) as (_ & Hnd & _).
    destruct (sorted_reverse_strict ax Hnd) as [Hsorted Hperm].
    split; [exact Hsorted|]. split; [exact Hperm|].
    apply create_multiaxis_reducer_chain; assumption.
  - intros R. pose proof (sorted_reverse_seq R) as Hsort.
    split; [exact Hsort|].
    destruct (create_multiaxis_reducer_chain op identity dtype input_name Hreg Hname Hnp
                _ R _ (normalize_axis_tuple_all R)) as (f & Hf & Hcall).
    exists f. split; [exact Hf|]. intros x.
    rewrite Hcall, Hsort. split; [reflexivity|].
    intros Hx.
    assert (Hfit : axes_fit (reverse (seq 0 R)) R).
    { rewrite <- Hsort.
      destruct (sorted_reverse_strict (seq 0 R) (NoDup_seq 0 R)) as [Hs Hp].
      apply axes_fit_sorted; [exact Hs|].
      intros a Ha. rewrite Hp in Ha. apply elem_of_seq in Ha. lia. }
    destruct (reduce_axis_by_axis_rank op identity dtype Hreg _ R x Hfit Hx)
      as (y & Hy & Hrank).
    exists y. rewrite Hy. split; [reflexivity|].
    rewrite length_reverse, length_seq, Nat.sub_diag in Hrank.
    unfold ndim in Hrank. destruct (shape y); [reflexivity|discriminate].
Qed.

Lemma create_multiaxis_reducer_descending_witness :
  registered Add = true
  ∧ is_parameter_name "input" = true
  ∧ (∀ i, "input" ≠ careducer_axes_fn_name i)
  ∧ "input" ≠ "np"
  ∧ ∃ f, create_multiaxis_reducer (V:=Z) Add 0%Z [0; 1]%Z 2 int64 "input" false = Ok f
         ∧ call_reducer f m23
           = as_array_result (reduce_axis_by_axis Add 0%Z int64 [1; 0] 2 (VArr m23))
         ∧ call_reducer f m23 = Ok (VArr (mk_ndarray [] [21]%Z)).
Proof.
  assert (Hname : ∀ i, "input" ≠ careducer_axes_fn_name i).
  { intros i. unfold careducer_axes_fn_name. rewrite string_app_cons. discriminate. }
  assert (Hnp : "input" ≠ "np") by discriminate.
  assert (Hparam : is_parameter_name "input" = true) by (vm_compute; reflexivity).
  split; [reflexivity|]. split; [exact Hparam|]. split; [exact Hname|].
  split; [exact Hnp|].
  destruct (create_multiaxis_reducer_descending (V:=Z) Add 0%Z int64 "input"
              eq_refl Hparam Hname Hnp) as [_ Hall].
  destruct (Hall 2) as (_ & f & Hf & Hcall).
  exists f. split; [exact Hf|].
  destruct (Hcall m23) as [Heq _]. split; [exact Heq|].
  rewrite Heq. vm_compute. reflexivity.
Defined.

(** ** Shapes, indices and row-major order *)

Lemma shape_size_app (a b : list nat) :
  shape_size (a ++ b) = shape_size a * shape_size b.
Proof. induction a as [|n a IH]; cbn; [lia|]. rewrite IH. lia. Qed.

Lemma length_ndindex (sh : list nat) : length (ndindex sh) = shape_size sh.
Proof.
  induction sh as [|n sh IH]; [reflexivity|].
  cbn [ndindex shape_size]. generalize 0 as k.
  induction n as [|n IHn]; intros k; [reflexivity|].
  cbn [seq]. rewrite bind_cons, length_app, length_fmap, IH, IHn. cbn. lia.
Qed.

Lemma ndindex_elem_length (sh m : list nat) : m ∈ ndindex sh → length m = length sh.
Proof.
  revert m. induction sh as [|n sh IH]; intros m Hm.
  - cbn in Hm. apply list_elem_of_singleton in Hm. subst. reflexivity.
  - cbn [ndindex] in Hm. apply list_elem_of_bind in Hm as (i & Hm & _).
    apply list_elem_of_fmap in Hm as (m' & -> & Hm'). cbn. f_equal. apply IH, Hm'.
Qed.

Lemma ndindex_app (a b : list nat) :
  ndindex (a ++ b) = m ← ndindex a; (λ r, m ++ r) <$> ndindex b.
Proof.
  induction a as [|n a IH].
  - cbn. rewrite app_nil_r. symmetry. apply list_fmap_id.
  - cbn [app ndindex]. rewrite IH. generalize (seq 0 n) as l.
    induction l as [|i l IHl]; [reflexivity|].
    rewrite !bind_cons, bind_app, IHl. f_equal.
    generalize (ndindex a) as la. induction la as [|m la IHla]; [reflexivity|].
    cbn [fmap list_fmap]. rewrite !bind_cons, fmap_app, IHla. f_equal.
    rewrite <- list_fmap_compose. reflexivity.
Qed.

Lemma bind_seq_rows (c n k : nat) :
  (i ← seq k n; (λ j, i * c + j) <$> seq 0 c) = seq (k * c) (n * c).
Proof.
  revert k. induction n as [|n IH]; intros k; [reflexivity|].
  cbn [seq]. rewrite bind_cons, IH.
  replace ((λ j, k * c + j) <$> seq 0 c) with (seq (k * c) c).
  - replace (S n * c) with (c + n * c) by lia. rewrite seq_app. f_equal. f_equal. lia.
  - change (λ j, k * c + j) with (Nat.add (k * c)).
    rewrite fmap_add_seq, Nat.add_0_r. reflexivity.
Qed.

(** The row-major offsets of the indices of a shape, in the order of
    [np.ndindex], are 0, 1, 2, ... *)
Lemma ravel_ndindex (sh : list nat) : ravel sh <$> ndindex sh = seq 0 (shape_size sh).
Proof.
  induction sh as [|n sh IH]; [reflexivity|].
  cbn [ndindex shape_size].
  pose proof (bind_seq_rows (shape_size sh) n 0) as Hrows.
  rewrite Nat.mul_0_l in Hrows. rewrite <- Hrows. clear Hrows.
  generalize (seq 0 n) as l. induction l as [|i l IHl]; [reflexivity|].
  rewrite !bind_cons, fmap_app, IHl. f_equal.
  rewrite <- list_fmap_compose. rewrite <- IH, <- list_fmap_compose.
  apply list_fmap_ext. intros j m _. reflexivity.
Qed.

Lemma ravel_lookup (sh m : list nat) (j : nat) :
  ndindex sh !! j = Some m → ravel sh m = j.
Proof.
  intros Hj.
  assert (Hr : (ravel sh <$> ndindex sh) !! j = Some (ravel sh m)).
  { rewrite list_lookup_fmap, Hj. reflexivity. }
  rewrite ravel_ndindex in Hr. apply lookup_seq in Hr. lia.
Qed.

(** An array is the table of its own elements. *)
Lemma tabulate_getitem {V} (d : V) (a : ndarray V) :
  wf a → tabulate (shape a) (getitem d a) = a.
Proof.
  intros Hwf. destruct a as [sh dat]. unfold tabulate, getitem, wf in *. cbn in *.
  f_equal.
  transitivity ((λ i, default d (dat !! i)) <$> (ravel sh <$> ndindex sh)).
  { rewrite <- list_fmap_compose. reflexivity. }
  rewrite ravel_ndindex, <- Hwf. clear Hwf.
  induction dat as [|v dat IH] using rev_ind; [reflexivity|].
  rewrite length_app. cbn [length]. rewrite Nat.add_1_r, seq_S, fmap_app. cbn.
  rewrite lookup_app_r by lia. rewrite Nat.sub_diag. cbn. f_equal.
  rewrite <- IH at 2. apply list_fmap_ext. intros i j Hi.
  apply lookup_seq in Hi as [-> Hlt]. cbn. rewrite lookup_app_l by lia. reflexivity.
Qed.

Lemma source_index_seq (idx : list nat) :
  source_index (seq 0 (length idx)) idx = idx.
Proof.
  unfold source_index. rewrite length_seq.
  assert (Hgen : ∀ (l : list nat) (k : nat) (base : list nat),
            length base = k + length l →
            foldr (λ p src, <[p.1 := p.2]> src) base (zip (seq k (length l)) l)
            = take k base ++ l).
  { induction l as [|i l IH]; intros k base Hlen.
    - cbn. cbn in Hlen. rewrite Nat.add_0_r in Hlen. rewrite <- Hlen, firstn_all.
      rewrite app_nil_r. reflexivity.
    - cbn [length seq zip zip_with foldr fst snd].
      rewrite IH by (cbn in Hlen; lia).
      assert (Hk : k < length base) by (cbn in Hlen; lia).
      destruct (lookup_lt_is_Some_2 base k Hk) as [b Hb].
      rewrite (take_S_r _ _ _ Hb), <- app_assoc. cbn [app].
      rewrite insert_app_r_alt by (rewrite length_take; lia).
      rewrite length_take, Nat.min_l, Nat.sub_diag by lia. reflexivity. }
  rewrite (Hgen idx 0 (replicate (length idx) 0)) by (rewrite length_replicate; lia).
  rewrite take_0. reflexivity.
Qed.

Lemma lookup_total_seq_id (sh : list nat) :
  (λ ax, sh !!! ax) <$> seq 0 (length sh) = sh.
Proof.
  induction sh as [|n sh IH] using rev_ind; [reflexivity|].
  rewrite length_app. cbn [length]. rewrite Nat.add_1_r, seq_S, fmap_app. cbn.
  rewrite lookup_total_app_r by lia. rewrite Nat.sub_diag. cbn. f_equal.
  rewrite <- IH at 2. apply list_fmap_ext. intros i j Hi.
  apply lookup_seq in Hi as [-> Hlt]. cbn. rewrite lookup_total_app_l by lia. reflexivity.
Qed.

Lemma is_permutation_seq (n : nat) : is_permutation (seq 0 n) n = true.
Proof.
  unfold is_permutation. rewrite length_seq.
  rewrite bool_decide_eq_true_2 by reflexivity.
  rewrite (bool_decide_eq_true_2 (NoDup (seq 0 n))) by apply NoDup_seq.
  rewrite andb_true_r. cbn. apply forallb_forall. intros a Ha.
  apply in_seq in Ha. apply bool_decide_eq_true_2. lia.
Qed.

(** Transposing with the identity permutation changes nothing. *)
Lemma transpose_identity {V} (d : V) (a : ndarray V) :
  wf a → Np.transpose d a (seq 0 (ndim a)) = Ok a.
Proof.
  intros Hwf. unfold Np.transpose. rewrite is_permutation_seq.
  unfold ndim. rewrite lookup_total_seq_id. f_equal.
  etransitivity; [|apply (tabulate_getitem d a Hwf)]. unfold tabulate. f_equal.
  apply list_fmap_ext. intros i idx Hidx.
  assert (Hlen : length idx = length (shape a)).
  { apply ndindex_elem_length. apply list_elem_of_lookup. eauto. }
  rewrite <- Hlen, source_index_seq. reflexivity.
Qed.

(** ** Filling a buffer in index order, and reading rows *)

Lemma fmap_Ok {A B} (f : A → B) (a : A) : f <$> Ok a = Ok (f a).
Proof. reflexivity. Qed.

Lemma foldlM_fill_list {I W} (pos : I → nat) (g : I → result W) (w0 : W) (l : list I) :
  ∀ pre : list W,
    pos <$> l = seq (length pre) (length l) →
    foldlM (λ buf m, v ← g m; Ok (<[pos m := v]> buf)) (pre ++ replicate (length l) w0) l
    = (λ vs, pre ++ vs) <$> mapM g l.
Proof.
  induction l as [|m l IH]; intros pre Hpos.
  - cbn. rewrite app_nil_r. reflexivity.
  - cbn [fmap list_fmap length seq] in Hpos. injection Hpos as Hm Hrest.
    cbn [foldlM length replicate mapM].
    destruct (g m) as [v|e]; [|reflexivity].
    rewrite !bind_Ok. rewrite Hm.
    rewrite insert_app_r_alt by lia. rewrite Nat.sub_diag.
    change (<[0:=v]> (w0 :: replicate (length l) w0))
      with (v :: replicate (length l) w0).
    replace (pre ++ v :: replicate (length l) w0)
      with ((pre ++ [v]) ++ replicate (length l) w0)
      by (rewrite <- app_assoc; reflexivity).
    rewrite IH by (rewrite length_app; cbn; rewrite Nat.add_1_r; exact Hrest).
    cbn. destruct (mapM g l) as [vs|e]; cbn; [|reflexivity].
    rewrite <- app_assoc. reflexivity.
Qed.

Lemma foldlM_setitem {W} (sh : list nat) (g : list nat → result W) (l : list (list nat)) :
  ∀ buf : list W,
    foldlM (λ res m, v ← g m; Ok (setitem res m v)) (mk_ndarray sh buf) l
    = mk_ndarray sh <$> foldlM (λ buf m, v ← g m; Ok (<[ravel sh m := v]> buf)) buf l.
Proof.
  induction l as [|m l IH]; intros buf; [reflexivity|].
  cbn [foldlM]. destruct (g m) as [v|e]; [|reflexivity].
  rewrite !bind_Ok. unfold setitem at 1. cbn [shape data]. apply IH.
Qed.

(** Writing [g m] at every index [m], in the order of [np.ndindex], into
    a fresh buffer gives the table of [g]. *)
Lemma foldlM_fill {W} (sh : list nat) (g : list nat → result W) (w0 : W) :
  foldlM (λ res m, v ← g m; Ok (setitem res m v)) (full sh w0) (ndindex sh)
  = mk_ndarray sh <$> mapM g (ndindex sh).
Proof.
  unfold full. rewrite foldlM_setitem. rewrite <- length_ndindex.
  pose proof (foldlM_fill_list (ravel sh) g w0 (ndindex sh) []) as Hfill.
  cbn [app length] in Hfill. rewrite Hfill.
  - destruct (mapM g (ndindex sh)); reflexivity.
  - rewrite ravel_ndindex, length_ndindex. reflexivity.
Qed.

Lemma mapM_result_ext {A B} (f g : A → result B) (l : list A) :
  (∀ a, a ∈ l → f a = g a) → mapM f l = mapM g l.
Proof.
  induction l as [|a l IH]; intros Hfg; [reflexivity|].
  cbn. rewrite (Hfg a) by set_solver.
  rewrite IH by (intros b Hb; apply Hfg; set_solver). reflexivity.
Qed.

Lemma fmap_bind_list {A B C} (f : B → C) (h : A → list B) (l : list A) :
  f <$> (l ≫= h) = l ≫= (λ a, f <$> h a).
Proof.
  induction l as [|a l IH]; [reflexivity|].
  rewrite !bind_cons, fmap_app, IH. reflexivity.
Qed.

(** The [i]-th chunk of a concatenation of chunks of length [c]. *)
Lemma bind_chunk {A B} (h : A → list B) (c : nat) (l : list A) :
  (∀ x, x ∈ l → length (h x) = c) →
  ∀ i a, l !! i = Some a → take c (drop (i * c) (l ≫= h)) = h a.
Proof.
  induction l as [|x l IH]; intros Hlen i a Hi; [discriminate|].
  rewrite bind_cons. assert (Hx : length (h x) = c) by (apply Hlen; set_solver).
  destruct i as [|i].
  - cbn in Hi. injection Hi as <-. cbn [Nat.mul]. rewrite drop_0.
    apply take_app_length'. symmetry. exact Hx.
  - cbn in Hi. rewrite drop_app, drop_ge by (rewrite Hx; cbn; lia).
    rewrite Hx. replace (S i * c - c) with (i * c) by (cbn; lia).
    cbn [app]. apply IH; [|exact Hi]. intros y Hy. apply Hlen. set_solver.
Qed.

Lemma getrow_reshaped {V} (F : list nat → V) (kept red m : list nat) :
  m ∈ ndindex kept →
  getrow (mk_ndarray (kept ++ [shape_size red]) (F <$> ndindex (kept ++ red))) m
  = (λ r, F (m ++ r)) <$> ndindex red.
Proof.
  intros Hm. unfold getrow. cbn [shape data].
  rewrite last_last, removelast_last, ndindex_app, fmap_bind_list.
  apply list_elem_of_lookup in Hm as [j Hj].
  rewrite (ravel_lookup kept m j Hj).
  erewrite (bind_chunk _ (shape_size red) (ndindex kept)); [|..|exact Hj].
  - rewrite <- list_fmap_compose. reflexivity.
  - intros x _. rewrite !length_fmap. apply length_ndindex.
Qed.

Lemma foldl_mul_shape_size (l : list nat) (c : nat) :
  foldl (λ reduced_size s, reduced_size * s) c l = c * shape_size l.
Proof.
  revert c. induction l as [|n l IH]; intros c; cbn; [lia|]. rewrite IH. lia.
Qed.

Lemma filter_ne_seq (m : nat) : filter (λ i, i ≠ m) (seq 0 (S m)) = seq 0 m.
Proof.
  rewrite seq_S, filter_app. cbn [Nat.add].
  rewrite (filter_cons_False _ m []) by (intros Hn; apply Hn; reflexivity).
  rewrite filter_nil, app_nil_r.
  assert (Hgen : ∀ k j, j + k ≤ m → filter (λ i, i ≠ m) (seq j k) = seq j k).
  { induction k as [|k IH]; intros j Hj; [reflexivity|].
    cbn [seq]. rewrite filter_cons_True by lia. f_equal. apply IH. lia. }
  apply Hgen. lia.
Qed.

(** The kept axes followed by the reduced axes are a permutation of the
    axes. *)
Lemma keep_axes_permutation (n : nat) (axes : list nat) :
  NoDup axes → (∀ a, a ∈ axes → a < n) →
  is_permutation (filter (λ i, i ∉ axes) (seq 0 n) ++ axes) n = true
  ∧ length (filter (λ i, i ∉ axes) (seq 0 n)) + length axes = n.
Proof.
  intros Hnd Hlt. set (keep := filter (λ i, i ∉ axes) (seq 0 n)).
  assert (Hin : filter (λ i, i ∈ axes) (seq 0 n) ≡ₚ axes).
  { apply NoDup_Permutation; [apply NoDup_filter, NoDup_seq|exact Hnd|].
    intros x. rewrite list_elem_of_filter, elem_of_seq. split; [tauto|].
    intros Hx. split; [exact Hx|]. apply Hlt in Hx. lia. }
  assert (Hlen : length keep + length axes = n).
  { pose proof (filter_app_complement (λ i, i ∈ axes) (seq 0 n)) as Hp.
    apply Permutation_length in Hp. rewrite length_app, length_seq in Hp.
    rewrite Hin in Hp. subst keep. lia. }
  split; [|exact Hlen]. unfold is_permutation.
  rewrite length_app, Hlen, bool_decide_eq_true_2 by reflexivity.
  rewrite (bool_decide_eq_true_2 (NoDup (keep ++ axes))).
  - rewrite andb_true_r. cbn. apply forallb_forall. intros a Ha.
    apply bool_decide_eq_true_2. apply list_elem_of_In in Ha.
    apply elem_of_app in Ha as [Ha|Ha]; [|apply Hlt, Ha].
    subst keep. apply list_elem_of_filter in Ha as [_ Ha].
    apply elem_of_seq in Ha. lia.
  - apply NoDup_app. split_and!; [apply NoDup_filter, NoDup_seq| |exact Hnd].
    intros x Hx. subst keep. apply list_elem_of_filter in Hx as [Hx _]. exact Hx.
Qed.

(** ** Argmax *)

(** C8.  The Argmax kernel returns the constant index 0 for every rank-0
    input.  For an input of rank at least 1 it moves the kept axes to the
    front, flattens the reduced axes into one trailing axis, and returns,
    for every coordinate of the kept axes, the position of the first
    maximum within the block of all elements at that coordinate, the block
    being laid out in row-major order of the reduced axes: a joint argmax
    over the reduced axes (an empty block has no maximum and raises). *)
Theorem numba_funcify_Argmax_joint {V : Type} `{ScalarOps V}
    (op : Argmax) (node : Apply) (x_at : TensorVariable) :
  first (inputs node) = Ok x_at →
  (v_ndim x_at = 0 →
   ∃ f, numba_funcify_Argmax op node = Ok f ∧ ∀ x : ndarray V, f x = Ok (AmConst 0))
  ∧ (v_ndim x_at ≠ 0 → NoDup (am_axis op) →
     (∀ a, a ∈ am_axis op → a < v_ndim x_at) →
     ∃ f, numba_funcify_Argmax op node = Ok f
          ∧ ∀ x : ndarray V, wf x → ndim x = v_ndim x_at →
              f x = AmArr <$> joint_argmax x (am_axis op)).
Proof.
  intros Hin. unfold numba_funcify_Argmax. rewrite Hin, bind_Ok. split.
  - intros Hzero. destruct (decide _) as [_|Hn]; [|contradiction].
    eexists. split; [reflexivity|]. intros x. reflexivity.
  - intros Hrank Hnd Hlt. destruct (decide _) as [Hz|_]; [contradiction|].
    set (n := v_ndim x_at) in *. set (axes := am_axis op) in *.
    set (keep := filter (λ i, i ∉ axes) (seq 0 n)).
    destruct (keep_axes_permutation n axes Hnd Hlt) as [Hperm Hlen].
    fold keep in Hperm, Hlen.
    replace (Z.of_nat n - Z.of_nat (length axes) + 1)%Z
      with (Z.of_nat (S (length keep))) by lia.
    replace (Z.of_nat (S (length keep)) - 1)%Z with (Z.of_nat (length keep)) by lia.
    unfold create_axis_apply_fn.
    rewrite normalize_axis_index_nat by lia. rewrite !bind_Ok.
    rewrite Nat2Z.id, filter_ne_seq.
    replace (seq 0 (length keep) ++ [length keep]) with (seq 0 (S (length keep)))
      by (rewrite seq_S; reflexivity).
    eexists. split; [reflexivity|].
    intros x Hwf Hx. cbv beta.
    unfold joint_argmax. rewrite Hx. fold keep.
    set (kept := (λ ax, shape x !!! ax) <$> keep).
    set (red := (λ ax, shape x !!! ax) <$> axes).
    set (F := λ idx, getitem s_zero x (source_index (keep ++ axes) idx)).
    assert (Htr : Np.transpose s_zero x (keep ++ axes)
                  = Ok (tabulate (kept ++ red) F)).
    { unfold Np.transpose. rewrite Hx, Hperm, fmap_app. reflexivity. }
    rewrite Htr, fmap_Ok, bind_Ok. unfold ascontiguousarray. cbn [shape tabulate].
    assert (Hklen : length kept = length keep) by (subst kept; apply length_fmap).
    rewrite take_app_length', drop_app_length' by (symmetry; exact Hklen).
    rewrite foldl_mul_shape_size, Nat.mul_1_l.
    set (reshaped := mk_ndarray (kept ++ [shape_size red]) (F <$> ndindex (kept ++ red))).
    assert (Hre : reshape (tabulate (kept ++ red) F) (kept ++ [shape_size red])
                  = Ok reshaped).
    { unfold reshape, tabulate. cbn [data].
      destruct (decide _) as [_|Hne]; [reflexivity|]. exfalso. apply Hne.
      rewrite length_fmap, length_ndindex, !shape_size_app. cbn. lia. }
    rewrite Hre, bind_Ok.
    assert (Hwf' : wf reshaped).
    { unfold wf, reshaped. cbn [data shape].
      rewrite length_fmap, length_ndindex, !shape_size_app. cbn. lia. }
    assert (Hnd' : ndim reshaped = S (length keep)).
    { unfold ndim, reshaped. cbn [shape]. rewrite length_app, Hklen. cbn. lia. }
    rewrite <- Hnd', (transpose_identity s_zero reshaped Hwf'), bind_Ok.
    assert (Hsh : removelast (shape reshaped) = kept).
    { unfold reshaped. cbn [shape]. apply removelast_last. }
    rewrite Hsh. cbn [shape full].
    rewrite (foldlM_fill kept (λ m, Np.argmax (getrow reshaped m)) 0).
    rewrite (mapM_result_ext _ (λ k, Np.argmax (reduced_block x keep axes k))).
    + destruct (mapM _ (ndindex kept)); reflexivity.
    + intros m Hm. f_equal. unfold reshaped.
      rewrite (getrow_reshaped F kept red m Hm). reflexivity.
Qed.

Lemma numba_funcify_Argmax_joint_witness :
  first (inputs argmax_node) = Ok cube_var
  ∧ v_ndim cube_var ≠ 0
  ∧ NoDup [0; 2]
  ∧ (∀ a, a ∈ [0; 2] → a < v_ndim cube_var)
  ∧ wf cube
  ∧ ∃ f, numba_funcify_Argmax {| am_axis := [0; 2] |} argmax_node = Ok f
         ∧ f cube = AmArr <$> joint_argmax cube [0; 2]
         ∧ f cube = Ok (AmArr (mk_ndarray [3] [1; 3; 2])).
Proof.
  assert (Hrank : v_ndim cube_var ≠ 0) by (vm_compute; lia).
  assert (Hnd : NoDup [0; 2]).
  { apply NoDup_cons. split; [set_solver|]. apply NoDup_singleton. }
  assert (Hlt : ∀ a, a ∈ [0; 2] → a < v_ndim cube_var).
  { intros a Ha. apply list_elem_of_In in Ha. simpl in Ha. vm_compute.
    destruct Ha as [<-|[<-|[]]]; lia. }
  split; [reflexivity|]. split; [exact Hrank|]. split; [exact Hnd|].
  split; [exact Hlt|]. split; [reflexivity|].
  destruct (numba_funcify_Argmax_joint (V:=Z) {| am_axis := [0; 2] |} argmax_node
              cube_var eq_refl) as [_ Hjoint].
  destruct (Hjoint Hrank Hnd Hlt) as (f & Hf & Hcall).
  exists f. split; [exact Hf|].
  pose proof (Hcall cube eq_refl eq_refl) as Heq.
  split; [exact Heq|]. rewrite Heq. vm_compute. reflexivity.
Defined.

(** ** The generated source of the single-axis reducers *)

Example careduce_axis_src_mean_vector :
  ar_src <$> create_axis_reducer (V:=Z) Mean 0%Z 0%Z 1 float64 false false
  = Ok (join nl [
      "";
      "def careduce_axis(x):";
      "";
      "    res = np.full(1, numba_basic.to_scalar(0), dtype=out_dtype)";
      "";
      "    axis_shape = x.shape[0]";
      "";
      "    for i in range(axis_shape):";
      "        res[0] += (x[i] - res[0]) / (i + 1)";
      "";
      "    return np.asarray(res.item())";
      "        "
    ]).
Proof. vm_compute. reflexivity. Qed.

Example careduce_axis_src_max_middle_axis :
  ar_src <$> create_axis_reducer (V:=Z) ScalarMaximum (-128)%Z (-2)%Z 3 int8 true false
  = Ok (join nl [
      "";
      "def careduce_axis(x):";
      "";
      "    x_shape = np.shape(x)";
      "    res_shape = res_shape_tuple_ctor(x_shape)";
      "    res = np.full(res_shape, numba_basic.to_scalar(-128), dtype=out_dtype)";
      "";
      "    axis_shape = x.shape[1]";
      "";
      "    for idx_arr in np.ndindex(res_shape):";
      "        for i in range(axis_shape):";
      "";
      "            if res[idx_arr[0], idx_arr[1]] < x[idx_arr[0], i, idx_arr[1]]:";
      "                res[idx_arr[0], idx_arr[1]] = x[idx_arr[0], i, idx_arr[1]]";
      "";
      "";
      "    return np.expand_dims(res, 1)";
      "        "
    ]).
Proof. vm_compute. reflexivity. Qed.

(** In every generated reducer the update statement is the body of a
    loop [for i in range(axis_shape)]: the counter the running-mean
    statement reads is bound, and counts from 0. *)
Lemma create_axis_reducer_binds_counter {V : Type} `{ScalarOps V}
    (op : scalar_op) (identity : V) (axis : Z) (ndim : nat) (dtype : dtype)
    (keepdims return_scalar : bool) (r : axis_reducer V) :
  create_axis_reducer op identity axis ndim dtype keepdims return_scalar = Ok r →
  ∃ before after margin idx arr code,
    scalar_in_place_fn op idx "res" arr = Ok code
    ∧ ar_src r = (before +:+ "for i in range(axis_shape):" +:+ nl
                  +:+ indent code margin +:+ after)%string.
Proof.
  unfold create_axis_reducer.
  destruct (normalize_axis_index axis (Z.of_nat ndim)) as [a|]; [|discriminate].
  rewrite bind_Ok. destruct (decide (1 < ndim)).
  - destruct (index_lists a ndim) as [ri ai].
    destruct (scalar_in_place_fn op _ "res" _) as [code|] eqn:Hcode; [|discriminate].
    destruct (in_place_stmt op) as [s|]; [|discriminate].
    rewrite !bind_Ok. intros [= <-]. cbn [ar_src].
    match goal with
    | |- context [careduce_axis_src_nd ?id ?ax ?st ?ret] =>
        exists (join nl [
                  "";
                  "def careduce_axis(x):";
                  "";
                  "    x_shape = np.shape(x)";
                  "    res_shape = res_shape_tuple_ctor(x_shape)";
                  "    res = np.full(res_shape, numba_basic.to_scalar(" +:+ id
                    +:+ "), dtype=out_dtype)";
                  "";
                  "    axis_shape = x.shape[" +:+ str_nat ax +:+ "]";
                  "";
                  "    for idx_arr in np.ndindex(res_shape):";
                  "        "
                ])%string,
               (join nl [""; ""; "    return " +:+ ret; "        "])%string,
               "            "
    end.
    eexists _, _, code. split; [exact Hcode|].
    unfold careduce_axis_src_nd. cbn [join].
    rewrite !string_app_assoc. reflexivity.
  - destruct (scalar_in_place_fn op "0" "res" "x[i]") as [code|] eqn:Hcode;
      [|discriminate].
    destruct (in_place_stmt op) as [s|]; [|discriminate].
    rewrite !bind_Ok. intros [= <-]. cbn [ar_src].
    match goal with
    | |- context [careduce_axis_src_1d ?id ?ax ?st ?ret] =>
        exists (join nl [
                  "";
                  "def careduce_axis(x):";
                  "";
                  "    res = np.full(1, numba_basic.to_scalar(" +:+ id
                    +:+ "), dtype=out_dtype)";
                  "";
                  "    axis_shape = x.shape[" +:+ str_nat ax +:+ "]";
                  "";
                  "    "
                ])%string,
               (join nl [""; ""; "    return " +:+ ret; "        "])%string,
               "        "
    end.
    eexists _, _, code. split; [exact Hcode|].
    unfold careduce_axis_src_1d. cbn [join].
    rewrite !string_app_assoc. reflexivity.
Qed.

(* ===================================================================== *)
(** * Further properties of the embedded code                             *)
(* ===================================================================== *)

(** ** [broadcast_static_dim_lengths]: edge cases and composition *)
Lemma next_iter_empty : next_iter ∅ = Raise StopIteration.
Proof. unfold next_iter. rewrite elements_empty. reflexivity. Qed.

(** The outcome of a call, read off the known entries other than 1. *)
Lemma broadcast_static_dim_lengths_core (l : list dim_length) :
  broadcast_static_dim_lengths l
  = if decide (1 < size (known_core l)) then Raise (ValueError "")
    else if decide (size (known_core l) = 1) then next_iter (known_core l)
    else if decide (l = []) then Raise StopIteration
    else if decide (None ∈ l) then Ok None else Ok (Some 1).
Proof.
  unfold broadcast_static_dim_lengths. fold (known_core l).
  set (S := list_to_set l : gset dim_length).
  assert (HKS : known_core l ⊆ S) by (unfold known_core; set_solver).
  destruct (decide (1 < size (known_core l))) as [Hgt|Hle].
  - pose proof (subseteq_size _ _ HKS) as Hsz.
    destruct (decide (size S = 1)) as [?|_]; [lia|].
    destruct (decide (S = {[None; Some 1]})) as [HS|_]; [|reflexivity].
    exfalso. assert (known_core l = ∅) as HK.
    { unfold known_core. fold S. rewrite HS. set_solver. }
    rewrite HK, size_empty in Hgt. lia.
  - destruct (decide (size (known_core l) = 1)) as [H1|H0].
    + destruct (size_one_singleton _ H1) as [x Hx].
      destruct (decide (size S = 1)) as [HS1|_].
      * destruct (size_one_singleton _ HS1) as [y Hy].
        rewrite Hx, Hy, !next_iter_singleton.
        rewrite Hx, Hy in HKS. f_equal. set_solver.
      * destruct (decide (S = {[None; Some 1]})) as [HS|_]; [|reflexivity].
        exfalso. assert (known_core l = ∅) as HK.
        { unfold known_core. fold S. rewrite HS. set_solver. }
        rewrite HK, size_empty in H1. lia.
    + assert (known_core l = ∅) as HK.
      { apply leibniz_equiv, size_empty_inv. lia. }
      assert (HS : ∀ x, x ∈ S → x = None ∨ x = Some 1).
      { intros x Hx. destruct (decide (x = None)) as [|Hn]; [left; assumption|].
        destruct (decide (x = Some 1)) as [|Hn1]; [right; assumption|].
        exfalso. assert (x ∈ known_core l) by (unfold known_core; fold S; set_solver).
        set_solver. }
      rewrite HK.
      destruct (decide (l = [])) as [->|Hne].
      * subst S. cbn. rewrite size_empty.
        destruct (decide (0 = 1)); [lia|].
        destruct (decide (∅ = _)) as [He|_]; [set_solver|]. apply next_iter_empty.
      * destruct (decide (None ∈ l)) as [HN|HN].
        -- destruct (decide (Some 1 ∈ l)) as [H1l|H1l].
           ++ assert (S = {[None; Some 1]}) as ->.
              { apply set_eq. intros x. split.
                - intros Hx. destruct (HS x Hx) as [->| ->]; set_solver.
                - subst S. set_solver. }
              rewrite size_union by set_solver. rewrite !size_singleton.
              destruct (decide (1 + 1 = 1)); [lia|].
              destruct (decide _) as [_|Hc]; [reflexivity|contradiction].
           ++ assert (S = {[None]}) as ->.
              { apply set_eq. intros x. split.
                - intros Hx. destruct (HS x Hx) as [->| ->]; [set_solver|].
                  subst S. set_solver.
                - subst S. set_solver. }
              rewrite size_singleton. destruct (decide (1 = 1)); [|lia].
              apply next_iter_singleton.
        -- assert (S = {[Some 1]}) as ->.
           { apply set_eq. intros x. split.
             - intros Hx. destruct (HS x Hx) as [->| ->]; [|set_solver].
               subst S. set_solver.
             - intros Hx. assert (x = Some 1) as -> by set_solver.
               destruct l as [|y l]; [contradiction|].
               assert (y ∈ S) as Hy by (subst S; set_solver).
               destruct (HS y Hy) as [->| ->]; [set_solver|]. subst S. set_solver. }
           rewrite size_singleton. destruct (decide (1 = 1)); [|lia].
           apply next_iter_singleton.
Qed.

Lemma known_core_app (xs ys : list dim_length) :
  known_core (xs ++ ys) = known_core xs ∪ known_core ys.
Proof. unfold known_core. rewrite list_to_set_app_L. set_solver. Qed.

Lemma known_core_cons (a : dim_length) (ys : list dim_length) :
  known_core (a :: ys) = known_core [a] ∪ known_core ys.
Proof. apply (known_core_app [a] ys). Qed.

Lemma known_core_elem (l : list dim_length) (x : dim_length) :
  x ∈ known_core l ↔ x ∈ l ∧ x ≠ Some 1 ∧ x ≠ None.
Proof. unfold known_core. set_solver. Qed.

(** What a successful call returns, read off the core. *)
Lemma broadcast_static_dim_lengths_Ok (l : list dim_length) (d : dim_length) :
  broadcast_static_dim_lengths l = Ok d →
  (known_core l = {[d]})
  ∨ (known_core l = ∅ ∧ l ≠ [] ∧ d = if decide (None ∈ l) then None else Some 1).
Proof.
  rewrite broadcast_static_dim_lengths_core.
  destruct (decide (1 < _)); [discriminate|].
  destruct (decide (size _ = 1)) as [H1|H0].
  - destruct (size_one_singleton _ H1) as [x Hx]. rewrite Hx, next_iter_singleton.
    intros [= <-]. left. reflexivity.
  - assert (known_core l = ∅) as HK by (apply leibniz_equiv, size_empty_inv; lia).
    destruct (decide (l = [])); [discriminate|].
    destruct (decide (None ∈ l)); intros [= <-]; right; split_and!; done.
Qed.

(** X1.  [broadcast_static_dim_lengths] of the empty sequence does not
    return and does not raise [ValueError]: the final [next(iter(...))] runs
    on an empty set and raises [StopIteration].  The empty sequence is the
    only input with this outcome. *)
Theorem broadcast_static_dim_lengths_empty (l : list dim_length) :
  broadcast_static_dim_lengths l = Raise StopIteration ↔ l = [].
Proof.
  rewrite broadcast_static_dim_lengths_core.
  destruct (decide (1 < _)); [split; [discriminate|intros ->; cbn in *]|].
  { unfold known_core in *. cbn in *. 
    replace ((∅ ∖ {[Some 1]} ∖ {[None]}) : gset dim_length) with (∅ : gset dim_length) in * by set_solver.
    rewrite size_empty in *. lia. }
  destruct (decide (size _ = 1)) as [H1|H0].
  - destruct (size_one_singleton _ H1) as [x Hx]. rewrite Hx, next_iter_singleton.
    split; [discriminate|]. intros ->. exfalso.
    assert (x ∈ known_core []) as Hin by (rewrite Hx; set_solver).
    apply known_core_elem in Hin as [Hin _]. inversion Hin.
  - destruct (decide (l = [])) as [->|Hne]; [done|].
    destruct (decide (None ∈ l)); split; try discriminate; contradiction.
Qed.

(** X2.  Whatever [broadcast_static_dim_lengths] returns is one of the
    given entries, and every given entry is that result, the length 1, or
    unknown: the function never invents a length and never returns a length
    that a known entry other than 1 contradicts. *)
Theorem broadcast_static_dim_lengths_sound (l : list dim_length) (d : dim_length) :
  broadcast_static_dim_lengths l = Ok d →
  d ∈ l ∧ ∀ x, x ∈ l → x = d ∨ x = Some 1 ∨ x = None.
Proof.
  intros Hd. destruct (broadcast_static_dim_lengths_Ok l d Hd) as [HK|(HK & Hne & ->)].
  - split.
    + assert (d ∈ known_core l) as Hin by (rewrite HK; set_solver).
      apply known_core_elem in Hin. tauto.
    + intros x Hx. destruct (decide (x = Some 1)) as [|H1]; [tauto|].
      destruct (decide (x = None)) as [|HN]; [tauto|]. left.
      assert (x ∈ known_core l) as Hin by (apply known_core_elem; tauto).
      rewrite HK in Hin. set_solver.
  - assert (Hall : ∀ x, x ∈ l → x = None ∨ x = Some 1).
    { intros x Hx. destruct (decide (x = Some 1)) as [|H1]; [tauto|].
      destruct (decide (x = None)) as [|HN]; [tauto|]. exfalso.
      assert (x ∈ known_core l) as Hin by (apply known_core_elem; tauto).
      rewrite HK in Hin. set_solver. }
    destruct (decide (None ∈ l)) as [HN|HN].
    + split; [exact HN|]. intros x Hx. destruct (Hall x Hx); tauto.
    + destruct l as [|y l]; [contradiction|].
      assert (y = Some 1) as ->.
      { destruct (Hall y) as [->| ->]; [left| |reflexivity]. exfalso. apply HN. left. }
      split; [left|]. intros x Hx. destruct (Hall x Hx); tauto.
Qed.

Lemma broadcast_static_dim_lengths_sound_witness :
  broadcast_static_dim_lengths [Some 3; None; Some 1] = Ok (Some 3)
  ∧ Some 3 ∈ [Some 3; None; Some 1]
  ∧ ∀ x, x ∈ [Some 3; None; Some 1] → x = Some 3 ∨ x = Some 1 ∨ x = None.
Proof.
  assert (Hcall : broadcast_static_dim_lengths [Some 3; None; Some 1] = Ok (Some 3))
    by (vm_compute; reflexivity).
  split; [exact Hcall|].
  exact (broadcast_static_dim_lengths_sound [Some 3; None; Some 1] (Some 3) Hcall).
Defined.

(** The result depends on the core, on emptiness and on the presence of
    [None] only. *)
Lemma broadcast_static_dim_lengths_ext (l1 l2 : list dim_length) :
  known_core l1 = known_core l2 →
  (known_core l1 = ∅ → (l1 = [] ↔ l2 = []) ∧ (None ∈ l1 ↔ None ∈ l2)) →
  broadcast_static_dim_lengths l1 = broadcast_static_dim_lengths l2.
Proof.
  intros HK Hrest. rewrite !broadcast_static_dim_lengths_core, <- HK.
  destruct (decide (1 < _)); [reflexivity|].
  destruct (decide (size _ = 1)) as [H1|H0]; [reflexivity|].
  assert (known_core l1 = ∅) as HK0 by (apply leibniz_equiv, size_empty_inv; lia).
  destruct (Hrest HK0) as [He HN].
  destruct (decide (l1 = [])), (decide (l2 = [])); try tauto.
  destruct (decide (None ∈ l1)), (decide (None ∈ l2)); tauto.
Qed.

(** X3.  Static broadcasting can be done piece by piece: when a prefix
    broadcasts to [a], the whole sequence has the outcome of [a] followed by
    the rest; when a prefix raises [ValueError], so does the whole sequence;
    and the outcome does not depend on the order of the entries. *)
Theorem broadcast_static_dim_lengths_composes (xs ys : list dim_length) :
  (∀ a, broadcast_static_dim_lengths xs = Ok a →
        broadcast_static_dim_lengths (xs ++ ys) = broadcast_static_dim_lengths (a :: ys))
  ∧ (broadcast_static_dim_lengths xs = Raise (ValueError "") →
     broadcast_static_dim_lengths (xs ++ ys) = Raise (ValueError ""))
  ∧ (xs ≡ₚ ys → broadcast_static_dim_lengths xs = broadcast_static_dim_lengths ys).
Proof.
  split_and!.
  - intros a Ha. destruct (broadcast_static_dim_lengths_Ok xs a Ha) as [HK|(HK & Hne & Hd)].
    + assert (known_core [a] = {[a]}) as HKa.
      { assert (a ∈ known_core xs) as Hin by (rewrite HK; set_solver).
        apply known_core_elem in Hin as (_ & H1 & HN).
        apply set_eq. intros x. rewrite known_core_elem. set_solver. }
      apply broadcast_static_dim_lengths_ext.
      * rewrite known_core_app, known_core_cons, HK, HKa. reflexivity.
      * rewrite known_core_app, HK. set_solver.
    + assert (known_core [a] = ∅) as HKa.
      { apply set_eq. intros x. rewrite known_core_elem. 
        destruct (decide (None ∈ xs)); subst a; set_solver. }
      apply broadcast_static_dim_lengths_ext.
      * rewrite known_core_app, known_core_cons, HK, HKa. reflexivity.
      * intros _. split.
        -- split; [|discriminate]. intros Happ. apply app_eq_nil in Happ. tauto.
        -- rewrite elem_of_app, elem_of_cons.
           destruct (decide (None ∈ xs)) as [HN|HN]; subst a; [tauto|].
           split; [intros [?|?]; [contradiction|tauto]|intros [?|?]; [discriminate|tauto]].
  - rewrite !broadcast_static_dim_lengths_core, known_core_app.
    destruct (decide (1 < size (known_core xs))) as [Hgt|Hle].
    + intros _. destruct (decide _) as [|Hn]; [reflexivity|].
      exfalso. apply Hn. eapply Nat.lt_le_trans; [exact Hgt|].
      apply subseteq_size. set_solver.
    + destruct (decide (size _ = 1)) as [H1|H0].
      * destruct (size_one_singleton _ H1) as [x Hx]. rewrite Hx, next_iter_singleton.
        discriminate.
      * destruct (decide (xs = [])); [discriminate|].
        destruct (decide (None ∈ xs)); discriminate.
  - intros Hp. apply broadcast_static_dim_lengths_ext.
    + unfold known_core. f_equal. f_equal. apply set_eq. intros x.
      rewrite !elem_of_list_to_set. rewrite Hp. reflexivity.
    + intros _. split.
      * split; intros ->; [|symmetry in Hp]; apply Permutation_nil in Hp; done.
      * rewrite Hp. reflexivity.
Qed.

Lemma broadcast_static_dim_lengths_composes_witness :
  broadcast_static_dim_lengths [None; Some 1] = Ok None
  ∧ broadcast_static_dim_lengths ([None; Some 1] ++ [Some 5])
    = broadcast_static_dim_lengths [None; Some 5]
  ∧ broadcast_static_dim_lengths [Some 2; Some 3] = Raise (ValueError "")
  ∧ broadcast_static_dim_lengths ([Some 2; Some 3] ++ [Some 1]) = Raise (ValueError "")
  ∧ ([Some 2; None] : list dim_length) ≡ₚ [None; Some 2]
  ∧ broadcast_static_dim_lengths [Some 2; None]
    = broadcast_static_dim_lengths [None; Some 2].
Proof.
  assert (Hok : broadcast_static_dim_lengths [None; Some 1] = Ok None)
    by (vm_compute; reflexivity).
  assert (Hraise : broadcast_static_dim_lengths [Some 2; Some 3] = Raise (ValueError ""))
    by (vm_compute; reflexivity).
  assert (Hperm : ([Some 2; None] : list dim_length) ≡ₚ [None; Some 2])
    by apply perm_swap.
  destruct (broadcast_static_dim_lengths_composes [None; Some 1] [Some 5])
    as (Hinc & _ & _).
  destruct (broadcast_static_dim_lengths_composes [Some 2; Some 3] [Some 1])
    as (_ & Herr & _).
  destruct (broadcast_static_dim_lengths_composes [Some 2; None] [None; Some 2])
    as (_ & _ & Hord).
  split; [exact Hok|]. split; [exact (Hinc None Hok)|].
  split; [exact Hraise|]. split; [exact (Herr Hraise)|].
  split; [exact Hperm|]. exact (Hord Hperm).
Defined.

(** ** Single-axis and multi-axis reducers: outcomes *)



Lemma in_place_stmt_registered (op : scalar_op) :
  registered op = true → ∃ s, in_place_stmt op = Ok s.
Proof. destruct op; try discriminate; intros _; eexists; reflexivity. Qed.

(** X4.  [create_axis_reducer] fails in exactly two ways, in this order:
    an axis outside [-ndim, ndim) raises [AxisError] whatever the operator
    is, and an operator without a registered in-place statement raises
    [NotImplementedError]; with an axis in range and a registered operator
    it returns a reducer for the resolved, non-negative axis. *)
Theorem create_axis_reducer_outcome {V : Type} `{ScalarOps V}
    (op : scalar_op) (identity : V) (axis : Z) (ndim : nat) (dtype : dtype)
    (keepdims return_scalar : bool) :
  (¬ in_range ndim axis →
   create_axis_reducer op identity axis ndim dtype keepdims return_scalar = Raise AxisError)
  ∧ (in_range ndim axis → registered op = false →
     create_axis_reducer op identity axis ndim dtype keepdims return_scalar
     = Raise NotImplementedError)
  ∧ (in_range ndim axis → registered op = true →
     ∃ r, create_axis_reducer op identity axis ndim dtype keepdims return_scalar = Ok r
          ∧ ar_axis r = resolve ndim axis ∧ ar_ndim r = ndim
          ∧ in_place_stmt op = Ok (ar_update r)).
Proof.
  split_and!.
  - intros Hr. unfold create_axis_reducer.
    rewrite normalize_axis_index_out_of_range by exact Hr. reflexivity.
  - intros Hr Hop. unfold create_axis_reducer.
    rewrite normalize_axis_index_in_range by exact Hr. rewrite bind_Ok.
    destruct op; try discriminate.
    destruct (decide (1 < ndim)); [destruct (index_lists _ _)|]; reflexivity.
  - intros Hr Hop. unfold create_axis_reducer.
    rewrite normalize_axis_index_in_range by exact Hr. rewrite bind_Ok.
    destruct (decide (1 < ndim)).
    + destruct (index_lists _ _) as [ri ai].
      destruct (registered_statement op (join ", " (render_index <$> ri)) "res"
                  ("x[" +:+ join ", " (render_index <$> ai) +:+ "]") Hop) as (code & s & Hcode & Hs).
      rewrite Hcode, Hs, !bind_Ok. eexists. split; [reflexivity|]. cbn. done.
    + destruct (registered_statement op "0" "res" "x[i]" Hop) as (code & s & Hcode & Hs).
      rewrite Hcode, Hs, !bind_Ok. eexists. split; [reflexivity|]. cbn. done.
Qed.

Lemma create_axis_reducer_outcome_witness :
  ¬ in_range 2 2
  ∧ create_axis_reducer (V:=Z) (Unregistered "Pow") 0%Z 2%Z 2 int64 false false
    = Raise AxisError
  ∧ in_range 2 (-1) ∧ registered (Unregistered "Pow") = false
  ∧ create_axis_reducer (V:=Z) (Unregistered "Pow") 0%Z (-1)%Z 2 int64 false false
    = Raise NotImplementedError
  ∧ registered Mul = true
  ∧ ∃ r, create_axis_reducer (V:=Z) Mul 1%Z (-1)%Z 2 int64 true false = Ok r
         ∧ ar_axis r = resolve 2 (-1) ∧ ar_ndim r = 2
         ∧ in_place_stmt Mul = Ok (ar_update r).
Proof.
  assert (Hout : ¬ in_range 2 2) by (unfold in_range; lia).
  assert (Hin : in_range 2 (-1)) by (unfold in_range; lia).
  destruct (create_axis_reducer_outcome (V:=Z) (Unregistered "Pow") 0%Z 2%Z 2 int64
              false false) as (Haxis & _ & _).
  destruct (create_axis_reducer_outcome (V:=Z) (Unregistered "Pow") 0%Z (-1)%Z 2 int64
              false false) as (_ & Hop & _).
  destruct (create_axis_reducer_outcome (V:=Z) Mul 1%Z (-1)%Z 2 int64 true false)
    as (_ & _ & Hok).
  split; [exact Hout|]. split; [exact (Haxis Hout)|].
  split; [exact Hin|]. split; [reflexivity|]. split; [exact (Hop Hin eq_refl)|].
  split; [reflexivity|]. exact (Hok Hin eq_refl).
Defined.




Lemma mapM_result_Permutation {A B} (f : A → result B) (e : exn) (l1 l2 : list A) :
  (∀ a e', f a = Raise e' → e' = e) →
  l1 ≡ₚ l2 →
  match mapM f l1, mapM f l2 with
  | Ok k1, Ok k2 => k1 ≡ₚ k2
  | Raise e1, Raise e2 => e1 = e2
  | _, _ => False
  end.
Proof.
  intros He Hp. induction Hp as [|a l1 l2 Hp IH|a b l|l1 l2 l3 Hp1 IH1 Hp2 IH2].
  - cbn. done.
  - cbn. destruct (f a) as [b|e1] eqn:Hfa; cbn; [|reflexivity].
    destruct (mapM f l1), (mapM f l2); cbn; try done. constructor. exact IH.
  - cbn. destruct (f a) as [a'|ea] eqn:Hfa, (f b) as [b'|eb] eqn:Hfb; cbn;
      try destruct (mapM f l); cbn; try done; try apply perm_swap;
      apply He in Hfa, Hfb; congruence.
  - destruct (mapM f l1), (mapM f l2), (mapM f l3); try done; etransitivity; eassumption.
Qed.

(** X6.  The reducer [create_multiaxis_reducer] builds does not depend
    on the order in which the axes are listed: the normalised axes are
    sorted before the loop, and an invalid tuple raises the same exception
    in every order. *)
Theorem create_multiaxis_reducer_order {V : Type} `{ScalarOps V}
    (op : scalar_op) (identity : V) (axes axes' : list Z) (ndim : nat) (dtype : dtype)
    (input_name : string) (return_scalar : bool) :
  axes ≡ₚ axes' →
  create_multiaxis_reducer op identity axes ndim dtype input_name return_scalar
  = create_multiaxis_reducer op identity axes' ndim dtype input_name return_scalar.
Proof.
  intros Hp. unfold create_multiaxis_reducer.
  rewrite <- (Permutation_length Hp).
  destruct (decide (length axes = 1)) as [Hlen|Hlen].
  - destruct axes as [|a [|]]; try discriminate.
    apply Permutation_singleton_l in Hp as ->. reflexivity.
  - unfold normalize_axis_tuple.
    pose proof (mapM_result_Permutation (λ ax, normalize_axis_index ax (Z.of_nat ndim))
                  AxisError axes axes' (λ a e, normalize_axis_index_raises _ _ e) Hp) as Hm.
    destruct (mapM _ axes) as [k1|e1], (mapM _ axes') as [k2|e2]; try done.
    + rewrite !bind_Ok. destruct (decide (NoDup k1)) as [Hn1|Hn1], (decide (NoDup k2)) as [Hn2|Hn2].
      * rewrite !bind_Ok. replace (sorted_reverse k2) with (sorted_reverse k1); [reflexivity|].
        unfold sorted_reverse. apply (StronglySorted_unique desc).
        -- apply StronglySorted_merge_sort; apply _.
        -- apply StronglySorted_merge_sort; apply _.
        -- rewrite !merge_sort_Permutation. exact Hm.
      * exfalso. apply Hn2. rewrite <- Hm. exact Hn1.
      * exfalso. apply Hn1. rewrite Hm. exact Hn2.
      * reflexivity.
    + cbn. congruence.
Qed.

Lemma create_multiaxis_reducer_order_witness :
  [0; 1]%Z ≡ₚ [1; 0]%Z
  ∧ create_multiaxis_reducer (V:=Z) Add 0%Z [0; 1]%Z 2 int64 "x" false
    = create_multiaxis_reducer (V:=Z) Add 0%Z [1; 0]%Z 2 int64 "x" false.
Proof.
  assert (Hperm : [0; 1]%Z ≡ₚ [1; 0]%Z) by apply perm_swap.
  split; [exact Hperm|].
  exact (create_multiaxis_reducer_order (V:=Z) Add 0%Z [0; 1]%Z [1; 0]%Z 2 int64 "x"
           false Hperm).
Defined.

(** ** What the generated single-axis reducer computes *)





Lemma index_lists_spec (axis ndim : nat) :
  axis < ndim →
  index_lists axis ndim
  = (IdxArr <$> seq 0 (ndim - 1),
     (IdxArr <$> seq 0 axis) ++ IdxCounter :: (IdxArr <$> seq axis (ndim - 1 - axis))).
Proof.
  intros Hlt. unfold index_lists.
  assert (Hgen : ∀ m,
    foldl (λ '(res_indices, arr_indices, count) i,
             if decide (i = axis)
             then (res_indices, arr_indices ++ [IdxCounter], count)
             else (res_indices ++ [IdxArr count], arr_indices ++ [IdxArr count],
                   count + 1))
          ([], [], 0) (seq 0 m)
    = if decide (m ≤ axis)
      then (IdxArr <$> seq 0 m, IdxArr <$> seq 0 m, m)
      else (IdxArr <$> seq 0 (m - 1),
            (IdxArr <$> seq 0 axis) ++ IdxCounter :: (IdxArr <$> seq axis (m - 1 - axis)),
            m - 1)).
  { induction m as [|m IH]; [destruct (decide _); [reflexivity|lia]|].
    rewrite seq_S, foldl_app, IH. cbn [foldl Nat.add].
    destruct (decide (m ≤ axis)) as [Hm|Hm].
    - destruct (decide (m = axis)) as [->|Hne].
      + destruct (decide (S axis ≤ axis)); [lia|].
        replace (S axis - 1) with axis by lia. rewrite Nat.sub_diag. reflexivity.
      + destruct (decide (S m ≤ axis)); [|lia].
        rewrite fmap_app. cbn. rewrite Nat.add_1_r. reflexivity.
    - destruct (decide (m = axis)); [lia|]. destruct (decide (S m ≤ axis)); [lia|].
      replace (S m - 1) with (S (m - 1)) by lia.
      replace (S (m - 1) - axis) with (S (m - 1 - axis)) by lia.
      rewrite !seq_S, !fmap_app. cbn.
      replace (axis + (m - 1 - axis)) with (m - 1) by lia.
      rewrite Nat.add_1_r. rewrite <- app_assoc. reflexivity. }
  rewrite Hgen. destruct (decide (ndim ≤ axis)); [lia|reflexivity].
Qed.

Lemma eval_index_arr (idx_arr : list nat) (i j n : nat) :
  j + n ≤ length idx_arr →
  eval_index idx_arr i <$> (IdxArr <$> seq j n) = take n (drop j idx_arr).
Proof.
  revert j idx_arr. induction n as [|n IH]; intros j idx_arr Hlen; [reflexivity|].
  cbn [seq fmap list_fmap eval_index].
  destruct (drop j idx_arr) as [|v rest] eqn:Hd.
  { apply (f_equal length) in Hd. rewrite length_drop in Hd. cbn in Hd. lia. }
  cbn [take]. f_equal.
  - pose proof (lookup_drop idx_arr j 0) as Hl. rewrite Hd in Hl. cbn in Hl.
    rewrite Nat.add_0_r in Hl. symmetry in Hl.
    apply list_lookup_total_correct. exact Hl.
  - change (eval_index idx_arr i <$> (IdxArr <$> seq (S j) n) = take n rest).
    rewrite IH by lia. f_equal.
    replace (S j) with (j + 1) by lia. rewrite <- drop_drop, Hd. reflexivity.
Qed.

Lemma res_shape_delete (axis : nat) (sh : list nat) :
  axis < length sh →
  create_tuple_creator
    (λ i shape, if decide (i < axis) then shape !!! i else shape !!! (i + 1))
    (length sh - 1) sh
  = delete axis sh.
Proof.
  intros Hlt. unfold create_tuple_creator.
  apply list_eq. intros i. rewrite list_lookup_fmap.
  destruct (decide (i < length sh - 1)) as [Hi|Hi].
  - rewrite lookup_seq_lt by lia. cbn.
    destruct (decide (i < axis)) as [Hia|Hia].
    + rewrite list_lookup_delete_lt by lia.
      destruct (lookup_lt_is_Some_2 sh i) as [v Hv]; [lia|].
      rewrite Hv. f_equal. apply list_lookup_total_correct. exact Hv.
    + rewrite list_lookup_delete_ge by lia.
      destruct (lookup_lt_is_Some_2 sh (S i)) as [v Hv]; [lia|].
      rewrite Hv. f_equal. apply list_lookup_total_correct.
      rewrite Nat.add_1_r. exact Hv.
  - rewrite lookup_seq_ge by lia. cbn. symmetry. apply lookup_ge_None.
    rewrite length_delete by (apply lookup_lt_is_Some_2; lia). lia.
Qed.

Section Loops.
Context {V : Type} `{ScalarOps V}.

Lemma setitem_getitem_id (res : ndarray V) (idx : list nat) (d : V) :
  ravel (shape res) idx < length (data res) →
  setitem res idx (getitem d res idx) = res.
Proof.
  intros Hlt. destruct res as [sh dat]. unfold setitem, getitem. cbn in *. f_equal.
  destruct (lookup_lt_is_Some_2 dat _ Hlt) as [v Hv]. rewrite Hv. cbn.
  apply list_insert_id. exact Hv.
Qed.

Lemma update_step_slot (r : axis_reducer V) (x res : ndarray V) (idx ridx aidx : list nat)
    (i : nat) :
  eval_index idx i <$> ar_res_indices r = ridx →
  eval_index idx i <$> ar_arr_indices r = aidx →
  ravel (shape res) ridx < length (data res) →
  update_step r x idx res i
  = setitem res ridx (apply_update (ar_update r) (ar_out_dtype r)
                        (getitem s_zero res ridx) i (getitem s_zero x aidx)).
Proof.
  intros Hr Ha Hlt. unfold update_step, apply_update. rewrite Hr, Ha.
  destruct (exec_stmt _ _ _ _); [reflexivity|].
  symmetry. apply setitem_getitem_id. exact Hlt.
Qed.

Lemma foldl_update_step_slot (r : axis_reducer V) (x : ndarray V) (idx ridx : list nat)
    (aidx : nat → list nat) (l : list nat) :
  (∀ i, eval_index idx i <$> ar_res_indices r = ridx) →
  (∀ i, eval_index idx i <$> ar_arr_indices r = aidx i) →
  ∀ res, ravel (shape res) ridx < length (data res) →
    foldl (update_step r x idx) res l
    = setitem res ridx
        (foldl (λ acc i, apply_update (ar_update r) (ar_out_dtype r) acc i
                           (getitem s_zero x (aidx i)))
               (getitem s_zero res ridx) l).
Proof.
  intros Hr Ha. induction l as [|i l IH]; intros res Hlt.
  - cbn. symmetry. apply setitem_getitem_id. exact Hlt.
  - cbn [foldl]. rewrite (update_step_slot r x res idx ridx (aidx i) i (Hr i) (Ha i) Hlt).
    rewrite IH by (cbn; rewrite length_insert; exact Hlt).
    destruct res as [sh dat]. unfold setitem, getitem. cbn in *.
    rewrite list_insert_insert_eq. rewrite list_lookup_insert_eq by exact Hlt. reflexivity.
Qed.

(** Visiting every slot of a buffer once, in order, and replacing its
    content [w0] by [G m w0]. *)
Lemma foldl_fill_list {I} (pos : I → nat) (G : I → V → V) (w0 : V) (l : list I) :
  ∀ pre : list V,
    pos <$> l = seq (length pre) (length l) →
    foldl (λ buf m, <[pos m := G m (default s_zero (buf !! pos m))]> buf)
          (pre ++ replicate (length l) w0) l
    = pre ++ ((λ m, G m w0) <$> l).
Proof.
  induction l as [|m l IH]; intros pre Hpos.
  - cbn. reflexivity.
  - cbn [fmap list_fmap length seq] in Hpos. injection Hpos as Hm Hrest.
    cbn [foldl length replicate]. rewrite Hm.
    rewrite lookup_app_r by lia. rewrite Nat.sub_diag.
    change (default s_zero ((w0 :: replicate (length l) w0) !! 0)) with w0.
    rewrite insert_app_r_alt by lia. rewrite Nat.sub_diag.
    change (<[0:=G m w0]> (w0 :: replicate (length l) w0))
      with (G m w0 :: replicate (length l) w0).
    replace (pre ++ G m w0 :: replicate (length l) w0)
      with ((pre ++ [G m w0]) ++ replicate (length l) w0)
      by (rewrite <- app_assoc; reflexivity).
    rewrite IH by (rewrite length_app; cbn; rewrite Nat.add_1_r; exact Hrest).
    rewrite <- app_assoc. reflexivity.
Qed.

End Loops.

Lemma ravel_lt (sh idx : list nat) : idx ∈ ndindex sh → ravel sh idx < shape_size sh.
Proof.
  intros Hin. apply list_elem_of_lookup in Hin as [j Hj].
  rewrite (ravel_lookup sh idx j Hj). rewrite <- length_ndindex.
  apply lookup_lt_Some in Hj. exact Hj.
Qed.

Section Loops2.
Context {V : Type} `{ScalarOps V}.

Lemma careduce_axis_loops (r : axis_reducer V) (x : ndarray V) (sh : list nat) (n : nat)
    (aidx : list nat → nat → list nat) (v0 : V) :
  (∀ idx i, idx ∈ ndindex sh → eval_index idx i <$> ar_res_indices r = idx) →
  (∀ idx i, idx ∈ ndindex sh → eval_index idx i <$> ar_arr_indices r = aidx idx i) →
  foldl (λ res idx_arr, foldl (update_step r x idx_arr) res (seq 0 n))
        (full sh v0) (ndindex sh)
  = tabulate sh (λ idx,
      foldl (λ acc i, apply_update (ar_update r) (ar_out_dtype r) acc i
                        (getitem s_zero x (aidx idx i)))
            v0 (seq 0 n)).
Proof.
  intros Hr Ha.
  set (F := λ idx acc,
         foldl (λ acc i, apply_update (ar_update r) (ar_out_dtype r) acc i
                           (getitem s_zero x (aidx idx i))) acc (seq 0 n)).
  assert (Hgen : ∀ l, (∀ idx, idx ∈ l → idx ∈ ndindex sh) →
            ∀ buf, length buf = shape_size sh →
            foldl (λ res idx_arr, foldl (update_step r x idx_arr) res (seq 0 n))
                  (mk_ndarray sh buf) l
            = mk_ndarray sh
                (foldl (λ buf idx,
                          <[ravel sh idx := F idx (default s_zero (buf !! ravel sh idx))]> buf)
                       buf l)).
  { induction l as [|idx l IH]; intros Hl buf Hbuf; [reflexivity|].
    cbn [foldl].
    rewrite (foldl_update_step_slot r x idx idx (aidx idx) (seq 0 n)).
    - unfold setitem, getitem. cbn [shape data]. apply IH.
      + intros i Hi. apply Hl. right. exact Hi.
      + rewrite length_insert. exact Hbuf.
    - intros i. apply Hr, Hl. left.
    - intros i. apply Ha, Hl. left.
    - cbn. rewrite Hbuf. apply ravel_lt, Hl. left. }
  unfold full. rewrite Hgen; [|done|apply length_replicate].
  unfold tabulate. f_equal.
  rewrite <- length_ndindex.
  pose proof (foldl_fill_list (ravel sh) F v0 (ndindex sh) []) as Hfill.
  cbn [app length] in Hfill. apply Hfill.
  rewrite ravel_ndindex, length_ndindex. reflexivity.
Qed.

(** The generated loops, run: every slot of the result is the fold of
    the update statement along the reduced axis. *)
Lemma careduce_axis_reduced_along (op : scalar_op) (identity : V) (axis : Z) (ndim : nat)
    (dtype : dtype) (keepdims return_scalar : bool) (r : axis_reducer V) (x : ndarray V) :
  create_axis_reducer op identity axis ndim dtype keepdims return_scalar = Ok r →
  Np.ndim x = ndim →
  ∃ update, in_place_stmt op = Ok update
    ∧ careduce_axis r x
      = Ok (reduced_along update dtype identity keepdims return_scalar
              (resolve ndim axis) x).
Proof.
  intros Hr Hx. unfold create_axis_reducer in Hr.
  destruct (decide (in_range ndim axis)) as [Hin|Hout];
    [|rewrite normalize_axis_index_out_of_range in Hr by exact Hout; discriminate].
  rewrite normalize_axis_index_in_range in Hr by exact Hin. rewrite bind_Ok in Hr.
  pose proof (resolve_lt ndim axis Hin) as Hlt. fold (resolve ndim axis) in Hr.
  set (a := resolve ndim axis) in *.
  unfold reduced_along, lane_table, careduce_axis. rewrite Hx.
  destruct (decide (1 < ndim)) as [Hbig|Hsmall].
  - rewrite (index_lists_spec a ndim Hlt) in Hr.
    destruct (scalar_in_place_fn op _ "res" _) as [code|]; [|discriminate].
    destruct (in_place_stmt op) as [update|]; [|discriminate].
    rewrite !bind_Ok in Hr. injection Hr as <-. cbn [ar_ndim ar_axis ar_return
      ar_res_shape_tuple_ctor ar_out_dtype ar_identity].
    exists update. split; [reflexivity|].
    destruct (decide (ndim = ndim)) as [_|]; [|contradiction].
    destruct (decide (1 < ndim)) as [_|]; [|contradiction].
    f_equal.
    assert (Hsh : create_tuple_creator
                    (λ i shape, if decide (i < a) then shape !!! i else shape !!! (i + 1))
                    (ndim - 1) (shape x) = delete a (shape x)).
    { rewrite <- Hx. apply res_shape_delete. unfold Np.ndim in Hx. lia. }
    rewrite Hsh.
    rewrite (careduce_axis_loops _ x (delete a (shape x)) (shape x !!! a)
               (λ idx i, insert_axis a i idx)).
    + cbn [ar_update ar_out_dtype]. unfold fold_axis.
      destruct keepdims; reflexivity.
    + intros idx i Hidx. cbn [ar_res_indices].
      apply ndindex_elem_length in Hidx.
      rewrite length_delete in Hidx by (apply lookup_lt_is_Some_2; unfold Np.ndim in Hx; lia).
      rewrite eval_index_arr by (unfold Np.ndim in Hx; lia).
      rewrite drop_0. apply take_ge. unfold Np.ndim in Hx. lia.
    + intros idx i Hidx. cbn [ar_arr_indices].
      apply ndindex_elem_length in Hidx.
      rewrite length_delete in Hidx by (apply lookup_lt_is_Some_2; unfold Np.ndim in Hx; lia).
      unfold Np.ndim in Hx.
      rewrite fmap_app, fmap_cons. rewrite !eval_index_arr by lia.
      rewrite drop_0. unfold insert_axis. cbn [eval_index]. f_equal. f_equal.
      apply take_ge. rewrite length_drop. lia.
  - assert (ndim = 1) as Hone by (unfold in_range in Hin; lia).
    assert (a = 0) as Ha0 by lia.
    destruct (scalar_in_place_fn op "0" "res" "x[i]") as [code|]; [|discriminate].
    destruct (in_place_stmt op) as [update|]; [|discriminate].
    rewrite !bind_Ok in Hr. injection Hr as <-. cbn [ar_ndim ar_axis ar_return
      ar_res_shape_tuple_ctor ar_out_dtype ar_identity].
    exists update. split; [reflexivity|].
    destruct (decide (ndim = ndim)) as [_|]; [|contradiction].
    destruct (decide (1 < ndim)) as [|_]; [contradiction|].
    f_equal. rewrite Ha0.
    rewrite (foldl_update_step_slot _ x [] [0] (λ i, [i])); [| | |cbn; lia].
    + cbn [ar_update ar_out_dtype]. unfold fold_axis, insert_axis. cbn [take drop app].
      unfold eval_return, setitem, getitem, full. cbn.
      destruct keepdims, return_scalar; reflexivity.
    + intros i. reflexivity.
    + intros i. reflexivity.
Qed.
End Loops2.

(** X7.  Calling the function [create_axis_reducer] generated on an
    array of the rank it was generated for never fails, and returns the
    reduction along the resolved axis: the result has the shape of the input
    without that axis, and its element at an index [k] is the in-place
    statement of the operator folded, from the identity on and with the
    counter [i] running upwards from 0, over the elements of the input that
    have [k] on the other axes.  With [keepdims] the axis is put back with
    length 1; a rank-1 input gives a one-element or rank-0 array, or a plain
    scalar with [return_scalar]. *)
Theorem careduce_axis_folds {V : Type} `{ScalarOps V}
    (op : scalar_op) (identity : V) (axis : Z) (ndim : nat)
    (dtype : dtype) (keepdims return_scalar : bool) (r : axis_reducer V) (x : ndarray V) :
  create_axis_reducer op identity axis ndim dtype keepdims return_scalar = Ok r →
  Np.ndim x = ndim →
  ∃ update, in_place_stmt op = Ok update
    ∧ careduce_axis r x
      = Ok (reduced_along update dtype identity keepdims return_scalar
              (resolve ndim axis) x).
Proof. apply careduce_axis_reduced_along. Qed.

Lemma careduce_axis_folds_witness :
  ∃ r, create_axis_reducer (V:=Z) Add 0%Z (-1)%Z 2 int64 false false = Ok r
       ∧ Np.ndim m23 = 2
       ∧ ∃ update, in_place_stmt Add = Ok update
           ∧ careduce_axis r m23
             = Ok (reduced_along update int64 0%Z false false (resolve 2 (-1)) m23)
           ∧ reduced_along update int64 0%Z false false (resolve 2 (-1)) m23
             = VArr (mk_ndarray [2] [6; 15]%Z).
Proof.
  destruct (create_axis_reducer (V:=Z) Add 0%Z (-1)%Z 2 int64 false false)
    as [r|e] eqn:Hr; [|vm_compute in Hr; discriminate].
  exists r. split; [reflexivity|]. split; [reflexivity|].
  destruct (careduce_axis_folds Add 0%Z (-1)%Z 2 int64 false false r m23 Hr eq_refl)
    as (update & Hup & Hcall).
  exists update. split; [exact Hup|]. split; [exact Hcall|].
  injection Hup as <-. vm_compute. reflexivity.
Defined.

(** ** Sums along an axis *)

Lemma wrap_signed_add_l (w u v : Z) :
  (0 ≤ w)%Z → wrap_signed w (wrap_signed w u + v) = wrap_signed w (u + v).
Proof.
  intros Hw. unfold wrap_signed. f_equal.
  replace ((u + 2 ^ (w - 1)) mod 2 ^ w - 2 ^ (w - 1) + v + 2 ^ (w - 1))%Z
    with ((u + 2 ^ (w - 1)) mod 2 ^ w + v)%Z by lia.
  rewrite Zplus_mod_idemp_l. f_equal. lia.
Qed.

Lemma wrap_unsigned_add_l (w u v : Z) :
  wrap_unsigned w (wrap_unsigned w u + v) = wrap_unsigned w (u + v).
Proof. unfold wrap_unsigned. apply Zplus_mod_idemp_l. Qed.

Lemma cast_Z_add_l (dt : dtype) (u v : Z) :
  integer_dtype dt → cast_Z dt (cast_Z dt u + v) = cast_Z dt (u + v).
Proof.
  intros [Hk|Hk]; destruct dt; try discriminate Hk; cbn [cast_Z bits];
    first [apply wrap_signed_add_l; lia | apply wrap_unsigned_add_l].
Qed.

Lemma fold_axis_add (dt : dtype) (identity : Z) (x : ndarray Z) (axis : nat) (k : list nat) :
  integer_dtype dt →
  fold_axis (SAug BAdd EArr) dt identity x axis k
  = cast_Z dt (identity + sum_along x axis k).
Proof.
  intros Hdt. unfold fold_axis, sum_along, lane.
  generalize (seq 0 (shape x !!! axis)) as l.
  assert (Hgen : ∀ l acc s,
            foldl (λ acc i, apply_update (SAug BAdd EArr) dt acc i
                              (getitem s_zero x (insert_axis axis i k)))
                  (cast_Z dt (acc + s)) l
            = cast_Z dt (acc + foldl Z.add s
                           ((λ i, getitem 0%Z x (insert_axis axis i k)) <$> l))).
  { induction l as [|i l IH]; intros acc s; [reflexivity|].
    cbn [foldl fmap list_fmap]. unfold apply_update at 2. cbn [exec_stmt eval_binop eval_expr].
    change (s_cast dt ?z) with (cast_Z dt z). change (s_add ?a ?b) with (a + b)%Z.
    rewrite cast_Z_add_l by exact Hdt. rewrite <- Z.add_assoc. apply IH. }
  intros l. specialize (Hgen l identity 0%Z). rewrite Z.add_0_r in Hgen. exact Hgen.
Qed.

Lemma lane_table_ext {V} (f g : nat → list nat → V) (keepdims return_scalar : bool)
    (axis : nat) (x : ndarray V) :
  (∀ a k, f a k = g a k) →
  lane_table f keepdims return_scalar axis x = lane_table g keepdims return_scalar axis x.
Proof.
  intros Hfg. unfold lane_table. rewrite Hfg.
  assert (Ht : tabulate (delete axis (shape x)) (f axis)
               = tabulate (delete axis (shape x)) (g axis)).
  { unfold tabulate. f_equal. apply list_fmap_ext. intros i k _. apply Hfg. }
  rewrite Ht. reflexivity.
Qed.

(** X8.  Over integer data and with an integer output dtype, the
    function generated for the operator [Add] returns sums: the element of
    the result at an outer index is the identity plus the sum of the input
    elements along the reduced axis, wrapped around to the output dtype (the
    wrap-around at every single store does not change the final value). *)
Theorem careduce_axis_sum (identity : Z) (axis : Z) (ndim : nat) (dt : dtype)
    (keepdims return_scalar : bool) (r : axis_reducer Z) (x : ndarray Z) :
  integer_dtype dt →
  create_axis_reducer Add identity axis ndim dt keepdims return_scalar = Ok r →
  Np.ndim x = ndim →
  careduce_axis r x
  = Ok (lane_table (λ a k, cast_Z dt (identity + sum_along x a k))
          keepdims return_scalar (resolve ndim axis) x).
Proof.
  intros Hdt Hr Hx.
  destruct (careduce_axis_reduced_along Add identity axis ndim dt keepdims return_scalar
              r x Hr Hx) as (update & Hup & Hcall).
  injection Hup as <-. rewrite Hcall. f_equal. unfold reduced_along.
  apply lane_table_ext. intros a k. apply fold_axis_add. exact Hdt.
Qed.

Lemma careduce_axis_sum_witness :
  integer_dtype int8
  ∧ ∃ r, create_axis_reducer (V:=Z) Add 0%Z 0%Z 2 int8 true false = Ok r
         ∧ Np.ndim (mk_ndarray [2; 3] [100; 2; 3; 100; 5; 6]%Z) = 2
         ∧ careduce_axis r (mk_ndarray [2; 3] [100; 2; 3; 100; 5; 6]%Z)
           = Ok (lane_table
                   (λ a k, cast_Z int8
                             (0 + sum_along (mk_ndarray [2; 3] [100; 2; 3; 100; 5; 6]%Z) a k))
                   true false (resolve 2 0) (mk_ndarray [2; 3] [100; 2; 3; 100; 5; 6]%Z))
         ∧ careduce_axis r (mk_ndarray [2; 3] [100; 2; 3; 100; 5; 6]%Z)
           = Ok (VArr (mk_ndarray [1; 3] [-56; 7; 9]%Z)).
Proof.
  assert (Hdt : integer_dtype int8) by (left; reflexivity).
  split; [exact Hdt|].
  destruct (create_axis_reducer (V:=Z) Add 0%Z 0%Z 2 int8 true false)
    as [r|e] eqn:Hr; [|vm_compute in Hr; discriminate].
  exists r. split; [reflexivity|]. split; [reflexivity|].
  pose proof (careduce_axis_sum 0%Z 0%Z 2 int8 true false r
                (mk_ndarray [2; 3] [100; 2; 3; 100; 5; 6]%Z) Hdt Hr eq_refl) as Hcall.
  split; [exact Hcall|]. rewrite Hcall. vm_compute. reflexivity.
Defined.

(** ** [create_axis_apply_fn] *)

Lemma foldr_insert_length (base : list nat) (l : list (nat * nat)) :
  length (foldr (λ p src, <[p.1 := p.2]> src) base l) = length base.
Proof.
  induction l as [|p l IH]; [reflexivity|]. cbn. rewrite length_insert. exact IH.
Qed.

Lemma source_index_length (axes idx : list nat) :
  length (source_index axes idx) = length axes.
Proof. unfold source_index. rewrite foldr_insert_length. apply length_replicate. Qed.

Lemma foldr_insert_lookup (base axes : list nat) :
  NoDup axes → (∀ a, a ∈ axes → a < length base) →
  ∀ idx k ax v, axes !! k = Some ax → idx !! k = Some v →
    foldr (λ p src, <[p.1 := p.2]> src) base (zip axes idx) !! ax = Some v.
Proof.
  intros Hnd. induction Hnd as [|a axes Hnin Hnd IH]; intros Hlt idx k ax v Hk Hv.
  - discriminate.
  - destruct idx as [|i idx]; [discriminate|]. cbn [zip zip_with foldr fst snd].
    destruct k as [|k]; cbn in Hk, Hv.
    + injection Hk as <-. injection Hv as <-.
      apply list_lookup_insert_eq. rewrite foldr_insert_length. apply Hlt. left.
    + assert (ax ≠ a).
      { intros ->. apply Hnin. eapply list_elem_of_lookup_2. exact Hk. }
      rewrite list_lookup_insert_ne by congruence.
      apply (IH ltac:(intros b Hb; apply Hlt; right; exact Hb) idx k ax v Hk Hv).
Qed.

(** After [np.transpose(x, axes)], entry [axes[k]] of the source index is
    entry [k] of the index. *)
Lemma source_index_lookup (axes idx : list nat) (k ax v : nat) :
  NoDup axes → (∀ a, a ∈ axes → a < length axes) →
  axes !! k = Some ax → idx !! k = Some v →
  source_index axes idx !! ax = Some v.
Proof.
  intros Hnd Hlt. unfold source_index. apply foldr_insert_lookup; [exact Hnd|].
  intros a Ha. rewrite length_replicate. apply Hlt, Ha.
Qed.

Lemma filter_ne_seq_above (a j k : nat) :
  a < j → filter (λ i, i ≠ a) (seq j k) = seq j k.
Proof.
  revert j. induction k as [|k IH]; intros j Hj; [reflexivity|].
  cbn [seq]. rewrite filter_cons_True by lia. f_equal. apply IH. lia.
Qed.

Lemma filter_ne_seq_split (a n : nat) :
  a < n → filter (λ i, i ≠ a) (seq 0 n) = seq 0 a ++ seq (S a) (n - S a).
Proof.
  intros Hlt. replace n with (S a + (n - S a)) at 1 by lia.
  rewrite seq_app, filter_app, filter_ne_seq. f_equal. cbn [Nat.add].
  apply filter_ne_seq_above. lia.
Qed.

Section Reaxis.
Context (a n : nat) (Hlt : a < n).

Let reaxis_first := filter (λ i, i ≠ a) (seq 0 n) ++ [a].

Lemma reaxis_first_lookup (j : nat) :
  reaxis_first !! j
  = if decide (j < a) then Some j
    else if decide (j < n - 1) then Some (S j)
    else if decide (j = n - 1) then Some a else None.
Proof.
  unfold reaxis_first. rewrite filter_ne_seq_split by exact Hlt.
  destruct (decide (j < a)) as [Hj|Hj].
  - rewrite <- app_assoc, lookup_app_l by (rewrite length_seq; lia).
    apply lookup_seq_lt. exact Hj.
  - destruct (decide (j < n - 1)) as [Hj2|Hj2].
    + rewrite <- app_assoc, lookup_app_r by (rewrite length_seq; lia).
      rewrite length_seq, lookup_app_l by (rewrite length_seq; lia).
      rewrite lookup_seq_lt by lia. f_equal. lia.
    + rewrite lookup_app_r by (rewrite length_app, !length_seq; lia).
      rewrite length_app, !length_seq.
      destruct (decide (j = n - 1)) as [->|Hj3].
      * replace (n - 1 - (a + (n - S a))) with 0 by lia. reflexivity.
      * replace (j - (a + (n - S a))) with (S (j - n)) by lia. reflexivity.
Qed.

Lemma reaxis_first_length : length reaxis_first = n.
Proof.
  unfold reaxis_first. rewrite filter_ne_seq_split by exact Hlt.
  rewrite !length_app, !length_seq. cbn. lia.
Qed.

Lemma reaxis_first_NoDup : NoDup reaxis_first.
Proof.
  unfold reaxis_first. apply NoDup_app. split_and!.
  - apply NoDup_filter, NoDup_seq.
  - intros x Hx Hx'. apply list_elem_of_filter in Hx as [Hne _].
    apply list_elem_of_singleton in Hx'. contradiction.
  - apply NoDup_singleton.
Qed.

Lemma reaxis_first_bound (b : nat) : b ∈ reaxis_first → b < n.
Proof.
  unfold reaxis_first. rewrite elem_of_app, list_elem_of_filter, elem_of_seq,
    list_elem_of_singleton. lia.
Qed.

Lemma reaxis_first_permutation : is_permutation reaxis_first n = true.
Proof.
  unfold is_permutation. rewrite reaxis_first_length.
  rewrite bool_decide_eq_true_2 by reflexivity.
  rewrite (bool_decide_eq_true_2 (NoDup _)) by apply reaxis_first_NoDup.
  rewrite andb_true_r. cbn. apply forallb_forall. intros b Hb.
  apply bool_decide_eq_true_2. apply reaxis_first_bound, list_elem_of_In, Hb.
Qed.

Lemma reaxis_first_shape (sh : list nat) :
  length sh = n →
  (λ ax, sh !!! ax) <$> reaxis_first = delete a sh ++ [sh !!! a].
Proof.
  intros Hsh. unfold reaxis_first. rewrite fmap_app. f_equal.
  rewrite filter_ne_seq_split by exact Hlt. rewrite delete_take_drop, fmap_app.
  f_equal.
  - apply list_eq. intros j. rewrite list_lookup_fmap.
    destruct (decide (j < a)) as [Hj|Hj].
    + rewrite lookup_seq_lt by exact Hj. cbn. rewrite lookup_take_lt by exact Hj.
      destruct (lookup_lt_is_Some_2 sh j) as [v Hv]; [lia|].
      rewrite Hv. f_equal. apply list_lookup_total_correct, Hv.
    + rewrite lookup_seq_ge by lia. cbn. symmetry. apply lookup_ge_None.
      rewrite length_take. lia.
  - apply list_eq. intros j. rewrite list_lookup_fmap, lookup_drop.
    destruct (decide (j < n - S a)) as [Hj|Hj].
    + rewrite lookup_seq_lt by exact Hj. cbn.
      destruct (lookup_lt_is_Some_2 sh (S (a + j))) as [v Hv]; [lia|].
      rewrite Hv. f_equal. apply list_lookup_total_correct, Hv.
    + rewrite lookup_seq_ge by lia. cbn. symmetry. apply lookup_ge_None. lia.
Qed.

Lemma source_index_reaxis_first (m : list nat) (i : nat) :
  length m = n - 1 →
  source_index reaxis_first (m ++ [i]) = insert_axis a i m.
Proof.
  intros Hm. apply list_eq. intros j. unfold insert_axis.
  destruct (decide (j < n)) as [Hj|Hj].
  - assert (Hsrc : ∀ k v, reaxis_first !! k = Some j → (m ++ [i]) !! k = Some v →
                     source_index reaxis_first (m ++ [i]) !! j = Some v).
    { intros k v Hk Hv. apply (source_index_lookup _ _ k j v); auto.
      - apply reaxis_first_NoDup.
      - intros b Hb. rewrite reaxis_first_length. apply reaxis_first_bound, Hb. }
    destruct (decide (j < a)) as [Hja|Hja].
    + destruct (lookup_lt_is_Some_2 m j) as [v Hv]; [lia|].
      rewrite (Hsrc j v).
      * rewrite lookup_app_l by (rewrite length_take; lia).
        rewrite lookup_take_lt by lia. symmetry. exact Hv.
      * rewrite reaxis_first_lookup. destruct (decide (j < a)); [reflexivity|lia].
      * rewrite lookup_app_l by lia. exact Hv.
    + destruct (decide (j = a)) as [->|Hne].
      * rewrite (Hsrc (n - 1) i).
        -- rewrite lookup_app_r by (rewrite length_take; lia).
           rewrite length_take. replace (a - a `min` length m) with 0 by lia. reflexivity.
        -- rewrite reaxis_first_lookup. destruct (decide (n - 1 < a)); [lia|].
           destruct (decide (n - 1 < n - 1)); [lia|].
           destruct (decide (n - 1 = n - 1)); [reflexivity|lia].
        -- rewrite lookup_app_r by lia. rewrite Hm, Nat.sub_diag. reflexivity.
      * destruct (lookup_lt_is_Some_2 m (j - 1)) as [v Hv]; [lia|].
        rewrite (Hsrc (j - 1) v).
        -- rewrite lookup_app_r by (rewrite length_take; lia).
           rewrite length_take. replace (j - a `min` length m) with (S (j - a - 1)) by lia.
           change ((i :: drop a m) !! S (j - a - 1)) with (drop a m !! (j - a - 1)).
           rewrite lookup_drop. replace (a + (j - a - 1)) with (j - 1) by lia.
           symmetry. exact Hv.
        -- rewrite reaxis_first_lookup. destruct (decide (j - 1 < a)); [lia|].
           destruct (decide (j - 1 < n - 1)); [f_equal; lia|lia].
        -- rewrite lookup_app_l by lia. exact Hv.
  - rewrite (proj2 (lookup_ge_None _ _)).
    + symmetry. apply lookup_ge_None. rewrite length_app, length_take. cbn.
      rewrite length_drop. lia.
    + rewrite source_index_length, reaxis_first_length. lia.
Qed.
End Reaxis.

Lemma ndindex_one (n : nat) : ndindex [n] = (λ i, [i]) <$> seq 0 n.
Proof.
  cbn [ndindex]. generalize (seq 0 n) as l.
  induction l as [|i l IH]; [reflexivity|]. rewrite bind_cons, IH. reflexivity.
Qed.

Lemma getrow_tabulate {V} (F : list nat → V) (kept : list nat) (n : nat) (m : list nat) :
  m ∈ ndindex kept →
  getrow (tabulate (kept ++ [n]) F) m = (λ i, F (m ++ [i])) <$> seq 0 n.
Proof.
  intros Hm. unfold tabulate.
  pose proof (getrow_reshaped F kept [n] m Hm) as Hrow.
  cbn [shape_size] in Hrow. rewrite Nat.mul_1_r in Hrow. rewrite Hrow.
  rewrite ndindex_one, <- list_fmap_compose. reflexivity.
Qed.

(** X9.  [create_axis_apply_fn] raises [AxisError] for an axis out of
    range.  Otherwise the function it returns, applied to an array of the
    given rank, calls [fn] once on every lane of the array along the resolved
    axis, in row-major order of the remaining axes, and returns the results
    as an array over the remaining axes; the first call of [fn] that raises
    ends the loop with its exception. *)
Theorem create_axis_apply_fn_lanes {V W : Type} (d : V) (w_zero : W)
    (fn : list V → result W) (axis : Z) (ndim : nat) :
  (¬ in_range ndim axis →
   create_axis_apply_fn d w_zero fn axis (Z.of_nat ndim) = Raise AxisError)
  ∧ (in_range ndim axis →
     ∃ f, create_axis_apply_fn d w_zero fn axis (Z.of_nat ndim) = Ok f
          ∧ ∀ x, Np.ndim x = ndim →
              f x = mk_ndarray (delete (resolve ndim axis) (shape x))
                      <$> mapM (λ k, fn (lane d x (resolve ndim axis) k))
                               (ndindex (delete (resolve ndim axis) (shape x)))).
Proof.
  split.
  - intros Hout. unfold create_axis_apply_fn.
    rewrite normalize_axis_index_out_of_range by exact Hout. reflexivity.
  - intros Hin. unfold create_axis_apply_fn.
    rewrite normalize_axis_index_in_range by exact Hin. rewrite bind_Ok.
    pose proof (resolve_lt ndim axis Hin) as Hlt. fold (resolve ndim axis).
    set (a := resolve ndim axis) in *. rewrite Nat2Z.id.
    eexists. split; [reflexivity|]. intros x Hx. cbn beta.
    unfold transpose. rewrite Hx, (reaxis_first_permutation a ndim Hlt).
    rewrite bind_Ok. rewrite (reaxis_first_shape a ndim Hlt) by exact Hx.
    cbn [shape tabulate]. rewrite removelast_last.
    rewrite foldlM_fill. f_equal. apply mapM_result_ext. intros m Hm. f_equal.
    fold (tabulate (delete a (shape x) ++ [shape x !!! a])
            (λ idx, getitem d x
                      (source_index (filter (λ i, i ≠ a) (seq 0 ndim) ++ [a]) idx))).
    rewrite getrow_tabulate by exact Hm. unfold lane.
    apply list_fmap_ext. intros j i _. f_equal.
    apply source_index_reaxis_first; [exact Hlt|].
    apply ndindex_elem_length in Hm. rewrite Hm.
    rewrite length_delete by (apply lookup_lt_is_Some_2; unfold Np.ndim in Hx; lia).
    unfold Np.ndim in Hx. lia.
Qed.

Lemma create_axis_apply_fn_lanes_witness :
  ¬ in_range 2 2
  ∧ create_axis_apply_fn (V:=Z) 0%Z 0 Np.argmax 2%Z (Z.of_nat 2) = Raise AxisError
  ∧ in_range 2 (-2)
  ∧ ∃ f, create_axis_apply_fn 0%Z 0 Np.argmax (-2)%Z (Z.of_nat 2) = Ok f
         ∧ Np.ndim m23 = 2
         ∧ f m23 = mk_ndarray (delete (resolve 2 (-2)) (shape m23))
                     <$> mapM (λ k, Np.argmax (lane 0%Z m23 (resolve 2 (-2)) k))
                              (ndindex (delete (resolve 2 (-2)) (shape m23)))
         ∧ f m23 = Ok (mk_ndarray [3] [1; 1; 1]).
Proof.
  assert (Hout : ¬ in_range 2 2) by (unfold in_range; lia).
  assert (Hin : in_range 2 (-2)) by (unfold in_range; lia).
  destruct (create_axis_apply_fn_lanes (V:=Z) 0%Z 0 Np.argmax 2%Z 2) as [Haxis _].
  destruct (create_axis_apply_fn_lanes (V:=Z) 0%Z 0 Np.argmax (-2)%Z 2) as [_ Hok].
  split; [exact Hout|]. split; [exact (Haxis Hout)|]. split; [exact Hin|].
  destruct (Hok Hin) as (f & Hf & Hcall). exists f.
  split; [exact Hf|]. split; [reflexivity|].
  split; [exact (Hcall m23 eq_refl)|]. rewrite (Hcall m23 eq_refl).
  vm_compute. reflexivity.
Defined.

(** ** The reference implementation of element-wise kernels, continued *)

Lemma foldlM_unit_raise {B} (g : B → result ()) (e : exn) (l : list B) :
  (∀ b e', g b = Raise e' → e' = e) →
  (∃ b, b ∈ l ∧ g b = Raise e) →
  foldlM (λ _ b, g b) () l = Raise e.
Proof.
  intros He (b & Hb & Hg). induction l as [|c l IH]; [inversion Hb|].
  cbn. destruct (g c) as [[]|e'] eqn:Hc.
  - apply IH. apply elem_of_cons in Hb as [->|Hb]; [congruence|exact Hb].
  - f_equal. eapply He. exact Hc.
Qed.

Lemma foldlM_unit_ok {B} (g : B → result ()) (l : list B) :
  (∀ b, b ∈ l → g b = Ok ()) → foldlM (λ _ b, g b) () l = Ok ().
Proof.
  induction l as [|c l IH]; intros Hall; [reflexivity|].
  cbn. rewrite (Hall c) by left. apply IH. intros b Hb. apply Hall. right. exact Hb.
Qed.

Lemma check_axis_raises (shape : list nat) (p : nat * bool * nat) (e : exn) :
  check_axis shape p = Raise e → e = ValueError "Broadcast not allowed.".
Proof.
  destruct p as [[len bc] it]. unfold check_axis. destruct (_ && _); congruence.
Qed.

Section Check.
Context {V : Type}.

Lemma check_input_raises (shape sh : list nat) (bc : list bool) (e : exn) :
  foldlM (λ _ p, check_axis shape p) () (zip (zip sh bc) shape) = Raise e →
  e = ValueError "Broadcast not allowed.".
Proof.
  generalize (zip (zip sh bc) shape) as l. induction l as [|p l IH]; [discriminate|].
  cbn. destruct (check_axis shape p) as [[]|e'] eqn:Hp.
  - exact IH.
  - intros [= <-]. eapply check_axis_raises. exact Hp.
Qed.

Lemma check_broadcast_violation (inputs : list (ndarray V)) (patterns : list (list bool))
    (shape0 : list nat) (j a n : nat) (x : ndarray V) (bc : list bool) :
  inputs !! j = Some x → patterns !! j = Some bc →
  shape x !! a = Some 1 → bc !! a = Some false → shape0 !! a = Some n → n ≠ 1 →
  check_broadcast inputs patterns shape0 = Raise (ValueError "Broadcast not allowed.").
Proof.
  intros Hx Hbc Hlen Hallow Hit Hn. unfold check_broadcast.
  apply (foldlM_unit_raise
           (λ '(input, bc), foldlM (λ _ p, check_axis shape0 p) ()
                              (zip (zip (shape input) bc) shape0))).
  - intros [y bc'] e'. apply check_input_raises.
  - exists (x, bc). split.
    + apply (list_elem_of_lookup_2 _ j). apply lookup_zip_with_Some. eauto.
    + apply foldlM_unit_raise.
      * intros p e'. apply check_axis_raises.
      * exists (1, false, n). split.
        -- apply (list_elem_of_lookup_2 _ a). apply lookup_zip_with_Some.
           exists (1, false), n. split_and!; [reflexivity| |exact Hit].
           apply lookup_zip_with_Some. eauto.
        -- unfold check_axis. rewrite !bool_decide_eq_true_2; [reflexivity|exact Hn| |reflexivity].
           intros Hnil. rewrite Hnil in Hit. discriminate.
Qed.
End Check.

Lemma broadcast_rev_same (a : list nat) : broadcast_rev a a = Ok a.
Proof.
  induction a as [|x a IH]; [reflexivity|]. cbn. rewrite IH. cbn.
  destruct (decide (x = x)); [reflexivity|contradiction].
Qed.

Lemma broadcast_shapes_same (shapes : list (list nat)) (sh : list nat) :
  shapes ≠ [] → (∀ s, s ∈ shapes → s = sh) → broadcast_shapes shapes = Ok sh.
Proof.
  intros Hne Hall. unfold broadcast_shapes.
  destruct shapes as [|s shapes]; [contradiction|]. cbn [foldlM].
  rewrite (Hall s) by left. 
  assert (Hfirst : broadcast_rev [] (reverse sh) = Ok (reverse sh)) by reflexivity.
  rewrite Hfirst.
  assert (Hrest : foldlM (λ acc sh0, broadcast_rev acc (reverse sh0)) (reverse sh) shapes
                  = Ok (reverse sh)).
  { assert (Hall' : ∀ s, s ∈ shapes → s = sh) by (intros t Ht; apply Hall; right; exact Ht).
    clear Hall Hne Hfirst. induction shapes as [|t shapes IH]; [reflexivity|].
    cbn [foldlM]. rewrite (Hall' t) by left. rewrite broadcast_rev_same.
    apply IH. intros u Hu. apply Hall'. right. exact Hu. }
  rewrite Hrest. cbn. rewrite reverse_involutive. reflexivity.
Qed.

Lemma ndindex_bound (sh idx : list nat) :
  idx ∈ ndindex sh → Forall2 (λ i n, i < n) idx sh.
Proof.
  revert idx. induction sh as [|n sh IH]; intros idx Hidx.
  - cbn in Hidx. apply list_elem_of_singleton in Hidx. subst. constructor.
  - cbn [ndindex] in Hidx. apply list_elem_of_bind in Hidx as (i & Hidx & Hi).
    apply list_elem_of_fmap in Hidx as (m & -> & Hm). apply elem_of_seq in Hi.
    constructor; [lia|]. apply IH, Hm.
Qed.

Lemma broadcast_to_same {V} (d : V) (x : ndarray V) :
  wf x → broadcast_to d x (shape x) = x.
Proof.
  intros Hwf. unfold broadcast_to, ndim. rewrite Nat.sub_diag.
  transitivity (tabulate (shape x) (getitem d x)); [|apply tabulate_getitem, Hwf].
  unfold tabulate. f_equal.
  apply list_fmap_ext. intros j idx Hj. f_equal. rewrite drop_0.
  apply list_elem_of_lookup_2 in Hj. apply ndindex_bound in Hj.
  induction Hj as [|i n idx sh Hlt _ IH]; [reflexivity|].
  cbn. rewrite IH. f_equal. destruct (decide (n = 1)); [lia|reflexivity].
Qed.

Lemma broadcast_arrays_same {V} (d : V) (inputs : list (ndarray V)) (sh : list nat) :
  inputs ≠ [] → (∀ x, x ∈ inputs → shape x = sh ∧ wf x) →
  broadcast_arrays d inputs = Ok inputs.
Proof.
  intros Hne Hall. unfold broadcast_arrays.
  rewrite (broadcast_shapes_same _ sh).
  - rewrite bind_Ok. f_equal. rewrite <- (list_fmap_id inputs) at 2.
    apply list_fmap_ext. intros j x Hj. apply list_elem_of_lookup_2 in Hj.
    destruct (Hall x Hj) as [<- Hwf]. apply broadcast_to_same, Hwf.
  - destruct inputs; [contradiction|discriminate].
  - intros s Hs. apply list_elem_of_fmap in Hs as (x & -> & Hx). apply Hall, Hx.
Qed.

Lemma foldl_ext_in {A B} (f g : A → B → A) (l : list B) (a : A) :
  (∀ acc b, b ∈ l → f acc b = g acc b) → foldl f a l = foldl g a l.
Proof.
  revert a. induction l as [|b l IH]; intros a Hfg; [reflexivity|].
  cbn. rewrite (Hfg a b) by left. apply IH. intros acc c Hc. apply Hfg. right. exact Hc.
Qed.

Section Fill.
Context {V : Type} `{ScalarOps V}.

(** Visiting every index of a fresh array once, in the order of
    [np.ndindex], and replacing the content [v0] of its slot by
    [G idx v0]. *)
Lemma foldl_fill (sh : list nat) (G : list nat → V → V) (v0 : V) :
  foldl (λ res idx, setitem res idx (G idx (getitem s_zero res idx)))
        (full sh v0) (ndindex sh)
  = tabulate sh (λ idx, G idx v0).
Proof.
  assert (Hgen : ∀ l buf,
            foldl (λ res idx, setitem res idx (G idx (getitem s_zero res idx)))
                  (mk_ndarray sh buf) l
            = mk_ndarray sh
                (foldl (λ buf idx,
                          <[ravel sh idx := G idx (default s_zero (buf !! ravel sh idx))]> buf)
                       buf l)).
  { induction l as [|idx l IH]; intros buf; [reflexivity|]. cbn [foldl].
    unfold setitem at 2, getitem at 2. cbn [shape data]. apply IH. }
  unfold full. rewrite Hgen. unfold tabulate. f_equal.
  rewrite <- length_ndindex.
  pose proof (foldl_fill_list (ravel sh) G v0 (ndindex sh) []) as Hfill.
  cbn [app length] in Hfill. apply Hfill.
  rewrite ravel_ndindex, length_ndindex. reflexivity.
Qed.

Lemma nonzero_elem (bc : list bool) (k : nat) : k ∈ nonzero bc ↔ bc !! k = Some true.
Proof.
  unfold nonzero. rewrite list_elem_of_bind. split.
  - intros (l & Hk & Hl). apply list_elem_of_lookup in Hl as [i Hi].
    rewrite list_lookup_imap in Hi. destruct (bc !! i) as [b|] eqn:Hb; [|discriminate].
    cbn in Hi. injection Hi as <-. destruct b; [|inversion Hk].
    apply list_elem_of_singleton in Hk. subst. exact Hb.
  - intros Hk. exists [k]. split; [left|].
    apply (list_elem_of_lookup_2 _ k). rewrite list_lookup_imap, Hk. reflexivity.
Qed.

Lemma imap_id_in {A} (f : nat → A → A) (l : list A) :
  (∀ k a, l !! k = Some a → f k a = a) → imap f l = l.
Proof.
  intros Hf. apply list_eq. intros k. rewrite list_lookup_imap.
  destruct (l !! k) as [a|] eqn:Ha; [|reflexivity]. cbn. f_equal. apply Hf, Ha.
Qed.

(** Summing over axes of length 1 changes nothing. *)
Lemma sum_keepdims_unit_axes (a : ndarray V) (axes : list nat) :
  (∀ v : V, s_add s_zero v = v) → wf a →
  (∀ k, k ∈ axes → shape a !! k = Some 1) →
  sum_keepdims a axes = Ok a.
Proof.
  intros Hzero Hwf Hax. unfold sum_keepdims.
  assert (Hall : forallb (λ ax, bool_decide (ax < ndim a)) axes = true).
  { apply forallb_forall. intros k Hk. apply bool_decide_eq_true_2.
    apply list_elem_of_In, Hax in Hk. apply lookup_lt_Some in Hk. exact Hk. }
  rewrite Hall. f_equal.
  assert (Hshape : imap (λ k n, if bool_decide (k ∈ axes) then 1 else n) (shape a)
                   = shape a).
  { apply imap_id_in. intros k n Hk. destruct (bool_decide (k ∈ axes)) eqn:Hb; [|reflexivity].
    apply bool_decide_eq_true_1, Hax in Hb. congruence. }
  rewrite Hshape.
  transitivity (tabulate (shape a) (getitem s_zero a)); [|apply tabulate_getitem, Hwf].
  transitivity (foldl (λ res idx, setitem res idx
                                    ((λ idx acc, s_add acc (getitem s_zero a idx)) idx
                                       (getitem s_zero res idx)))
                      (full (shape a) s_zero) (ndindex (shape a))).
  - apply foldl_ext_in. intros res idx Hidx.
    assert (Hid : imap (λ k i, if bool_decide (k ∈ axes) then 0 else i) idx = idx).
    { apply imap_id_in. intros k i Hk.
      destruct (bool_decide (k ∈ axes)) eqn:Hb; [|reflexivity].
      apply bool_decide_eq_true_1, Hax in Hb.
      apply ndindex_bound in Hidx.
      destruct (Forall2_lookup_l _ _ _ _ _ Hidx Hk) as (n & Hn & Hlt).
      rewrite Hb in Hn. injection Hn as <-. lia. }
    cbn beta zeta. rewrite Hid. reflexivity.
  - etransitivity;
      [apply (foldl_fill (shape a) (λ idx acc, s_add acc (getitem s_zero a idx)) s_zero)|].
    unfold tabulate. f_equal. apply list_fmap_ext. intros ? ? ?. apply Hzero.
Qed.
End Fill.

Section Pointwise.
Context {V : Type} `{ScalarOps V}.

Lemma store_outs_lookup (idx : list nat) (outputs : list (dtype * ndarray V))
    (outs : list V) (j : nat) :
  store_outs idx outputs outs !! j
  = (λ p : dtype * ndarray V,
       match outs !! j with
       | Some out_val => (p.1, setitem p.2 idx (s_cast p.1 out_val))
       | None => p
       end) <$> outputs !! j.
Proof.
  unfold store_outs. rewrite list_lookup_imap.
  destruct (outputs !! j) as [[dt out]|]; [|reflexivity]. cbn.
  destruct (outs !! j); reflexivity.
Qed.

Lemma foldl_store_outs_lookup (O : list nat → list V) (l : list (list nat)) (j : nat) :
  ∀ outputs : list (dtype * ndarray V),
    foldl (λ outputs idx, store_outs idx outputs (O idx)) outputs l !! j
    = (λ p : dtype * ndarray V,
         (p.1, foldl (λ out idx,
                        match O idx !! j with
                        | Some out_val => setitem out idx (s_cast p.1 out_val)
                        | None => out
                        end) p.2 l)) <$> outputs !! j.
Proof.
  induction l as [|idx l IH]; intros outputs.
  - cbn. destruct (outputs !! j) as [[dt out]|]; reflexivity.
  - cbn [foldl]. rewrite IH, store_outs_lookup.
    destruct (outputs !! j) as [[dt out]|]; [|reflexivity]. cbn.
    destruct (O idx !! j); reflexivity.
Qed.

Lemma tabulate_wf (sh : list nat) (f : list nat → V) : wf (tabulate sh f).
Proof. unfold wf, tabulate. cbn. rewrite length_fmap. apply length_ndindex. Qed.

Lemma mapM_result_id {A B} (f : A → result B) (g : A → B) (l : list A) :
  (∀ a, a ∈ l → f a = Ok (g a)) → mapM f l = Ok (g <$> l).
Proof.
  induction l as [|a l IH]; intros Hf; [reflexivity|].
  cbn. rewrite (Hf a) by left. cbn.
  rewrite IH by (intros b Hb; apply Hf; right; exact Hb). reflexivity.
Qed.

Context {ScalarOp : Type}.
Variable funcify : ScalarOp → Apply → result (list V → py_outs V).

Lemma elemwise_pointwise (op : Elemwise) (node : Apply) (k : elemwise_kernel)
    (inputs : list (ndarray V)) (sh : list nat) :
  numba_funcify_Elemwise funcify op node = Ok k →
  inputs ≠ [] →
  (∀ x, x ∈ inputs → shape x = sh ∧ wf x) →
  (∀ vals, length (outputs node) ≤ length (outs_list (ek_scalar_op_fn k vals))) →
  (∀ out a, out ∈ outputs node →
            t_broadcastable (v_type out) !! a = Some true → sh !! a = Some 1) →
  (∀ v : V, s_add s_zero v = v) →
  elemwise k inputs
  = Ok (kernel_outputs
          (imap (λ j out, pointwise (ek_scalar_op_fn k) inputs sh j (t_dtype (v_type out)))
                (outputs node))).
Proof.
  intros Hk Hne Hall Houts Hbc Hzero. unfold numba_funcify_Elemwise in Hk.
  destruct (funcify (e_scalar_op op) node) as [fn|]; [|discriminate].
  rewrite bind_Ok in Hk. injection Hk as <-.
  cbn [ek_scalar_op_fn] in *. unfold elemwise.
  rewrite (broadcast_arrays_same s_zero inputs sh Hne Hall), bind_Ok.
  destruct inputs as [|x0 rest] eqn:Hin; [contradiction|]. rewrite <- Hin in *.
  assert (Hfirst : first inputs = Ok x0) by (rewrite Hin; reflexivity).
  rewrite Hfirst, bind_Ok.
  assert (Hsh0 : shape x0 = sh) by (apply Hall; rewrite Hin; left).
  rewrite Hsh0.
  assert (Hcheck : check_broadcast inputs
                     ((λ inp, t_broadcastable (v_type inp)) <$> Elemwise.inputs node) sh
                   = Ok ()).
  { unfold check_broadcast.
    apply (foldlM_unit_ok
             (λ '(input, bc), foldlM (λ _ p, check_axis sh p) ()
                                (zip (zip (shape input) bc) sh))).
    intros [x bc] Hx. apply elem_of_zip_l in Hx. destruct (Hall x Hx) as [-> _].
    apply check_axes_self. }
  cbn [ek_input_bc_patterns ek_output_dtypes ek_output_bc_patterns ek_scalar_op_fn].
  rewrite Hcheck, bind_Ok.
  assert (Hrank : forallb (λ x, bool_decide (ndim x = length sh)) inputs = true).
  { apply forallb_forall. intros x Hx. apply bool_decide_eq_true_2.
    apply list_elem_of_In, Hall in Hx. destruct Hx as [<- _]. reflexivity. }
  rewrite Hrank.
  set (O := λ idx, outs_list (fn ((λ input, getitem s_zero input idx) <$> inputs))).
  set (final := foldl _ _ (ndindex sh)).
  assert (Hfinal : snd <$> final
                   = imap (λ j out, pointwise fn inputs sh j (t_dtype (v_type out)))
                          (outputs node)).
  { apply list_eq. intros j. rewrite list_lookup_fmap. subst final.
    etransitivity.
    { apply (f_equal (fmap snd)).
      apply (foldl_store_outs_lookup O (ndindex sh) j). }
    rewrite !list_lookup_fmap, list_lookup_imap.
    destruct (outputs node !! j) as [out|] eqn:Hout; [|reflexivity]. cbn. f_equal.
    unfold pointwise. fold (O).
    etransitivity; [|apply (foldl_fill sh
                      (λ idx _, s_cast (t_dtype (v_type out)) (default s_zero (O idx !! j)))
                      s_zero)].
    apply foldl_ext_in. intros res idx _.
    destruct (O idx !! j) as [v|] eqn:Hv; [reflexivity|].
    exfalso. apply lookup_ge_None in Hv. apply lookup_lt_Some in Hout.
    specialize (Houts ((λ input, getitem s_zero input idx) <$> inputs)).
    subst O. cbn beta in Hv. lia. }
  rewrite Hfinal.
  rewrite (mapM_result_id _ fst).
  - rewrite bind_Ok. 
    assert (Hfst : fst <$> zip (imap (λ j out, pointwise fn inputs sh j (t_dtype (v_type out)))
                                      (outputs node))
                                ((λ out, t_broadcastable (v_type out)) <$> outputs node)
                   = imap (λ j out, pointwise fn inputs sh j (t_dtype (v_type out)))
                          (outputs node)).
    { apply fst_zip. rewrite length_imap, length_fmap. reflexivity. }
    rewrite Hfst. unfold kernel_outputs.
    destruct (imap _ (outputs node)) as [|o1 [|o2 os]]; reflexivity.
  - intros [out bc] Hin'. apply list_elem_of_lookup in Hin' as [j Hj].
    apply lookup_zip_with_Some in Hj as (o & b & Heq & Ho & Hb). injection Heq as <- <-.
    rewrite list_lookup_imap in Ho. rewrite list_lookup_fmap in Hb.
    destruct (outputs node !! j) as [ov|] eqn:Hov; [|discriminate].
    cbn in Ho, Hb. injection Ho as <-. injection Hb as <-.
    cbn [fst]. apply sum_keepdims_unit_axes.
    + exact Hzero.
    + apply tabulate_wf.
    + intros a Ha. apply nonzero_elem in Ha. cbn [shape pointwise tabulate].
      apply (Hbc ov a); [|exact Ha]. eapply list_elem_of_lookup_2. exact Hov.
Qed.
End Pointwise.

(** ** Kernels with several outputs *)

Section Returned.
Context {V : Type} `{ScalarOps V}.

Lemma length_store_outs (idx : list nat) (outputs : list (dtype * ndarray V))
    (outs : list V) :
  length (store_outs idx outputs outs) = length outputs.
Proof. unfold store_outs. apply length_imap. Qed.

Lemma length_foldl_store_outs (O : list nat → list V) (l : list (list nat)) :
  ∀ outputs : list (dtype * ndarray V),
    length (foldl (λ outputs idx, store_outs idx outputs (O idx)) outputs l)
    = length outputs.
Proof.
  induction l as [|idx l IH]; intros outputs; [reflexivity|].
  cbn [foldl]. rewrite IH. apply length_store_outs.
Qed.

(** What the reference implementation returns, when it returns: one
    array per output dtype and pattern, a single one as it is, several as
    a tuple. *)
Lemma elemwise_returns (k : elemwise_kernel) (inputs : list (ndarray V))
    (r : kernel_result V) :
  elemwise k inputs = Ok r →
  ∃ outs, r = kernel_outputs outs
          ∧ length outs = length (ek_output_dtypes k) `min` length (ek_output_bc_patterns k).
Proof.
  unfold elemwise. intros Hr.
  destruct (broadcast_arrays s_zero inputs) as [inputs_bc|]; [|discriminate].
  rewrite bind_Ok in Hr.
  destruct (first inputs) as [input0|]; [|discriminate]. rewrite bind_Ok in Hr.
  destruct (check_broadcast _ _ _) as [[]|]; [|discriminate]. rewrite bind_Ok in Hr.
  destruct (forallb _ _); [|discriminate].
  match type of Hr with
  | context [mapM ?f ?l] => destruct (mapM f l) as [outs|] eqn:Hm; [|discriminate]
  end.
  rewrite bind_Ok in Hr. exists outs. split.
  - unfold kernel_outputs. destruct outs as [|o1 [|o2 os]]; congruence.
  - apply mapM_result_length in Hm as [Hlen _]. rewrite Hlen.
    rewrite length_zip, length_fmap.
    rewrite (length_foldl_store_outs
               (λ idx, match ek_scalar_op_fn k ((λ input, getitem s_zero input idx) <$> inputs_bc)
                       with One v => [v] | Tuple vs => vs end)).
    rewrite length_fmap. reflexivity.
Qed.
End Returned.

(** C6, as amended.  [create_vectorize_func] fails at once with
    [NotImplementedError] for every node with more than one output, and
    only nodes with at most one output get a vectorized function from it.
    [numba_funcify_Elemwise] does not call it and has no such check:
    whenever the scalar operator translates to a kernel, it returns an
    element-wise kernel with one output per output of the node.  For a node
    with several outputs the reference implementation of that kernel
    returns a tuple with one array per output: whatever it returns is such
    a tuple, and it does return one on inputs of one shape (when the scalar
    function returns a value for every output, output axes declared
    broadcastable have length 1, and adding to zero changes nothing). *)
Theorem multi_output_elemwise
    {Signature ScalarFn : Type} (create_numba_signature : Apply → Signature)
    (target : string) (scalar_op_fn : ScalarFn) (node : Apply)
    (use_signature : bool) (identity : option number) :
  (1 < length (outputs node) →
   create_vectorize_func create_numba_signature target scalar_op_fn node
     use_signature identity = Raise NotImplementedError)
  ∧ (length (outputs node) ≤ 1 →
     ∃ f, create_vectorize_func create_numba_signature target scalar_op_fn node
            use_signature identity = Ok f
          ∧ vf_py_scalar_func f = scalar_op_fn)
  ∧ (∀ (V ScalarOp : Type) (funcify : ScalarOp → Apply → result (list V → py_outs V))
       (op : Elemwise) (fn : list V → py_outs V),
       funcify (e_scalar_op op) node = Ok fn →
       ∃ k, numba_funcify_Elemwise funcify op node = Ok k
            ∧ ek_scalar_op_fn k = fn
            ∧ ek_nout k = length (outputs node)
            ∧ length (ek_output_dtypes k) = length (outputs node))
  ∧ ∀ (V : Type) (ops : ScalarOps V) (ScalarOp : Type)
      (funcify : ScalarOp → Apply → result (list V → py_outs V))
      (op : Elemwise) (k : elemwise_kernel),
      numba_funcify_Elemwise funcify op node = Ok k →
      1 < length (outputs node) →
      (∀ inputs r, elemwise k inputs = Ok r →
                   ∃ outs, r = RTuple outs ∧ length outs = length (outputs node))
      ∧ (∀ (inputs : list (ndarray V)) (sh : list nat),
           inputs ≠ [] →
           (∀ x, x ∈ inputs → shape x = sh ∧ wf x) →
           (∀ vals, length (outputs node) ≤ length (outs_list (ek_scalar_op_fn k vals))) →
           (∀ out a, out ∈ outputs node →
                     t_broadcastable (v_type out) !! a = Some true → sh !! a = Some 1) →
           (∀ v : V, s_add s_zero v = v) →
           ∃ outs, elemwise k inputs = Ok (RTuple outs)
                   ∧ length outs = length (outputs node)).
Proof.
  split_and!.
  - intros Hlen. unfold create_vectorize_func.
    destruct (decide _) as [|Hn]; [reflexivity|lia].
  - intros Hlen. unfold create_vectorize_func.
    destruct (decide _) as [Hn|_]; [lia|]. eexists. split; reflexivity.
  - intros V ScalarOp funcify op fn Hfn. unfold numba_funcify_Elemwise.
    rewrite Hfn. cbn. eexists. split; [reflexivity|]. cbn.
    split_and!; [reflexivity|reflexivity|]. apply length_fmap.
  - intros V ops ScalarOp funcify op k Hk Hmany.
    assert (Hlens : length (ek_output_dtypes k) = length (outputs node)
                    ∧ length (ek_output_bc_patterns k) = length (outputs node)).
    { unfold numba_funcify_Elemwise in Hk.
      destruct (funcify (e_scalar_op op) node) as [fn|]; [|discriminate].
      rewrite bind_Ok in Hk. injection Hk as <-. cbn.
      rewrite !length_fmap. split; reflexivity. }
    destruct Hlens as [Hd Hp].
    assert (Htuple : ∀ outs : list (ndarray V),
              length outs = length (outputs node) → kernel_outputs outs = RTuple outs).
    { intros outs Hlen. unfold kernel_outputs.
      destruct outs as [|o1 [|o2 os]]; [reflexivity| |reflexivity].
      cbn in Hlen. lia. }
    split.
    + intros inputs r Hr.
      apply elemwise_returns in Hr as (outs & -> & Hlen).
      rewrite Hd, Hp, Nat.min_id in Hlen.
      exists outs. split; [apply Htuple, Hlen|exact Hlen].
    + intros inputs sh Hne Hall Houts Hbc Hzero.
      eexists. split.
      * rewrite (elemwise_pointwise funcify op node k inputs sh Hk Hne Hall Houts Hbc Hzero).
        f_equal. apply Htuple. apply length_imap.
      * apply length_imap.
Qed.

Lemma multi_output_elemwise_witness :
  1 < length (outputs add_mul_node)
  ∧ create_vectorize_func (λ _ : Apply, ()) "cpu" DemoAddMul add_mul_node false None
    = Raise NotImplementedError
  ∧ ∃ k, numba_funcify_Elemwise demo_funcify add_mul_op add_mul_node = Ok k
         ∧ ek_nout k = 2
         ∧ ∃ outs, elemwise k [v123; v456] = Ok (RTuple outs)
                   ∧ length outs = length (outputs add_mul_node).
Proof.
  assert (Hlen : 1 < length (outputs add_mul_node)) by (vm_compute; lia).
  destruct (multi_output_elemwise (λ _ : Apply, ()) "cpu" DemoAddMul add_mul_node
              false None) as (Hvec & _ & Hel & Hret).
  split; [exact Hlen|]. split; [exact (Hvec Hlen)|].
  destruct (Hel Z demo_scalar_op demo_funcify add_mul_op _ eq_refl)
    as (k & Hk & _ & Hnout & _).
  exists k. split; [exact Hk|]. split; [exact Hnout|].
  destruct (Hret Z _ demo_scalar_op demo_funcify add_mul_op k Hk Hlen) as [_ Hsame].
  apply (Hsame [v123; v456] [3]).
  - discriminate.
  - intros x Hx. apply elem_of_cons in Hx as [->|Hx]; [split; reflexivity|].
    apply list_elem_of_singleton in Hx as ->. split; reflexivity.
  - intros vals. cbn in Hk. injection Hk as <-. cbn. lia.
  - intros out a Hout. apply elem_of_cons in Hout as [->|Hout].
    + destruct a as [|[|a]]; discriminate.
    + apply list_elem_of_singleton in Hout as ->. destruct a as [|[|a]]; discriminate.
  - intros v. apply Z.add_0_l.
Defined.

(** X10.  The reference implementation does reject a forbidden
    broadcast whenever it shows against the first input: if some input has
    length 1 on an axis that its pattern marks as not broadcastable, and the
    first input has another length on that axis, the call raises
    [ValueError("Broadcast not allowed.")] (provided the shapes broadcast at
    all, so that [np.broadcast_arrays] does not raise first). *)
Theorem elemwise_broadcast_not_allowed {V : Type} `{ScalarOps V} (k : elemwise_kernel)
    (inputs : list (ndarray V)) (x0 x : ndarray V) (bc : list bool) (j a n : nat) :
  is_Ok (broadcast_arrays s_zero inputs) = true →
  first inputs = Ok x0 →
  inputs !! j = Some x → ek_input_bc_patterns k !! j = Some bc →
  shape x !! a = Some 1 → bc !! a = Some false →
  shape x0 !! a = Some n → n ≠ 1 →
  elemwise k inputs = Raise (ValueError "Broadcast not allowed.").
Proof.
  intros Hbc Hfirst Hx Hpat Hlen Hallow Hit Hn. unfold elemwise.
  destruct (broadcast_arrays s_zero inputs) as [inputs_bc|]; [|discriminate].
  rewrite bind_Ok, Hfirst, bind_Ok.
  rewrite (check_broadcast_violation inputs _ (shape x0) j a n x bc); auto.
Qed.

Lemma elemwise_broadcast_not_allowed_witness :
  ∃ k, numba_funcify_Elemwise demo_funcify add_op add_34_31_node = Ok k
       ∧ is_Ok (broadcast_arrays s_zero [b34; a31]) = true
       ∧ first [b34; a31] = Ok b34
       ∧ [b34; a31] !! 1 = Some a31
       ∧ ek_input_bc_patterns k !! 1 = Some [false; false]
       ∧ shape a31 !! 1 = Some 1 ∧ [false; false] !! 1 = Some false
       ∧ shape b34 !! 1 = Some 4 ∧ 4 ≠ 1
       ∧ elemwise k [b34; a31] = Raise (ValueError "Broadcast not allowed.").
Proof.
  eexists. split; [reflexivity|]. split; [reflexivity|]. split; [reflexivity|].
  split; [reflexivity|]. split; [reflexivity|]. split; [reflexivity|].
  split; [reflexivity|]. split; [reflexivity|].
  assert (Hn : 4 ≠ 1) by lia. split; [exact Hn|].
  match goal with
  | |- elemwise ?k _ = _ =>
      exact (elemwise_broadcast_not_allowed k [b34; a31] b34 a31 [false; false] 1 1 4
               eq_refl eq_refl eq_refl eq_refl eq_refl eq_refl eq_refl Hn)
  end.
Defined.

(** X11.  On inputs that all have one shape the reference implementation
    never raises and computes the kernel pointwise: output [j] is the array
    of that shape whose element at an index is value [j] of the scalar
    function applied to the elements of the inputs at that index, stored
    with the dtype of output [j]; one output is returned as an array, several
    as a tuple.  (The scalar function returns a value for every output,
    output axes declared broadcastable have length 1, and adding to zero
    changes nothing.) *)
Theorem elemwise_same_shape {V : Type} `{ScalarOps V} {ScalarOp : Type}
    (funcify : ScalarOp → Apply → result (list V → py_outs V))
    (op : Elemwise) (node : Apply) (k : elemwise_kernel)
    (inputs : list (ndarray V)) (sh : list nat) :
  numba_funcify_Elemwise funcify op node = Ok k →
  inputs ≠ [] →
  (∀ x, x ∈ inputs → shape x = sh ∧ wf x) →
  (∀ vals, length (outputs node) ≤ length (outs_list (ek_scalar_op_fn k vals))) →
  (∀ out a, out ∈ outputs node →
            t_broadcastable (v_type out) !! a = Some true → sh !! a = Some 1) →
  (∀ v : V, s_add s_zero v = v) →
  elemwise k inputs
  = Ok (kernel_outputs
          (imap (λ j out, pointwise (ek_scalar_op_fn k) inputs sh j (t_dtype (v_type out)))
                (outputs node))).
Proof. apply elemwise_pointwise. Qed.

Lemma elemwise_same_shape_witness :
  ∃ k, numba_funcify_Elemwise demo_funcify add_mul_op add_mul_node = Ok k
       ∧ [v123; v456] ≠ []
       ∧ (∀ x, x ∈ [v123; v456] → shape x = [3] ∧ wf x)
       ∧ (∀ vals, length (outputs add_mul_node)
                  ≤ length (outs_list (ek_scalar_op_fn k vals)))
       ∧ (∀ out a, out ∈ outputs add_mul_node →
                   t_broadcastable (v_type out) !! a = Some true → [3] !! a = Some 1)
       ∧ (∀ v : Z, s_add s_zero v = v)
       ∧ elemwise k [v123; v456]
         = Ok (kernel_outputs
                 (imap (λ j out, pointwise (ek_scalar_op_fn k) [v123; v456] [3] j
                                   (t_dtype (v_type out)))
                       (outputs add_mul_node)))
       ∧ elemwise k [v123; v456]
         = Ok (RTuple [mk_ndarray [3] [5; 7; 9]%Z; mk_ndarray [3] [4; 10; 18]%Z]).
Proof.
  eexists. split; [reflexivity|].
  assert (Hne : [v123; v456] ≠ []) by discriminate.
  assert (Hall : ∀ x, x ∈ [v123; v456] → shape x = [3] ∧ wf x).
  { intros x Hx. apply elem_of_cons in Hx as [->|Hx]; [split; reflexivity|].
    apply list_elem_of_singleton in Hx as ->. split; reflexivity. }
  assert (Houts : ∀ vals : list Z,
            length (outputs add_mul_node)
            ≤ length (outs_list (Tuple [foldl Z.add 0%Z vals; foldl Z.mul 1%Z vals])))
    by (intros vals; cbn; lia).
  assert (Hbc : ∀ out a, out ∈ outputs add_mul_node →
            t_broadcastable (v_type out) !! a = Some true → [3] !! a = Some 1).
  { intros out a Hout. apply elem_of_cons in Hout as [->|Hout].
    - destruct a as [|[|a]]; discriminate.
    - apply list_elem_of_singleton in Hout as ->. destruct a as [|[|a]]; discriminate. }
  assert (Hzero : ∀ v : Z, s_add s_zero v = v) by (intros v; apply Z.add_0_l).
  split; [exact Hne|]. split; [exact Hall|]. split; [exact Houts|].
  split; [exact Hbc|]. split; [exact Hzero|].
  split; [|vm_compute; reflexivity].
  match goal with
  | |- elemwise ?k _ = _ =>
      exact (elemwise_same_shape demo_funcify add_mul_op add_mul_node k [v123; v456] [3]
               eq_refl Hne Hall Houts Hbc Hzero)
  end.
Defined.

(* ===================================================================== *)
(** * The reference implementation on inputs that broadcast               *)
(* ===================================================================== *)

Section BroadcastPointwise.
Context {V : Type} `{ScalarOps V}.

Lemma check_broadcast_allowed (inputs : list (ndarray V)) (patterns : list (list bool))
    (shape0 : list nat) :
  (∀ j x bc a n, inputs !! j = Some x → patterns !! j = Some bc →
                 shape x !! a = Some 1 → bc !! a = Some false →
                 shape0 !! a = Some n → n = 1) →
  check_broadcast inputs patterns shape0 = Ok ().
Proof.
  intros Hall. unfold check_broadcast.
  apply (foldlM_unit_ok
           (λ '(input, bc), foldlM (λ _ p, check_axis shape0 p) ()
                              (zip (zip (shape input) bc) shape0))).
  intros [x bc] Hx. apply list_elem_of_lookup in Hx as [j Hj].
  apply lookup_zip_with_Some in Hj as (x' & bc' & Heq & Hx & Hbc). injection Heq as <- <-.
  apply foldlM_unit_ok. intros [[len b] it] Hp.
  apply list_elem_of_lookup in Hp as [a Ha].
  apply lookup_zip_with_Some in Ha as (p & it' & Heq & Hp & Hit). injection Heq as <- <-.
  apply lookup_zip_with_Some in Hp as (len' & b' & Heq & Hlen & Hb).
  injection Heq as <- <-.
  unfold check_axis.
  destruct (decide (len = 1)) as [->|Hne];
    [|rewrite (bool_decide_eq_false_2 _ Hne); reflexivity].
  destruct b; [rewrite andb_false_r; reflexivity|].
  rewrite (Hall j x bc a it Hx Hbc Hlen Hb Hit).
  rewrite (bool_decide_eq_false_2 (1 ≠ 1)) by (intros Hn; apply Hn; reflexivity).
  rewrite andb_false_r. reflexivity.
Qed.

(** The loop over the indices and the final sums of the reference
    implementation, on inputs [ins] already broadcast to [sh]. *)
Lemma elemwise_loop (fn : list V → py_outs V) (out_vars : list TensorVariable)
    (ins : list (ndarray V)) (sh : list nat) :
  (∀ vals, length out_vars ≤ length (outs_list (fn vals))) →
  (∀ out a, out ∈ out_vars →
            t_broadcastable (v_type out) !! a = Some true → sh !! a = Some 1) →
  (∀ v : V, s_add s_zero v = v) →
  (outputs_summed ←
     mapM (λ '(output, bc), sum_keepdims output (nonzero bc))
          (zip (snd <$> foldl (λ outputs idx,
                                 store_outs idx outputs
                                   (match fn ((λ input, getitem s_zero input idx) <$> ins) with
                                    | One v => [v]
                                    | Tuple vs => vs
                                    end))
                              ((λ dtype, (dtype, full sh s_zero))
                                 <$> ((λ out, t_dtype (v_type out)) <$> out_vars))
                              (ndindex sh))
               ((λ out, t_broadcastable (v_type out)) <$> out_vars));
   match outputs_summed with
   | [out] => Ok (RArr out)
   | _ => Ok (RTuple outputs_summed)
   end)
  = Ok (kernel_outputs
          (imap (λ j out, pointwise fn ins sh j (t_dtype (v_type out))) out_vars)).
Proof.
  intros Houts Hbc Hzero.
  set (O := λ idx, outs_list (fn ((λ input, getitem s_zero input idx) <$> ins))).
  set (final := foldl _ _ (ndindex sh)).
  assert (Hfinal : snd <$> final
                   = imap (λ j out, pointwise fn ins sh j (t_dtype (v_type out))) out_vars).
  { apply list_eq. intros j. rewrite list_lookup_fmap. subst final.
    etransitivity.
    { apply (f_equal (fmap snd)).
      apply (foldl_store_outs_lookup O (ndindex sh) j). }
    rewrite !list_lookup_fmap, list_lookup_imap.
    destruct (out_vars !! j) as [out|] eqn:Hout; [|reflexivity]. cbn. f_equal.
    unfold pointwise. fold (O).
    etransitivity; [|apply (foldl_fill sh
                      (λ idx _, s_cast (t_dtype (v_type out)) (default s_zero (O idx !! j)))
                      s_zero)].
    apply foldl_ext_in. intros res idx _.
    destruct (O idx !! j) as [v|] eqn:Hv; [reflexivity|].
    exfalso. apply lookup_ge_None in Hv. apply lookup_lt_Some in Hout.
    specialize (Houts ((λ input, getitem s_zero input idx) <$> ins)).
    subst O. cbn beta in Hv. lia. }
  rewrite Hfinal.
  rewrite (mapM_result_id _ fst).
  - rewrite bind_Ok.
    assert (Hfst : fst <$> zip (imap (λ j out, pointwise fn ins sh j (t_dtype (v_type out)))
                                      out_vars)
                                ((λ out, t_broadcastable (v_type out)) <$> out_vars)
                   = imap (λ j out, pointwise fn ins sh j (t_dtype (v_type out))) out_vars).
    { apply fst_zip. rewrite length_imap, length_fmap. reflexivity. }
    rewrite Hfst. unfold kernel_outputs.
    destruct (imap _ out_vars) as [|o1 [|o2 os]]; reflexivity.
  - intros [out bc] Hin'. apply list_elem_of_lookup in Hin' as [j Hj].
    apply lookup_zip_with_Some in Hj as (o & b & Heq & Ho & Hb). injection Heq as <- <-.
    rewrite list_lookup_imap in Ho. rewrite list_lookup_fmap in Hb.
    destruct (out_vars !! j) as [ov|] eqn:Hov; [|discriminate].
    cbn in Ho, Hb. injection Ho as <-. injection Hb as <-.
    cbn [fst]. apply sum_keepdims_unit_axes.
    + exact Hzero.
    + apply tabulate_wf.
    + intros a Ha. apply nonzero_elem in Ha. cbn [shape pointwise tabulate].
      apply (Hbc ov a); [|exact Ha]. eapply list_elem_of_lookup_2. exact Hov.
Qed.

Context {ScalarOp : Type}.
Variable funcify : ScalarOp → Apply → result (list V → py_outs V).

Lemma elemwise_broadcast_first (op : Elemwise) (node : Apply) (k : elemwise_kernel)
    (inputs : list (ndarray V)) (x0 : ndarray V) :
  numba_funcify_Elemwise funcify op node = Ok k →
  first inputs = Ok x0 →
  broadcast_shapes (shape <$> inputs) = Ok (shape x0) →
  (∀ j x bc a n, inputs !! j = Some x → ek_input_bc_patterns k !! j = Some bc →
                 shape x !! a = Some 1 → bc !! a = Some false →
                 shape x0 !! a = Some n → n = 1) →
  (∀ vals, length (outputs node) ≤ length (outs_list (ek_scalar_op_fn k vals))) →
  (∀ out a, out ∈ outputs node →
            t_broadcastable (v_type out) !! a = Some true → shape x0 !! a = Some 1) →
  (∀ v : V, s_add s_zero v = v) →
  elemwise k inputs
  = Ok (kernel_outputs
          (imap (λ j out,
                   pointwise (ek_scalar_op_fn k)
                     ((λ x, broadcast_to s_zero x (shape x0)) <$> inputs)
                     (shape x0) j (t_dtype (v_type out)))
                (outputs node))).
Proof.
  intros Hk Hfirst Hsh Hallowed Houts Hbc Hzero. unfold numba_funcify_Elemwise in Hk.
  destruct (funcify (e_scalar_op op) node) as [fn|]; [|discriminate].
  rewrite bind_Ok in Hk. injection Hk as <-.
  cbn [ek_scalar_op_fn ek_input_bc_patterns] in *. unfold elemwise.
  unfold broadcast_arrays. rewrite Hsh, !bind_Ok, Hfirst, bind_Ok.
  cbn [ek_input_bc_patterns ek_output_dtypes ek_output_bc_patterns ek_scalar_op_fn].
  rewrite (check_broadcast_allowed inputs _ (shape x0) Hallowed), bind_Ok.
  assert (Hrank : forallb (λ x, bool_decide (ndim x = length (shape x0)))
                    ((λ x, broadcast_to s_zero x (shape x0)) <$> inputs) = true).
  { apply forallb_forall. intros x Hx. apply bool_decide_eq_true_2.
    apply list_elem_of_In, list_elem_of_fmap in Hx as (y & -> & _). reflexivity. }
  rewrite Hrank.
  apply (elemwise_loop fn (outputs node) _ (shape x0) Houts Hbc Hzero).
Qed.
End BroadcastPointwise.

(** X22.  When the first input has the common shape of the inputs and
    no input has length 1 on an axis that its pattern forbids to broadcast
    (unless the first input has length 1 there too), the reference
    implementation does not raise and computes the kernel pointwise on the
    inputs broadcast to that shape: output [j] holds, at every index, value
    [j] of the scalar function applied to the elements of the broadcast
    inputs, stored with the dtype of output [j].  (The scalar function
    returns a value for every output, output axes declared broadcastable
    have length 1, and adding to zero changes nothing.) *)
Theorem elemwise_broadcast_pointwise {V : Type} `{ScalarOps V} {ScalarOp : Type}
    (funcify : ScalarOp → Apply → result (list V → py_outs V))
    (op : Elemwise) (node : Apply) (k : elemwise_kernel)
    (inputs : list (ndarray V)) (x0 : ndarray V) :
  numba_funcify_Elemwise funcify op node = Ok k →
  first inputs = Ok x0 →
  broadcast_shapes (shape <$> inputs) = Ok (shape x0) →
  (∀ j x bc a n, inputs !! j = Some x → ek_input_bc_patterns k !! j = Some bc →
                 shape x !! a = Some 1 → bc !! a = Some false →
                 shape x0 !! a = Some n → n = 1) →
  (∀ vals, length (outputs node) ≤ length (outs_list (ek_scalar_op_fn k vals))) →
  (∀ out a, out ∈ outputs node →
            t_broadcastable (v_type out) !! a = Some true → shape x0 !! a = Some 1) →
  (∀ v : V, s_add s_zero v = v) →
  elemwise k inputs
  = Ok (kernel_outputs
          (imap (λ j out,
                   pointwise (ek_scalar_op_fn k)
                     ((λ x, broadcast_to s_zero x (shape x0)) <$> inputs)
                     (shape x0) j (t_dtype (v_type out)))
                (outputs node))).
Proof. apply elemwise_broadcast_first. Qed.

Lemma elemwise_broadcast_pointwise_witness :
  ∃ k, numba_funcify_Elemwise demo_funcify add_op add_bc_node = Ok k
       ∧ first [b34; a31] = Ok b34
       ∧ broadcast_shapes (shape <$> [b34; a31]) = Ok (shape b34)
       ∧ ek_input_bc_patterns k = [[false; false]; [false; true]]
       ∧ elemwise k [b34; a31]
         = Ok (kernel_outputs
                 (imap (λ j out,
                          pointwise (ek_scalar_op_fn k)
                            ((λ x, broadcast_to s_zero x (shape b34)) <$> [b34; a31])
                            (shape b34) j (t_dtype (v_type out)))
                       (outputs add_bc_node)))
       ∧ elemwise k [b34; a31]
         = Ok (RArr (mk_ndarray [3; 4]
                       [11; 12; 13; 14; 25; 26; 27; 28; 39; 40; 41; 42]%Z)).
Proof.
  eexists. split; [reflexivity|].
  assert (Hsh : broadcast_shapes (shape <$> [b34; a31]) = Ok (shape b34))
    by (vm_compute; reflexivity).
  assert (Hallowed : ∀ j x bc a n,
            [b34; a31] !! j = Some x →
            [[false; false]; [false; true]] !! j = Some bc →
            shape x !! a = Some 1 → bc !! a = Some false →
            shape b34 !! a = Some n → n = 1).
  { intros j x bc a n Hx Hbc Hlen Hallow Hn.
    destruct j as [|[|j]]; cbn in Hx, Hbc; try discriminate;
      injection Hx as <-; injection Hbc as <-;
      destruct a as [|[|a]]; cbn in Hlen, Hallow, Hn; discriminate. }
  assert (Houts : ∀ vals : list Z,
            length (outputs add_bc_node) ≤ length (outs_list (One (foldl Z.add 0%Z vals))))
    by (intros vals; cbn; lia).
  assert (Hbc : ∀ out a, out ∈ outputs add_bc_node →
            t_broadcastable (v_type out) !! a = Some true → shape b34 !! a = Some 1).
  { intros out a Hout. apply list_elem_of_singleton in Hout as ->.
    destruct a as [|[|a]]; discriminate. }
  assert (Hzero : ∀ v : Z, s_add s_zero v = v) by (intros v; apply Z.add_0_l).
  split; [reflexivity|]. split; [exact Hsh|]. split; [reflexivity|].
  split; [|vm_compute; reflexivity].
  match goal with
  | |- elemwise ?k _ = _ =>
      exact (elemwise_broadcast_pointwise demo_funcify add_op add_bc_node k [b34; a31] b34
               eq_refl eq_refl Hsh Hallowed Houts Hbc Hzero)
  end.
Defined.

(* ===================================================================== *)
(** * Dimension shuffles that insert and drop axes                        *)
(* ===================================================================== *)

Lemma kept_before_S (augment : list nat) (i : nat) :
  kept_before augment (S i)
  = if bool_decide (i ∈ augment) then kept_before augment i
    else S (kept_before augment i).
Proof.
  unfold kept_before. rewrite seq_S, filter_app, length_app. cbn [Nat.add].
  destruct (bool_decide (i ∈ augment)) eqn:Hi.
  - apply bool_decide_eq_true_1 in Hi.
    rewrite (filter_cons_False _ i []) by (intros Hn; apply Hn, Hi). cbn. lia.
  - apply bool_decide_eq_false_1 in Hi.
    rewrite (filter_cons_True _ i []) by exact Hi. cbn. lia.
Qed.

Lemma find_shape_dynamic_closed (op : DimShuffle) (array_shape : list nat) :
  find_shape_dynamic op array_shape
  = augmented_shape (ds_augment op) (ndim_new_shape op) array_shape.
Proof.
  unfold find_shape_dynamic, shape_template, augmented_shape.
  set (n := ndim_new_shape op). set (A := ds_augment op).
  set (cf := λ i, if bool_decide (i ∈ A) then 1 else array_shape !!! kept_before A i).
  assert (Hgen : ∀ m, m ≤ n →
            foldl (λ '(shape, j) i,
                     if bool_decide (i ∉ A)
                     then (tuple_setitem shape i (array_shape !!! j), j + 1)
                     else (shape, j))
                  (replicate n 1, 0) (seq 0 m)
            = ((cf <$> seq 0 m) ++ replicate (n - m) 1, kept_before A m)).
  { induction m as [|m IH]; intros Hm.
    - cbn. rewrite Nat.sub_0_r. reflexivity.
    - rewrite seq_S, foldl_app, IH by lia. cbn [foldl Nat.add].
      rewrite kept_before_S, fmap_app. cbn [fmap list_fmap].
      replace (n - m) with (S (n - S m)) by lia. cbn [replicate].
      assert (Hcf : cf m = if bool_decide (m ∈ A) then 1
                           else array_shape !!! kept_before A m) by reflexivity.
      destruct (decide (m ∈ A)) as [Hin|Hnin].
      + rewrite (bool_decide_eq_false_2 (m ∉ A)) by (intros Hn; apply Hn, Hin).
        rewrite (bool_decide_eq_true_2 (m ∈ A)) in Hcf |- * by exact Hin.
        rewrite Hcf, <- app_assoc. reflexivity.
      + rewrite (bool_decide_eq_true_2 (m ∉ A)) by exact Hnin.
        rewrite (bool_decide_eq_false_2 (m ∈ A)) in Hcf |- * by exact Hnin.
        unfold tuple_setitem. f_equal; [|lia].
        rewrite insert_app_r_alt by (rewrite length_fmap, length_seq; lia).
        rewrite length_fmap, length_seq, Nat.sub_diag. cbn [insert list_insert].
        rewrite Hcf, <- app_assoc. reflexivity. }
  rewrite (Hgen n) by lia. cbn [fst]. rewrite Nat.sub_diag. cbn. apply app_nil_r.
Qed.

Lemma length_augmented_shape (A : list nat) (n : nat) (kept : list nat) :
  length (augmented_shape A n kept) = n.
Proof. unfold augmented_shape. rewrite length_fmap. apply length_seq. Qed.

Lemma augmented_shape_lookup (A : list nat) (n : nat) (kept : list nat) (i : nat) :
  i < n →
  augmented_shape A n kept !! i
  = Some (if bool_decide (i ∈ A) then 1 else kept !!! kept_before A i).
Proof.
  intros Hi. unfold augmented_shape. rewrite list_lookup_fmap, lookup_seq_lt by exact Hi.
  reflexivity.
Qed.

Lemma shape_size_snoc (l : list nat) (v : nat) : shape_size (l ++ [v]) = shape_size l * v.
Proof. rewrite shape_size_app. cbn. lia. Qed.

Lemma shape_size_augmented (A : list nat) (n : nat) (kept : list nat) :
  kept_before A n = length kept →
  shape_size (augmented_shape A n kept) = shape_size kept.
Proof.
  intros HK. unfold augmented_shape.
  assert (Hgen : ∀ m,
            shape_size ((λ i, if bool_decide (i ∈ A) then 1
                              else kept !!! kept_before A i) <$> seq 0 m)
            = shape_size ((λ t, kept !!! t) <$> seq 0 (kept_before A m))).
  { induction m as [|m IH]; [reflexivity|].
    rewrite seq_S, fmap_app, shape_size_app, IH, kept_before_S. cbn [Nat.add fmap list_fmap].
    destruct (bool_decide (m ∈ A)); [cbn; lia|].
    rewrite seq_S, fmap_app, shape_size_app. reflexivity. }
  rewrite Hgen, HK. rewrite lookup_total_seq_id. reflexivity.
Qed.

Lemma augmented_shape_kept (A : list nat) (n : nat) (kept : list nat) :
  kept_before A n = length kept →
  (λ i, augmented_shape A n kept !!! i) <$> filter (λ i, i ∉ A) (seq 0 n) = kept.
Proof.
  intros HK.
  assert (Hgen : ∀ m, m ≤ n →
            (λ i, augmented_shape A n kept !!! i) <$> filter (λ i, i ∉ A) (seq 0 m)
            = (λ t, kept !!! t) <$> seq 0 (kept_before A m)).
  { induction m as [|m IH]; intros Hm; [reflexivity|].
    rewrite seq_S, filter_app, fmap_app, IH, kept_before_S by lia. cbn [Nat.add].
    destruct (decide (m ∈ A)) as [Hin|Hnin].
    - rewrite (bool_decide_eq_true_2 _ Hin).
      rewrite (filter_cons_False _ m []) by (intros Hn; apply Hn, Hin).
      apply app_nil_r.
    - rewrite (bool_decide_eq_false_2 _ Hnin).
      rewrite (filter_cons_True _ m []) by exact Hnin.
      rewrite seq_S, fmap_app. f_equal. cbn. f_equal.
      apply list_lookup_total_correct.
      rewrite augmented_shape_lookup by lia.
      rewrite (bool_decide_eq_false_2 _ Hnin). reflexivity. }
  rewrite (Hgen n) by lia. rewrite HK. apply lookup_total_seq_id.
Qed.

Lemma kept_before_valid (A : list nat) (n : nat) :
  NoDup A → (∀ a, a ∈ A → a < n) → kept_before A n + length A = n.
Proof. intros Hnd Hlt. unfold kept_before. apply keep_axes_permutation; assumption. Qed.

Lemma transpose_wf {V} (d : V) (x xt : ndarray V) (axes : list nat) :
  transpose d x axes = Ok xt → wf xt.
Proof.
  unfold transpose. destruct (is_permutation _ _); [|discriminate].
  intros [= <-]. unfold wf, tabulate. cbn. rewrite length_fmap. apply length_ndindex.
Qed.

Section DimShuffleLaws.
Context {V : Type} (d : V).

(** X15.  A dimension shuffle that inserts or drops axes: after the
    transposition the first [len(shuffle)] axes are the kept ones and the
    others the dropped ones.  The output shape has [len(shuffle) +
    len(augment)] axes, length 1 at every position of [augment] and the
    kept lengths, in order, elsewhere.  When the dropped axes hold one
    element the kernel returns the transposed data in that shape; when
    they hold more (and the kept axes are not empty of elements) the
    reshape fails with [ValueError]. *)
Theorem dimshuffle_reshapes (op : DimShuffle) (node : Apply) (out : TensorVariable)
    (x xt : ndarray V) :
  let n := length (ds_shuffle op) + length (ds_augment op) in
  let kept := take (length (ds_shuffle op)) (shape xt) in
  let dropped := drop (length (ds_shuffle op)) (shape xt) in
  let new_shape := augmented_shape (ds_augment op) n kept in
  wf x → ds_transpose d op x = Ok xt →
  0 < length (ds_shuffle op) ≤ ndim xt →
  NoDup (ds_augment op) → (∀ a, a ∈ ds_augment op → a < n) →
  first (outputs node) = Ok out →
  static_shape_agrees (t_shape (v_type out)) new_shape →
  (shape_size dropped = 1 →
   dimshuffle d op node x = Ok (mk_ndarray new_shape (data xt)))
  ∧ (shape_size dropped ≠ 1 → shape_size kept ≠ 0 →
     dimshuffle d op node x = Raise (ValueError "cannot reshape array"))
  ∧ length new_shape = n
  ∧ (∀ a, a ∈ ds_augment op → new_shape !! a = Some 1)
  ∧ (λ i, new_shape !!! i) <$> filter (λ i, i ∉ ds_augment op) (seq 0 n) = kept.
Proof.
  intros n kept dropped new_shape Hwf Hxt [Hpos Hle] Hnd Hlt Hout Hagree.
  assert (Hwft : wf xt).
  { unfold ds_transpose in Hxt. destruct (no_transpose op).
    - injection Hxt as <-. exact Hwf.
    - eapply transpose_wf. exact Hxt. }
  assert (Hkept : length kept = length (ds_shuffle op)).
  { subst kept. rewrite length_take. unfold ndim in Hle. lia. }
  assert (HK : kept_before (ds_augment op) n = length kept).
  { pose proof (kept_before_valid (ds_augment op) n Hnd Hlt). subst n. lia. }
  assert (Hfind : find_shape op node kept = Ok new_shape).
  { unfold find_shape. destruct (decide _) as [_|Hn]; [|lia].
    rewrite Hout, bind_Ok.
    destruct (forallb _ _) eqn:Hall.
    - rewrite (omap_static_agrees _ _ Hagree Hall). reflexivity.
    - rewrite find_shape_dynamic_closed. reflexivity. }
  assert (Hsize : length (data xt) = shape_size kept * shape_size dropped).
  { rewrite Hwft. rewrite <- (take_drop (length (ds_shuffle op)) (shape xt)) at 1.
    apply shape_size_app. }
  assert (Hgo : dimshuffle d op node x = reshape xt new_shape).
  { unfold dimshuffle, dimshuffle_inner. unfold ndim_new_shape.
    destruct (decide _) as [_|Hn]; [|lia].
    rewrite Hxt, bind_Ok. fold kept. rewrite Hfind, bind_Ok.
    unfold ascontiguousarray, copy.
    destruct (reshape xt new_shape); cbn; [|reflexivity].
    destruct (ds_inplace op); reflexivity. }
  assert (Hss : shape_size new_shape = shape_size kept)
    by apply (shape_size_augmented _ _ _ HK).
  split_and!.
  - intros Hone. rewrite Hgo. unfold reshape.
    rewrite Hss, Hsize, Hone.
    destruct (decide _) as [_|Hn]; [reflexivity|lia].
  - intros Hone Hnz. rewrite Hgo. unfold reshape.
    rewrite Hss, Hsize.
    destruct (decide _) as [Heq|_]; [|reflexivity]. exfalso. apply Hone. nia.
  - apply length_augmented_shape.
  - intros a Ha. unfold new_shape.
    rewrite augmented_shape_lookup by (apply Hlt, Ha).
    rewrite bool_decide_eq_true_2 by exact Ha. reflexivity.
  - apply augmented_shape_kept, HK.
Qed.
End DimShuffleLaws.

Lemma dimshuffle_reshapes_witness :
  wf m23
  ∧ ds_transpose 0%Z swap_expand_op m23 = Ok (mk_ndarray [3; 2] [1; 4; 2; 5; 3; 6]%Z)
  ∧ augmented_shape [1] 3 [3; 2] = [3; 1; 2]
  ∧ dimshuffle 0%Z swap_expand_op swap_expand_node m23
    = Ok (mk_ndarray [3; 1; 2] [1; 4; 2; 5; 3; 6]%Z).
Proof.
  assert (Hwf : wf m23) by reflexivity.
  assert (Hxt : ds_transpose 0%Z swap_expand_op m23
                = Ok (mk_ndarray [3; 2] [1; 4; 2; 5; 3; 6]%Z)) by reflexivity.
  assert (Hlen : 0 < length (ds_shuffle swap_expand_op)
                 ≤ ndim (mk_ndarray [3; 2] [1; 4; 2; 5; 3; 6]%Z)) by (cbn; lia).
  assert (Hnd : NoDup (ds_augment swap_expand_op)) by (apply NoDup_singleton).
  assert (Hlt : ∀ a, a ∈ ds_augment swap_expand_op
                → a < length (ds_shuffle swap_expand_op)
                      + length (ds_augment swap_expand_op)).
  { intros a Ha. apply list_elem_of_singleton in Ha as ->. cbn. lia. }
  assert (Hout : first (outputs swap_expand_node)
                 = Ok (tensor "out" int64 [false; true; false] [None; Some 1; None]))
    by reflexivity.
  assert (Hagree : static_shape_agrees [None; Some 1; None] [3; 1; 2]).
  { repeat constructor; intros k Hk; congruence. }
  split; [exact Hwf|]. split; [exact Hxt|]. split; [reflexivity|].
  destruct (dimshuffle_reshapes 0%Z swap_expand_op swap_expand_node _ m23 _
              Hwf Hxt Hlen Hnd Hlt Hout Hagree) as (Hone & _).
  exact (Hone eq_refl).
Defined.

(** ** No kept axis *)

Lemma shape_size_ones (n : nat) : shape_size (replicate n 1) = 1.
Proof. induction n as [|n IH]; [reflexivity|]. cbn. rewrite IH. reflexivity. Qed.

(** X23.  A dimension shuffle that keeps no axis does not look at the
    node.  With inserted axes it returns the transposed data in the shape
    [(1, ..., 1)], one axis per entry of [augment], when the input holds
    exactly one element, and the reshape raises [ValueError] otherwise.
    Without inserted axes it does not transpose at all: the input itself is
    reshaped to the rank-0 shape, with the same condition. *)
Theorem dimshuffle_no_kept_axes {V : Type} (d : V) (op : DimShuffle) (node : Apply)
    (x : ndarray V) :
  ds_shuffle op = [] →
  (ds_augment op = [] →
   dimshuffle d op node x
   = if decide (length (data x) = 1) then Ok (mk_ndarray [] (data x))
     else Raise (ValueError "cannot reshape array"))
  ∧ (ds_augment op ≠ [] → ∀ xt, ds_transpose d op x = Ok xt →
     dimshuffle d op node x
     = if decide (length (data xt) = 1)
       then Ok (mk_ndarray (replicate (length (ds_augment op)) 1) (data xt))
       else Raise (ValueError "cannot reshape array")).
Proof.
  intros Hsh. unfold dimshuffle, dimshuffle_inner, ndim_new_shape.
  rewrite Hsh. cbn [length Nat.add]. split.
  - intros ->. cbn [length]. destruct (decide (0 < 0)) as [Hbad|_]; [lia|].
    unfold ascontiguousarray, reshape. cbn [shape_size].
    destruct (decide (1 = length (data x))), (decide (length (data x) = 1));
      congruence.
  - intros Hne xt Hxt.
    destruct (decide (0 < length (ds_augment op))) as [_|Hzero];
      [|destruct (ds_augment op); [contradiction|cbn in Hzero; lia]].
    rewrite Hxt, bind_Ok. unfold find_shape. rewrite Hsh. cbn [length].
    destruct (decide (0 < 0)) as [Hbad|_]; [lia|]. rewrite bind_Ok.
    unfold shape_template, ndim_new_shape, ascontiguousarray, copy, reshape.
    rewrite Hsh. cbn [length Nat.add]. rewrite shape_size_ones.
    destruct (decide (1 = length (data xt))), (decide (length (data xt) = 1));
      try congruence; [|reflexivity].
    rewrite bind_Ok. destruct (ds_inplace op); reflexivity.
Qed.

Lemma dimshuffle_no_kept_axes_witness :
  ds_shuffle scalar_to_row_op = []
  ∧ ds_augment scalar_to_row_op ≠ []
  ∧ ds_transpose 0%Z scalar_to_row_op (mk_ndarray [] [7]%Z) = Ok (mk_ndarray [] [7]%Z)
  ∧ dimshuffle 0%Z scalar_to_row_op sum_scalar_node (mk_ndarray [] [7]%Z)
    = Ok (mk_ndarray [1; 1] [7]%Z)
  ∧ dimshuffle 0%Z scalar_to_row_op sum_scalar_node m23
    = Raise (ValueError "cannot reshape array").
Proof.
  assert (Hsh : ds_shuffle scalar_to_row_op = []) by reflexivity.
  assert (Hne : ds_augment scalar_to_row_op ≠ []) by discriminate.
  split; [exact Hsh|]. split; [exact Hne|]. split; [reflexivity|].
  destruct (dimshuffle_no_kept_axes 0%Z scalar_to_row_op sum_scalar_node
              (mk_ndarray [] [7]%Z) Hsh) as [_ Hone].
  destruct (dimshuffle_no_kept_axes 0%Z scalar_to_row_op sum_scalar_node m23 Hsh)
    as [_ Hmany].
  split.
  - exact (Hone Hne _ eq_refl).
  - exact (Hmany Hne _ eq_refl).
Defined.

(* ===================================================================== *)
(** * Reductions over several axes                                        *)
(* ===================================================================== *)

Lemma filter_ext_elem {A} (P Q : A → Prop) `{∀ x, Decision (P x)} `{∀ x, Decision (Q x)}
    (l : list A) :
  (∀ x, x ∈ l → (P x ↔ Q x)) → filter P l = filter Q l.
Proof.
  induction l as [|x l IH]; intros Hext; [reflexivity|].
  rewrite !filter_cons. rewrite IH by (intros y Hy; apply Hext; right; exact Hy).
  destruct (decide (P x)) as [Hp|Hp], (decide (Q x)) as [Hq|Hq]; try reflexivity.
  - exfalso. apply Hq, (Hext x); [left|exact Hp].
  - exfalso. apply Hp, (Hext x); [left|exact Hq].
Qed.

Lemma filter_all {A} (P : A → Prop) `{∀ x, Decision (P x)} (l : list A) :
  (∀ x, x ∈ l → P x) → filter P l = l.
Proof.
  induction l as [|x l IH]; intros Hall; [reflexivity|].
  rewrite filter_cons_True by (apply Hall; left).
  rewrite IH by (intros y Hy; apply Hall; right; exact Hy). reflexivity.
Qed.

Lemma delete_descending (sh : list nat) (l : list nat) :
  StronglySorted (λ a b, b < a) l → (∀ a, a ∈ l → a < length sh) →
  foldl (λ s a, delete a s) sh l = drop_axes l sh.
Proof.
  unfold drop_axes. set (n := length sh).
  induction l as [|a l IH] using rev_ind; intros Hs Hlt.
  - cbn. rewrite filter_all by (intros x _; apply not_elem_of_nil).
    symmetry. apply lookup_total_seq_id.
  - rewrite foldl_app. cbn [foldl].
    apply StronglySorted_app in Hs as (Hall & Hsl & _).
    rewrite IH; [|exact Hsl|intros b Hb; apply Hlt, elem_of_app; left; exact Hb].
    assert (Ha : a < n) by (apply Hlt, elem_of_app; right; left).
    assert (Habove : ∀ b, b ∈ l → a < b).
    { intros b Hb. apply (Hall b a Hb). left. }
    rewrite <- list_fmap_delete. f_equal.
    replace n with (a + S (n - S a)) by lia.
    rewrite seq_app. cbn [seq Nat.add]. rewrite !filter_app.
    rewrite (filter_all _ (seq 0 a)).
    2:{ intros x Hx Hin. apply elem_of_seq in Hx. apply Habove in Hin. lia. }
    rewrite (filter_cons_True _ a).
    2:{ intros Hin. apply Habove in Hin. lia. }
    rewrite (filter_all (λ i, i ∉ l ++ [a]) (seq 0 a)).
    2:{ intros x Hx Hin. apply elem_of_seq in Hx. apply elem_of_app in Hin as [Hin|Hin].
        - apply Habove in Hin. lia.
        - apply list_elem_of_singleton in Hin. lia. }
    rewrite (filter_cons_False (λ i, i ∉ l ++ [a]) a).
    2:{ intros Hn. apply Hn, elem_of_app. right. left. }
    match goal with
    | |- delete a (seq 0 a ++ a :: ?rest) = _ =>
        pose proof (delete_middle (seq 0 a) rest a) as Hd
    end.
    rewrite length_seq in Hd. rewrite Hd. f_equal.
    apply filter_ext_elem. intros x Hx. apply elem_of_seq in Hx.
    rewrite elem_of_app, list_elem_of_singleton. split.
    + intros Hn [Hin|Heq]; [apply Hn, Hin|lia].
    + intros Hn Hin. apply Hn. left. exact Hin.
Qed.

Lemma resolve_nat (nd a : nat) : resolve nd (Z.of_nat a) = a.
Proof. unfold resolve. destruct (decide _); [lia|]. apply Nat2Z.id. Qed.

Section MultiAxisShape.
Context {V : Type} `{ScalarOps V}.
Variables (op : scalar_op) (identity : V) (dtype : dtype).
Hypothesis Hreg : registered op = true.

Lemma reduce_axis_by_axis_shape (l : list nat) :
  ∀ (nd : nat) (x : ndarray V),
    axes_fit l nd → ndim x = nd →
    ∃ y, reduce_axis_by_axis op identity dtype l nd (VArr x) = Ok (VArr y)
         ∧ shape y = foldl (λ s a, delete a s) (shape x) l
         ∧ (wf x → wf y).
Proof.
  induction l as [|a l IH]; intros nd x Hfit Hx.
  - exists x. split; [reflexivity|]. split; [reflexivity|]. auto.
  - destruct Hfit as [Hlt Hfit]. cbn [reduce_axis_by_axis foldl].
    destruct (create_axis_reducer_Ok op identity dtype Hreg a nd Hlt)
      as (r & Hr & _).
    rewrite Hr, bind_Ok.
    destruct (careduce_axis_reduced_along op identity (Z.of_nat a) nd dtype false false
                r x Hr Hx) as (update & _ & Hcall).
    rewrite Hcall, bind_Ok. rewrite resolve_nat.
    unfold reduced_along, lane_table.
    destruct (decide (1 < ndim x)) as [Hbig|Hsmall].
    + set (y1 := tabulate (delete a (shape x)) _).
      destruct (IH (nd - 1) y1 Hfit) as (y & Hy & Hsh & Hwf).
      { unfold ndim, y1. cbn. rewrite length_delete; [unfold ndim in Hx; lia|].
        apply lookup_lt_is_Some. unfold ndim in Hx. lia. }
      exists y. split; [exact Hy|]. split; [exact Hsh|].
      intros _. apply Hwf. apply tabulate_wf.
    + set (y1 := mk_ndarray [] _).
      destruct (IH (nd - 1) y1 Hfit) as (y & Hy & Hsh & Hwf).
      { unfold ndim in *. cbn. lia. }
      exists y. split; [exact Hy|]. split.
      * rewrite Hsh. cbn [shape y1]. f_equal.
        unfold ndim in *. destruct (shape x) as [|n [|n' sh]]; cbn in *; try lia.
        assert (a = 0) as -> by lia. reflexivity.
      * intros _. apply Hwf. reflexivity.
Qed.
End MultiAxisShape.

(** X16.  For a registered operator and a valid tuple of distinct axes
    the multi-axis reducer is built, and calling it on an array of the rank
    it was built for always returns an array: its shape is the input's
    shape without the reduced axes, the kept axes in their order, and it
    holds as many elements as its shape says whenever the input does.  (The
    parameter of the generated function is a name a parameter can have,
    and it is named neither like a generated reducer nor [np].) *)
Theorem create_multiaxis_reducer_shape {V : Type} `{ScalarOps V}
    (op : scalar_op) (identity : V) (dtype : dtype) (input_name : string)
    (axes : list Z) (ndim : nat) (ax : list nat) (x : ndarray V) :
  registered op = true →
  is_parameter_name input_name = true →
  (∀ i, input_name ≠ careducer_axes_fn_name i) →
  input_name ≠ "np" →
  normalize_axis_tuple axes (Z.of_nat ndim) = Ok ax →
  Np.ndim x = ndim →
  ∃ f y, create_multiaxis_reducer op identity axes ndim dtype input_name false = Ok f
         ∧ call_reducer f x = Ok (VArr y)
         ∧ shape y = drop_axes ax (shape x)
         ∧ (wf x → wf y).
Proof.
  intros Hreg _ Hname Hnp Hax Hx.
  destruct (normalize_axis_tuple_Ok _ _ _ Hax) as (_ & Hnd & Hlt).
  destruct (sorted_reverse_strict ax Hnd) as [Hsorted Hperm].
  destruct (create_multiaxis_reducer_chain op identity dtype input_name Hreg Hname Hnp
              axes ndim ax Hax) as (f & Hf & Hcall).
  assert (Hfit : axes_fit (sorted_reverse ax) ndim).
  { apply axes_fit_sorted; [exact Hsorted|].
    intros a Ha. rewrite Hperm in Ha. apply Hlt, Ha. }
  destruct (reduce_axis_by_axis_shape op identity dtype Hreg _ ndim x Hfit Hx)
    as (y & Hy & Hsh & Hwf).
  exists f, y. split; [exact Hf|]. split.
  - rewrite Hcall, Hy. reflexivity.
  - split; [|exact Hwf]. rewrite Hsh.
    rewrite delete_descending.
    + unfold drop_axes. f_equal. apply filter_ext_elem.
      intros i _. rewrite Hperm. reflexivity.
    + exact Hsorted.
    + intros a Ha. rewrite Hperm in Ha. unfold Np.ndim in Hx. rewrite Hx. apply Hlt, Ha.
Qed.

Lemma create_multiaxis_reducer_shape_witness :
  registered Add = true
  ∧ is_parameter_name "input" = true
  ∧ "input" ≠ "np"
  ∧ normalize_axis_tuple [0; -1]%Z (Z.of_nat 3) = Ok [0; 2]
  ∧ Np.ndim cube = 3
  ∧ drop_axes [0; 2] (shape cube) = [3]
  ∧ ∃ f y, create_multiaxis_reducer (V:=Z) Add 0%Z [0; -1]%Z 3 int64 "input" false = Ok f
           ∧ call_reducer f cube = Ok (VArr y)
           ∧ shape y = drop_axes [0; 2] (shape cube)
           ∧ (wf cube → wf y).
Proof.
  assert (Hname : ∀ i, "input" ≠ careducer_axes_fn_name i).
  { intros i. unfold careducer_axes_fn_name. rewrite string_app_cons. discriminate. }
  assert (Hax : normalize_axis_tuple [0; -1]%Z (Z.of_nat 3) = Ok [0; 2])
    by (vm_compute; reflexivity).
  assert (Hnp : "input" ≠ "np") by discriminate.
  assert (Hparam : is_parameter_name "input" = true) by (vm_compute; reflexivity).
  split; [reflexivity|]. split; [exact Hparam|]. split; [exact Hnp|].
  split; [exact Hax|]. split; [reflexivity|].
  split; [vm_compute; reflexivity|].
  exact (create_multiaxis_reducer_shape (V:=Z) Add 0%Z int64 "input" [0; -1]%Z 3 [0; 2]
           cube eq_refl Hparam Hname Hnp Hax eq_refl).
Defined.

(** ** Sums over several axes *)

Lemma foldl_add_acc (a : Z) (l : list Z) : foldl Z.add a l = (a + foldl Z.add 0 l)%Z.
Proof.
  revert a. induction l as [|v l IH]; intros a; cbn [foldl]; [lia|].
  rewrite (IH (a + v)%Z), (IH (0 + v)%Z). lia.
Qed.

Lemma zsum_nil {A} (f : A → Z) : zsum f [] = 0%Z.
Proof. reflexivity. Qed.

Lemma zsum_cons {A} (f : A → Z) (x : A) (l : list A) : zsum f (x :: l) = (f x + zsum f l)%Z.
Proof. unfold zsum. cbn. apply foldl_add_acc. Qed.

Lemma zsum_app {A} (f : A → Z) (l1 l2 : list A) :
  zsum f (l1 ++ l2) = (zsum f l1 + zsum f l2)%Z.
Proof.
  induction l1 as [|x l1 IH]; [rewrite zsum_nil; cbn [app]; lia|].
  cbn [app]. rewrite !zsum_cons, IH. lia.
Qed.

Lemma zsum_ext {A} (f g : A → Z) (l : list A) :
  (∀ x, x ∈ l → f x = g x) → zsum f l = zsum g l.
Proof.
  induction l as [|x l IH]; intros Hfg; [reflexivity|].
  rewrite !zsum_cons, (Hfg x) by left.
  rewrite IH by (intros y Hy; apply Hfg; right; exact Hy). reflexivity.
Qed.

Lemma zsum_fmap {A B} (f : B → Z) (h : A → B) (l : list A) :
  zsum f (h <$> l) = zsum (λ x, f (h x)) l.
Proof. unfold zsum. rewrite <- list_fmap_compose. reflexivity. Qed.

Lemma zsum_bind {A B} (f : B → Z) (g : A → list B) (l : list A) :
  zsum f (l ≫= g) = zsum (λ x, zsum f (g x)) l.
Proof.
  induction l as [|x l IH]; [reflexivity|].
  rewrite bind_cons, zsum_app, zsum_cons, IH. reflexivity.
Qed.

Lemma zsum_filter {A} (P : A → Prop) `{∀ x, Decision (P x)} (f : A → Z) (l : list A) :
  zsum f (filter P l) = zsum (λ x, if decide (P x) then f x else 0%Z) l.
Proof.
  induction l as [|x l IH]; [reflexivity|].
  rewrite filter_cons, zsum_cons. destruct (decide (P x)).
  - rewrite zsum_cons, IH. reflexivity.
  - rewrite IH. lia.
Qed.

Lemma zsum_zero {A} (l : list A) : zsum (λ _, 0%Z) l = 0%Z.
Proof. induction l as [|x l IH]; [reflexivity|]. rewrite zsum_cons, IH. reflexivity. Qed.

Lemma zsum_add {A} (f g : A → Z) (l : list A) :
  zsum (λ x, (f x + g x)%Z) l = (zsum f l + zsum g l)%Z.
Proof.
  induction l as [|x l IH]; [reflexivity|]. rewrite !zsum_cons, IH. lia.
Qed.

Lemma zsum_swap {A B} (F : A → B → Z) (l1 : list A) (l2 : list B) :
  zsum (λ i, zsum (F i) l2) l1 = zsum (λ q, zsum (λ i, F i q) l1) l2.
Proof.
  induction l1 as [|i l1 IH].
  - rewrite zsum_nil. symmetry. apply zsum_zero.
  - rewrite zsum_cons, IH. rewrite <- zsum_add. apply zsum_ext.
    intros q _. rewrite zsum_cons. reflexivity.
Qed.

Lemma zsum_if {A} (c : bool) (f : A → Z) (l : list A) :
  (if c then zsum f l else 0%Z) = zsum (λ x, if c then f x else 0%Z) l.
Proof. destruct c; [reflexivity|]. symmetry. apply zsum_zero. Qed.

Lemma cast_Z_add_r (dt : dtype) (u v : Z) :
  integer_dtype dt → cast_Z dt (u + cast_Z dt v) = cast_Z dt (u + v).
Proof.
  intros Hdt. rewrite Z.add_comm, cast_Z_add_l by exact Hdt. f_equal. lia.
Qed.

Lemma cast_Z_zsum {A} (dt : dtype) (g : A → Z) (l : list A) :
  integer_dtype dt →
  cast_Z dt (zsum (λ x, cast_Z dt (g x)) l) = cast_Z dt (zsum g l).
Proof.
  intros Hdt. induction l as [|x l IH]; [reflexivity|].
  rewrite !zsum_cons. rewrite cast_Z_add_l by exact Hdt.
  rewrite <- cast_Z_add_r by exact Hdt. rewrite IH.
  apply cast_Z_add_r. exact Hdt.
Qed.

(** Summing over the indices of a shape, one axis apart. *)
Lemma zsum_ndindex_axis (pre post : list nat) (n : nat) (F : list nat → Z) :
  zsum F (ndindex (pre ++ n :: post))
  = zsum (λ idx1, zsum (λ i, F (insert_axis (length pre) i idx1)) (seq 0 n))
         (ndindex (pre ++ post)).
Proof.
  rewrite !ndindex_app, !zsum_bind. apply zsum_ext. intros p Hp.
  apply ndindex_elem_length in Hp.
  rewrite !zsum_fmap. cbn [ndindex]. rewrite zsum_bind.
  transitivity (zsum (λ i, zsum (λ q, F (p ++ i :: q)) (ndindex post)) (seq 0 n)).
  { apply zsum_ext. intros i _. rewrite zsum_fmap. reflexivity. }
  rewrite zsum_swap. apply zsum_ext. intros q _. apply zsum_ext. intros i _.
  unfold insert_axis. rewrite <- Hp.
  rewrite take_app_length, drop_app_length. reflexivity.
Qed.

Lemma zsum_filter_bool {A} (P : A → Prop) `{∀ x, Decision (P x)} (f : A → Z) (l : list A) :
  zsum f (filter P l) = zsum (λ x, if bool_decide (P x) then f x else 0%Z) l.
Proof.
  induction l as [|x l IH]; [reflexivity|].
  rewrite filter_cons, zsum_cons. destruct (decide (P x)) as [Hp|Hp].
  - rewrite (bool_decide_eq_true_2 _ Hp), zsum_cons, IH. reflexivity.
  - rewrite (bool_decide_eq_false_2 _ Hp), IH. lia.
Qed.

Lemma zsum_single {A} `{EqDecision A} (T : A → Z) (k : A) (l : list A) :
  NoDup l → k ∈ l →
  zsum (λ y, if bool_decide (y = k) then T y else 0%Z) l = T k.
Proof.
  intros Hnd. induction Hnd as [|x l Hx Hnd IH]; intros Hk.
  - apply elem_of_nil in Hk. contradiction.
  - rewrite zsum_cons. destruct (decide (x = k)) as [->|Hne].
    + rewrite bool_decide_eq_true_2 by reflexivity.
      rewrite (zsum_ext _ (λ _, 0%Z)), zsum_zero; [lia|].
      intros y Hy. rewrite bool_decide_eq_false_2; [reflexivity|].
      intros ->. contradiction.
    + rewrite bool_decide_eq_false_2 by exact Hne.
      apply elem_of_cons in Hk as [->|Hk]; [contradiction|]. rewrite IH by exact Hk. lia.
Qed.

Lemma NoDup_ndindex (sh : list nat) : NoDup (ndindex sh).
Proof.
  apply (NoDup_fmap_1 (ravel sh)). rewrite ravel_ndindex. apply NoDup_seq.
Qed.

Lemma getitem_tabulate {V} (d : V) (sh : list nat) (f : list nat → V) (idx : list nat) :
  idx ∈ ndindex sh → getitem d (tabulate sh f) idx = f idx.
Proof.
  intros Hidx. apply list_elem_of_lookup_1 in Hidx as [j Hj].
  unfold getitem, tabulate. cbn [shape data].
  rewrite (ravel_lookup _ _ _ Hj), list_lookup_fmap, Hj. reflexivity.
Qed.

Lemma tabulate_ext {V} (sh : list nat) (f g : list nat → V) :
  (∀ k, k ∈ ndindex sh → f k = g k) → tabulate sh f = tabulate sh g.
Proof.
  intros Hfg. unfold tabulate. f_equal. apply list_fmap_ext.
  intros i k Hk. apply Hfg. eapply list_elem_of_lookup_2. exact Hk.
Qed.

Lemma lane_table_plain {V} `{ScalarOps V} (cell : nat → list nat → V) (a : nat)
    (x : ndarray V) :
  a < ndim x →
  lane_table cell false false a x = VArr (tabulate (delete a (shape x)) (cell a)).
Proof.
  intros Ha. unfold lane_table. destruct (decide (1 < ndim x)) as [_|Hsmall]; [reflexivity|].
  unfold ndim in *. destruct (shape x) as [|n [|n' sh]]; cbn in *; try lia.
  assert (a = 0) as -> by lia. reflexivity.
Qed.

Lemma delete_insert_axis (a i : nat) (idx : list nat) :
  a ≤ length idx → delete a (insert_axis a i idx) = idx.
Proof.
  intros Ha. unfold insert_axis.
  pose proof (delete_middle (take a idx) (drop a idx) i) as Hd.
  rewrite length_take, Nat.min_l in Hd by exact Ha. rewrite Hd. apply take_drop.
Qed.

Lemma zsum_delete_axis (sh : list nat) (a : nat) (Q : list nat → bool) (f : list nat → Z) :
  a < length sh →
  zsum (λ idx, if Q (delete a idx) then f idx else 0%Z) (ndindex sh)
  = zsum (λ idx1, if Q idx1
                  then zsum (λ i, f (insert_axis a i idx1)) (seq 0 (sh !!! a))
                  else 0%Z)
         (ndindex (delete a sh)).
Proof.
  intros Ha.
  destruct (lookup_lt_is_Some_2 sh a Ha) as [n Hn].
  rewrite (list_lookup_total_correct _ _ _ Hn).
  pose proof (take_drop_middle sh a n Hn) as Hsplit.
  assert (Hlen : length (take a sh) = a) by (rewrite length_take; lia).
  rewrite <- Hsplit at 1.
  rewrite zsum_ndindex_axis, Hlen.
  assert (Hdel : delete a sh = take a sh ++ drop (S a) sh).
  { rewrite <- Hsplit at 1. rewrite <- Hlen at 1. apply delete_middle. }
  rewrite Hdel. apply zsum_ext. intros idx1 Hidx1.
  apply ndindex_elem_length in Hidx1. rewrite <- Hdel in Hidx1.
  assert (Hle : a ≤ length idx1).
  { rewrite Hidx1, length_delete by (eexists; exact Hn). lia. }
  rewrite zsum_if. apply zsum_ext. intros i _.
  rewrite delete_insert_axis by exact Hle. reflexivity.
Qed.

Lemma drop_axes_cons (a : nat) (l : list nat) (idx : list nat) :
  StronglySorted (λ a b, b < a) (a :: l) → a < length idx →
  drop_axes (a :: l) idx = drop_axes l (delete a idx).
Proof.
  intros Hs Ha.
  pose proof Hs as Hs'. apply StronglySorted_inv in Hs' as [Hsl Hall].
  rewrite Forall_forall in Hall.
  rewrite <- (delete_descending idx (a :: l)).
  - cbn [foldl]. apply delete_descending; [exact Hsl|].
    intros b Hb. rewrite length_delete by (apply lookup_lt_is_Some; exact Ha).
    apply Hall in Hb. lia.
  - exact Hs.
  - intros b Hb. apply elem_of_cons in Hb as [->|Hb]; [exact Ha|].
    apply Hall in Hb. lia.
Qed.

Lemma drop_axes_single (a : nat) (idx : list nat) :
  a < length idx → drop_axes [a] idx = delete a idx.
Proof.
  intros Ha. rewrite <- (delete_descending idx [a]); [reflexivity| |].
  - repeat constructor.
  - intros b Hb. apply list_elem_of_singleton in Hb as ->. exact Ha.
Qed.

Lemma drop_axes_Permutation (l l' idx : list nat) :
  l ≡ₚ l' → drop_axes l idx = drop_axes l' idx.
Proof.
  intros Hp. unfold drop_axes. f_equal. apply filter_ext_elem.
  intros i _. rewrite Hp. reflexivity.
Qed.

Lemma cast_Z_zero (dt : dtype) : integer_dtype dt → cast_Z dt 0 = 0%Z.
Proof. intros [Hk|Hk]; destruct dt; try discriminate Hk; reflexivity. Qed.

Lemma joint_sum_zsum (x : ndarray Z) (axes k : list nat) :
  joint_sum x axes k
  = zsum (λ idx, if bool_decide (drop_axes axes idx = k) then getitem 0%Z x idx else 0%Z)
         (ndindex (shape x)).
Proof. unfold joint_sum. apply (zsum_filter_bool (λ idx, drop_axes axes idx = k)). Qed.

Lemma sum_along_zsum (x : ndarray Z) (a : nat) (k : list nat) :
  sum_along x a k = zsum (λ i, getitem 0%Z x (insert_axis a i k)) (seq 0 (shape x !!! a)).
Proof. reflexivity. Qed.

Section MultiAxisSum.
Variable dt : dtype.
Hypothesis Hdt : integer_dtype dt.

(** One fold of the [Add] reducer from the identity 0. *)
Lemma careduce_axis_add_table (a nd : nat) (r : axis_reducer Z) (x : ndarray Z) :
  a < nd →
  create_axis_reducer Add 0%Z (Z.of_nat a) nd dt false false = Ok r →
  ndim x = nd →
  careduce_axis r x
  = Ok (VArr (tabulate (delete a (shape x)) (λ k, cast_Z dt (sum_along x a k)))).
Proof.
  intros Ha Hr Hx.
  destruct (careduce_axis_reduced_along Add 0%Z (Z.of_nat a) nd dt false false
              r x Hr Hx) as (update & Hup & Hcall).
  injection Hup as <-. rewrite Hcall, resolve_nat. f_equal. unfold reduced_along.
  rewrite (lane_table_ext _ (λ a k, cast_Z dt (sum_along x a k))).
  - apply lane_table_plain. lia.
  - intros b k. rewrite fold_axis_add by exact Hdt. f_equal.
Qed.

Lemma joint_sum_single (x : ndarray Z) (a : nat) (k : list nat) :
  a < ndim x → k ∈ ndindex (delete a (shape x)) →
  joint_sum x [a] k = sum_along x a k.
Proof.
  intros Ha Hk. rewrite joint_sum_zsum.
  rewrite (zsum_ext _ (λ idx, if bool_decide (delete a idx = k)
                             then getitem 0%Z x idx else 0%Z)).
  2:{ intros idx Hidx. apply ndindex_elem_length in Hidx.
      rewrite drop_axes_single by (rewrite Hidx; exact Ha). reflexivity. }
  etransitivity;
    [exact (zsum_delete_axis (shape x) a (λ idx1, bool_decide (idx1 = k)) _ Ha)|].
  cbn beta.
  rewrite (zsum_single (λ idx1, zsum (λ i, getitem 0%Z x (insert_axis a i idx1))
                                     (seq 0 (shape x !!! a))) k).
  - reflexivity.
  - apply NoDup_ndindex.
  - exact Hk.
Qed.

Lemma joint_sum_cons (x : ndarray Z) (a : nat) (l k : list nat) :
  StronglySorted (λ a b, b < a) (a :: l) → a < ndim x →
  cast_Z dt (joint_sum (tabulate (delete a (shape x)) (λ k, cast_Z dt (sum_along x a k))) l k)
  = cast_Z dt (joint_sum x (a :: l) k).
Proof.
  intros Hs Ha. rewrite !joint_sum_zsum. cbn [shape tabulate].
  rewrite (zsum_ext _ (λ idx1, cast_Z dt (if bool_decide (drop_axes l idx1 = k)
                                          then sum_along x a idx1 else 0%Z))).
  2:{ intros idx1 Hidx1. rewrite getitem_tabulate by exact Hidx1.
      destruct (bool_decide _); [reflexivity|]. symmetry. apply cast_Z_zero, Hdt. }
  rewrite cast_Z_zsum by exact Hdt. f_equal.
  rewrite (zsum_ext (λ idx, if bool_decide (drop_axes (a :: l) idx = k) then _ else _)
             (λ idx, if bool_decide (drop_axes l (delete a idx) = k)
                     then getitem 0%Z x idx else 0%Z)).
  2:{ intros idx Hidx. apply ndindex_elem_length in Hidx.
      rewrite drop_axes_cons; [reflexivity|exact Hs|]. rewrite Hidx. exact Ha. }
  symmetry.
  exact (zsum_delete_axis (shape x) a (λ idx1, bool_decide (drop_axes l idx1 = k))
           (getitem 0%Z x) Ha).
Qed.

Lemma reduce_axis_by_axis_sum (l : list nat) :
  ∀ (nd : nat) (x : ndarray Z),
    StronglySorted (λ a b, b < a) l → (∀ a, a ∈ l → a < nd) → ndim x = nd → l ≠ [] →
    reduce_axis_by_axis Add 0%Z dt l nd (VArr x)
    = Ok (VArr (tabulate (drop_axes l (shape x)) (λ k, cast_Z dt (joint_sum x l k)))).
Proof.
  induction l as [|a l IH]; intros nd x Hs Hlt Hx Hne; [contradiction|].
  assert (Ha : a < nd) by (apply Hlt; left).
  pose proof Hs as Hs'. apply StronglySorted_inv in Hs' as [Hsl Hall].
  rewrite Forall_forall in Hall.
  cbn [reduce_axis_by_axis].
  destruct (create_axis_reducer_Ok Add 0%Z dt eq_refl a nd Ha) as (r & Hr & _).
  rewrite Hr, bind_Ok.
  rewrite (careduce_axis_add_table a nd r x Ha Hr Hx), bind_Ok.
  set (x1 := tabulate (delete a (shape x)) (λ k, cast_Z dt (sum_along x a k))).
  assert (Hx1 : ndim x1 = nd - 1).
  { unfold ndim, x1. cbn [shape tabulate].
    rewrite length_delete; [unfold ndim in Hx; lia|].
    apply lookup_lt_is_Some. unfold ndim in Hx. lia. }
  destruct (decide (l = [])) as [->|Hl].
  - cbn [reduce_axis_by_axis]. do 2 f_equal.
    rewrite drop_axes_single by (unfold ndim in Hx; lia).
    apply tabulate_ext. intros k Hk. f_equal. symmetry.
    apply joint_sum_single; [lia|exact Hk].
  - rewrite (IH (nd - 1) x1 Hsl); [|intros b Hb; apply Hall in Hb; lia|exact Hx1|exact Hl].
    do 2 f_equal. cbn [shape x1 tabulate].
    rewrite (drop_axes_cons a l (shape x)) by (unfold ndim in Hx; first [exact Hs|lia]).
    apply tabulate_ext. intros k _. apply joint_sum_cons; [exact Hs|lia].
Qed.
End MultiAxisSum.

(** The reducer for [Add] from the identity 0, called. *)
Lemma multiaxis_joint_sum (dt : dtype) (input_name : string)
    (axes : list Z) (ndim : nat) (ax : list nat) (x : ndarray Z) :
  integer_dtype dt →
  (∀ i, input_name ≠ careducer_axes_fn_name i) →
  input_name ≠ "np" →
  normalize_axis_tuple axes (Z.of_nat ndim) = Ok ax →
  axes ≠ [] →
  Np.ndim x = ndim →
  ∃ f, create_multiaxis_reducer Add 0%Z axes ndim dt input_name false = Ok f
       ∧ call_reducer f x
         = Ok (VArr (tabulate (drop_axes ax (shape x))
                       (λ k, cast_Z dt (joint_sum x ax k)))).
Proof.
  intros Hdt Hname Hnp Hax Hne Hx.
  destruct (normalize_axis_tuple_Ok _ _ _ Hax) as (Hlen & Hnd & Hlt).
  destruct (sorted_reverse_strict ax Hnd) as [Hsorted Hperm].
  destruct (create_multiaxis_reducer_chain Add 0%Z dt input_name eq_refl Hname Hnp
              axes ndim ax Hax) as (f & Hf & Hcall).
  exists f. split; [exact Hf|]. rewrite Hcall.
  rewrite (reduce_axis_by_axis_sum dt Hdt _ ndim x Hsorted).
  - unfold as_array_result. rewrite bind_Ok. cbn [asarray]. do 2 f_equal.
    rewrite (drop_axes_Permutation _ _ _ Hperm).
    apply tabulate_ext. intros k _. f_equal. unfold joint_sum. do 2 f_equal.
    apply filter_ext_elem. intros idx _.
    rewrite (drop_axes_Permutation _ _ _ Hperm). reflexivity.
  - intros a Ha. rewrite Hperm in Ha. apply Hlt, Ha.
  - exact Hx.
  - intros Hnil. rewrite Hnil in Hperm. apply Permutation_nil_l in Hperm.
    subst ax. destruct axes; [contradiction|discriminate Hlen].
Qed.

(** X17.  A sum over several axes is the joint sum: over integer data
    and with an integer output dtype, the multi-axis reducer built for [Add]
    with identity 0 and a non-empty tuple of valid axes returns, at every
    index of the kept axes, the sum of all input elements at that kept
    index, wrapped around to the output dtype once.  The wrap-around of the
    intermediate arrays, one per folded axis, does not show in the result.
    (The parameter of the generated function is a name a parameter can
    have, and it is named neither like a generated reducer nor [np].) *)
Theorem create_multiaxis_reducer_sum (dt : dtype) (input_name : string)
    (axes : list Z) (ndim : nat) (ax : list nat) (x : ndarray Z) :
  integer_dtype dt →
  is_parameter_name input_name = true →
  (∀ i, input_name ≠ careducer_axes_fn_name i) →
  input_name ≠ "np" →
  normalize_axis_tuple axes (Z.of_nat ndim) = Ok ax →
  axes ≠ [] →
  Np.ndim x = ndim →
  ∃ f, create_multiaxis_reducer Add 0%Z axes ndim dt input_name false = Ok f
       ∧ call_reducer f x
         = Ok (VArr (tabulate (drop_axes ax (shape x))
                       (λ k, cast_Z dt (joint_sum x ax k)))).
Proof. intros Hdt _. apply multiaxis_joint_sum, Hdt. Qed.

Lemma create_multiaxis_reducer_sum_witness :
  integer_dtype int8
  ∧ is_parameter_name "input" = true
  ∧ "input" ≠ "np"
  ∧ normalize_axis_tuple [0; -1]%Z (Z.of_nat 2) = Ok [0; 1]
  ∧ ∃ f, create_multiaxis_reducer Add 0%Z [0; -1]%Z 2 int8 "input" false = Ok f
         ∧ call_reducer f (mk_ndarray [2; 2] [100; 100; 100; 27]%Z)
           = Ok (VArr (tabulate (drop_axes [0; 1] [2; 2])
                         (λ k, cast_Z int8
                                 (joint_sum (mk_ndarray [2; 2] [100; 100; 100; 27]%Z)
                                    [0; 1] k))))
         ∧ call_reducer f (mk_ndarray [2; 2] [100; 100; 100; 27]%Z)
           = Ok (VArr (mk_ndarray [] [71]%Z)).
Proof.
  assert (Hdt : integer_dtype int8) by (left; reflexivity).
  assert (Hname : ∀ i, "input" ≠ careducer_axes_fn_name i).
  { intros i. unfold careducer_axes_fn_name. rewrite string_app_cons. discriminate. }
  assert (Hax : normalize_axis_tuple [0; -1]%Z (Z.of_nat 2) = Ok [0; 1])
    by (vm_compute; reflexivity).
  assert (Hne : [0; -1]%Z ≠ []) by discriminate.
  assert (Hnp : "input" ≠ "np") by discriminate.
  assert (Hparam : is_parameter_name "input" = true) by (vm_compute; reflexivity).
  split; [exact Hdt|]. split; [exact Hparam|]. split; [exact Hnp|]. split; [exact Hax|].
  destruct (create_multiaxis_reducer_sum int8 "input" [0; -1]%Z 2 [0; 1]
              (mk_ndarray [2; 2] [100; 100; 100; 27]%Z) Hdt Hparam Hname Hnp Hax Hne
              eq_refl)
    as (f & Hf & Hcall).
  exists f. split; [exact Hf|]. split; [exact Hcall|].
  rewrite Hcall. vm_compute. reflexivity.
Defined.

(* ===================================================================== *)
(** * Maxima and minima along an axis                                     *)
(* ===================================================================== *)

Lemma cast_Z_zero_any (dt : dtype) : cast_Z dt 0 = 0%Z.
Proof. destruct dt; reflexivity. Qed.

Lemma representable_getitem (dt : dtype) (x : ndarray Z) (idx : list nat) :
  representable dt x → cast_Z dt (getitem 0%Z x idx) = getitem 0%Z x idx.
Proof.
  intros Hx. unfold getitem. destruct (data x !! _) as [v|] eqn:Hv; cbn.
  - unfold representable in Hx. rewrite Forall_lookup in Hx. exact (Hx _ _ Hv).
  - apply cast_Z_zero_any.
Qed.

Lemma fold_axis_maximum (dt : dtype) (identity : Z) (x : ndarray Z) (axis : nat)
    (k : list nat) :
  representable dt x →
  fold_axis (SIf (CLt ERes EArr) (SAssign EArr)) dt identity x axis k
  = foldl Z.max (cast_Z dt identity) (lane 0%Z x axis k).
Proof.
  intros Hx. unfold fold_axis, lane. rewrite foldl_fmap.
  change (s_cast dt identity) with (cast_Z dt identity).
  generalize (cast_Z dt identity) as acc. generalize (seq 0 (shape x !!! axis)) as l.
  induction l as [|i l IH]; intros acc; [reflexivity|].
  cbn [foldl]. rewrite <- IH. f_equal.
  unfold apply_update. cbn [exec_stmt eval_cond eval_expr].
  change (s_ltb ?a ?b) with (Z.ltb a b). change (s_cast dt ?z) with (cast_Z dt z).
  change (@s_zero Z Z_scalar) with 0%Z.
  destruct (Z.ltb_spec acc (getitem 0%Z x (insert_axis axis i k))) as [Hlt|Hge].
  - rewrite representable_getitem by exact Hx. lia.
  - lia.
Qed.

Lemma fold_axis_minimum (dt : dtype) (identity : Z) (x : ndarray Z) (axis : nat)
    (k : list nat) :
  representable dt x →
  fold_axis (SIf (CGt ERes EArr) (SAssign EArr)) dt identity x axis k
  = foldl Z.min (cast_Z dt identity) (lane 0%Z x axis k).
Proof.
  intros Hx. unfold fold_axis, lane. rewrite foldl_fmap.
  change (s_cast dt identity) with (cast_Z dt identity).
  generalize (cast_Z dt identity) as acc. generalize (seq 0 (shape x !!! axis)) as l.
  induction l as [|i l IH]; intros acc; [reflexivity|].
  cbn [foldl]. rewrite <- IH. f_equal.
  unfold apply_update. cbn [exec_stmt eval_cond eval_expr].
  change (s_ltb ?a ?b) with (Z.ltb a b). change (s_cast dt ?z) with (cast_Z dt z).
  change (@s_zero Z Z_scalar) with 0%Z.
  destruct (Z.ltb_spec (getitem 0%Z x (insert_axis axis i k)) acc) as [Hlt|Hge].
  - rewrite representable_getitem by exact Hx. lia.
  - lia.
Qed.

(** X20.  Over integer data that the output dtype stores unchanged, the
    function generated for [ScalarMaximum] returns, at every outer index,
    the maximum of the identity as stored in the output dtype and the input
    elements along the reduced axis; the one generated for [ScalarMinimum]
    returns the minimum.  The identity takes part in the result as the
    buffer holds it: [-1] in an unsigned 8-bit buffer is 255. *)
Theorem careduce_axis_extremum (identity : Z) (axis : Z) (ndim : nat) (dt : dtype)
    (keepdims return_scalar : bool) (x : ndarray Z) :
  representable dt x → Np.ndim x = ndim →
  (∀ r, create_axis_reducer ScalarMaximum identity axis ndim dt keepdims return_scalar
        = Ok r →
        careduce_axis r x
        = Ok (lane_table (λ a k, foldl Z.max (cast_Z dt identity) (lane 0%Z x a k))
                keepdims return_scalar (resolve ndim axis) x))
  ∧ (∀ r, create_axis_reducer ScalarMinimum identity axis ndim dt keepdims return_scalar
          = Ok r →
          careduce_axis r x
          = Ok (lane_table (λ a k, foldl Z.min (cast_Z dt identity) (lane 0%Z x a k))
                  keepdims return_scalar (resolve ndim axis) x)).
Proof.
  intros Hrep Hx. split; intros r Hr.
  - destruct (careduce_axis_reduced_along ScalarMaximum identity axis ndim dt keepdims
                return_scalar r x Hr Hx) as (update & Hup & Hcall).
    injection Hup as <-. rewrite Hcall. f_equal. unfold reduced_along.
    apply lane_table_ext. intros a k. apply fold_axis_maximum, Hrep.
  - destruct (careduce_axis_reduced_along ScalarMinimum identity axis ndim dt keepdims
                return_scalar r x Hr Hx) as (update & Hup & Hcall).
    injection Hup as <-. rewrite Hcall. f_equal. unfold reduced_along.
    apply lane_table_ext. intros a k. apply fold_axis_minimum, Hrep.
Qed.

Lemma careduce_axis_extremum_witness :
  representable uint8 (mk_ndarray [2; 3] [1; 200; 3; 4; 5; 6]%Z)
  ∧ (∃ r, create_axis_reducer (V:=Z) ScalarMaximum (-1)%Z 1%Z 2 uint8 false false = Ok r
          ∧ careduce_axis r (mk_ndarray [2; 3] [1; 200; 3; 4; 5; 6]%Z)
            = Ok (VArr (mk_ndarray [2] [255; 255]%Z)))
  ∧ (∃ r, create_axis_reducer (V:=Z) ScalarMinimum 255%Z 1%Z 2 uint8 false false = Ok r
          ∧ careduce_axis r (mk_ndarray [2; 3] [1; 200; 3; 4; 5; 6]%Z)
            = Ok (VArr (mk_ndarray [2] [1; 4]%Z))).
Proof.
  assert (Hrep : representable uint8 (mk_ndarray [2; 3] [1; 200; 3; 4; 5; 6]%Z)).
  { repeat constructor. }
  split; [exact Hrep|].
  destruct (careduce_axis_extremum (-1)%Z 1%Z 2 uint8 false false
              (mk_ndarray [2; 3] [1; 200; 3; 4; 5; 6]%Z) Hrep eq_refl) as [Hmax _].
  destruct (careduce_axis_extremum 255%Z 1%Z 2 uint8 false false
              (mk_ndarray [2; 3] [1; 200; 3; 4; 5; 6]%Z) Hrep eq_refl) as [_ Hmin].
  split.
  - destruct (create_axis_reducer (V:=Z) ScalarMaximum (-1)%Z 1%Z 2 uint8 false false)
      as [r|e] eqn:Hr; [|vm_compute in Hr; discriminate].
    exists r. split; [reflexivity|]. rewrite (Hmax r eq_refl). vm_compute. reflexivity.
  - destruct (create_axis_reducer (V:=Z) ScalarMinimum 255%Z 1%Z 2 uint8 false false)
      as [r|e] eqn:Hr; [|vm_compute in Hr; discriminate].
    exists r. split; [reflexivity|]. rewrite (Hmin r eq_refl). vm_compute. reflexivity.
Defined.

(* ===================================================================== *)
(** * The [Sum] kernel on its general path                                *)
(* ===================================================================== *)

(** X21.  A [Sum] over some, but not all, axes of an integer array: the
    kernel [numba_funcify_Sum] returns is the multi-axis reducer of
    [numba_funcify_CAReduce], and it returns the joint sums over the
    reduced axes, wrapped around to the dtype of the output.  The
    accumulator dtype of the operator plays no part on this path: the
    buffers of the reducer have the output dtype, and the identity 0 is 0
    in every dtype.  (The node has an input and an output, the axes are
    valid for the input's rank, and the input's name, which becomes the
    parameter of the generated function, is a name a parameter can have,
    and neither the name of a generated reducer nor [np].) *)
Theorem numba_funcify_Sum_joint (op : CAReduce) (node : Apply)
    (input0 output0 : TensorVariable) (axes : list Z) (ax : list nat) (x : ndarray Z) :
  first (inputs node) = Ok input0 → first (outputs node) = Ok output0 →
  op_scalar_op op = Add → op_scalar_op_identity op = Num 0 →
  op_axis op = Some axes →
  normalize_axis_tuple axes (Z.of_nat (v_ndim input0)) = Ok ax →
  axes ≠ [] → length axes ≠ v_ndim input0 →
  integer_dtype (t_dtype (v_type output0)) →
  is_parameter_name (v_name input0) = true →
  (∀ i, v_name input0 ≠ careducer_axes_fn_name i) →
  v_name input0 ≠ "np" →
  ndim x = v_ndim input0 →
  ∃ f, numba_funcify_Sum op node = Ok f
       ∧ f x = Ok (VArr (tabulate (drop_axes ax (shape x))
                           (λ k, cast_Z (t_dtype (v_type output0)) (joint_sum x ax k)))).
Proof.
  intros Hin Hout Hop Hid Haxis Hax Hne Hlen Hdt _ Hname Hnp Hx.
  destruct (multiaxis_joint_sum (t_dtype (v_type output0)) (v_name input0) axes
              (v_ndim input0) ax x Hdt Hname Hnp Hax Hne Hx) as (f & Hf & Hcall).
  assert (Hacc : ∃ acc, acc_dtype_of op node = Ok acc).
  { unfold acc_dtype_of. destruct (op_acc_dtype op); [eexists; reflexivity|].
    rewrite Hout. eexists. reflexivity. }
  destruct Hacc as [acc Hacc].
  assert (HCA : numba_funcify_CAReduce op node = Ok f).
  { unfold numba_funcify_CAReduce. rewrite Hin, bind_Ok, Haxis, Hacc, bind_Ok, Hid.
    unfold clamp_identity. cbn [isfinite negb]. rewrite andb_false_r, bind_Ok.
    change (s_np_array (Num 0) acc) with (Ok (cast_Z acc 0) : result Z).
    rewrite cast_Z_zero_any, bind_Ok, Hout, bind_Ok, Hop, Hf, bind_Ok. reflexivity. }
  exists (call_reducer f). split; [|exact Hcall].
  unfold numba_funcify_Sum. rewrite Hin, bind_Ok, Haxis, Hacc, bind_Ok, Hout, bind_Ok.
  destruct (decide _) as [Heq|_]; [congruence|].
  destruct (decide _) as [Hz|_]; [destruct axes; [contradiction|discriminate Hz]|].
  rewrite HCA, bind_Ok. reflexivity.
Qed.

Lemma numba_funcify_Sum_joint_witness :
  integer_dtype int64
  ∧ is_parameter_name "x" = true
  ∧ "x" ≠ "np"
  ∧ ∃ f, numba_funcify_Sum (sum_op (Some [-1]%Z) (Some int8)) (sum_matrix_node [false])
         = Ok f
         ∧ f (mk_ndarray [2; 3] [100; 100; 3; 4; 5; 6]%Z)
           = Ok (VArr (tabulate (drop_axes [1] [2; 3])
                         (λ k, cast_Z int64
                                 (joint_sum (mk_ndarray [2; 3] [100; 100; 3; 4; 5; 6]%Z)
                                    [1] k))))
         ∧ f (mk_ndarray [2; 3] [100; 100; 3; 4; 5; 6]%Z)
           = Ok (VArr (mk_ndarray [2] [203; 15]%Z)).
Proof.
  assert (Hdt : integer_dtype int64) by (left; reflexivity).
  assert (Hname : ∀ i, "x" ≠ careducer_axes_fn_name i).
  { intros i. unfold careducer_axes_fn_name. rewrite string_app_cons. discriminate. }
  assert (Hax : normalize_axis_tuple [-1]%Z (Z.of_nat 2) = Ok [1])
    by (vm_compute; reflexivity).
  assert (Hne : [-1]%Z ≠ []) by discriminate.
  assert (Hlen : length [-1]%Z ≠ 2) by (cbn; lia).
  assert (Hnp : "x" ≠ "np") by discriminate.
  assert (Hparam : is_parameter_name "x" = true) by (vm_compute; reflexivity).
  split; [exact Hdt|]. split; [exact Hparam|]. split; [exact Hnp|].
  destruct (numba_funcify_Sum_joint (sum_op (Some [-1]%Z) (Some int8))
              (sum_matrix_node [false])
              (tensor "x" int64 [false; false] [None; None])
              (tensor "out" int64 [false] [None]) [-1]%Z [1]
              (mk_ndarray [2; 3] [100; 100; 3; 4; 5; 6]%Z)
              eq_refl eq_refl eq_refl eq_refl eq_refl Hax Hne Hlen Hdt Hparam Hname Hnp
              eq_refl)
    as (f & Hf & Hcall).
  exists f. split; [exact Hf|]. split; [exact Hcall|].
  rewrite Hcall. vm_compute. reflexivity.
Defined.

(* ===================================================================== *)
(** * Signatures of generalized universal functions                       *)
(* ===================================================================== *)

Import Re PyStr SigLaws.

(** ** The backtracking matcher on the texts of signatures *)

Lemma string_app_nil_l (a : string) : ("" +:+ a)%string = a.
Proof. reflexivity. Qed.

Lemma string_length_app (a b : string) :
  String.length (a +:+ b) = String.length a + String.length b.
Proof.
  induction a as [|c a IH]; [reflexivity|].
  rewrite string_app_cons. cbn [String.length]. rewrite IH. reflexivity.
Qed.

Section Backtracking.

Variable total : nat.

Lemma m_Word_cons (c : ascii) (s : string) (k : string → option string) :
  m total Word (String c s) k = if is_word c then k s else None.
Proof. reflexivity. Qed.

Lemma m_Lit_cons (c c' : ascii) (s : string) (k : string → option string) :
  m total (Lit c) (String c' s) k = if decide (c' = c) then k s else None.
Proof. reflexivity. Qed.

Lemma m_Seq (a b : regex) (s : string) (k : string → option string) :
  m total (Seq a b) s k = m total a s (λ s', m total b s' k).
Proof. reflexivity. Qed.

Lemma m_Plus (a : regex) (s : string) (k : string → option string) :
  m total (Plus a) s k = m total a s (λ s', star (m total a) k (String.length s') s').
Proof. reflexivity. Qed.

Lemma m_Star (a : regex) (s : string) (k : string → option string) :
  m total (Star a) s k = star (m total a) k (String.length s) s.
Proof. reflexivity. Qed.

Lemma m_Opt (a : regex) (s : string) (k : string → option string) :
  m total (Opt a) s k = match m total a s k with Some out => Some out | None => k s end.
Proof. reflexivity. Qed.

Lemma m_Empty (s : string) (k : string → option string) : m total Empty s k = k s.
Proof. reflexivity. Qed.

Lemma m_Bol (s : string) (k : string → option string) :
  m total Bol s k = if decide (String.length s = total) then k s else None.
Proof. reflexivity. Qed.

Lemma m_Eol (s : string) (k : string → option string) :
  m total Eol s k = if decide (s = "" ∨ s = nl) then k s else None.
Proof. reflexivity. Qed.

Lemma star_S (body : string → (string → option string) → option string)
    (k : string → option string) (n : nat) (s : string) :
  star body k (S n) s
  = match body s (λ s', if decide (String.length s' < String.length s)
                        then star body k n s' else None) with
    | Some out => Some out
    | None => k s
    end.
Proof. reflexivity. Qed.

(** Greedy [\w*] on a run of word characters. *)
Lemma star_word_run (k : string → option string) (w rest : string) :
  all_chars is_word w = true → not_headed is_word rest →
  (fails_on is_word k ∨ is_Some (k rest)) →
  ∀ n, String.length w ≤ n →
    star (m total Word) k n (w +:+ rest) = k rest.
Proof.
  intros Hw Hrest Hk. induction w as [|c w IH]; intros n Hn.
  - rewrite string_app_nil_l. destruct n as [|n]; [reflexivity|].
    rewrite star_S. destruct rest as [|c rest]; [reflexivity|].
    rewrite m_Word_cons. cbn in Hrest. rewrite Hrest. reflexivity.
  - cbn [all_chars] in Hw. apply andb_true_iff in Hw as [Hc Hw].
    destruct n as [|n]; [cbn in Hn; lia|]. cbn [String.length] in Hn.
    rewrite string_app_cons, star_S, m_Word_cons, Hc.
    destruct (decide _) as [_|Hlen]; [|cbn [String.length] in Hlen; lia].
    rewrite (IH Hw n) by lia.
    destruct (k rest) as [x|] eqn:Hkr; [reflexivity|].
    destruct Hk as [Hk|[x Hx]]; [|discriminate].
    apply Hk, Hc.
Qed.

(** Greedy [\w+] on a run of word characters that is not empty. *)
Lemma plus_word_run (k : string → option string) (w rest : string) :
  all_chars is_word w = true → w ≠ "" → not_headed is_word rest →
  (fails_on is_word k ∨ is_Some (k rest)) →
  m total (Plus Word) (w +:+ rest) k = k rest.
Proof.
  intros Hw Hne Hrest Hk. destruct w as [|c w]; [contradiction|].
  cbn [all_chars] in Hw. apply andb_true_iff in Hw as [Hc Hw].
  rewrite string_app_cons, m_Plus, m_Word_cons, Hc.
  apply star_word_run; auto. rewrite string_length_app. lia.
Qed.

Lemma plus_word_fails (k : string → option string) (s : string) :
  not_headed is_word s → m total (Plus Word) s k = None.
Proof.
  intros Hs. destruct s as [|c s]; [reflexivity|]. cbn in *. rewrite Hs. reflexivity.
Qed.

Lemma join_comma_cons (x : string) (items : list string) :
  join "," (x :: items) = (x +:+ sep_tail items)%string.
Proof.
  revert x. induction items as [|y items IH]; intros x.
  - cbn. rewrite string_app_nil_r. reflexivity.
  - change (join "," (x :: y :: items)) with (x +:+ "," +:+ join "," (y :: items))%string.
    rewrite IH. reflexivity.
Qed.

(** The greedy loop [(?:,item)*] on items that each follow a comma. *)
Lemma star_sep_items (P : ascii → bool) (item : regex) (items : list string)
    (k : string → option string) (rest : string) :
  P ","%char = false →
  (∀ x K rest', x ∈ items → not_headed P rest' → fails_on P K →
                m total item (x +:+ rest') K = K rest') →
  not_headed P rest → not_headed is_comma rest →
  fails_on P k → fails_on is_comma k →
  ∀ n, String.length (sep_tail items +:+ rest) ≤ n →
    star (m total (Seq (Lit ",") (Seq item Empty))) k n (sep_tail items +:+ rest) = k rest.
Proof.
  intros HP Hitem Hrest Hrestc Hk Hkc.
  assert (Hstar_fails : ∀ n, fails_on P (star (m total (Seq (Lit ",") (Seq item Empty))) k n)).
  { intros n c s Hc. destruct n as [|n]; [apply Hk, Hc|].
    rewrite star_S, m_Seq, m_Lit_cons.
    destruct (decide (c = ","%char)) as [->|_]; [congruence|]. apply Hk, Hc. }
  induction items as [|x items IH]; intros n Hn.
  - cbn [sep_tail]. rewrite string_app_nil_l. destruct n as [|n]; [reflexivity|].
    rewrite star_S, m_Seq. destruct rest as [|c rest]; [reflexivity|].
    rewrite m_Lit_cons. cbn in Hrestc. unfold is_comma in Hrestc.
    apply bool_decide_eq_false_1 in Hrestc.
    destruct (decide (c = ","%char)); [contradiction|reflexivity].
  - cbn [sep_tail] in Hn |- *. rewrite !string_app_assoc in Hn. rewrite !string_app_assoc.
    change ("," +:+ x +:+ sep_tail items +:+ rest)%string
      with (String ","%char (x +:+ sep_tail items +:+ rest)) in Hn |- *.
    cbn [String.length] in Hn. rewrite string_length_app in Hn.
    destruct n as [|n]; [lia|].
    rewrite star_S, m_Seq, m_Lit_cons.
    destruct (decide (","%char = ","%char)) as [_|]; [|contradiction].
    rewrite m_Seq.
    assert (Hlen : String.length (sep_tail items +:+ rest) ≤ n) by lia.
    rewrite Hitem.
    + rewrite m_Empty.
      destruct (decide _) as [_|Hbad].
      2:{ exfalso. apply Hbad. cbn [String.length]. rewrite !string_length_app. lia. }
      rewrite IH; [|intros; apply Hitem; [right|..]; assumption|exact Hlen].
      destruct (k rest) as [out|] eqn:Hkr; [reflexivity|].
      apply Hkc. reflexivity.
    + left.
    + destruct items as [|y items]; [exact Hrest|]. cbn [sep_tail].
      rewrite !string_app_assoc. exact HP.
    + intros c s Hc. rewrite m_Empty.
      destruct (decide _); [|reflexivity]. apply Hstar_fails, Hc.
Qed.

(** The loop on a text that does not go on with a comma. *)
Lemma star_sep_none (item : regex) (k : string → option string) (rest : string) (n : nat) :
  not_headed is_comma rest →
  star (m total (Seq (Lit ",") (Seq item Empty))) k n rest = k rest.
Proof.
  intros Hrestc. destruct n as [|n]; [reflexivity|].
  rewrite star_S, m_Seq. destruct rest as [|c rest]; [reflexivity|].
  rewrite m_Lit_cons. cbn in Hrestc. unfold is_comma in Hrestc.
  apply bool_decide_eq_false_1 in Hrestc.
  destruct (decide (c = ","%char)); [contradiction|reflexivity].
Qed.

End Backtracking.

Lemma compile_DIMENSION_NAME : compile _DIMENSION_NAME = Some (Seq (Plus Word) Empty).
Proof. vm_compute. reflexivity. Qed.

Lemma compile_ARGUMENT : compile _ARGUMENT = Some (argument_re Empty).
Proof. vm_compute. reflexivity. Qed.

Lemma compile_SIGNATURE : compile _SIGNATURE = Some signature_re.
Proof. vm_compute. reflexivity. Qed.

Lemma compile_spaces : compile "\s+" = Some (Seq (Plus Space) Empty).
Proof. vm_compute. reflexivity. Qed.

Section Backtracking2.

Variable total : nat.

Lemma name_headed (x rest : string) (k : string → option string) :
  is_name x → fails_on is_word k → k (x +:+ rest) = None.
Proof.
  intros [Hw Hne] Hk. destruct x as [|c x]; [contradiction|].
  rewrite string_app_cons. apply Hk. cbn in Hw. apply andb_true_iff in Hw. tauto.
Qed.

Lemma sep_tail_not_word (items : list string) (rest : string) :
  not_headed is_word rest → not_headed is_word (sep_tail items +:+ rest).
Proof.
  intros Hrest. destruct items as [|x items]; [exact Hrest|]. reflexivity.
Qed.

Lemma m_core (names : list string) (k : string → option string) (rest : string) :
  Forall is_name names →
  not_headed is_word rest → not_headed is_comma rest →
  fails_on is_word k → fails_on is_comma k →
  m total core_re (join "," names +:+ rest) k = k rest.
Proof.
  intros Hnames Hrest Hrestc Hk Hkc. unfold core_re. rewrite m_Opt, m_Seq.
  destruct names as [|x names].
  - cbn [join]. rewrite string_app_nil_l. rewrite plus_word_fails by exact Hrest.
    reflexivity.
  - rewrite join_comma_cons, string_app_assoc.
    apply Forall_cons in Hnames as [Hx Hnames].
    assert (Hk' : fails_on is_word (λ s'', m total Empty s'' k))
      by (intros c s Hc; rewrite m_Empty; apply Hk, Hc).
    assert (Hkc' : fails_on is_comma (λ s'', m total Empty s'' k))
      by (intros c s Hc; rewrite m_Empty; apply Hkc, Hc).
    rewrite plus_word_run.
    + rewrite m_Seq, m_Star.
      rewrite (star_sep_items total is_word (Plus Word) names); auto.
      * rewrite m_Empty. destruct (k rest) as [out|] eqn:Hkr; [reflexivity|].
        apply name_headed; assumption.
      * intros y K rest' Hy Hrest' HK. rewrite Forall_forall in Hnames.
        destruct (Hnames y Hy) as [Hw Hne]. apply plus_word_run; auto.
    + apply Hx.
    + apply Hx.
    + apply sep_tail_not_word, Hrest.
    + left. intros c s Hc. rewrite m_Seq, m_Star.
      destruct (String.length (String c s)) as [|n];
        [change (m total Empty (String c s) k = None); rewrite m_Empty; apply Hk, Hc|].
      rewrite star_S, m_Seq, m_Lit_cons.
      destruct (decide (c = ","%char)) as [->|_]; [discriminate Hc|].
      rewrite m_Empty. apply Hk, Hc.
Qed.

Lemma m_argument (names : list string) (tail : regex) (k : string → option string)
    (rest : string) :
  Forall is_name names →
  m total (argument_re tail) (argument_text names +:+ rest) k = m total tail rest k.
Proof.
  intros Hnames. unfold argument_re, argument_text.
  rewrite !string_app_assoc.
  change ("(" +:+ join "," names +:+ ")" +:+ rest)%string
    with (String "("%char (join "," names +:+ ")" +:+ rest)).
  rewrite m_Seq, m_Lit_cons. destruct (decide _) as [_|]; [|contradiction].
  rewrite m_Seq, m_core; auto.
  - reflexivity.
  - reflexivity.
  - intros c s Hc. rewrite m_Seq, m_Lit_cons.
    destruct (decide (c = ")"%char)) as [->|_]; [discriminate Hc|reflexivity].
  - intros c s Hc. rewrite m_Seq, m_Lit_cons.
    destruct (decide (c = ")"%char)) as [->|_]; [discriminate Hc|reflexivity].
Qed.

Lemma m_argument_fails (tail : regex) (k : string → option string) (s : string) :
  not_headed (λ c, bool_decide (c = "("%char)) s →
  m total (argument_re tail) s k = None.
Proof.
  intros Hs. unfold argument_re. rewrite m_Seq. destruct s as [|c s]; [reflexivity|].
  rewrite m_Lit_cons. cbn in Hs. apply bool_decide_eq_false_1 in Hs.
  destruct (decide _); [contradiction|reflexivity].
Qed.

(** A list of arguments that is not empty, and what follows it. *)
Lemma m_argument_list (args : list (list string)) (tail : regex)
    (k : string → option string) (rest : string) :
  args ≠ [] → Forall (Forall is_name) args →
  not_headed is_comma rest → fails_on is_comma (λ s, m total tail s k) →
  m total (argument_re (Seq more_arguments_re tail))
    (join "," (argument_text <$> args) +:+ rest) k
  = m total tail rest k.
Proof.
  intros Hne Hargs Hrestc Hkc. destruct args as [|a args]; [contradiction|].
  apply Forall_cons in Hargs as [Ha Hargs].
  cbn [fmap list_fmap]. rewrite join_comma_cons, string_app_assoc.
  rewrite m_argument by exact Ha. rewrite m_Seq. unfold more_arguments_re.
  rewrite m_Star.
  etransitivity.
  { apply (star_sep_items total (λ _, false) (argument_re Empty) (argument_text <$> args)
             (λ s', m total tail s' k) rest); auto.
    - intros x K rest' Hx _ _. apply list_elem_of_fmap in Hx as (names & -> & Hin).
      rewrite Forall_forall in Hargs. rewrite m_argument by (apply Hargs, Hin).
      reflexivity.
    - destruct rest; reflexivity.
    - intros c s Hc. discriminate. }
  reflexivity.
Qed.

End Backtracking2.

Lemma signature_matches (ins outs : list (list string)) :
  Forall (Forall is_name) ins → Forall (Forall is_name) outs →
  match_at (String.length (signature_text ins outs)) signature_re false
           (signature_text ins outs)
  = if decide (outs = []) then None else Some "".
Proof.
  intros Hins Houts. unfold match_at, signature_re. set (total := String.length _).
  set (kf := λ rest : string, if false && _ then None else Some rest).
  rewrite m_Seq, m_Bol. destruct (decide _) as [_|Hn]; [|contradiction].
  rewrite m_Seq.
  (* what follows the optional list of inputs *)
  set (K1 := λ s' : string, m total (Seq (Lit "-") _) s' kf).
  assert (Hout : K1 ("->" +:+ join "," (argument_text <$> outs))
                 = if decide (outs = []) then None else Some "").
  { unfold K1.
    change ("->" +:+ join "," (argument_text <$> outs))%string
      with (String "-"%char (String ">"%char (join "," (argument_text <$> outs)))).
    rewrite m_Seq, m_Lit_cons. destruct (decide _) as [_|]; [|contradiction].
    rewrite m_Seq, m_Lit_cons. destruct (decide _) as [_|]; [|contradiction].
    destruct (decide (outs = [])) as [->|Hne].
    - apply m_argument_fails. exact I.
    - rewrite <- (string_app_nil_r (join "," (argument_text <$> outs))).
      rewrite m_argument_list; auto.
      + exact I.
      + intros c s Hc. rewrite m_Seq, m_Eol.
        destruct (decide _) as [[Hs|Hs]|_]; [discriminate Hs| |reflexivity].
        unfold is_comma in Hc. apply bool_decide_eq_true_1 in Hc. subst c.
        discriminate Hs. }
  rewrite m_Opt. unfold signature_text.
  destruct (decide (ins = [])) as [->|Hne].
  - cbn [fmap list_fmap join]. rewrite string_app_nil_l.
    rewrite m_argument_fails by reflexivity. exact Hout.
  - rewrite m_argument_list; auto.
    + rewrite m_Empty, Hout. destruct (decide (outs = [])); [|reflexivity].
      destruct ins as [|a ins]; [contradiction|].
      cbn [fmap list_fmap]. rewrite join_comma_cons. unfold argument_text at 1.
      rewrite !string_app_assoc. reflexivity.
    + reflexivity.
    + intros c s Hc. rewrite m_Empty. unfold K1. rewrite m_Seq, m_Lit_cons.
      unfold is_comma in Hc. apply bool_decide_eq_true_1 in Hc. subst c.
      destruct (decide (","%char = "-"%char)) as [Hbad|_]; [discriminate Hbad|reflexivity].
Qed.

Lemma take_string_app (x rest : string) : take_string (String.length x) (x +:+ rest) = x.
Proof.
  induction x as [|c x IH]; [destruct rest; reflexivity|].
  rewrite string_app_cons. cbn [String.length take_string]. rewrite IH. reflexivity.
Qed.

Section Scanning.

Variables (r : regex) (total : nat).

Lemma scan_skip (w s : string) :
  scan r total (String.length w) (w +:+ s) = scan r total 0 s.
Proof.
  induction w as [|c w IH]; [reflexivity|].
  rewrite string_app_cons. cbn [String.length scan]. exact IH.
Qed.

Lemma scan_miss (c : ascii) (s : string) :
  match_at total r false (String c s) = None →
  scan r total 0 (String c s) = inl c :: scan r total 0 s.
Proof. intros Hm. cbn [scan]. rewrite Hm. reflexivity. Qed.

Lemma scan_hit (x rest : string) :
  x ≠ "" → match_at total r false (x +:+ rest) = Some rest →
  scan r total 0 (x +:+ rest) = inr x :: scan r total 0 rest.
Proof.
  intros Hne Hm. destruct x as [|c x]; [contradiction|].
  rewrite string_app_cons in *. cbn [scan]. rewrite Hm.
  destruct (decide _) as [Hlen|_].
  { cbn [String.length] in Hlen. rewrite string_length_app in Hlen. lia. }
  cbn [String.length]. rewrite string_length_app.
  replace (S (String.length x + String.length rest) - String.length rest)
    with (S (String.length x)) by lia.
  cbn [take_string]. rewrite take_string_app.
  replace (S (String.length x) - 1) with (String.length x) by lia.
  rewrite scan_skip. reflexivity.
Qed.

Lemma scan_sep_items (P : ascii → bool) (items : list string) (suffix : string) :
  P ","%char = false →
  (∀ x, x ∈ items →
        x ≠ "" ∧ ∀ rest, not_headed P rest → match_at total r false (x +:+ rest) = Some rest) →
  (∀ s, match_at total r false (String ","%char s) = None) →
  not_headed P suffix →
  matches (scan r total 0 (sep_tail items +:+ suffix))
  = items ++ matches (scan r total 0 suffix).
Proof.
  intros HP Hitem Hcomma Hsuffix. induction items as [|x items IH]; [reflexivity|].
  cbn [sep_tail]. rewrite !string_app_assoc.
  change ("," +:+ x +:+ sep_tail items +:+ suffix)%string
    with (String ","%char (x +:+ sep_tail items +:+ suffix)).
  rewrite scan_miss by apply Hcomma.
  destruct (Hitem x ltac:(left)) as [Hne Hx].
  rewrite scan_hit; [|exact Hne|apply Hx].
  - cbn. f_equal. apply IH. intros y Hy. apply Hitem. right. exact Hy.
  - destruct items as [|y items]; [exact Hsuffix|]. cbn [sep_tail].
    rewrite !string_app_assoc. exact HP.
Qed.

End Scanning.

Lemma findall_arguments (args : list (list string)) :
  args ≠ [] → Forall (Forall is_name) args →
  Re.findall _ARGUMENT (join "," (argument_text <$> args)) = Ok (argument_text <$> args).
Proof.
  intros Hne Hargs. unfold Re.findall. rewrite compile_ARGUMENT. f_equal.
  set (total := String.length _).
  assert (Hhit : ∀ names rest, Forall is_name names →
            match_at total (argument_re Empty) false (argument_text names +:+ rest)
            = Some rest).
  { intros names rest Hn. unfold match_at. rewrite m_argument by exact Hn. reflexivity. }
  destruct args as [|a args]; [contradiction|].
  apply Forall_cons in Hargs as [Ha Hargs].
  cbn [fmap list_fmap]. rewrite join_comma_cons.
  fold (matches (scan (argument_re Empty) total 0
                   (argument_text a +:+ sep_tail (argument_text <$> args)))).
  rewrite scan_hit; [|discriminate|apply Hhit, Ha].
  change (matches (inr (argument_text a) :: ?l)) with (argument_text a :: matches l).
  f_equal.
  rewrite <- (string_app_nil_r (sep_tail (argument_text <$> args))).
  assert (Hitems : ∀ x, x ∈ argument_text <$> args →
            x ≠ "" ∧ ∀ rest, not_headed (λ _, false) rest →
                             match_at total (argument_re Empty) false (x +:+ rest)
                             = Some rest).
  { intros x Hx. apply list_elem_of_fmap in Hx as (names & -> & Hin).
    split; [discriminate|]. intros rest _. apply Hhit.
    rewrite Forall_forall in Hargs. apply Hargs, Hin. }
  assert (Hcomma : ∀ s, match_at total (argument_re Empty) false (String ","%char s) = None)
    by (intros s; unfold match_at; apply m_argument_fails; reflexivity).
  rewrite (scan_sep_items _ total (λ _, false) _ "" eq_refl Hitems Hcomma I).
  cbn [scan]. unfold match_at. rewrite m_argument_fails by exact I. apply app_nil_r.
Qed.

Lemma findall_names (names : list string) :
  Forall is_name names →
  Re.findall _DIMENSION_NAME (argument_text names) = Ok names.
Proof.
  intros Hnames. unfold Re.findall. rewrite compile_DIMENSION_NAME. f_equal.
  set (total := String.length _). set (re := Seq (Plus Word) Empty).
  assert (Hmiss : ∀ s, not_headed is_word s → match_at total re false s = None).
  { intros s Hs. unfold match_at, re. rewrite m_Seq. apply plus_word_fails, Hs. }
  assert (Hhit : ∀ x rest, is_name x → not_headed is_word rest →
            match_at total re false (x +:+ rest) = Some rest).
  { intros x rest [Hw Hx] Hrest. unfold match_at, re. rewrite m_Seq.
    rewrite plus_word_run; auto. }
  fold (matches (scan re total 0 (argument_text names))).
  unfold argument_text.
  change ("(" +:+ join "," names +:+ ")")%string
    with (String "("%char (join "," names +:+ ")")).
  rewrite scan_miss by (apply Hmiss; reflexivity).
  change (matches (inl "("%char :: ?l)) with (matches l).
  assert (Hend : matches (scan re total 0 ")") = []).
  { change ")"%string with (String ")"%char ""). rewrite scan_miss by (apply Hmiss; reflexivity).
    cbn [scan]. rewrite Hmiss by exact I. reflexivity. }
  destruct names as [|x names]; [exact Hend|].
  apply Forall_cons in Hnames as [Hx Hnames].
  rewrite join_comma_cons, string_app_assoc.
  rewrite scan_hit; [|apply Hx|apply Hhit; [exact Hx|apply sep_tail_not_word; reflexivity]].
  change (matches (inr x :: ?l)) with (x :: matches l). f_equal.
  assert (Hitems : ∀ y, y ∈ names →
            y ≠ "" ∧ ∀ rest, not_headed is_word rest →
                             match_at total re false (y +:+ rest) = Some rest).
  { intros y Hy. rewrite Forall_forall in Hnames. destruct (Hnames y Hy) as [Hw Hne].
    split; [exact Hne|]. intros rest Hrest. apply Hhit; [split; assumption|exact Hrest]. }
  assert (Hcomma : ∀ s, match_at total re false (String ","%char s) = None)
    by (intros s; apply Hmiss; reflexivity).
  rewrite (scan_sep_items re total is_word names ")" eq_refl Hitems Hcomma eq_refl).
  rewrite Hend. apply app_nil_r.
Qed.

(** ** Characters *)

Lemma all_chars_app (P : ascii → bool) (a b : string) :
  all_chars P (a +:+ b) = all_chars P a && all_chars P b.
Proof.
  induction a as [|c a IH]; [reflexivity|].
  rewrite string_app_cons. cbn [all_chars]. rewrite IH. apply andb_assoc.
Qed.

Lemma all_chars_impl (P Q : ascii → bool) (s : string) :
  (∀ c, P c = true → Q c = true) → all_chars P s = true → all_chars Q s = true.
Proof.
  intros HPQ. induction s as [|c s IH]; [reflexivity|]. cbn [all_chars].
  rewrite !andb_true_iff. intros [Hc Hs]. split; [apply HPQ, Hc|apply IH, Hs].
Qed.

Lemma all_chars_join (P : ascii → bool) (items : list string) :
  P ","%char = true → Forall (λ x, all_chars P x = true) items →
  all_chars P (join "," items) = true.
Proof.
  intros HP Hitems. induction Hitems as [|x items Hx _ IH]; [reflexivity|].
  rewrite join_comma_cons, all_chars_app, Hx. cbn [andb].
  clear Hx. revert IH. destruct items as [|y items]; [reflexivity|].
  rewrite join_comma_cons. intros IH. cbn [sep_tail].
  change ("," +:+ y +:+ sep_tail items)%string with (String ","%char (y +:+ sep_tail items)).
  cbn [all_chars]. rewrite HP. exact IH.
Qed.

Lemma is_word_arguments_char (c : ascii) : is_word c = true → is_arguments_char c = true.
Proof. intros Hc. unfold is_arguments_char. rewrite Hc. reflexivity. Qed.

Lemma arguments_char_not_space (c : ascii) :
  is_arguments_char c = true → negb (is_space c) = true.
Proof. destruct c as [[] [] [] [] [] [] [] []]; vm_compute; congruence. Qed.

Lemma arguments_char_not_dash (c : ascii) :
  is_arguments_char c = true → negb (bool_decide (c = "-"%char)) = true.
Proof. destruct c as [[] [] [] [] [] [] [] []]; vm_compute; congruence. Qed.

Lemma argument_text_chars (names : list string) :
  Forall is_name names → all_chars is_arguments_char (argument_text names) = true.
Proof.
  intros Hnames. unfold argument_text.
  change ("(" +:+ join "," names +:+ ")")%string
    with (String "("%char (join "," names +:+ ")")).
  cbn [all_chars]. rewrite all_chars_app.
  rewrite all_chars_join; [reflexivity|reflexivity|].
  eapply Forall_impl; [exact Hnames|]. intros x [Hw _].
  eapply all_chars_impl; [|exact Hw]. apply is_word_arguments_char.
Qed.

Lemma arguments_text_chars (args : list (list string)) :
  Forall (Forall is_name) args →
  all_chars is_arguments_char (join "," (argument_text <$> args)) = true.
Proof.
  intros Hargs. apply all_chars_join; [reflexivity|].
  apply Forall_fmap. eapply Forall_impl; [exact Hargs|].
  intros names Hn. apply argument_text_chars, Hn.
Qed.

(** ** Removing the blanks, splitting at the arrow *)

Lemma sub_spaces_none (s : string) :
  all_chars (λ c, negb (is_space c)) s = true → Re.sub "\s+" "" s = Ok s.
Proof.
  intros Hs. unfold Re.sub. rewrite compile_spaces. f_equal.
  generalize (String.length s) as total. intros total.
  induction s as [|c s IH]; [reflexivity|].
  cbn [all_chars] in Hs. apply andb_true_iff in Hs as [Hc Hs].
  rewrite scan_miss.
  - cbn [foldr]. rewrite IH by exact Hs. reflexivity.
  - unfold match_at. rewrite m_Seq, m_Plus. cbn [m].
    apply negb_true_iff in Hc. rewrite Hc. reflexivity.
Qed.

Lemma split_go_no_dash (a cur s : string) :
  all_chars (λ c, negb (bool_decide (c = "-"%char))) a = true →
  split_go "->" 0 cur (a +:+ s) = split_go "->" 0 (cur +:+ a) s.
Proof.
  revert cur. induction a as [|c a IH]; intros cur Ha.
  - rewrite string_app_nil_l, string_app_nil_r. reflexivity.
  - cbn [all_chars] in Ha. apply andb_true_iff in Ha as [Hc Ha].
    rewrite string_app_cons. cbn [split_go].
    apply negb_true_iff, bool_decide_eq_false_1 in Hc.
    assert (Hpre : is_prefix "->" (String c (a +:+ s)) = false).
    { cbn [is_prefix]. rewrite bool_decide_eq_false_2 by congruence. reflexivity. }
    rewrite Hpre, IH by exact Ha. f_equal.
    rewrite string_app_assoc. reflexivity.
Qed.

Lemma split_arrow (a b : string) :
  all_chars (λ c, negb (bool_decide (c = "-"%char))) a = true →
  all_chars (λ c, negb (bool_decide (c = "-"%char))) b = true →
  split (a +:+ "->" +:+ b) "->" = [a; b].
Proof.
  intros Ha Hb. unfold split. rewrite split_go_no_dash by exact Ha.
  rewrite string_app_nil_l.
  change ("->" +:+ b)%string with (String "-"%char (String ">"%char b)).
  cbn [split_go is_prefix String.length Nat.sub]. rewrite !bool_decide_eq_true_2 by reflexivity.
  cbn [andb]. f_equal.
  rewrite <- (string_app_nil_r b) at 1. rewrite split_go_no_dash by exact Hb.
  reflexivity.
Qed.

(** ** The names [safe_signature] builds *)

Lemma pretty_N_char_word (x : N) : is_word (pretty_N_char x) = true.
Proof.
  unfold pretty_N_char.
  destruct x as [|p]; [reflexivity|].
  do 4 (destruct p as [p|p|]; try reflexivity).
Qed.

Lemma pretty_N_go_word (x : N) :
  ∀ s, ∃ p, pretty_N_go x s = (p +:+ s)%string ∧ all_chars is_word p = true
            ∧ ((0 < x)%N → p ≠ "").
Proof.
  induction (N.lt_wf_0 x) as [x _ IH]. intros s.
  destruct (decide (0 < x)%N) as [Hpos|Hzero].
  - rewrite pretty_N_go_step by exact Hpos.
    destruct (IH (x `div` 10)%N ltac:(apply N.div_lt; lia)
                 (String (pretty_N_char (x `mod` 10)) s)) as (p & Hp & Hw & _).
    exists (p +:+ String (pretty_N_char (x `mod` 10)) "")%string. split_and!.
    + rewrite Hp, string_app_assoc. reflexivity.
    + rewrite all_chars_app, Hw. cbn. rewrite pretty_N_char_word. reflexivity.
    + intros _ Hnil. apply (f_equal String.length) in Hnil.
      rewrite string_length_app in Hnil. cbn in Hnil. lia.
  - assert (x = 0%N) as -> by lia. exists "". split_and!; [reflexivity|reflexivity|lia].
Qed.

Lemma str_nat_name (n : nat) : is_name (str_nat n).
Proof.
  unfold str_nat, pretty, pretty_nat, pretty, pretty_N.
  destruct (decide (N.of_nat n = 0%N)) as [_|Hne]; [split; [reflexivity|discriminate]|].
  destruct (pretty_N_go_word (N.of_nat n) "") as (p & Hp & Hw & Hnil).
  rewrite Hp, string_app_nil_r. split; [exact Hw|apply Hnil; lia].
Qed.

Lemma is_name_app (a b : string) : is_name a → all_chars is_word b = true → is_name (a +:+ b).
Proof.
  intros [Hw Hne] Hb. split.
  - rewrite all_chars_app, Hw, Hb. reflexivity.
  - destruct a; [contradiction|]. rewrite string_app_cons. discriminate.
Qed.

Lemma operand_names_are_names (prefix : string) (ndim : nat) :
  is_name prefix → Forall is_name (operand_names prefix ndim).
Proof.
  intros Hp. unfold operand_names. apply Forall_fmap, Forall_forall.
  intros i _. apply is_name_app; [exact Hp|apply str_nat_name].
Qed.

Lemma signature_names_are_names (kind : string) (ndims : list nat) :
  is_name kind → Forall (Forall is_name) (signature_names kind ndims).
Proof.
  intros Hk. unfold signature_names. apply Forall_fmap, Forall_forall.
  intros [n ndim] _. apply operand_names_are_names.
  apply is_name_app; [exact Hk|apply str_nat_name].
Qed.

Lemma safe_signature_text (ins outs : list nat) :
  safe_signature ins outs
  = signature_text (signature_names "i" ins) (signature_names "o" outs).
Proof.
  unfold safe_signature, signature_text, signature_names.
  rewrite <- !list_fmap_compose. f_equal; [|f_equal]; f_equal;
    apply list_fmap_ext; intros j [n ndim] _; reflexivity.
Qed.

Lemma join_arguments_nonempty (args : list (list string)) :
  args ≠ [] → join "," (argument_text <$> args) ≠ "".
Proof.
  destruct args as [|a args]; [contradiction|]. intros _.
  cbn [fmap list_fmap]. rewrite join_comma_cons. discriminate.
Qed.

Lemma mapM_result_cons {A B} (f : A → result B) (x : A) (l : list A) :
  mapM f (x :: l) = (y ← f x; k ← mapM f l; Ok (y :: k)).
Proof. reflexivity. Qed.

Lemma mapM_findall_names (args : list (list string)) :
  Forall (Forall is_name) args →
  mapM (λ arg, Re.findall _DIMENSION_NAME arg) (argument_text <$> args) = Ok args.
Proof.
  induction 1 as [|a args Ha _ IH]; [reflexivity|].
  rewrite fmap_cons, mapM_result_cons, findall_names by exact Ha.
  rewrite bind_Ok, IH. reflexivity.
Qed.

(** The arguments of one side, read back. *)
Lemma parse_side (args : list (list string)) :
  Forall (Forall is_name) args →
  (if decide (join "," (argument_text <$> args) ≠ "")
   then args' ← Re.findall _ARGUMENT (join "," (argument_text <$> args));
        mapM (λ arg, Re.findall _DIMENSION_NAME arg) args'
   else Ok [])
  = Ok args.
Proof.
  intros Hargs. destruct (decide (args = [])) as [->|Hne].
  - reflexivity.
  - destruct (decide _) as [_|Hnil]; [|exfalso; apply Hnil, join_arguments_nonempty, Hne].
    rewrite findall_arguments by assumption. rewrite bind_Ok.
    apply mapM_findall_names, Hargs.
Qed.

Lemma parse_signature_text (ins outs : list (list string)) :
  Forall (Forall is_name) ins → Forall (Forall is_name) outs →
  _parse_gufunc_signature (signature_text ins outs)
  = if decide (outs = [])
    then Raise (ValueError ("not a valid gufunc signature: " +:+ signature_text ins outs))
    else Ok [ins; outs].
Proof.
  intros Hins Houts. unfold _parse_gufunc_signature.
  pose proof (arguments_text_chars ins Hins) as Hci.
  pose proof (arguments_text_chars outs Houts) as Hco.
  rewrite sub_spaces_none.
  2:{ unfold signature_text. rewrite !all_chars_app.
      rewrite (all_chars_impl _ _ _ arguments_char_not_space Hci).
      rewrite (all_chars_impl _ _ _ arguments_char_not_space Hco). reflexivity. }
  rewrite bind_Ok. unfold Re.match_. rewrite compile_SIGNATURE, bind_Ok.
  rewrite signature_matches by assumption.
  destruct (decide (outs = [])) as [Hnil|Hne].
  - rewrite bool_decide_eq_false_2 by (intros [? ?]; discriminate). reflexivity.
  - rewrite bool_decide_eq_true_2 by (eexists; reflexivity). cbn [negb].
    unfold signature_text. rewrite split_arrow.
    + cbn [mapM]. rewrite (parse_side ins Hins), bind_Ok.
      rewrite (parse_side outs Houts), bind_Ok. reflexivity.
    + apply (all_chars_impl _ _ _ arguments_char_not_dash Hci).
    + apply (all_chars_impl _ _ _ arguments_char_not_dash Hco).
Qed.

(** X12.  What [safe_signature] builds, [_parse_gufunc_signature] reads
    back: for every list of input ranks and every list of output ranks that
    is not empty, the signature parses, and the parse is the pair of the
    inputs' and the outputs' dimension names, operand by operand (operand
    [n] of rank [r] has the names [i<n>0] ... [i<n><r-1>], resp. [o<n>...]).
    Without any output the signature ends at the arrow, which the pattern
    does not allow, and the parser raises [ValueError]. *)
Theorem parse_safe_signature (ins outs : list nat) :
  (outs ≠ [] →
   _parse_gufunc_signature (safe_signature ins outs)
   = Ok [signature_names "i" ins; signature_names "o" outs])
  ∧ (outs = [] →
     _parse_gufunc_signature (safe_signature ins outs)
     = Raise (ValueError ("not a valid gufunc signature: " +:+ safe_signature ins outs))).
Proof.
  rewrite safe_signature_text.
  rewrite parse_signature_text
    by (apply signature_names_are_names; split; [reflexivity|discriminate]).
  split.
  - intros Hne. destruct (decide _) as [Hnil|_]; [|reflexivity].
    destruct outs; [contradiction|discriminate Hnil].
  - intros ->. reflexivity.
Qed.

Lemma parse_safe_signature_witness :
  [1; 0] ≠ []
  ∧ safe_signature [2; 1] [1; 0] = "(i00,i01),(i10)->(o00),()"
  ∧ _parse_gufunc_signature (safe_signature [2; 1] [1; 0])
    = Ok [signature_names "i" [2; 1]; signature_names "o" [1; 0]]
  ∧ signature_names "i" [2; 1] = [["i00"; "i01"]; ["i10"]]
  ∧ signature_names "o" [1; 0] = [["o00"]; []]
  ∧ _parse_gufunc_signature (safe_signature [2; 1] [])
    = Raise (ValueError ("not a valid gufunc signature: " +:+ safe_signature [2; 1] [])).
Proof.
  assert (Hne : [1; 0] ≠ []) by discriminate.
  destruct (parse_safe_signature [2; 1] [1; 0]) as [Hok _].
  destruct (parse_safe_signature [2; 1] []) as [_ Hraise].
  split; [exact Hne|]. split; [vm_compute; reflexivity|].
  split; [exact (Hok Hne)|]. split; [vm_compute; reflexivity|].
  split; [vm_compute; reflexivity|]. exact (Hraise eq_refl).
Defined.


Lemma concat_signature_names (kind : string) (ndims : list nat) :
  concat (signature_names kind ndims)
  = (λ p, kind +:+ str_nat p.1 +:+ str_nat p.2) <$> name_pairs ndims.
Proof.
  unfold signature_names, name_pairs. generalize (enumerate ndims) as l.
  induction l as [|[n ndim] l IH]; [reflexivity|].
  rewrite fmap_cons, concat_cons, bind_cons, fmap_app, IH. f_equal.
  unfold operand_names. rewrite <- list_fmap_compose.
  apply list_fmap_ext. intros j i _. cbn. apply string_app_assoc.
Qed.

Lemma enumerate_lookup {A} (l : list A) (j : nat) (p : nat * A) :
  enumerate l !! j = Some p → p.1 = j ∧ j < length l.
Proof.
  unfold enumerate. intros Hj. apply lookup_zip_with_Some in Hj as (n & a & -> & Hn & Ha).
  apply lookup_seq in Hn as [-> Hlt]. cbn. split; [reflexivity|exact Hlt].
Qed.

Lemma NoDup_fst_enumerate {A} (l : list A) : NoDup ((enumerate l).*1).
Proof.
  unfold enumerate. rewrite fst_zip by (rewrite length_seq; lia). apply NoDup_seq.
Qed.

Lemma name_pairs_elem (ndims : list nat) (n i : nat) :
  (n, i) ∈ name_pairs ndims → n < length ndims.
Proof.
  unfold name_pairs. intros Hin. apply list_elem_of_bind in Hin as ([n' ndim] & Hin & Hp).
  apply list_elem_of_fmap in Hin as (i' & [= -> ->] & _).
  apply list_elem_of_lookup in Hp as [j Hj]. apply enumerate_lookup in Hj as [Hn Hj].
  cbn in Hn. lia.
Qed.

Lemma NoDup_bind_pairs (l : list (nat * nat)) :
  NoDup (l.*1) → NoDup (p ← l; (λ i, (p.1, i)) <$> seq 0 p.2).
Proof.
  induction l as [|[n ndim] l IH]; intros Hnd; [constructor|].
  rewrite fmap_cons in Hnd. apply NoDup_cons in Hnd as [Hnin Hnd].
  rewrite bind_cons. apply NoDup_app. split_and!.
  - apply NoDup_fmap_2; [|apply NoDup_seq]. intros i j [= ->]. reflexivity.
  - intros [a b] Ha Hb. apply list_elem_of_fmap in Ha as (i & [= -> ->] & _).
    apply list_elem_of_bind in Hb as ([n' ndim'] & Hb & Hp).
    apply list_elem_of_fmap in Hb as (i' & [= -> ->] & _).
    apply Hnin. apply list_elem_of_fmap. exists (n', ndim'). split; [reflexivity|exact Hp].
  - apply IH, Hnd.
Qed.

Lemma str_nat_digit (n : nat) :
  n < 10 → str_nat n = String (pretty_N_char (N.of_nat n)) "".
Proof.
  intros Hn. do 10 (destruct n as [|n]; [vm_compute; reflexivity|]). lia.
Qed.

Lemma name_inj (kind : string) (n i n' i' : nat) :
  n < 10 → n' < 10 →
  (kind +:+ str_nat n +:+ str_nat i = kind +:+ str_nat n' +:+ str_nat i')%string →
  (n, i) = (n', i').
Proof.
  intros Hn Hn' Heq. apply string_app_inj_l in Heq.
  rewrite (str_nat_digit n Hn), (str_nat_digit n' Hn') in Heq.
  rewrite !string_app_cons, !string_app_nil_l in Heq.
  injection Heq as Hd Hi.
  assert (Hc : pretty_N_char (N.of_nat n) = pretty_N_char (N.of_nat n')).
  { unfold pretty_N_char in *. destruct (N.of_nat n), (N.of_nat n'); f_equal; congruence. }
  apply pretty_N_char_inj in Hc; [|lia|lia].
  apply (inj pretty) in Hi. f_equal; lia.
Qed.

Lemma signature_names_NoDup (ins outs : list nat) :
  length ins ≤ 10 → length outs ≤ 10 →
  NoDup (concat (signature_names "i" ins) ++ concat (signature_names "o" outs)).
Proof.
  intros Hi Ho. rewrite !concat_signature_names.
  assert (Hside : ∀ kind l, length l ≤ 10 →
            NoDup ((λ p, kind +:+ str_nat p.1 +:+ str_nat p.2) <$> name_pairs l)).
  { intros kind l Hl. apply NoDup_fmap_2_strong.
    - intros [n i] [n' i'] Hp Hp' Heq. cbn in Heq.
      apply name_pairs_elem in Hp, Hp'. apply (name_inj kind); [lia|lia|exact Heq].
    - apply NoDup_bind_pairs, NoDup_fst_enumerate. }
  apply NoDup_app. split_and!; [apply Hside, Hi| |apply Hside, Ho].
  intros x Hx Hx'. apply list_elem_of_fmap in Hx as (p & -> & _).
  apply list_elem_of_fmap in Hx' as (p' & Heq & _). discriminate Heq.
Qed.

(** X13.  With at most ten operands on each side, no two core
    dimensions of a signature built by [safe_signature] share a name, so the
    signature ties no two dimensions together.  The bound matters: the name
    is the operand number followed by the dimension number, without a
    separator, and with twelve inputs dimension 11 of input 1 and dimension 1
    of input 11 are both called [i111]. *)
Theorem safe_signature_names_distinct (ins outs : list nat) :
  (outs ≠ [] → length ins ≤ 10 → length outs ≤ 10 →
   ∃ I O, _parse_gufunc_signature (safe_signature ins outs) = Ok [I; O]
          ∧ NoDup (concat I ++ concat O))
  ∧ ∃ I O, _parse_gufunc_signature (safe_signature colliding_ndims [0]) = Ok [I; O]
           ∧ ¬ NoDup (concat I).
Proof.
  split.
  - intros Hne Hi Ho. eexists _, _. split.
    + rewrite safe_signature_text.
      rewrite parse_signature_text
        by (apply signature_names_are_names; split; [reflexivity|discriminate]).
      destruct (decide _) as [Hnil|_]; [|reflexivity].
      destruct outs; [contradiction|discriminate Hnil].
    + apply signature_names_NoDup; assumption.
  - eexists _, _. split; [vm_compute; reflexivity|].
    intros Hnd. revert Hnd. apply (bool_decide_eq_false_1 (NoDup _)). vm_compute. reflexivity.
Qed.

Lemma safe_signature_names_distinct_witness :
  [1] ≠ [] ∧ length [2; 2] ≤ 10 ∧ length [1] ≤ 10
  ∧ ∃ I O, _parse_gufunc_signature (safe_signature [2; 2] [1]) = Ok [I; O]
           ∧ NoDup (concat I ++ concat O).
Proof.
  assert (Hne : [1] ≠ []) by discriminate.
  assert (Hi : length [2; 2] ≤ 10) by (cbn; lia).
  assert (Ho : length [1] ≤ 10) by (cbn; lia).
  destruct (safe_signature_names_distinct [2; 2] [1]) as [Hok _].
  split; [exact Hne|]. split; [exact Hi|]. split; [exact Ho|]. exact (Hok Hne Hi Ho).
Defined.


Section SpaceRuns.

Variable total : nat.

Lemma star_space_run (k : string → option string) (w rest : string) :
  all_chars is_space w = true → not_headed is_space rest → is_Some (k rest) →
  ∀ n, String.length w ≤ n →
    star (m total Space) k n (w +:+ rest) = k rest.
Proof.
  intros Hw Hrest Hk. induction w as [|c w IH]; intros n Hn.
  - rewrite string_app_nil_l. destruct n as [|n]; [reflexivity|].
    rewrite star_S. destruct rest as [|c rest]; [reflexivity|].
    cbn [m]. cbn in Hrest. rewrite Hrest. reflexivity.
  - cbn [all_chars] in Hw. apply andb_true_iff in Hw as [Hc Hw].
    destruct n as [|n]; [cbn in Hn; lia|]. cbn [String.length] in Hn.
    rewrite string_app_cons, star_S.
    change (m total Space (String c (w +:+ rest)) ?K)
      with (if is_space c then K (w +:+ rest) else None).
    rewrite Hc. destruct (decide _) as [_|Hlen]; [|cbn [String.length] in Hlen; lia].
    rewrite (IH Hw n) by lia. destruct Hk as [x Hx]. rewrite Hx. reflexivity.
Qed.

End SpaceRuns.

Lemma span_spaces (s : string) :
  ∃ x rest, s = (x +:+ rest)%string ∧ all_chars is_space x = true
            ∧ not_headed is_space rest.
Proof.
  induction s as [|c s (x & rest & -> & Hx & Hrest)].
  - exists "", "". split_and!; reflexivity.
  - destruct (is_space c) eqn:Hc.
    + exists (String c x), rest. split_and!; [reflexivity| |exact Hrest].
      cbn. rewrite Hc, Hx. reflexivity.
    + exists "", (String c (x +:+ rest)). split_and!; [reflexivity|reflexivity|exact Hc].
Qed.

Lemma strip_spaces_run (x rest : string) :
  all_chars is_space x = true → strip_spaces (x +:+ rest) = strip_spaces rest.
Proof.
  induction x as [|c x IH]; [reflexivity|]. cbn [all_chars].
  intros Hx. apply andb_true_iff in Hx as [Hc Hx].
  rewrite string_app_cons. cbn [strip_spaces]. rewrite Hc. apply IH, Hx.
Qed.

Lemma strip_spaces_none (s : string) :
  all_chars (λ c, negb (is_space c)) (strip_spaces s) = true.
Proof.
  induction s as [|c s IH]; [reflexivity|]. cbn [strip_spaces].
  destruct (is_space c) eqn:Hc; [exact IH|]. cbn [all_chars]. rewrite Hc, IH. reflexivity.
Qed.

Lemma sub_spaces (s : string) : Re.sub "\s+" "" s = Ok (strip_spaces s).
Proof.
  unfold Re.sub. rewrite compile_spaces. f_equal.
  generalize (String.length s) as total. intros total.
  assert (Hgen : ∀ n s, String.length s ≤ n →
            foldr (λ t acc, match t with
                            | inr _ => ("" +:+ acc)%string
                            | inl c => String c acc
                            end)
                  "" (scan (Seq (Plus Space) Empty) total 0 s)
            = strip_spaces s).
  { clear s. induction n as [|n IH]; intros s Hn.
    - destruct s; [reflexivity|cbn in Hn; lia].
    - destruct s as [|c s]; [reflexivity|]. cbn [String.length] in Hn.
      destruct (is_space c) eqn:Hc.
      + destruct (span_spaces s) as (x & rest & -> & Hx & Hrest).
        change (String c (x +:+ rest)) with (String c x +:+ rest)%string.
        rewrite scan_hit.
        * cbn [foldr]. rewrite string_app_nil_l.
          rewrite IH by (rewrite string_length_app in Hn; lia).
          symmetry. apply strip_spaces_run. cbn. rewrite Hc, Hx. reflexivity.
        * discriminate.
        * unfold match_at. rewrite m_Seq, m_Plus, string_app_cons.
          change (m total Space (String c (x +:+ rest)) ?K)
            with (if is_space c then K (x +:+ rest) else None).
          rewrite Hc.
          rewrite star_space_run;
            [reflexivity|exact Hx|exact Hrest|eexists; reflexivity
            |rewrite string_length_app; lia].
      + rewrite scan_miss.
        * cbn [foldr strip_spaces]. rewrite Hc. f_equal. apply IH. lia.
        * unfold match_at. rewrite m_Seq, m_Plus. cbn [m]. rewrite Hc. reflexivity. }
  apply (Hgen (String.length s)). lia.
Qed.

(** X14.  On ASCII text [_parse_gufunc_signature] ignores blanks: two
    ASCII signatures that are the same text once their ASCII whitespace is
    removed have the same parse, or raise the same error. *)
Theorem parse_gufunc_signature_blanks (a b : string) :
  ascii_text a → ascii_text b →
  strip_spaces a = strip_spaces b →
  _parse_gufunc_signature a = _parse_gufunc_signature b.
Proof.
  intros _ _ Hab. unfold _parse_gufunc_signature. rewrite !sub_spaces, Hab. reflexivity.
Qed.

Lemma parse_gufunc_signature_blanks_witness :
  ascii_text "(m, n), (n,p) -> (m,p)" ∧ ascii_text " (m,n),(n,p)->(m,p)"
  ∧ strip_spaces "(m, n), (n,p) -> (m,p)" = strip_spaces " (m,n),(n,p)->(m,p)"
  ∧ _parse_gufunc_signature "(m, n), (n,p) -> (m,p)"
    = _parse_gufunc_signature " (m,n),(n,p)->(m,p)"
  ∧ _parse_gufunc_signature "(m, n), (n,p) -> (m,p)"
    = Ok [[["m"; "n"]; ["n"; "p"]]; [["m"; "p"]]].
Proof.
  assert (Hs : strip_spaces "(m, n), (n,p) -> (m,p)" = strip_spaces " (m,n),(n,p)->(m,p)")
    by (vm_compute; reflexivity).
  assert (Ha : ascii_text "(m, n), (n,p) -> (m,p)") by (vm_compute; reflexivity).
  assert (Hb : ascii_text " (m,n),(n,p)->(m,p)") by (vm_compute; reflexivity).
  split; [exact Ha|]. split; [exact Hb|].
  split; [exact Hs|]. split; [|vm_compute; reflexivity].
  exact (parse_gufunc_signature_blanks _ _ Ha Hb Hs).
Defined.

(** ** Parsing what was written *)

(** X18.  Parsing is a left inverse of writing a signature down: for
    every list of input arguments and every non-empty list of output
    arguments, each argument a list of names (non-empty texts of word
    characters), the text [args,...->args,...] with each argument written
    [(name,...)] parses to the pair of the two lists.  The list of inputs
    may be empty. *)
Theorem parse_gufunc_signature_round_trip (ins outs : list (list string)) :
  Forall (Forall is_name) ins → Forall (Forall is_name) outs → outs ≠ [] →
  _parse_gufunc_signature (signature_text ins outs) = Ok [ins; outs].
Proof.
  intros Hins Houts Hne. rewrite parse_signature_text by assumption.
  destruct (decide _) as [Hnil|_]; [contradiction|reflexivity].
Qed.

Lemma parse_gufunc_signature_round_trip_witness :
  signature_text [["m"; "n"]; ["n"; "p"]] [["m"; "p"]] = "(m,n),(n,p)->(m,p)"
  ∧ _parse_gufunc_signature "(m,n),(n,p)->(m,p)"
    = Ok [[["m"; "n"]; ["n"; "p"]]; [["m"; "p"]]]
  ∧ _parse_gufunc_signature (signature_text [] [[]]) = Ok [[]; [[]]].
Proof.
  assert (Hins : Forall (Forall is_name) [["m"; "n"]; ["n"; "p"]]).
  { repeat constructor; discriminate. }
  assert (Houts : Forall (Forall is_name) [["m"; "p"]]).
  { repeat constructor; discriminate. }
  assert (Hne : [["m"; "p"]] ≠ ([] : list (list string))) by discriminate.
  assert (Hne' : [[]] ≠ ([] : list (list string))) by discriminate.
  split; [reflexivity|]. split.
  - exact (parse_gufunc_signature_round_trip _ _ Hins Houts Hne).
  - apply (parse_gufunc_signature_round_trip [] [[]]); [constructor| |exact Hne'].
    repeat constructor.
Defined.

(** ** What the parser accepts *)

Lemma star_consumes (P : ascii → bool)
    (body : string → (string → option string) → option string) (k : string → option string) :
  consumes P body →
  ∀ n s out, star body k n s = Some out →
    ∃ a s', s = (a +:+ s')%string ∧ all_chars P a = true ∧ k s' = Some out.
Proof.
  intros Hbody. induction n as [|n IH]; intros s out Hs.
  - exists "", s. split; [reflexivity|]. split; [reflexivity|exact Hs].
  - cbn [star] in Hs.
    destruct (body s _) as [out0|] eqn:Hb.
    + injection Hs as ->. apply Hbody in Hb as (a1 & s1 & -> & Ha1 & Hk).
      destruct (decide _) as [_|_]; [|discriminate].
      apply IH in Hk as (a2 & s2 & -> & Ha2 & Hk).
      exists (a1 +:+ a2)%string, s2. split; [symmetry; apply string_app_assoc|].
      split; [|exact Hk]. rewrite all_chars_app, Ha1, Ha2. reflexivity.
    + exists "", s. split; [reflexivity|]. split; [reflexivity|exact Hs].
Qed.

Lemma m_consumes (total : nat) (P : ascii → bool) (r : regex) :
  chars_in P r → consumes P (m total r).
Proof.
  induction r as [| c | | | | | a IHa b IHb | a IHa | a IHa | a IHa];
    intros Hr s k out Hm; cbn [chars_in] in Hr.
  - exists "", s. split; [reflexivity|]. split; [reflexivity|exact Hm].
  - destruct s as [|c' s']; [discriminate|]. cbn [m] in Hm.
    destruct (decide (c' = c)) as [->|]; [|discriminate].
    exists (String c ""), s'. split; [reflexivity|]. split; [|exact Hm].
    cbn. rewrite Hr. reflexivity.
  - destruct s as [|c' s']; [discriminate|]. cbn [m] in Hm.
    destruct (is_word c') eqn:Hc; [|discriminate].
    exists (String c' ""), s'. split; [reflexivity|]. split; [|exact Hm].
    cbn. rewrite (Hr c' Hc). reflexivity.
  - destruct s as [|c' s']; [discriminate|]. cbn [m] in Hm.
    destruct (is_space c') eqn:Hc; [|discriminate].
    exists (String c' ""), s'. split; [reflexivity|]. split; [|exact Hm].
    cbn. rewrite (Hr c' Hc). reflexivity.
  - cbn [m] in Hm. destruct (decide _); [|discriminate].
    exists "", s. split; [reflexivity|]. split; [reflexivity|exact Hm].
  - cbn [m] in Hm. destruct (decide _); [|discriminate].
    exists "", s. split; [reflexivity|]. split; [reflexivity|exact Hm].
  - destruct Hr as [Hra Hrb]. cbn [m] in Hm.
    apply (IHa Hra) in Hm as (a1 & s1 & -> & Ha1 & Hm).
    apply (IHb Hrb) in Hm as (a2 & s2 & -> & Ha2 & Hk).
    exists (a1 +:+ a2)%string, s2. split; [symmetry; apply string_app_assoc|].
    split; [|exact Hk]. rewrite all_chars_app, Ha1, Ha2. reflexivity.
  - cbn [m] in Hm. eapply star_consumes; [apply IHa, Hr|exact Hm].
  - cbn [m] in Hm.
    apply (IHa Hr) in Hm as (a1 & s1 & -> & Ha1 & Hm).
    apply (star_consumes P _ _ (IHa Hr)) in Hm as (a2 & s2 & -> & Ha2 & Hk).
    exists (a1 +:+ a2)%string, s2. split; [symmetry; apply string_app_assoc|].
    split; [|exact Hk]. rewrite all_chars_app, Ha1, Ha2. reflexivity.
  - cbn [m] in Hm. destruct (m total a s k) as [out0|] eqn:Ha.
    + injection Hm as ->. apply (IHa Hr) in Ha. exact Ha.
    + exists "", s. split; [reflexivity|]. split; [reflexivity|exact Hm].
Qed.

Lemma chars_in_argument (tail : regex) :
  chars_in is_arguments_char tail → chars_in is_arguments_char (argument_re tail).
Proof.
  intros Ht. unfold argument_re, core_re. cbn [chars_in].
  repeat split; try exact Ht; try reflexivity; apply is_word_arguments_char.
Qed.

Lemma chars_in_more_arguments : chars_in is_arguments_char more_arguments_re.
Proof.
  unfold more_arguments_re. cbn [chars_in]. split; [reflexivity|].
  apply chars_in_argument. exact I.
Qed.

(** What the pattern of signatures accepts is two lists of arguments
    with an arrow between them. *)
Lemma signature_match_inv (s out : string) :
  match_at (String.length s) signature_re false s = Some out →
  ∃ a b tail, s = (a +:+ "->" +:+ b +:+ tail)%string
    ∧ all_chars is_arguments_char a = true
    ∧ all_chars is_arguments_char b = true
    ∧ (tail = "" ∨ tail = nl).
Proof.
  unfold match_at, signature_re. set (total := String.length s).
  set (kf := λ rest : string, if false && _ then None else Some rest).
  intros Hm. rewrite m_Seq, m_Bol in Hm. destruct (decide _) as [_|]; [|discriminate].
  rewrite m_Seq in Hm.
  apply (m_consumes total is_arguments_char) in Hm as (a & s1 & Hs & Ha & Hm).
  2:{ cbn [chars_in]. apply chars_in_argument. cbn [chars_in].
      split; [apply chars_in_more_arguments|exact I]. }
  rewrite m_Seq in Hm. destruct s1 as [|c1 s1]; [discriminate|].
  rewrite m_Lit_cons in Hm. destruct (decide (c1 = "-"%char)) as [->|]; [|discriminate].
  rewrite m_Seq in Hm. destruct s1 as [|c2 s2]; [discriminate|].
  rewrite m_Lit_cons in Hm. destruct (decide (c2 = ">"%char)) as [->|]; [|discriminate].
  change (m total (argument_re (Seq more_arguments_re (Seq Eol Empty))) s2 kf)
    with (m total (argument_re more_arguments_re) s2
            (λ s', m total (Seq Eol Empty) s' kf)) in Hm.
  apply (m_consumes total is_arguments_char) in Hm as (b & s3 & -> & Hb & Hm).
  2:{ apply chars_in_argument, chars_in_more_arguments. }
  rewrite m_Seq, m_Eol in Hm. destruct (decide _) as [Htail|]; [|discriminate].
  exists a, b, s3. split; [exact Hs|]. split; [exact Ha|]. split; [exact Hb|exact Htail].
Qed.

Lemma strip_spaces_no_space (s : string) :
  all_chars (λ c, negb (is_space c)) (strip_spaces s) = true.
Proof.
  induction s as [|c s IH]; [reflexivity|]. cbn [strip_spaces].
  destruct (is_space c) eqn:Hc; [exact IH|]. cbn [all_chars]. rewrite Hc, IH. reflexivity.
Qed.

Lemma mapM_result_total {A B} (f : A → result B) (l : list A) :
  (∀ a, ∃ b, f a = Ok b) → ∃ l', mapM f l = Ok l'.
Proof.
  intros Hf. induction l as [|a l [l' IH]]; [exists []; reflexivity|].
  destruct (Hf a) as [b Hb]. exists (b :: l').
  rewrite mapM_result_cons, Hb, bind_Ok, IH, bind_Ok. reflexivity.
Qed.

Lemma findall_total (pattern s : string) :
  is_Some (compile pattern) → ∃ l, Re.findall pattern s = Ok l.
Proof. intros [r Hr]. unfold Re.findall. rewrite Hr. eexists. reflexivity. Qed.

Lemma parse_side_total (arg_list : string) :
  ∃ side,
    (if decide (arg_list ≠ "")
     then args ← Re.findall _ARGUMENT arg_list;
          mapM (λ arg, Re.findall _DIMENSION_NAME arg) args
     else Ok [])
    = Ok side.
Proof.
  destruct (decide _); [|eexists; reflexivity].
  destruct (findall_total _ARGUMENT arg_list) as [args ->].
  { rewrite compile_ARGUMENT. eexists. reflexivity. }
  rewrite bind_Ok. apply mapM_result_total. intros arg.
  apply findall_total. rewrite compile_DIMENSION_NAME. eexists. reflexivity.
Qed.

(** X19.  On an ASCII signature [_parse_gufunc_signature] has two
    outcomes only.  Either the signature without its blanks is one arrow
    [->] between two texts made of ASCII word characters, parentheses and
    commas, and the result is a pair: the inputs' and the outputs' core
    dimensions.  Or the parser raises [ValueError] with a message that
    quotes the signature without its blanks. *)
Theorem parse_gufunc_signature_cases (signature : string) :
  ascii_text signature →
  (∃ a b I O,
     strip_spaces signature = (a +:+ "->" +:+ b)%string
     ∧ all_chars is_arguments_char a = true
     ∧ all_chars is_arguments_char b = true
     ∧ _parse_gufunc_signature signature = Ok [I; O])
  ∨ _parse_gufunc_signature signature
    = Raise (ValueError ("not a valid gufunc signature: " +:+ strip_spaces signature)).
Proof.
  intros _. unfold _parse_gufunc_signature. rewrite sub_spaces, bind_Ok.
  set (s := strip_spaces signature).
  unfold Re.match_. rewrite compile_SIGNATURE, bind_Ok.
  destruct (match_at (String.length s) signature_re false s) as [out|] eqn:Hm.
  - left. rewrite bool_decide_eq_true_2 by (eexists; reflexivity). cbn [negb].
    apply signature_match_inv in Hm as (a & b & tail & Hs & Ha & Hb & Htail).
    assert (Hnil : tail = "").
    { destruct Htail as [->| ->]; [reflexivity|].
      pose proof (strip_spaces_no_space signature) as Hsp. fold s in Hsp.
      rewrite Hs, !all_chars_app in Hsp.
      rewrite !andb_true_iff in Hsp. destruct Hsp as (_ & _ & _ & Hsp).
      vm_compute in Hsp. discriminate Hsp. }
    subst tail. rewrite string_app_nil_r in Hs.
    exists a, b. rewrite Hs.
    rewrite split_arrow
      by (eapply all_chars_impl; [apply arguments_char_not_dash|assumption]).
    destruct (parse_side_total a) as [I HI]. destruct (parse_side_total b) as [O HO].
    exists I, O. split; [reflexivity|]. split; [exact Ha|]. split; [exact Hb|].
    rewrite !mapM_result_cons, HI, bind_Ok, HO, bind_Ok. reflexivity.
  - right. rewrite bool_decide_eq_false_2 by (intros [? ?]; discriminate). reflexivity.
Qed.

Lemma parse_gufunc_signature_cases_witness :
  ascii_text "(m, n) -> (n)" ∧ ascii_text "(m,n)"
  ∧ ((∃ a b I O,
        strip_spaces "(m, n) -> (n)" = (a +:+ "->" +:+ b)%string
        ∧ all_chars is_arguments_char a = true
        ∧ all_chars is_arguments_char b = true
        ∧ _parse_gufunc_signature "(m, n) -> (n)" = Ok [I; O])
     ∨ _parse_gufunc_signature "(m, n) -> (n)"
       = Raise (ValueError ("not a valid gufunc signature: "
                            +:+ strip_spaces "(m, n) -> (n)")))
  ∧ _parse_gufunc_signature "(m, n) -> (n)" = Ok [[["m"; "n"]]; [["n"]]]
  ∧ _parse_gufunc_signature "(m,n)"
    = Raise (ValueError "not a valid gufunc signature: (m,n)").
Proof.
  assert (Ha : ascii_text "(m, n) -> (n)") by (vm_compute; reflexivity).
  assert (Hb : ascii_text "(m,n)") by (vm_compute; reflexivity).
  split; [exact Ha|]. split; [exact Hb|].
  split; [exact (parse_gufunc_signature_cases "(m, n) -> (n)" Ha)|].
  split; vm_compute; reflexivity.
Defined.
